(** * Interval-set abstract interpretation over bit vectors

    A shallow embedding of [xls/ir/interval_ops.cc] (namespace
    [xls::interval_ops]) together with the parts of [Bits], [bits_ops],
    [Interval], [IntervalSet] and [ternary_ops] that it calls, and the
    properties of the transfer functions stated in the specification. *)

From Stdlib Require Import ZArith List Bool Lia Permutation Sorted.
Import ListNotations.
Open Scope Z_scope.

(** ** Bits: a fixed-width unsigned integer *)

(** Modelled from the spec: the class [Bits] (xls/ir/bits.h) is not part of
    the sources at hand.  Section 3.1: an unsigned integer tagged with its
    bit count; every stored bit above the width is zero. *)
Record Bits : Type := mkBits { bit_count : Z; value : Z }.

Definition Bits_eqb (a b : Bits) : bool :=
  (bit_count a =? bit_count b) && (value a =? value b).

(** [Bits(w)]: the all-zero value of width [w]. *)
Definition Bits_zero (w : Z) : Bits := mkBits w 0.

(** [Bits::AllOnes(w)]. *)
Definition AllOnes (w : Z) : Bits := mkBits w (2 ^ w - 1).

(** [UBits(v, w)]. *)
Definition UBits (v w : Z) : Bits := mkBits w (v mod 2 ^ w).

(** [b.Get(i)]: bit [i], counted from the least significant one. *)
Definition Get (b : Bits) (i : Z) : bool := Z.testbit (value b) i.

(** [b.GetFromMsb(i)]. *)
Definition GetFromMsb (b : Bits) (i : Z) : bool :=
  Z.testbit (value b) (bit_count b - 1 - i).

(** [b.Slice(start, width)]. *)
Definition Slice (b : Bits) (start width : Z) : Bits :=
  mkBits width ((value b / 2 ^ start) mod 2 ^ width).

Definition IsOne (b : Bits) : bool := value b =? 1.

Definition has_width (w : Z) (b : Bits) : Prop :=
  bit_count b = w /\ 0 <= value b < 2 ^ w.

(** Modelled from the spec: the namespace [bits_ops] (xls/ir/bits_ops.h) is
    not part of the sources at hand.  Section 3.1: unsigned comparison,
    zero and sign extension, concatenation, wrap-around add, sub and mul;
    section 4.4: division by zero yields the all-ones value. *)
Module bits_ops.

Definition UCmp (l r : Bits) : comparison := value l ?= value r.
Definition ULessThan (l r : Bits) : bool := value l <? value r.
Definition UGreaterThan (l r : Bits) : bool := value r <? value l.
Definition UEqual (l r : Bits) : bool := value l =? value r.

Definition Add (l r : Bits) : Bits :=
  mkBits (bit_count l) ((value l + value r) mod 2 ^ bit_count l).
Definition Sub (l r : Bits) : Bits :=
  mkBits (bit_count l) ((value l - value r) mod 2 ^ bit_count l).
Definition Negate (b : Bits) : Bits :=
  mkBits (bit_count b) ((- value b) mod 2 ^ bit_count b).
(** The product has the width of both operands together: it is exact. *)
Definition UMul (l r : Bits) : Bits :=
  mkBits (bit_count l + bit_count r) (value l * value r).
Definition UDiv (l r : Bits) : Bits :=
  if value r =? 0 then AllOnes (bit_count l)
  else mkBits (bit_count l) (value l / value r).

Definition ZeroExtend (b : Bits) (w : Z) : Bits := mkBits w (value b).
Definition SignExtend (b : Bits) (w : Z) : Bits :=
  if GetFromMsb b 0
  then mkBits w (value b + (2 ^ w - 2 ^ bit_count b))
  else mkBits w (value b).
Definition Truncate (b : Bits) (w : Z) : Bits :=
  mkBits w (value b mod 2 ^ w).

(** [Concat({b1, ..., bn})]: [b1] holds the most significant bits. *)
Definition Concat (bs : list Bits) : Bits :=
  fold_left
    (fun acc b =>
       mkBits (bit_count acc + bit_count b)
              (value acc * 2 ^ bit_count b + value b))
    bs (Bits_zero 0).

(** Parity of the number of set bits, as a one-bit value. *)
Definition XorReduce (b : Bits) : Bits :=
  mkBits 1
    (fold_right
       (fun i acc => if Z.testbit (value b) (Z.of_nat i) then 1 - acc else acc)
       0 (seq 0 (Z.to_nat (bit_count b)))).
Definition AndReduce (b : Bits) : Bits :=
  mkBits 1 (if value b =? 2 ^ bit_count b - 1 then 1 else 0).
Definition OrReduce (b : Bits) : Bits :=
  mkBits 1 (if value b =? 0 then 0 else 1).

(** The bitwise operations, within the width of the operands. *)
Definition Not (b : Bits) : Bits :=
  mkBits (bit_count b) (Z.lxor (value b) (Z.ones (bit_count b))).
Definition And (l r : Bits) : Bits :=
  mkBits (bit_count l) (Z.land (value l) (value r)).
Definition Or (l r : Bits) : Bits :=
  mkBits (bit_count l) (Z.lor (value l) (value r)).
Definition Xor (l r : Bits) : Bits :=
  mkBits (bit_count l) (Z.lxor (value l) (value r)).

(** The value of [b] read as a two's complement number. *)
Definition to_signed (b : Bits) : Z :=
  if GetFromMsb b 0 then value b - 2 ^ bit_count b else value b.
Definition SLessThan (l r : Bits) : bool := to_signed l <? to_signed r.
Definition SGreaterThan (l r : Bits) : bool := to_signed r <? to_signed l.

(** The bits of a value, least significant first, and back. *)
Definition to_bits (w : nat) (v : Z) : list bool :=
  map (fun i => Z.testbit v (Z.of_nat i)) (seq 0 w).
Fixpoint from_bits (l : list bool) : Z :=
  match l with
  | [] => 0
  | b :: l' => Z.b2z b + 2 * from_bits l'
  end.

(** One-hot encoding: walking the bits in the order of priority, a bit of
    the result is set when the bit of the operand is and no bit before it
    was; the extra most significant bit says that no bit is set. *)
Fixpoint one_hot_walk (no_prior : bool) (bits : list bool) : list bool * bool :=
  match bits with
  | [] => ([], no_prior)
  | b :: bits' =>
      let (r, z) := one_hot_walk (no_prior && negb b) bits' in
      (no_prior && b :: r, z)
  end.
Definition OneHotLsbToMsb (b : Bits) : Bits :=
  let (r, z) := one_hot_walk true (to_bits (Z.to_nat (bit_count b)) (value b)) in
  mkBits (bit_count b + 1) (from_bits (r ++ [z])).
Definition OneHotMsbToLsb (b : Bits) : Bits :=
  let (r, z) := one_hot_walk true (rev (to_bits (Z.to_nat (bit_count b)) (value b))) in
  mkBits (bit_count b + 1) (from_bits (rev r ++ [z])).

End bits_ops.

(** ** Interval *)

(** Modelled from the spec: the class [Interval] (xls/ir/interval.h) is not
    part of the sources at hand.  Section 3.2: a pair of equal-width bounds;
    a proper interval ([lo <= hi]) denotes the values between its bounds, an
    improper one ([lo > hi]) the wrap-around set of the values at or above
    [lo] together with those at or below [hi]. *)
Record Interval : Type := mkInterval { LowerBound : Bits; UpperBound : Bits }.

Module Interval.

Definition Closed (lo hi : Bits) : Interval := mkInterval lo hi.
Definition Precise (b : Bits) : Interval := mkInterval b b.
Definition Maximal (w : Z) : Interval := mkInterval (Bits_zero w) (AllOnes w).

Definition BitCount (i : Interval) : Z := bit_count (LowerBound i).

Definition IsImproper (i : Interval) : bool :=
  bits_ops.UGreaterThan (LowerBound i) (UpperBound i).

Definition IsPrecise (i : Interval) : bool :=
  bits_ops.UEqual (LowerBound i) (UpperBound i).

Definition GetPreciseValue (i : Interval) : option Bits :=
  if IsPrecise i then Some (LowerBound i) else None.

Definition Covers (i : Interval) (v : Bits) : bool :=
  if IsImproper i
  then (value (LowerBound i) <=? value v) || (value v <=? value (UpperBound i))
  else (value (LowerBound i) <=? value v) && (value v <=? value (UpperBound i)).

(** No value lies in both (for proper intervals). *)
Definition Disjoint (a b : Interval) : bool :=
  (value (UpperBound a) <? value (LowerBound b))
  || (value (UpperBound b) <? value (LowerBound a)).

(** Lexicographic by lower bound, then upper bound. *)
Definition lt (a b : Interval) : bool :=
  (value (LowerBound a) <? value (LowerBound b))
  || ((value (LowerBound a) =? value (LowerBound b))
      && (value (UpperBound a) <? value (UpperBound b))).
Definition gt (a b : Interval) : bool := lt b a.

Definition ConvexHull (a b : Interval) : Interval :=
  mkInterval
    (if value (LowerBound b) <? value (LowerBound a)
     then LowerBound b else LowerBound a)
    (if value (UpperBound a) <? value (UpperBound b)
     then UpperBound b else UpperBound a).

End Interval.

Definition wf_interval (w : Z) (i : Interval) : Prop :=
  has_width w (LowerBound i) /\ has_width w (UpperBound i).

Definition proper (i : Interval) : Prop :=
  value (LowerBound i) <= value (UpperBound i).

(** ** IntervalSet *)

(** Modelled from the spec: the class [IntervalSet] (xls/ir/interval_set.h)
    is not part of the sources at hand.  Section 3.3: a width-tagged sequence
    of intervals; section 4.1: normalization. *)
Record IntervalSet : Type :=
  mkIntervalSet { BitCount : Z; Intervals : list Interval }.

Module IntervalSet.

Definition Empty (w : Z) : IntervalSet := mkIntervalSet w [].
Definition Precise (b : Bits) : IntervalSet :=
  mkIntervalSet (bit_count b) [Interval.Precise b].
Definition Maximal (w : Z) : IntervalSet :=
  mkIntervalSet w [Interval.Maximal w].
Definition NonZero (w : Z) : IntervalSet :=
  mkIntervalSet w [mkInterval (UBits 1 w) (AllOnes w)].

Definition AddInterval (s : IntervalSet) (i : Interval) : IntervalSet :=
  mkIntervalSet (BitCount s) (Intervals s ++ [i]).
(** [SetIntervals] takes the width from the intervals it is given. *)
Definition SetIntervals (l : list Interval) : IntervalSet :=
  mkIntervalSet
    (match l with [] => -1 | i :: _ => Interval.BitCount i end) l.

Definition NumberOfIntervals (s : IntervalSet) : Z :=
  Z.of_nat (length (Intervals s)).
Definition IsEmpty (s : IntervalSet) : bool :=
  match Intervals s with [] => true | _ => false end.

(** Step 1 of normalization: an improper interval becomes two proper ones. *)
Definition split_improper (w : Z) (i : Interval) : list Interval :=
  if Interval.IsImproper i
  then [mkInterval (LowerBound i) (AllOnes w);
        mkInterval (Bits_zero w) (UpperBound i)]
  else [i].

(** Step 2: sort by lower bound. *)
Fixpoint insert_by_lo (i : Interval) (l : list Interval) : list Interval :=
  match l with
  | [] => [i]
  | j :: l' =>
      if value (LowerBound i) <=? value (LowerBound j)
      then i :: l
      else j :: insert_by_lo i l'
  end.

Definition sort_by_lo (l : list Interval) : list Interval :=
  fold_right insert_by_lo [] l.

(** Step 3: one sweep that merges overlapping or adjacent neighbours. *)
Fixpoint merge_sweep (cur : Interval) (rest : list Interval) : list Interval :=
  match rest with
  | [] => [cur]
  | next :: rest' =>
      if value (LowerBound next) <=? value (UpperBound cur) + 1
      then merge_sweep
             (mkInterval (LowerBound cur)
                (if value (UpperBound cur) <? value (UpperBound next)
                 then UpperBound next else UpperBound cur))
             rest'
      else cur :: merge_sweep next rest'
  end.

Definition normalize_list (w : Z) (l : list Interval) : list Interval :=
  match sort_by_lo (flat_map (split_improper w) l) with
  | [] => []
  | cur :: rest => merge_sweep cur rest
  end.

Definition Normalize (s : IntervalSet) : IntervalSet :=
  mkIntervalSet (BitCount s) (normalize_list (BitCount s) (Intervals s)).

(** Invariants 2 to 4 of section 3.3 on a list of intervals. *)
Fixpoint separated (l : list Interval) : bool :=
  match l with
  | [] => true
  | a :: l' =>
      (value (LowerBound a) <=? value (UpperBound a))
      && match l' with
         | [] => true
         | b :: _ => value (UpperBound a) + 1 <? value (LowerBound b)
         end
      && separated l'
  end.

Definition IsNormalized (s : IntervalSet) : bool := separated (Intervals s).

Definition Covers (s : IntervalSet) (v : Bits) : bool :=
  existsb (fun i => Interval.Covers i v) (Intervals s).
Definition CoversZero (s : IntervalSet) : bool :=
  Covers s (Bits_zero (BitCount s)).
Definition CoversMax (s : IntervalSet) : bool :=
  Covers s (AllOnes (BitCount s)).

(** A single interval that holds a single value. *)
Definition IsPrecise (s : IntervalSet) : bool :=
  match Intervals s with
  | [i] => Interval.IsPrecise i
  | _ => false
  end.
Definition GetPreciseValue (s : IntervalSet) : option Bits :=
  if IsPrecise s
  then match Intervals s with i :: _ => Some (LowerBound i) | [] => None end
  else None.

(** The smallest interval that encloses a normalized set. *)
Definition ConvexHull (s : IntervalSet) : option Interval :=
  match Intervals s with
  | [] => None
  | i :: l => Some (mkInterval (LowerBound i) (UpperBound (last l i)))
  end.

(** Union followed by normalization. *)
Definition Combine (a b : IntervalSet) : IntervalSet :=
  Normalize (mkIntervalSet (BitCount a) (Intervals a ++ Intervals b)).

Definition intersect_interval (a b : Interval) : list Interval :=
  let lo := if value (LowerBound a) <? value (LowerBound b)
            then LowerBound b else LowerBound a in
  let hi := if value (UpperBound a) <? value (UpperBound b)
            then UpperBound a else UpperBound b in
  if value lo <=? value hi then [mkInterval lo hi] else [].

Definition Intersect (a b : IntervalSet) : IntervalSet :=
  Normalize
    (mkIntervalSet (BitCount a)
       (flat_map (fun i => flat_map (intersect_interval i) (Intervals b))
          (Intervals a))).

(** Smallest and largest covered value of a normalized set. *)
Definition LowerBound (s : IntervalSet) : option Bits :=
  option_map LowerBound (ConvexHull s).
Definition UpperBound (s : IntervalSet) : option Bits :=
  option_map UpperBound (ConvexHull s).

Definition Disjoint (a b : IntervalSet) : bool :=
  forallb (fun i => forallb (Interval.Disjoint i) (Intervals b)) (Intervals a).

End IntervalSet.

Definition wf_set (s : IntervalSet) : Prop :=
  0 <= BitCount s /\ Forall (wf_interval (BitCount s)) (Intervals s).

(** ** Ternary vectors *)

Inductive TernaryValue : Type := kKnownZero | kKnownOne | kUnknown.

(** Index 0 is the least significant bit. *)
Definition TernaryVector : Type := list TernaryValue.

(** Modelled from the spec: the namespace [ternary_ops] (xls/ir/ternary.h)
    is not part of the sources at hand.  Section 3.4: [IsKnown],
    [IsFullyKnown], [AllBitsValues] (every concrete filling of the unknown
    bits), [ToKnownBitsValues] (the known values, 0 elsewhere),
    [UpdateWithIntersection] (disagreeing bits become unknown). *)
Module ternary_ops.

Definition IsKnown (t : TernaryValue) : bool :=
  match t with kUnknown => false | _ => true end.
Definition IsUnknown (t : TernaryValue) : bool := negb (IsKnown t).
Definition IsFullyKnown (v : TernaryVector) : bool := forallb IsKnown v.

Fixpoint known_values (v : TernaryVector) : Z :=
  match v with
  | [] => 0
  | t :: v' =>
      (match t with kKnownOne => 1 | _ => 0 end) + 2 * known_values v'
  end.
Definition ToKnownBitsValues (v : TernaryVector) : Bits :=
  mkBits (Z.of_nat (length v)) (known_values v).

Fixpoint known_mask (v : TernaryVector) : Z :=
  match v with
  | [] => 0
  | t :: v' => (if IsKnown t then 1 else 0) + 2 * known_mask v'
  end.
Definition ToKnownBits (v : TernaryVector) : Bits :=
  mkBits (Z.of_nat (length v)) (known_mask v).

Fixpoint all_values (v : TernaryVector) : list Z :=
  match v with
  | [] => [0]
  | t :: v' =>
      match t with
      | kKnownZero => map (fun h => 2 * h) (all_values v')
      | kKnownOne => map (fun h => 2 * h + 1) (all_values v')
      | kUnknown => flat_map (fun h => [2 * h; 2 * h + 1]) (all_values v')
      end
  end.
Definition AllBitsValues (v : TernaryVector) : list Bits :=
  map (mkBits (Z.of_nat (length v))) (all_values v).

Definition intersect_value (a b : TernaryValue) : TernaryValue :=
  match a, b with
  | kKnownZero, kKnownZero => kKnownZero
  | kKnownOne, kKnownOne => kKnownOne
  | _, _ => kUnknown
  end.
Fixpoint UpdateWithIntersection (lhs rhs : TernaryVector) : TernaryVector :=
  match lhs, rhs with
  | a :: lhs', b :: rhs' => intersect_value a b :: UpdateWithIntersection lhs' rhs'
  | _, _ => lhs
  end.

End ternary_ops.

(** Modelled from the spec: the class [TernaryEvaluator]
    (xls/passes/ternary_evaluator.h) is not part of the sources at hand.
    Section 3.4: and, or, xor and not are evaluated bit by bit and an unknown
    operand makes the result unknown; the one-hot encoders are the abstract
    evaluator's, built from these. *)
Module TernaryEvaluator.

Definition Not (a : TernaryValue) : TernaryValue :=
  match a with
  | kKnownZero => kKnownOne
  | kKnownOne => kKnownZero
  | kUnknown => kUnknown
  end.
Definition And (a b : TernaryValue) : TernaryValue :=
  match a, b with
  | kUnknown, _ | _, kUnknown => kUnknown
  | kKnownOne, kKnownOne => kKnownOne
  | _, _ => kKnownZero
  end.
Definition Or (a b : TernaryValue) : TernaryValue :=
  match a, b with
  | kUnknown, _ | _, kUnknown => kUnknown
  | kKnownZero, kKnownZero => kKnownZero
  | _, _ => kKnownOne
  end.
Definition Xor (a b : TernaryValue) : TernaryValue :=
  match a, b with
  | kUnknown, _ | _, kUnknown => kUnknown
  | kKnownZero, kKnownZero | kKnownOne, kKnownOne => kKnownZero
  | _, _ => kKnownOne
  end.

Fixpoint zip_with (f : TernaryValue -> TernaryValue -> TernaryValue)
    (a b : TernaryVector) : TernaryVector :=
  match a, b with
  | x :: a', y :: b' => f x y :: zip_with f a' b'
  | _, _ => []
  end.

Definition BitwiseNot (a : TernaryVector) : TernaryVector := map Not a.
Definition BitwiseAnd : TernaryVector -> TernaryVector -> TernaryVector :=
  zip_with And.
Definition BitwiseOr : TernaryVector -> TernaryVector -> TernaryVector :=
  zip_with Or.
Definition BitwiseXor : TernaryVector -> TernaryVector -> TernaryVector :=
  zip_with Xor.

(** Walks the bits in the given order; [no_prior] says that no bit seen so
    far is set.  The last element says that no bit is set at all. *)
Fixpoint one_hot_walk (no_prior : TernaryValue) (bits : TernaryVector)
    : TernaryVector * TernaryValue :=
  match bits with
  | [] => ([], no_prior)
  | b :: bits' =>
      let (r, z) := one_hot_walk (And no_prior (Not b)) bits' in
      (And no_prior b :: r, z)
  end.

Definition OneHotLsbToMsb (input : TernaryVector) : TernaryVector :=
  let (r, z) := one_hot_walk kKnownOne input in r ++ [z].
Definition OneHotMsbToLsb (input : TernaryVector) : TernaryVector :=
  let (r, z) := one_hot_walk kKnownOne (rev input) in rev r ++ [z].

End TernaryEvaluator.

(** ** interval_ops: the bridge between interval sets and ternary vectors *)

(** Checked preconditions ([CHECK]) stop the process; a function that has
    one returns [None] where it fails. *)
Definition bind {A B : Type} (m : option A) (f : A -> option B) : option B :=
  match m with Some a => f a | None => None end.
Definition check (b : bool) : option unit := if b then Some tt else None.

Notation "x <- m ;; k" := (bind m (fun x => k))
  (at level 61, m at next level, right associativity).
Notation "'CHECK' b ;; k" := (bind (check b) (fun _ => k))
  (at level 61, b at next level, right associativity).

(** Number of leading (most significant) bits on which [a] and [b] agree,
    among the low [w] bits. *)
Fixpoint common_prefix_length (w : nat) (a b : Z) : nat :=
  match w with
  | O => O
  | S w' =>
      if Bool.eqb (Z.testbit a (Z.of_nat w')) (Z.testbit b (Z.of_nat w'))
      then S (common_prefix_length w' a b)
      else O
  end.

(** Modelled from the spec: [bits_ops::LongestCommonPrefixMSB] is not part of
    the sources at hand.  Section 4.2: the longest common most-significant
    prefix of the two bounds. *)
Definition LongestCommonPrefixMSB (a b : Bits) : Bits :=
  let n := Z.of_nat (common_prefix_length (Z.to_nat (bit_count a)) (value a) (value b)) in
  Slice a (bit_count a - n) n.

Definition ExtractTernaryInterval (interval : Interval) : TernaryVector :=
  let lcp := LongestCommonPrefixMSB (LowerBound interval) (UpperBound interval) in
  let size := Interval.BitCount interval in
  repeat kUnknown (Z.to_nat (size - bit_count lcp))
  ++ map (fun j => if Get lcp (Z.of_nat j) then kKnownOne else kKnownZero)
       (seq 0 (Z.to_nat (bit_count lcp))).

Definition ExtractTernaryVector (intervals : IntervalSet) : option TernaryVector :=
  CHECK (IntervalSet.IsNormalized intervals) ;;
  CHECK (negb (IntervalSet.IsEmpty intervals)) ;;
  match Intervals intervals with
  | [] => None
  | front :: rest =>
      Some (fold_left
              (fun result i =>
                 ternary_ops.UpdateWithIntersection result (ExtractTernaryInterval i))
              rest (ExtractTernaryInterval front))
  end.

(** The known bits of a set: the mask of the positions that are known and
    the values at these positions (the struct [KnownBits] of the header). *)
Record KnownBits : Type := mkKnownBits { known_bits : Bits; known_bit_values : Bits }.

Definition ExtractKnownBits (intervals : IntervalSet) : option KnownBits :=
  result <- ExtractTernaryVector intervals ;;
  Some (mkKnownBits (ternary_ops.ToKnownBits result)
                    (ternary_ops.ToKnownBitsValues result)).

(** The loop over [tern] from [lsb_xs] on: [pos] is the position of the head
    of [t]; [x_locations] is the deque. *)
Fixpoint collect_x_locations (max_interval_bits : Z) (pos : nat)
    (t : TernaryVector) (x_locations : list nat) : list nat :=
  match t with
  | [] => x_locations
  | b :: t' =>
      collect_x_locations max_interval_bits (S pos) t'
        (if ternary_ops.IsUnknown b
         then
           let pushed := x_locations ++ [pos] in
           if Z.of_nat (length pushed) >? max_interval_bits + 1
           then tl pushed else pushed
         else x_locations)
  end.

(** Position of the first known bit ([tern.size()] when there is none). *)
Fixpoint find_known (t : TernaryVector) : nat :=
  match t with
  | [] => O
  | b :: t' => if ternary_ops.IsKnown b then O else S (find_known t')
  end.

Definition FromTernary (tern : TernaryVector) (max_interval_bits : Z)
    : option IntervalSet :=
  CHECK (0 <=? max_interval_bits) ;;
  if ternary_ops.IsFullyKnown tern
  then Some (IntervalSet.Precise (ternary_ops.ToKnownBitsValues tern))
  else
    let lsb_xs := find_known tern in
    let x_locations :=
      collect_x_locations max_interval_bits lsb_xs (skipn lsb_xs tern) [] in
    let '(lsb_xs, x_locations) :=
      if Z.of_nat (length x_locations) >? max_interval_bits
      then (S (hd O x_locations), tl x_locations)
      else (lsb_xs, x_locations) in
    let is_ := IntervalSet.Empty (Z.of_nat (length tern)) in
    match x_locations with
    | [] =>
        let high_bits := ternary_ops.ToKnownBitsValues (skipn lsb_xs tern) in
        Some (IntervalSet.Normalize
                (IntervalSet.AddInterval is_
                   (Interval.Closed
                      (bits_ops.Concat [high_bits; Bits_zero (Z.of_nat lsb_xs)])
                      (bits_ops.Concat [high_bits; AllOnes (Z.of_nat lsb_xs)]))))
    | _ =>
        let vec := skipn lsb_xs tern in
        let high_lsb := AllOnes (Z.of_nat lsb_xs) in
        let low_lsb := Bits_zero (Z.of_nat lsb_xs) in
        Some (IntervalSet.Normalize
                (fold_left
                   (fun acc v =>
                      IntervalSet.AddInterval acc
                        (Interval.Closed (bits_ops.Concat [v; low_lsb])
                                         (bits_ops.Concat [v; high_lsb])))
                   (ternary_ops.AllBitsValues vec) is_))
    end.

Inductive Tonicity : Type := Monotone | Antitone.

(** Modelled from the spec: [enum class LsbOrMsb] (xls/ir/lsb_or_msb.h) is
    not part of the sources at hand; section 4.9 names its two sides. *)
Inductive LsbOrMsb : Type := kLsb | kMsb.

Definition OneBitRangeToTernary (is_ : IntervalSet) : option TernaryValue :=
  CHECK (BitCount is_ =? 1) ;;
  if IntervalSet.IsPrecise is_
  then Some (if IntervalSet.CoversZero is_ then kKnownZero else kKnownOne)
  else Some kUnknown.

Definition TernaryToOneBitRange (v : TernaryValue) : IntervalSet :=
  match v with
  | kKnownZero => IntervalSet.Precise (UBits 0 1)
  | kKnownOne => IntervalSet.Precise (UBits 1 1)
  | kUnknown => IntervalSet.Maximal 1
  end.

Record OverflowResult : Type := mkOverflowResult {
  result : Bits;
  first_overflow_bit : bool;
  second_overflow_bit : bool
}.

(** A calculation that cannot overflow. *)
Definition no_overflow (b : Bits) : OverflowResult := mkOverflowResult b false false.

(** ** MinimizeIntervals *)

(** A node of the intrusive list.  A pointer to a node is its address in the
    store: [first] lives at address 0, the node made for the [k]-th further
    interval at address [k]; [None] is the null pointer. *)
Record MergeInterval : Type := mkMergeInterval {
  final_interval : Interval;
  gap_with_previous : Bits;
  prev : option nat;
  next : option nat
}.

(** [operator<=>]: by gap, then by lower bound. *)
Definition MergeInterval_compare (l r : MergeInterval) : comparison :=
  match bits_ops.UCmp (gap_with_previous l) (gap_with_previous r) with
  | Eq => bits_ops.UCmp (LowerBound (final_interval l)) (LowerBound (final_interval r))
  | c => c
  end.

Definition store : Type := nat -> MergeInterval.

Definition store_set (mem : store) (p : nat) (v : MergeInterval) : store :=
  fun q => if Nat.eqb q p then v else mem q.

Definition set_final_interval (n : MergeInterval) (i : Interval) : MergeInterval :=
  mkMergeInterval i (gap_with_previous n) (prev n) (next n).
Definition set_prev (n : MergeInterval) (p : option nat) : MergeInterval :=
  mkMergeInterval (final_interval n) (gap_with_previous n) p (next n).
Definition set_next (n : MergeInterval) (p : option nat) : MergeInterval :=
  mkMergeInterval (final_interval n) (gap_with_previous n) (prev n) p.

Definition first_ptr : nat := O.

(** The loop that fills [merge_list]: [before] is [*(it - 1)] and [its] holds
    [*it] and what follows it. *)
Fixpoint build_merge_list (mem : store) (merge_list : list nat)
    (before : Interval) (its : list Interval) : store * list nat :=
  match its with
  | [] => (mem, merge_list)
  | it :: its' =>
      let prev_ptr := last merge_list first_ptr in
      let distance := bits_ops.Sub (LowerBound it) (UpperBound before) in
      let node := S (length merge_list) in
      let mem := store_set mem node
                   (mkMergeInterval it distance (Some prev_ptr) None) in
      let mem := store_set mem prev_ptr (set_next (mem prev_ptr) (Some node)) in
      build_merge_list mem (merge_list ++ [node]) it its'
  end.

(** The least node of [best :: l] by [operator<=>]; the first one of several
    equal ones. *)
Fixpoint min_element (mem : store) (best : nat) (l : list nat) : nat :=
  match l with
  | [] => best
  | p :: l' =>
      min_element mem
        (match MergeInterval_compare (mem p) (mem best) with
         | Lt => p
         | _ => best
         end) l'
  end.

Fixpoint remove_ptr (p : nat) (l : list nat) : list nat :=
  match l with
  | [] => []
  | q :: l' => if Nat.eqb q p then l' else q :: remove_ptr p l'
  end.

(** [pop_min_element]: the heap gives up its least node.  Where the heap
    keeps the other nodes in its array is left to the library; here they stay
    in the order they were made, and the result is normalized at the end. *)
Definition pop_min_element (mem : store) (merge_list : list nat)
    : option (nat * list nat) :=
  match merge_list with
  | [] => None
  | p :: l =>
      let minimum := min_element mem p l in
      Some (minimum, remove_ptr minimum merge_list)
  end.

(** The body of the loop once the least node is known: [p] is
    [min_interval->prev].  The previous interval is extended and the node is
    unlinked. *)
Definition merge_into_previous (mem : store) (min_interval p : nat) : store :=
  let mem :=
    store_set mem p
      (set_final_interval (mem p)
         (mkInterval (LowerBound (final_interval (mem p)))
                     (UpperBound (final_interval (mem min_interval))))) in
  let mem := store_set mem p (set_next (mem p) (next (mem min_interval))) in
  match next (mem min_interval) with
  | Some n => store_set mem n (set_prev (mem n) (prev (mem min_interval)))
  | None => mem
  end.

(** The loop [while (merge_list.size() > size - 1)]; the right-hand side is
    converted to the unsigned 64-bit type of the left-hand side.  Every pass
    takes a node off the list, so its length is fuel enough. *)
Fixpoint merge_loop (fuel : nat) (size : Z) (mem : store) (merge_list : list nat)
    : store * list nat :=
  match fuel with
  | O => (mem, merge_list)
  | S fuel' =>
      if Z.of_nat (length merge_list) >? (size - 1) mod 2 ^ 64
      then
        match pop_min_element mem merge_list with
        | None => (mem, merge_list)
        | Some (min_interval, merge_list') =>
            match prev (mem min_interval) with
            | None => (mem, merge_list')
            | Some p =>
                merge_loop fuel' size (merge_into_previous mem min_interval p)
                  merge_list'
            end
        end
      else (mem, merge_list)
  end.

Definition MinimizeIntervals (interval_set : IntervalSet) (size : Z) : IntervalSet :=
  let interval_set := IntervalSet.Normalize interval_set in
  if IntervalSet.NumberOfIntervals interval_set <=? size
  then interval_set
  else if size =? 1
  then
    match IntervalSet.ConvexHull interval_set with
    | Some hull =>
        IntervalSet.Normalize
          (IntervalSet.AddInterval (IntervalSet.Empty (BitCount interval_set)) hull)
    | None => interval_set
    end
  else
    match Intervals interval_set with
    | [] => interval_set
    | front :: rest =>
        let first := mkMergeInterval front (Bits_zero 0) None None in
        let '(mem, merge_list) := build_merge_list (fun _ => first) [] front rest in
        let '(mem, merge_list) := merge_loop (length merge_list) size mem merge_list in
        IntervalSet.Normalize
          (IntervalSet.SetIntervals
             (final_interval (mem first_ptr)
              :: map (fun p => final_interval (mem p)) merge_list))
    end.

(** ** The variadic harness *)

(** Modelled from the spec: [MixedRadixIterate] is not part of the sources at
    hand.  Section 4.4, step 2, and the design notes: every choice of one
    index below each radix is visited, the first digit running fastest, until
    the callback returns true. *)
Fixpoint mixed_radix_numbers (radix : list Z) : list (list nat) :=
  match radix with
  | [] => [[]]
  | r :: radix' =>
      flat_map (fun number => map (fun d => d :: number) (seq 0 (Z.to_nat r)))
        (mixed_radix_numbers radix')
  end.

Fixpoint iterate_until {S : Type} (f : list nat -> S -> S * bool)
    (numbers : list (list nat)) (st : S) : S :=
  match numbers with
  | [] => st
  | number :: numbers' =>
      let (st', stop) := f number st in
      if stop then st' else iterate_until f numbers' st'
  end.

Definition MixedRadixIterate {S : Type} (radix : list Z)
    (f : list nat -> S -> S * bool) (st : S) : S :=
  iterate_until f (mixed_radix_numbers radix) st.

Definition default_interval : Interval := mkInterval (Bits_zero 0) (Bits_zero 0).

(** The inner loop of the callback: the corner operands for one choice of
    intervals. *)
Fixpoint corner_bounds (tonicities : list Tonicity) (operands : list IntervalSet)
    (indexes : list nat) : list Bits * list Bits :=
  match tonicities, operands, indexes with
  | tone :: tonicities', operand :: operands', index :: indexes' =>
      let interval := nth index (Intervals operand) default_interval in
      let (lower_bounds, upper_bounds) := corner_bounds tonicities' operands' indexes' in
      match tone with
      | Monotone => (LowerBound interval :: lower_bounds, UpperBound interval :: upper_bounds)
      | Antitone => (UpperBound interval :: lower_bounds, LowerBound interval :: upper_bounds)
      end
  | _, _, _ => ([], [])
  end.

(** What the callback does with the two corner results. *)
Definition add_corner_results (result_bit_size : Z) (lower upper : OverflowResult)
    (result_intervals : IntervalSet) : IntervalSet * bool :=
  if negb (first_overflow_bit lower) && negb (first_overflow_bit upper)
  then (IntervalSet.AddInterval result_intervals
          (mkInterval (result lower) (result upper)), false)
  else if (first_overflow_bit lower && first_overflow_bit upper)
          || second_overflow_bit lower || second_overflow_bit upper
          || bits_ops.UGreaterThan (result upper) (result lower)
  then (IntervalSet.AddInterval result_intervals (Interval.Maximal result_bit_size), true)
  else (IntervalSet.AddInterval
          (IntervalSet.AddInterval result_intervals
             (mkInterval (result lower) (AllOnes result_bit_size)))
          (mkInterval (Bits_zero result_bit_size) (result upper)), false).

Fixpoint minimize_operands (i : Z) (input_operands : list IntervalSet)
    : list IntervalSet :=
  match input_operands with
  | [] => []
  | interval_set :: rest =>
      MinimizeIntervals interval_set (if i <? 12 then 5 else 1)
      :: minimize_operands (i + 1) rest
  end.

(** The check that there is one tonicity per operand holds at every call in
    this file. *)
Definition PerformVariadicOp (calc : list Bits -> OverflowResult)
    (tonicities : list Tonicity) (input_operands : list IntervalSet)
    (result_bit_size : Z) : IntervalSet :=
  let operands := minimize_operands 0 input_operands in
  let radix := map IntervalSet.NumberOfIntervals operands in
  let result_intervals :=
    MixedRadixIterate radix
      (fun indexes result_intervals =>
         let (lower_bounds, upper_bounds) := corner_bounds tonicities operands indexes in
         add_corner_results result_bit_size (calc lower_bounds) (calc upper_bounds)
           result_intervals)
      (IntervalSet.Empty result_bit_size) in
  MinimizeIntervals (IntervalSet.Normalize result_intervals) 16.

(** The harness hands the calculation one bound per operand, so the size
    checks of the two wrappers below cannot fail; the last case is not
    reached. *)
Definition PerformBinOp (calc : Bits -> Bits -> OverflowResult)
    (lhs : IntervalSet) (lhs_tone : Tonicity) (rhs : IntervalSet)
    (rhs_tone : Tonicity) (result_bit_size : Z) : IntervalSet :=
  PerformVariadicOp
    (fun bits =>
       match bits with
       | [l; r] => calc l r
       | _ => no_overflow (Bits_zero result_bit_size)
       end)
    [lhs_tone; rhs_tone] [lhs; rhs] result_bit_size.

Definition PerformUnaryOp (calc : Bits -> OverflowResult)
    (arg : IntervalSet) (tone : Tonicity) (result_bit_size : Z) : IntervalSet :=
  PerformVariadicOp
    (fun bits =>
       match bits with
       | [b] => calc b
       | _ => no_overflow (Bits_zero result_bit_size)
       end)
    [tone] [arg] result_bit_size.

(** ** Transfer functions *)

Definition Add_calc (lhs rhs : Bits) : OverflowResult :=
  let padded_size := Z.max (bit_count lhs) (bit_count rhs) + 1 in
  let padded_lhs := bits_ops.ZeroExtend lhs padded_size in
  let padded_rhs := bits_ops.ZeroExtend rhs padded_size in
  let padded_result := bits_ops.Add padded_lhs padded_rhs in
  let overflow := GetFromMsb padded_result 0 in
  mkOverflowResult (bits_ops.Truncate padded_result (padded_size - 1)) overflow false.

Definition Add (a b : IntervalSet) : IntervalSet :=
  PerformBinOp Add_calc a Monotone b Monotone (BitCount a).

Definition Sub_calc (lhs rhs : Bits) : OverflowResult :=
  mkOverflowResult (bits_ops.Sub lhs rhs) (bits_ops.ULessThan lhs rhs) false.

Definition Sub (a b : IntervalSet) : IntervalSet :=
  PerformBinOp Sub_calc a Monotone b Antitone (BitCount a).

Definition Neg (a : IntervalSet) : IntervalSet :=
  PerformUnaryOp (fun b => no_overflow (bits_ops.Negate b)) a Antitone (BitCount a).

(** Modelled from the spec: [Bits::CountLeadingZeros] is not part of the
    sources at hand; the number of zero bits above the highest set bit. *)
Definition CountLeadingZeros (b : Bits) : Z :=
  bit_count b - (if value b =? 0 then 0 else Z.log2 (value b) + 1).

(** [Bits::FromBitmap(bitmap.WithSize(w, false))]: cut or pad with zeros. *)
Definition WithSize (b : Bits) (w : Z) : Bits := mkBits w (value b mod 2 ^ w).

Definition UMul_calc (output_bitwidth : Z) (lhs rhs : Bits) : OverflowResult :=
  let result := bits_ops.UMul lhs rhs in
  let msb_set_bit := bit_count result - CountLeadingZeros result - 1 in
  mkOverflowResult (WithSize result output_bitwidth)
    (output_bitwidth <=? msb_set_bit)
    (output_bitwidth + 1 <=? msb_set_bit).

Definition UMul (a b : IntervalSet) (output_bitwidth : Z) : IntervalSet :=
  PerformBinOp (UMul_calc output_bitwidth) a Monotone b Monotone output_bitwidth.

Definition UDiv (a b : IntervalSet) : IntervalSet :=
  if negb (IntervalSet.CoversZero b)
  then PerformBinOp (fun l r => no_overflow (bits_ops.UDiv l r))
         a Monotone b Antitone (BitCount a)
  else
    let nonzero_divisor := IntervalSet.Intersect b (IntervalSet.NonZero (BitCount b)) in
    let results := IntervalSet.Empty (BitCount a) in
    let results :=
      if negb (IntervalSet.IsEmpty nonzero_divisor)
      then PerformBinOp (fun l r => no_overflow (bits_ops.UDiv l r))
             a Monotone nonzero_divisor Antitone (BitCount a)
      else results in
    IntervalSet.Normalize
      (IntervalSet.AddInterval results (Interval.Precise (AllOnes (BitCount a)))).

Definition SignExtend (a : IntervalSet) (width : Z) : IntervalSet :=
  PerformUnaryOp (fun b => no_overflow (bits_ops.SignExtend b width)) a Monotone width.

Definition ZeroExtend (a : IntervalSet) (width : Z) : IntervalSet :=
  PerformUnaryOp (fun b => no_overflow (bits_ops.ZeroExtend b width)) a Monotone width.

(** The loop of [Truncate], which leaves the function at the first interval
    wider than the output space. *)
Fixpoint Truncate_loop (width : Z) (output_space : Bits) (intervals : list Interval)
    (result : IntervalSet) : IntervalSet :=
  match intervals with
  | [] => IntervalSet.Normalize result
  | i :: intervals' =>
      if bits_ops.UGreaterThan (bits_ops.Sub (UpperBound i) (LowerBound i)) output_space
      then IntervalSet.Maximal width
      else
        let low := Slice (LowerBound i) 0 width in
        let high := Slice (UpperBound i) 0 width in
        Truncate_loop width output_space intervals'
          (IntervalSet.AddInterval result (mkInterval low high))
  end.

Definition Truncate (a : IntervalSet) (width : Z) : IntervalSet :=
  Truncate_loop width (AllOnes width) (Intervals a) (IntervalSet.Empty width).

Definition Concat (sets : list IntervalSet) : IntervalSet :=
  PerformVariadicOp (fun bits => no_overflow (bits_ops.Concat bits))
    (repeat Monotone (length sets)) sets
    (fold_left (fun v is_ => v + BitCount is_) sets 0).

(** The bitwise operations call [FromTernary] with the default budget of its
    declaration, which is not part of the sources at hand: it is the last
    argument here. *)
Definition Not (a : IntervalSet) (max_interval_bits : Z) : option IntervalSet :=
  if BitCount a =? 1
  then
    t <- OneBitRangeToTernary a ;;
    Some (TernaryToOneBitRange (TernaryEvaluator.Not t))
  else
    vec <- ExtractTernaryVector a ;;
    FromTernary (TernaryEvaluator.BitwiseNot vec) max_interval_bits.

Definition bitwise_binary (f : TernaryValue -> TernaryValue -> TernaryValue)
    (g : TernaryVector -> TernaryVector -> TernaryVector)
    (a b : IntervalSet) (max_interval_bits : Z) : option IntervalSet :=
  CHECK (BitCount a =? BitCount b) ;;
  if BitCount a =? 1
  then
    ta <- OneBitRangeToTernary a ;;
    tb <- OneBitRangeToTernary b ;;
    Some (TernaryToOneBitRange (f ta tb))
  else
    va <- ExtractTernaryVector a ;;
    vb <- ExtractTernaryVector b ;;
    FromTernary (g va vb) max_interval_bits.

Definition And : IntervalSet -> IntervalSet -> Z -> option IntervalSet :=
  bitwise_binary TernaryEvaluator.And TernaryEvaluator.BitwiseAnd.
Definition Or : IntervalSet -> IntervalSet -> Z -> option IntervalSet :=
  bitwise_binary TernaryEvaluator.Or TernaryEvaluator.BitwiseOr.
Definition Xor : IntervalSet -> IntervalSet -> Z -> option IntervalSet :=
  bitwise_binary TernaryEvaluator.Xor TernaryEvaluator.BitwiseXor.

Definition AndReduce (a : IntervalSet) : IntervalSet :=
  if negb (IntervalSet.CoversMax a) then TernaryToOneBitRange kKnownZero
  else if IntervalSet.IsPrecise a then TernaryToOneBitRange kKnownOne
  else TernaryToOneBitRange kUnknown.

Definition OrReduce (a : IntervalSet) : IntervalSet :=
  if negb (IntervalSet.CoversZero a) then TernaryToOneBitRange kKnownOne
  else if IntervalSet.IsPrecise a then TernaryToOneBitRange kKnownZero
  else TernaryToOneBitRange kUnknown.

Definition XorReduce (a : IntervalSet) : IntervalSet :=
  match Intervals a with
  | [] => TernaryToOneBitRange kUnknown
  | front :: rest =>
      if negb (Interval.IsPrecise front) then TernaryToOneBitRange kUnknown
      else
        let output := bits_ops.XorReduce (LowerBound front) in
        if forallb
             (fun interval =>
                Interval.IsPrecise interval
                && Bits_eqb (bits_ops.XorReduce (LowerBound interval)) output)
             rest
        then TernaryToOneBitRange (if IsOne output then kKnownOne else kKnownZero)
        else TernaryToOneBitRange kUnknown
  end.

Definition Eq (a b : IntervalSet) : IntervalSet :=
  if IntervalSet.IsPrecise a && IntervalSet.IsPrecise b
  then
    match IntervalSet.GetPreciseValue a, IntervalSet.GetPreciseValue b with
    | Some x, Some y =>
        TernaryToOneBitRange (if bits_ops.UEqual x y then kKnownOne else kKnownZero)
    | _, _ => TernaryToOneBitRange kUnknown
    end
  else
    TernaryToOneBitRange (if IntervalSet.Disjoint a b then kKnownZero else kUnknown).

Definition Ne (a b : IntervalSet) (max_interval_bits : Z) : option IntervalSet :=
  Not (Eq a b) max_interval_bits.

(** [*a.ConvexHull()] has no value to give for an empty set. *)
Definition ULt (a b : IntervalSet) : option IntervalSet :=
  lhs_hull <- IntervalSet.ConvexHull a ;;
  rhs_hull <- IntervalSet.ConvexHull b ;;
  if Interval.Disjoint lhs_hull rhs_hull
  then Some (TernaryToOneBitRange
               (if Interval.lt lhs_hull rhs_hull then kKnownOne else kKnownZero))
  else Some (TernaryToOneBitRange kUnknown).

Definition UGt (a b : IntervalSet) : option IntervalSet :=
  lhs_hull <- IntervalSet.ConvexHull a ;;
  rhs_hull <- IntervalSet.ConvexHull b ;;
  if Interval.Disjoint lhs_hull rhs_hull
  then Some (TernaryToOneBitRange
               (if Interval.gt lhs_hull rhs_hull then kKnownOne else kKnownZero))
  else Some (TernaryToOneBitRange kUnknown).

Definition is_all_negative (v : IntervalSet) : option bool :=
  lo <- IntervalSet.LowerBound v ;;
  if GetFromMsb lo 0
  then hi <- IntervalSet.UpperBound v ;; Some (GetFromMsb hi 0)
  else Some false.

Definition is_all_positive (v : IntervalSet) : option bool :=
  lo <- IntervalSet.LowerBound v ;;
  if negb (GetFromMsb lo 0)
  then hi <- IntervalSet.UpperBound v ;; Some (negb (GetFromMsb hi 0))
  else Some false.

(** [x && y] and [x || y] over conditions that may fail. *)
Definition and_then (x y : option bool) : option bool :=
  b <- x ;; if b then y else Some false.
Definition or_else (x y : option bool) : option bool :=
  b <- x ;; if b then Some true else y.

Definition same_sign_class (a b : IntervalSet) : option bool :=
  or_else (and_then (is_all_positive a) (is_all_positive b))
          (and_then (is_all_negative a) (is_all_negative b)).

Definition signed_offset (a : IntervalSet) : IntervalSet :=
  IntervalSet.Precise (bits_ops.Concat [UBits 1 1; Bits_zero (BitCount a - 1)]).

Definition SLt (a b : IntervalSet) : option IntervalSet :=
  CHECK (IntervalSet.IsNormalized a) ;;
  CHECK (IntervalSet.IsNormalized b) ;;
  same <- same_sign_class a b ;;
  if same then ULt a b
  else
    let offset := signed_offset a in
    ULt (Add a offset) (Add b offset).

Definition SGt (a b : IntervalSet) : option IntervalSet :=
  CHECK (IntervalSet.IsNormalized a) ;;
  CHECK (IntervalSet.IsNormalized b) ;;
  same <- same_sign_class a b ;;
  if same then UGt a b
  else
    let offset := signed_offset a in
    UGt (Add a offset) (Add b offset).

Definition Gate (cond val : IntervalSet) : IntervalSet :=
  if IntervalSet.IsPrecise cond
  then
    if IntervalSet.CoversZero cond
    then IntervalSet.Precise (Bits_zero (BitCount val))
    else val
  else if IntervalSet.CoversZero cond
  then IntervalSet.Combine val (IntervalSet.Precise (Bits_zero (BitCount val)))
  else val.

Definition OneHot (val : IntervalSet) (lsb_or_msb : LsbOrMsb) (max_interval_bits : Z)
    : option IntervalSet :=
  src <- ExtractTernaryVector val ;;
  let res :=
    match lsb_or_msb with
    | kLsb => TernaryEvaluator.OneHotLsbToMsb src
    | kMsb => TernaryEvaluator.OneHotMsbToLsb src
    end in
  FromTernary res max_interval_bits.

(** ** Notions used to state the properties *)

(** The value set of a list of intervals. *)
Definition covers_list (l : list Interval) (v : Bits) : bool :=
  existsb (fun i => Interval.Covers i v) l.

(** Ordered by lower bound. *)
Definition lo_le (a b : Interval) : Prop :=
  value (LowerBound a) <= value (LowerBound b).

(** A concrete bit agrees with a ternary value. *)
Definition agrees (t : TernaryValue) (b : bool) : bool :=
  match t with
  | kKnownZero => negb b
  | kKnownOne => b
  | kUnknown => true
  end.

(** [v] agrees with every known bit of [t]: it is one of the fillings of the
    unknown bits of [t]. *)
Definition consistent (t : TernaryVector) (v : Bits) : bool :=
  forallb (fun i => agrees (nth i t kUnknown) (Get v (Z.of_nat i)))
    (seq 0 (length t)).

(** The same, bit by bit from the least significant one. *)
Fixpoint consistent_from (t : TernaryVector) (z : Z) : Prop :=
  match t with
  | [] => True
  | x :: t' => agrees x (Z.odd z) = true /\ consistent_from t' (Z.div2 z)
  end.

Definition count_unknown (t : TernaryVector) : nat :=
  length (filter ternary_ops.IsUnknown t).

(** Positions of the unknown bits of [t], whose head is at position [pos]. *)
Fixpoint unknown_positions (pos : nat) (t : TernaryVector) : list nat :=
  match t with
  | [] => []
  | b :: t' =>
      if ternary_ops.IsUnknown b
      then pos :: unknown_positions (S pos) t'
      else unknown_positions (S pos) t'
  end.

(** The last [k] elements of a list. *)
Definition lastn {A : Type} (k : nat) (l : list A) : list A :=
  skipn (length l - k) l.

(** The interval of the values whose bits from position [lsb_xs] up are [v]. *)
Definition block (lsb_xs : nat) (v : Bits) : Interval :=
  Interval.Closed (bits_ops.Concat [v; Bits_zero (Z.of_nat lsb_xs)])
                  (bits_ops.Concat [v; AllOnes (Z.of_nat lsb_xs)]).

(** ** The reference greedy minimization of section 4.3

    Every gap between two consecutive intervals is a merge candidate; its
    distance is [next.lo - prev.hi].  The candidate of least distance is
    merged first, the earliest one among those of equal distance, until [k]
    intervals are left. *)

(** Merges the intervals at positions [i - 1] and [i]. *)
Fixpoint merge_at (i : nat) (l : list Interval) : list Interval :=
  match l with
  | a :: (b :: l') as tl =>
      match i with
      | O => l
      | S O => mkInterval (LowerBound a) (UpperBound b) :: l'
      | S i' => a :: merge_at i' tl
      end
  | _ => l
  end.

(** Scans the gaps from left to right; [best_pos] is the position of the
    least distance [best] met so far, which a later gap replaces only when
    its distance is smaller. *)
Fixpoint smallest_gap_from (before : Interval) (l : list Interval)
    (pos best_pos : nat) (best : Z) : nat :=
  match l with
  | [] => best_pos
  | cur :: l' =>
      let distance := value (LowerBound cur) - value (UpperBound before) in
      if distance <? best
      then smallest_gap_from cur l' (S pos) pos distance
      else smallest_gap_from cur l' (S pos) best_pos best
  end.

Definition smallest_gap (l : list Interval) : nat :=
  match l with
  | a :: b :: l' =>
      smallest_gap_from b l' 2 1 (value (LowerBound b) - value (UpperBound a))
  | _ => O
  end.

Fixpoint greedy_merge (fuel : nat) (k : nat) (l : list Interval) : list Interval :=
  match fuel with
  | O => l
  | S fuel' =>
      if (length l <=? k)%nat then l
      else greedy_merge fuel' k (merge_at (smallest_gap l) l)
  end.

Definition reference_MinimizeIntervals (s : IntervalSet) (k : Z) : IntervalSet :=
  let s := IntervalSet.Normalize s in
  mkIntervalSet (BitCount s)
    (greedy_merge (length (Intervals s)) (Z.to_nat k) (Intervals s)).

(** ** The intrusive list of [MinimizeIntervals] *)

(** The interval that the node at [p] stands for. *)
Definition fin (mem : store) (p : nat) : Interval := final_interval (mem p).

(** The intervals of [first] and of the nodes of the merge list. *)
Definition finals (mem : store) (merge_list : list nat) : list Interval :=
  map (fin mem) (first_ptr :: merge_list).

(** [b] follows [a] in the list, and its gap is the one to [a]. *)
Definition link (mem : store) (a b : nat) : Prop :=
  next (mem a) = Some b
  /\ prev (mem b) = Some a
  /\ gap_with_previous (mem b)
     = bits_ops.Sub (LowerBound (fin mem b)) (UpperBound (fin mem a)).

Fixpoint linked (mem : store) (a : nat) (l : list nat) : Prop :=
  match l with
  | [] => True
  | b :: l' => link mem a b /\ linked mem b l'
  end.

(** The merge list together with [first] is the intrusive list. *)
Definition list_inv (mem : store) (merge_list : list nat) : Prop :=
  NoDup (first_ptr :: merge_list)
  /\ linked mem first_ptr merge_list
  /\ next (mem (last merge_list first_ptr)) = None.

(** The smallest interval around a sorted list of intervals. *)
Definition hull_of (l : list Interval) : option Interval :=
  match l with
  | [] => None
  | i :: l' => Some (mkInterval (LowerBound i) (UpperBound (last l' i)))
  end.

(** An interval set given by its width and the bounds of its intervals. *)
Definition FromRanges (w : Z) (ranges : list (Z * Z)) : IntervalSet :=
  mkIntervalSet w
    (map (fun r => mkInterval (UBits (fst r) w) (UBits (snd r) w)) ranges).

(** ** The variadic harness *)

(** The corner operands of a choice of one interval per operand. *)
Fixpoint corners (tonicities : list Tonicity) (ivs : list Interval)
    : list Bits * list Bits :=
  match tonicities, ivs with
  | tone :: tonicities', iv :: ivs' =>
      let (lower_bounds, upper_bounds) := corners tonicities' ivs' in
      match tone with
      | Monotone => (LowerBound iv :: lower_bounds, UpperBound iv :: upper_bounds)
      | Antitone => (UpperBound iv :: lower_bounds, LowerBound iv :: upper_bounds)
      end
  | _, _ => ([], [])
  end.

(** The intervals chosen by a mixed-radix number. *)
Fixpoint select (operands : list IntervalSet) (indexes : list nat) : list Interval :=
  match operands, indexes with
  | operand :: operands', index :: indexes' =>
      nth index (Intervals operand) default_interval :: select operands' indexes'
  | _, _ => []
  end.

(** The intervals that the callback adds for two corner results. *)
Definition emitted (result_bit_size : Z) (lower upper : OverflowResult)
    : list Interval :=
  Intervals (fst (add_corner_results result_bit_size lower upper
                    (IntervalSet.Empty result_bit_size))).

(** An interval of the width of [s], proper, inside the convex hull of [s]. *)
Definition within (s : IntervalSet) (iv : Interval) : Prop :=
  wf_interval (BitCount s) iv /\ proper iv
  /\ exists h, hull_of (Intervals (IntervalSet.Normalize s)) = Some h
               /\ value (LowerBound h) <= value (LowerBound iv)
               /\ value (UpperBound iv) <= value (UpperBound h).

(** A result of the calculation with its overflow flags: [T] is the value
    before it is cut to [w] bits. *)
Definition overflow_spec (w : Z) (r : OverflowResult) (T : Z) : Prop :=
  has_width w (result r)
  /\ value (result r) = T mod 2 ^ w
  /\ (first_overflow_bit r = false <-> T / 2 ^ w = 0)
  /\ (second_overflow_bit r = false -> -1 <= T / 2 ^ w <= 1).

(** The bound of an interval that goes to the lower, or upper, corner. *)
Definition lower_corner (tone : Tonicity) (iv : Interval) : Bits :=
  match tone with Monotone => LowerBound iv | Antitone => UpperBound iv end.
Definition upper_corner (tone : Tonicity) (iv : Interval) : Bits :=
  match tone with Monotone => UpperBound iv | Antitone => LowerBound iv end.

(** ** Truncate *)

(** The interval [lo mod 2^w, hi mod 2^w], which may be improper. *)
Definition truncated_interval (w : Z) (i : Interval) : Interval :=
  mkInterval (UBits (value (LowerBound i)) w) (UBits (value (UpperBound i)) w).

(** The test of the loop of [Truncate]. *)
Definition wider_than (w : Z) (i : Interval) : bool :=
  bits_ops.UGreaterThan (bits_ops.Sub (UpperBound i) (LowerBound i)) (AllOnes w).

(** ** The transfer functions and the operations they abstract *)

Inductive TransferFunction : Type :=
| TAdd | TSub | TNeg
| TUMul (output_bitwidth : Z)
| TUDiv
| TSignExtend (width : Z)
| TZeroExtend (width : Z)
| TTruncate (width : Z)
| TConcat
| TNot | TAnd | TOr | TXor
| TAndReduce | TOrReduce | TXorReduce
| TEq | TNe | TULt | TUGt | TSLt | TSGt
| TGate
| TOneHot (lsb_or_msb : LsbOrMsb) (max_interval_bits : Z).

(** A one-bit value. *)
Definition bool_bits (b : bool) : Bits := UBits (Z.b2z b) 1.

(** The operation on concrete values; operands that a function does not
    take are ignored, missing ones read as the empty value. *)
Definition F_concrete (F : TransferFunction) (xs : list Bits) : Bits :=
  let x := nth 0 xs (Bits_zero 0) in
  let y := nth 1 xs (Bits_zero 0) in
  match F with
  | TAdd => bits_ops.Add x y
  | TSub => bits_ops.Sub x y
  | TNeg => bits_ops.Negate x
  | TUMul w => WithSize (bits_ops.UMul x y) w
  | TUDiv => bits_ops.UDiv x y
  | TSignExtend w => bits_ops.SignExtend x w
  | TZeroExtend w => bits_ops.ZeroExtend x w
  | TTruncate w => bits_ops.Truncate x w
  | TConcat => bits_ops.Concat xs
  | TNot => bits_ops.Not x
  | TAnd => bits_ops.And x y
  | TOr => bits_ops.Or x y
  | TXor => bits_ops.Xor x y
  | TAndReduce => bits_ops.AndReduce x
  | TOrReduce => bits_ops.OrReduce x
  | TXorReduce => bits_ops.XorReduce x
  | TEq => bool_bits (bits_ops.UEqual x y)
  | TNe => bool_bits (negb (bits_ops.UEqual x y))
  | TULt => bool_bits (bits_ops.ULessThan x y)
  | TUGt => bool_bits (bits_ops.UGreaterThan x y)
  | TSLt => bool_bits (bits_ops.SLessThan x y)
  | TSGt => bool_bits (bits_ops.SGreaterThan x y)
  | TGate => if value x =? 0 then Bits_zero (bit_count y) else y
  | TOneHot kLsb _ => bits_ops.OneHotLsbToMsb x
  | TOneHot kMsb _ => bits_ops.OneHotMsbToLsb x
  end.

(** The transfer function on interval sets; [default_bits] is the default
    budget of [FromTernary]. *)
Definition F_abstract (default_bits : Z) (F : TransferFunction)
    (sets : list IntervalSet) : option IntervalSet :=
  let a := nth 0 sets (IntervalSet.Empty 0) in
  let b := nth 1 sets (IntervalSet.Empty 0) in
  match F with
  | TAdd => Some (Add a b)
  | TSub => Some (Sub a b)
  | TNeg => Some (Neg a)
  | TUMul w => Some (UMul a b w)
  | TUDiv => Some (UDiv a b)
  | TSignExtend w => Some (SignExtend a w)
  | TZeroExtend w => Some (ZeroExtend a w)
  | TTruncate w => Some (Truncate a w)
  | TConcat => Some (Concat sets)
  | TNot => Not a default_bits
  | TAnd => And a b default_bits
  | TOr => Or a b default_bits
  | TXor => Xor a b default_bits
  | TAndReduce => Some (AndReduce a)
  | TOrReduce => Some (OrReduce a)
  | TXorReduce => Some (XorReduce a)
  | TEq => Some (Eq a b)
  | TNe => Ne a b default_bits
  | TULt => ULt a b
  | TUGt => UGt a b
  | TSLt => SLt a b
  | TSGt => SGt a b
  | TGate => Some (Gate a b)
  | TOneHot side budget => OneHot a side budget
  end.

(** The number of operands and the widths that a function asks for. *)
Definition applicable (F : TransferFunction) (sets : list IntervalSet) : Prop :=
  let a := nth 0 sets (IntervalSet.Empty 0) in
  let b := nth 1 sets (IntervalSet.Empty 0) in
  match F with
  | TConcat => True
  | TNeg | TNot | TAndReduce | TOrReduce | TXorReduce => length sets = 1%nat
  | TSignExtend w | TZeroExtend w => length sets = 1%nat /\ BitCount a <= w
  | TTruncate w => length sets = 1%nat /\ 0 <= w <= BitCount a
  | TOneHot _ budget => length sets = 1%nat /\ 0 <= budget
  | TUMul w => length sets = 2%nat /\ 0 <= w
  | TSLt | TSGt =>
      length sets = 2%nat /\ BitCount a = BitCount b /\ 1 <= BitCount a
  | TGate => length sets = 2%nat
  | TAdd | TSub | TUDiv | TAnd | TOr | TXor | TEq | TNe | TULt | TUGt =>
      length sets = 2%nat /\ BitCount a = BitCount b
  end.

(** An operand: well-formed, normalized. *)
Definition operand (s : IntervalSet) : Prop :=
  wf_set s /\ IntervalSet.IsNormalized s = true.

(** The filling of a vector that reads every unknown bit as [d]. *)
Definition filling (d : bool) (t : TernaryVector) : Z :=
  bits_ops.from_bits
    (map (fun x => match x with
                   | kKnownZero => false | kKnownOne => true | kUnknown => d
                   end) t).

(** Pointwise agreement of ternary values with concrete bits. *)
Definition agrees_list (t : TernaryVector) (bs : list bool) : Prop :=
  Forall2 (fun x b => agrees x b = true) t bs.

(** A ternary operation that follows a concrete one. *)
Definition tracks (f : TernaryValue -> TernaryValue -> TernaryValue)
    (g : bool -> bool -> bool) : Prop :=
  forall ta tb xa xb,
    agrees ta xa = true -> agrees tb xb = true -> agrees (f ta tb) (g xa xb) = true.


(** * Normalization *)

(** Closes the well-formedness of a concrete interval set. *)
Ltac closed_arith :=
  repeat split; try reflexivity; try lia; vm_compute; congruence.
Ltac wf_concrete :=
  split; [closed_arith | repeat (apply Forall_cons || apply Forall_nil); closed_arith].

Lemma pow2_pos (w : Z) : 0 <= w -> 0 < 2 ^ w.
Proof. intros; apply Z.pow_pos_nonneg; lia. Qed.

Lemma has_width_nonneg (w : Z) (b : Bits) : has_width w b -> 0 <= value b.
Proof. unfold has_width; lia. Qed.

Lemma covers_proper (i : Interval) (v : Bits) :
  proper i ->
  Interval.Covers i v = true <->
  value (LowerBound i) <= value v <= value (UpperBound i).
Proof.
  unfold proper, Interval.Covers, Interval.IsImproper, bits_ops.UGreaterThan.
  intros Hp. destruct (Z.ltb_spec (value (UpperBound i)) (value (LowerBound i))); [lia|].
  rewrite andb_true_iff, !Z.leb_le. tauto.
Qed.

Lemma covers_improper (i : Interval) (v : Bits) :
  value (UpperBound i) < value (LowerBound i) ->
  Interval.Covers i v = true <->
  value (LowerBound i) <= value v \/ value v <= value (UpperBound i).
Proof.
  unfold Interval.Covers, Interval.IsImproper, bits_ops.UGreaterThan.
  intros Hp. destruct (Z.ltb_spec (value (UpperBound i)) (value (LowerBound i))); [|lia].
  rewrite orb_true_iff, !Z.leb_le. tauto.
Qed.

Lemma covers_list_app (l1 l2 : list Interval) (v : Bits) :
  covers_list (l1 ++ l2) v = covers_list l1 v || covers_list l2 v.
Proof. apply existsb_app. Qed.

Lemma covers_list_iff (l : list Interval) (v : Bits) :
  covers_list l v = true <-> exists i, In i l /\ Interval.Covers i v = true.
Proof. apply existsb_exists. Qed.

Lemma covers_list_perm (l1 l2 : list Interval) (v : Bits) :
  Permutation l1 l2 -> covers_list l1 v = covers_list l2 v.
Proof.
  intros HP. apply eq_true_iff_eq. rewrite !covers_list_iff.
  split; intros [i [Hi Hc]]; exists i; split; auto.
  - eapply Permutation_in; eauto.
  - eapply Permutation_in; [apply Permutation_sym|]; eauto.
Qed.

(** Step 1: splitting. *)

Lemma split_improper_covers (w : Z) (i : Interval) (v : Bits) :
  wf_interval w i ->
  0 <= value v < 2 ^ w ->
  covers_list (IntervalSet.split_improper w i) v = Interval.Covers i v.
Proof.
  intros [[_ Hl] [_ Hh]] Hv. unfold IntervalSet.split_improper, covers_list.
  destruct (Interval.IsImproper i) eqn:E; simpl; [|now rewrite orb_false_r].
  unfold Interval.Covers. rewrite E.
  unfold Interval.IsImproper, bits_ops.UGreaterThan in *. simpl.
  apply Z.ltb_lt in E.
  destruct (Z.ltb_spec (2 ^ w - 1) (value (LowerBound i)));
  destruct (Z.ltb_spec (value (UpperBound i)) 0);
  destruct (Z.leb_spec (value (LowerBound i)) (value v));
  destruct (Z.leb_spec (value v) (value (UpperBound i)));
  destruct (Z.leb_spec (value v) (2 ^ w - 1));
  destruct (Z.leb_spec 0 (value v)); simpl; try reflexivity; lia.
Qed.

Lemma split_improper_proper (w : Z) (i : Interval) :
  0 <= w -> wf_interval w i -> Forall proper (IntervalSet.split_improper w i).
Proof.
  intros Hw [[_ Hl] [_ Hh]]. unfold IntervalSet.split_improper.
  destruct (Interval.IsImproper i) eqn:E.
  - repeat constructor; unfold proper; simpl; lia.
  - repeat constructor. unfold proper.
    unfold Interval.IsImproper, bits_ops.UGreaterThan in E.
    apply Z.ltb_ge in E. lia.
Qed.

Lemma split_improper_wf (w : Z) (i : Interval) :
  0 <= w -> wf_interval w i -> Forall (wf_interval w) (IntervalSet.split_improper w i).
Proof.
  intros Hw [[Hl1 Hl] [Hh1 Hh]]. unfold IntervalSet.split_improper.
  pose proof (pow2_pos w Hw).
  destruct (Interval.IsImproper i); repeat constructor; simpl; auto; lia.
Qed.

Lemma split_improper_id (w : Z) (i : Interval) :
  proper i -> IntervalSet.split_improper w i = [i].
Proof.
  unfold proper, IntervalSet.split_improper, Interval.IsImproper, bits_ops.UGreaterThan.
  intros Hp. destruct (Z.ltb_spec (value (UpperBound i)) (value (LowerBound i))); [lia|auto].
Qed.

Lemma flat_split_covers (w : Z) (l : list Interval) (v : Bits) :
  Forall (wf_interval w) l ->
  0 <= value v < 2 ^ w ->
  covers_list (flat_map (IntervalSet.split_improper w) l) v = covers_list l v.
Proof.
  intros Hl Hv. induction Hl as [|i l Hi Hl IH]; simpl; auto.
  rewrite covers_list_app, IH, split_improper_covers; auto.
Qed.

Lemma flat_split_proper (w : Z) (l : list Interval) :
  0 <= w -> Forall (wf_interval w) l ->
  Forall proper (flat_map (IntervalSet.split_improper w) l).
Proof.
  intros Hw H. induction H; simpl; [constructor|].
  apply Forall_app; split; auto using split_improper_proper.
Qed.

Lemma flat_split_wf (w : Z) (l : list Interval) :
  0 <= w -> Forall (wf_interval w) l ->
  Forall (wf_interval w) (flat_map (IntervalSet.split_improper w) l).
Proof.
  intros Hw H. induction H; simpl; [constructor|].
  apply Forall_app; split; auto using split_improper_wf.
Qed.

Lemma flat_split_id (w : Z) (l : list Interval) :
  Forall proper l -> flat_map (IntervalSet.split_improper w) l = l.
Proof.
  induction 1; simpl; auto. rewrite split_improper_id, IHForall; auto.
Qed.

(** Step 2: sorting. *)

Lemma insert_by_lo_perm (i : Interval) (l : list Interval) :
  Permutation (i :: l) (IntervalSet.insert_by_lo i l).
Proof.
  induction l as [|j l IH]; simpl; auto.
  destruct (value (LowerBound i) <=? value (LowerBound j)); auto.
  rewrite perm_swap. constructor. exact IH.
Qed.

Lemma sort_by_lo_perm (l : list Interval) :
  Permutation l (IntervalSet.sort_by_lo l).
Proof.
  induction l as [|i l IH]; simpl; auto.
  rewrite <- insert_by_lo_perm. constructor. exact IH.
Qed.

Lemma insert_by_lo_sorted (i : Interval) (l : list Interval) :
  StronglySorted lo_le l -> StronglySorted lo_le (IntervalSet.insert_by_lo i l).
Proof.
  induction 1 as [|j l Hs IH Hj]; simpl.
  - repeat constructor.
  - destruct (Z.leb_spec (value (LowerBound i)) (value (LowerBound j))).
    + constructor; [constructor; auto|].
      constructor; [exact H|].
      eapply Forall_impl; [|exact Hj]. unfold lo_le; intros; lia.
    + constructor; auto.
      eapply Permutation_Forall; [apply insert_by_lo_perm|].
      constructor; auto. unfold lo_le; lia.
Qed.

Lemma sort_by_lo_sorted (l : list Interval) :
  StronglySorted lo_le (IntervalSet.sort_by_lo l).
Proof.
  induction l; simpl; [constructor|]. now apply insert_by_lo_sorted.
Qed.

Lemma insert_by_lo_id (i : Interval) (l : list Interval) :
  Forall (lo_le i) l -> IntervalSet.insert_by_lo i l = i :: l.
Proof.
  destruct l as [|j l]; simpl; auto. intros H. inversion H; subst.
  unfold lo_le in *. destruct (Z.leb_spec (value (LowerBound i)) (value (LowerBound j))); auto; lia.
Qed.

Lemma sort_by_lo_id (l : list Interval) :
  StronglySorted lo_le l -> IntervalSet.sort_by_lo l = l.
Proof.
  induction 1; simpl; auto. rewrite IHStronglySorted. now apply insert_by_lo_id.
Qed.

(** Step 3: the merging sweep. *)

Lemma covers_merged (cur next : Interval) (v : Bits) :
  proper cur -> proper next ->
  value (LowerBound cur) <= value (LowerBound next) ->
  value (LowerBound next) <= value (UpperBound cur) + 1 ->
  Interval.Covers
    (mkInterval (LowerBound cur)
       (if value (UpperBound cur) <? value (UpperBound next)
        then UpperBound next else UpperBound cur)) v
  = Interval.Covers cur v || Interval.Covers next v.
Proof.
  intros Hc Hn H1 H2. apply eq_true_iff_eq.
  rewrite orb_true_iff, !covers_proper; auto.
  - simpl. unfold proper in *.
    destruct (Z.ltb_spec (value (UpperBound cur)) (value (UpperBound next))); lia.
  - unfold proper in *; simpl.
    destruct (Z.ltb_spec (value (UpperBound cur)) (value (UpperBound next))); lia.
Qed.

Lemma merged_proper (cur next : Interval) :
  proper cur ->
  proper (mkInterval (LowerBound cur)
            (if value (UpperBound cur) <? value (UpperBound next)
             then UpperBound next else UpperBound cur)).
Proof.
  unfold proper; simpl.
  destruct (Z.ltb_spec (value (UpperBound cur)) (value (UpperBound next))); lia.
Qed.

Lemma merge_sweep_covers (rest : list Interval) :
  forall (cur : Interval) (v : Bits),
    proper cur -> Forall proper rest -> StronglySorted lo_le (cur :: rest) ->
    covers_list (IntervalSet.merge_sweep cur rest) v = covers_list (cur :: rest) v.
Proof.
  induction rest as [|next rest IH]; intros cur v Hc Hr Hs; [reflexivity|].
  inversion Hr as [|? ? Hn Hr']; subst.
  inversion Hs as [|? ? Hs' Hall]; subst.
  inversion Hall as [|? ? Hcn Hall']; subst.
  inversion Hs' as [|? ? Hs'' Hall'']; subst.
  simpl IntervalSet.merge_sweep.
  destruct (Z.leb_spec (value (LowerBound next)) (value (UpperBound cur) + 1)) as [Hle|Hgt].
  - rewrite IH; auto using merged_proper.
    + change (covers_list (?a :: ?l) v) with (Interval.Covers a v || covers_list l v).
      rewrite covers_merged; auto.
      change (covers_list (next :: rest) v)
        with (Interval.Covers next v || covers_list rest v).
      now rewrite orb_assoc.
    + constructor; auto.
  - change (covers_list (?a :: ?l) v) with (Interval.Covers a v || covers_list l v).
    rewrite IH; auto.
Qed.

Lemma merge_sweep_length (rest : list Interval) :
  forall cur, (length (IntervalSet.merge_sweep cur rest) <= S (length rest))%nat.
Proof.
  induction rest as [|next rest IH]; intros cur; simpl; [lia|].
  destruct (value (LowerBound next) <=? value (UpperBound cur) + 1).
  - specialize (IH (mkInterval (LowerBound cur)
       (if value (UpperBound cur) <? value (UpperBound next)
        then UpperBound next else UpperBound cur))). lia.
  - simpl. specialize (IH next). lia.
Qed.

Lemma merge_sweep_wf (w : Z) (rest : list Interval) :
  forall cur, wf_interval w cur -> Forall (wf_interval w) rest ->
    Forall (wf_interval w) (IntervalSet.merge_sweep cur rest).
Proof.
  induction rest as [|next rest IH]; intros cur Hc Hr; simpl.
  - constructor; [exact Hc | constructor].
  - inversion Hr; subst.
    destruct (value (LowerBound next) <=? value (UpperBound cur) + 1).
    + apply IH; auto. destruct Hc as [Hl Hh]. split; simpl; auto.
      destruct (value (UpperBound cur) <? value (UpperBound next)); auto.
      match goal with H : wf_interval _ next |- _ => apply H end.
    + constructor; auto.
Qed.

Lemma merge_sweep_separated (rest : list Interval) :
  forall cur,
    proper cur -> Forall proper rest -> StronglySorted lo_le (cur :: rest) ->
    exists c r,
      IntervalSet.merge_sweep cur rest = c :: r
      /\ LowerBound c = LowerBound cur
      /\ IntervalSet.separated (c :: r) = true.
Proof.
  induction rest as [|next rest IH]; intros cur Hc Hr Hs.
  - exists cur, []. split; [reflexivity|]. split; [reflexivity|].
    simpl. rewrite !andb_true_r. now apply Z.leb_le.
  - inversion Hr as [|? ? Hn Hr']; subst.
    inversion Hs as [|? ? Hs' Hall]; subst.
    inversion Hall as [|? ? Hcn Hall']; subst.
    inversion Hs' as [|? ? Hs'' Hall'']; subst.
    simpl IntervalSet.merge_sweep.
    destruct (Z.leb_spec (value (LowerBound next)) (value (UpperBound cur) + 1)) as [Hle|Hgt].
    + destruct (IH (mkInterval (LowerBound cur)
         (if value (UpperBound cur) <? value (UpperBound next)
          then UpperBound next else UpperBound cur))) as (c & r & E & El & Es);
        auto using merged_proper.
      * constructor; auto.
      * exists c, r. auto.
    + destruct (IH next) as (c & r & E & El & Es); auto.
      exists cur, (c :: r). rewrite E. repeat split.
      change (IntervalSet.separated (cur :: c :: r))
        with ((value (LowerBound cur) <=? value (UpperBound cur))
              && (value (UpperBound cur) + 1 <? value (LowerBound c))
              && IntervalSet.separated (c :: r)).
      rewrite Es, El, andb_true_r, andb_true_iff, Z.leb_le, Z.ltb_lt.
      split; [exact Hc | lia].
Qed.

Lemma separated_cons (a : Interval) (l : list Interval) :
  IntervalSet.separated (a :: l) = true ->
  proper a /\ IntervalSet.separated l = true
  /\ match l with
     | [] => True
     | b :: _ => value (UpperBound a) + 1 < value (LowerBound b)
     end.
Proof.
  simpl. rewrite !andb_true_iff, Z.leb_le. intros [[Hp Hg] Hs].
  repeat split; auto. destruct l; auto. now apply Z.ltb_lt.
Qed.

Lemma separated_proper (l : list Interval) :
  IntervalSet.separated l = true -> Forall proper l.
Proof.
  induction l as [|a l IH]; intros H; [constructor|].
  apply separated_cons in H. destruct H as (Hp & Hs & _). constructor; auto.
Qed.

(** In a separated list every later interval begins beyond the end of an
    earlier one. *)
Lemma separated_beyond (l : list Interval) :
  forall a, IntervalSet.separated (a :: l) = true ->
    Forall (fun b => value (UpperBound a) + 1 < value (LowerBound b)) l.
Proof.
  induction l as [|b l IH]; intros a H; [constructor|].
  apply separated_cons in H. destruct H as (Hp & Hs & Hg).
  constructor; auto.
  specialize (IH b Hs). apply separated_cons in Hs. destruct Hs as (Hpb & _ & _).
  eapply Forall_impl; [|exact IH]. unfold proper in *. simpl; intros; lia.
Qed.

Lemma separated_sorted (l : list Interval) :
  IntervalSet.separated l = true -> StronglySorted lo_le l.
Proof.
  induction l as [|a l IH]; intros H; [constructor|].
  pose proof (separated_beyond l a H) as Hb.
  apply separated_cons in H. destruct H as (Hp & Hs & _).
  constructor; auto.
  eapply Forall_impl; [|exact Hb]. unfold lo_le, proper in *. simpl; intros; lia.
Qed.

Lemma merge_sweep_id (rest : list Interval) :
  forall cur, IntervalSet.separated (cur :: rest) = true ->
    IntervalSet.merge_sweep cur rest = cur :: rest.
Proof.
  induction rest as [|next rest IH]; intros cur H; [reflexivity|].
  apply separated_cons in H. destruct H as (Hp & Hs & Hg).
  simpl. destruct (Z.leb_spec (value (LowerBound next)) (value (UpperBound cur) + 1)); [lia|].
  now rewrite IH.
Qed.

(** The whole of normalization. *)

Lemma normalize_list_covers (w : Z) (l : list Interval) (v : Bits) :
  0 <= w -> Forall (wf_interval w) l -> 0 <= value v < 2 ^ w ->
  covers_list (IntervalSet.normalize_list w l) v = covers_list l v.
Proof.
  intros Hw Hl Hv. unfold IntervalSet.normalize_list.
  rewrite <- (flat_split_covers w l v Hl Hv).
  rewrite (covers_list_perm _ _ v (sort_by_lo_perm (flat_map (IntervalSet.split_improper w) l))).
  pose proof (sort_by_lo_sorted (flat_map (IntervalSet.split_improper w) l)) as Hs.
  assert (Hp : Forall proper (IntervalSet.sort_by_lo (flat_map (IntervalSet.split_improper w) l))).
  { eapply Permutation_Forall; [apply sort_by_lo_perm|]. now apply flat_split_proper. }
  destruct (IntervalSet.sort_by_lo (flat_map (IntervalSet.split_improper w) l)) as [|cur rest];
    [reflexivity|].
  inversion Hp; subst. now apply merge_sweep_covers.
Qed.

Lemma normalize_list_separated (w : Z) (l : list Interval) :
  0 <= w -> Forall (wf_interval w) l ->
  IntervalSet.separated (IntervalSet.normalize_list w l) = true.
Proof.
  intros Hw Hl. unfold IntervalSet.normalize_list.
  pose proof (sort_by_lo_sorted (flat_map (IntervalSet.split_improper w) l)) as Hs.
  assert (Hp : Forall proper (IntervalSet.sort_by_lo (flat_map (IntervalSet.split_improper w) l))).
  { eapply Permutation_Forall; [apply sort_by_lo_perm|]. now apply flat_split_proper. }
  destruct (IntervalSet.sort_by_lo (flat_map (IntervalSet.split_improper w) l)) as [|cur rest];
    [reflexivity|].
  inversion Hp; subst.
  destruct (merge_sweep_separated rest cur) as (c & r & E & _ & Hsep); auto.
  now rewrite E.
Qed.

Lemma normalize_list_wf (w : Z) (l : list Interval) :
  0 <= w -> Forall (wf_interval w) l ->
  Forall (wf_interval w) (IntervalSet.normalize_list w l).
Proof.
  intros Hw Hl. unfold IntervalSet.normalize_list.
  assert (Hp : Forall (wf_interval w)
                 (IntervalSet.sort_by_lo (flat_map (IntervalSet.split_improper w) l))).
  { eapply Permutation_Forall; [apply sort_by_lo_perm|]. now apply flat_split_wf. }
  destruct (IntervalSet.sort_by_lo (flat_map (IntervalSet.split_improper w) l)) as [|cur rest];
    [constructor|].
  inversion Hp; subst. now apply merge_sweep_wf.
Qed.

Lemma normalize_list_length (w : Z) (l : list Interval) :
  Forall proper l ->
  (length (IntervalSet.normalize_list w l) <= length l)%nat.
Proof.
  intros Hp. unfold IntervalSet.normalize_list. rewrite flat_split_id by exact Hp.
  pose proof (Permutation_length (sort_by_lo_perm l)) as HL.
  destruct (IntervalSet.sort_by_lo l) as [|cur rest]; simpl in *; [lia|].
  pose proof (merge_sweep_length rest cur). lia.
Qed.

Lemma normalize_list_id (w : Z) (l : list Interval) :
  IntervalSet.separated l = true -> IntervalSet.normalize_list w l = l.
Proof.
  intros H. unfold IntervalSet.normalize_list.
  rewrite flat_split_id by now apply separated_proper.
  rewrite sort_by_lo_id by now apply separated_sorted.
  destruct l as [|cur rest]; [reflexivity|]. now apply merge_sweep_id.
Qed.

(** * From interval sets to ternary vectors *)

Lemma consistent_iff (t : TernaryVector) (v : Bits) :
  consistent t v = true <->
  forall i, (i < length t)%nat ->
    agrees (nth i t kUnknown) (Z.testbit (value v) (Z.of_nat i)) = true.
Proof.
  unfold consistent. rewrite forallb_forall. split; intros H i Hi.
  - apply H. apply in_seq. lia.
  - apply in_seq in Hi. apply H. lia.
Qed.

(** Values between two bounds that share their bits from [k] up share them
    too. *)
Lemma between_same_high_part (k lo hi v : Z) :
  0 <= k -> lo <= v <= hi -> lo / 2 ^ k = hi / 2 ^ k -> v / 2 ^ k = lo / 2 ^ k.
Proof.
  intros Hk Hv E.
  assert (0 < 2 ^ k) by (apply Z.pow_pos_nonneg; lia).
  assert (lo / 2 ^ k <= v / 2 ^ k) by (apply Z.div_le_mono; lia).
  assert (v / 2 ^ k <= hi / 2 ^ k) by (apply Z.div_le_mono; lia).
  lia.
Qed.

Lemma common_prefix_length_le (w : nat) (a b : Z) :
  (common_prefix_length w a b <= w)%nat.
Proof.
  induction w as [|w IH]; simpl; [lia|].
  destruct (Bool.eqb _ _); lia.
Qed.

Lemma common_prefix_bits (w : nat) (a b : Z) :
  forall j : nat,
    (w - common_prefix_length w a b <= j < w)%nat ->
    Z.testbit a (Z.of_nat j) = Z.testbit b (Z.of_nat j).
Proof.
  induction w as [|w IH]; intros j Hj; [lia|].
  simpl in Hj.
  destruct (Bool.eqb (Z.testbit a (Z.of_nat w)) (Z.testbit b (Z.of_nat w))) eqn:E.
  - destruct (Nat.eq_dec j w) as [->|Hne]; [now apply eqb_prop|].
    apply IH. pose proof (common_prefix_length_le w a b). lia.
  - lia.
Qed.

Lemma testbit_above (w m a : Z) :
  0 <= a < 2 ^ w -> 0 <= w <= m -> Z.testbit a m = false.
Proof.
  intros Ha Hm. destruct (Z.eq_dec a 0) as [->|Hne]; [apply Z.bits_0|].
  apply Z.bits_above_log2; [lia|].
  assert (Z.log2 a < w) by (apply Z.log2_lt_pow2; lia). lia.
Qed.

Lemma same_bits_same_high_part (w k : nat) (a b : Z) :
  0 <= a < 2 ^ Z.of_nat w -> 0 <= b < 2 ^ Z.of_nat w ->
  (forall j : nat, (k <= j < w)%nat -> Z.testbit a (Z.of_nat j) = Z.testbit b (Z.of_nat j)) ->
  a / 2 ^ Z.of_nat k = b / 2 ^ Z.of_nat k.
Proof.
  intros Ha Hb H. rewrite <- !Z.shiftr_div_pow2 by lia.
  apply Z.bits_inj'. intros n Hn. rewrite !Z.shiftr_spec by lia.
  destruct (Z.lt_ge_cases (n + Z.of_nat k) (Z.of_nat w)) as [Hlt|Hge].
  - replace (n + Z.of_nat k) with (Z.of_nat (Z.to_nat n + k)) by lia.
    apply H. lia.
  - rewrite (testbit_above (Z.of_nat w) _ a), (testbit_above (Z.of_nat w) _ b); auto; lia.
Qed.

Lemma nth_map_seq {A : Type} (f : nat -> A) (n q : nat) (d : A) :
  (q < n)%nat -> nth q (map f (seq 0 n)) d = f q.
Proof.
  intros Hq. rewrite (nth_indep _ d (f O)) by (rewrite length_map, length_seq; lia).
  rewrite map_nth, seq_nth by lia. reflexivity.
Qed.

Lemma ExtractTernaryInterval_length (w : Z) (i : Interval) :
  0 <= w -> wf_interval w i ->
  length (ExtractTernaryInterval i) = Z.to_nat w.
Proof.
  intros Hw [[Hl _] _]. unfold ExtractTernaryInterval, LongestCommonPrefixMSB, Interval.BitCount.
  simpl. rewrite length_app, repeat_length, length_map, length_seq, Hl.
  pose proof (common_prefix_length_le (Z.to_nat w) (value (LowerBound i)) (value (UpperBound i))).
  lia.
Qed.

Lemma ExtractTernaryInterval_consistent (w : Z) (i : Interval) (v : Bits) :
  0 <= w -> wf_interval w i -> proper i ->
  Interval.Covers i v = true ->
  consistent (ExtractTernaryInterval i) v = true.
Proof.
  intros Hw Hwf Hp Hc. apply consistent_iff. intros p Hplt.
  rewrite (ExtractTernaryInterval_length w i Hw Hwf) in Hplt.
  destruct Hwf as [[Hl Hlo] [Hh Hhi]].
  apply covers_proper in Hc; auto.
  unfold ExtractTernaryInterval, LongestCommonPrefixMSB, Interval.BitCount. simpl.
  rewrite Hl.
  set (n := common_prefix_length (Z.to_nat w) (value (LowerBound i)) (value (UpperBound i))).
  pose proof (common_prefix_length_le (Z.to_nat w) (value (LowerBound i)) (value (UpperBound i))) as Hn.
  fold n in Hn.
  destruct (Nat.lt_ge_cases p (Z.to_nat (w - Z.of_nat n))) as [Hlt|Hge].
  - rewrite app_nth1 by (rewrite repeat_length; lia).
    rewrite nth_repeat. reflexivity.
  - rewrite app_nth2 by (rewrite repeat_length; lia).
    rewrite repeat_length.
    set (q := (p - Z.to_nat (w - Z.of_nat n))%nat).
    assert (Hq : (q < n)%nat) by (unfold q; lia).
    rewrite nth_map_seq by lia.
    unfold Get, Slice. simpl.
    rewrite Z.mod_pow2_bits_low by lia.
    rewrite <- Z.shiftr_div_pow2 by lia.
    rewrite Z.shiftr_spec by lia.
    replace (Z.of_nat q + (w - Z.of_nat n)) with (Z.of_nat p) by (unfold q; lia).
    (* bit p of v is bit p of the lower bound *)
    assert (E : value v / 2 ^ Z.of_nat (Z.to_nat w - n)
                = value (LowerBound i) / 2 ^ Z.of_nat (Z.to_nat w - n)).
    { apply (between_same_high_part _ _ (value (UpperBound i))); try lia.
      apply (same_bits_same_high_part (Z.to_nat w)); try (rewrite Z2Nat.id by lia; lia).
      intros j Hj. unfold n in *. apply (common_prefix_bits (Z.to_nat w)). lia. }
    assert (Eb : Z.testbit (value v) (Z.of_nat p) = Z.testbit (value (LowerBound i)) (Z.of_nat p)).
    { replace (Z.of_nat p) with ((Z.of_nat p - Z.of_nat (Z.to_nat w - n)) + Z.of_nat (Z.to_nat w - n)) by lia.
      rewrite <- !Z.shiftr_spec by lia.
      rewrite !Z.shiftr_div_pow2 by lia. now rewrite E. }
    rewrite Eb. destruct (Z.testbit (value (LowerBound i)) (Z.of_nat p)); reflexivity.
Qed.

Lemma UpdateWithIntersection_length (a : TernaryVector) :
  forall b, length (ternary_ops.UpdateWithIntersection a b) = length a.
Proof.
  induction a as [|x a IH]; intros [|y b]; simpl; auto.
Qed.

Lemma agrees_intersect (a b : TernaryValue) (x : bool) :
  agrees a x = true \/ agrees b x = true ->
  agrees (ternary_ops.intersect_value a b) x = true.
Proof. destruct a, b, x; simpl; intuition. Qed.

Lemma UpdateWithIntersection_nth (a : TernaryVector) :
  forall b i, length a = length b -> (i < length a)%nat ->
    nth i (ternary_ops.UpdateWithIntersection a b) kUnknown
    = ternary_ops.intersect_value (nth i a kUnknown) (nth i b kUnknown).
Proof.
  induction a as [|x a IH]; intros [|y b] i Hl Hi; simpl in *; try lia.
  destruct i; auto. apply IH; lia.
Qed.

Lemma UpdateWithIntersection_consistent (a b : TernaryVector) (v : Bits) :
  length a = length b ->
  consistent a v = true \/ consistent b v = true ->
  consistent (ternary_ops.UpdateWithIntersection a b) v = true.
Proof.
  intros Hl H. apply consistent_iff. intros i Hi.
  rewrite UpdateWithIntersection_length in Hi.
  rewrite UpdateWithIntersection_nth by auto.
  apply agrees_intersect. destruct H as [H|H]; [left|right];
    rewrite consistent_iff in H; apply H; lia.
Qed.

Lemma fold_intersection_consistent (w : Z) (rest : list Interval) (v : Bits) :
  0 <= w -> Forall (wf_interval w) rest -> Forall proper rest ->
  forall acc, length acc = Z.to_nat w ->
    consistent acc v = true \/ covers_list rest v = true ->
    let r := fold_left
               (fun result i =>
                  ternary_ops.UpdateWithIntersection result (ExtractTernaryInterval i))
               rest acc in
    length r = Z.to_nat w /\ consistent r v = true.
Proof.
  intros Hw Hwf Hp. induction rest as [|i rest IH]; intros acc Hl H; simpl.
  - destruct H as [H|H]; [auto|discriminate].
  - inversion Hwf; subst. inversion Hp; subst.
    apply IH; auto.
    + rewrite UpdateWithIntersection_length. exact Hl.
    + simpl in H. rewrite orb_true_iff in H.
      destruct H as [H|[H|H]]; auto; left;
        apply UpdateWithIntersection_consistent;
        try (rewrite (ExtractTernaryInterval_length w) by auto; exact Hl); auto.
      right. eapply ExtractTernaryInterval_consistent; eauto.
Qed.

Lemma ExtractTernaryVector_consistent (s : IntervalSet) (v : Bits) :
  wf_set s ->
  IntervalSet.IsNormalized s = true ->
  IntervalSet.Covers s v = true ->
  exists t, ExtractTernaryVector s = Some t
            /\ length t = Z.to_nat (BitCount s)
            /\ consistent t v = true.
Proof.
  intros [Hw Hwf] Hn Hc. unfold ExtractTernaryVector. rewrite Hn. simpl.
  unfold IntervalSet.IsNormalized in Hn. unfold IntervalSet.Covers in Hc.
  unfold IntervalSet.IsEmpty.
  destruct (Intervals s) as [|front rest] eqn:E; [discriminate|]. simpl.
  pose proof (separated_proper _ Hn) as Hp.
  inversion Hwf; subst. inversion Hp; subst.
  eexists; split; [reflexivity|].
  apply (fold_intersection_consistent (BitCount s)); auto.
  - apply ExtractTernaryInterval_length; auto.
  - simpl in Hc. apply orb_true_iff in Hc. destruct Hc as [Hc|Hc]; auto.
    left. eapply ExtractTernaryInterval_consistent; eauto.
Qed.

(** * From ternary vectors to interval sets *)

Lemma testbit_S_div2 (z : Z) (i : nat) :
  Z.testbit z (Z.of_nat (S i)) = Z.testbit (Z.div2 z) (Z.of_nat i).
Proof.
  rewrite Nat2Z.inj_succ, Z.div2_div. symmetry. apply Z.div2_bits. lia.
Qed.

Lemma consistent_from_iff (t : TernaryVector) :
  forall z,
    consistent_from t z <->
    forall i, (i < length t)%nat ->
      agrees (nth i t kUnknown) (Z.testbit z (Z.of_nat i)) = true.
Proof.
  induction t as [|x t IH]; intros z; simpl.
  - split; [intros _ i Hi; lia | auto].
  - rewrite IH. split.
    + intros [H0 H] [|i] Hi.
      * now rewrite Z.bit0_odd.
      * rewrite testbit_S_div2. apply H. lia.
    + intros H. split.
      * rewrite <- Z.bit0_odd. apply (H O). lia.
      * intros i Hi. rewrite <- testbit_S_div2. apply (H (S i)). lia.
Qed.

Lemma consistent_consistent_from (t : TernaryVector) (v : Bits) :
  consistent t v = true <-> consistent_from t (value v).
Proof. now rewrite consistent_iff, consistent_from_iff. Qed.

Lemma div2_pow2 (z : Z) (k : nat) :
  Z.div2 z / 2 ^ Z.of_nat k = z / 2 ^ Z.of_nat (S k).
Proof.
  rewrite Z.div2_div, Nat2Z.inj_succ, Z.pow_succ_r by lia.
  rewrite Z.div_div by (try apply Z.pow_pos_nonneg; lia). reflexivity.
Qed.

Lemma consistent_from_skipn (k : nat) :
  forall t z, consistent_from t z ->
    consistent_from (skipn k t) (z / 2 ^ Z.of_nat k).
Proof.
  induction k as [|k IH]; intros t z H.
  - simpl. now rewrite Z.div_1_r.
  - destruct t as [|x t]; [exact I|]. simpl skipn. destruct H as [_ H].
    rewrite <- div2_pow2. now apply IH.
Qed.

Lemma div2_bounds (z : Z) (n : nat) :
  0 <= z < 2 ^ Z.of_nat (S n) -> 0 <= Z.div2 z < 2 ^ Z.of_nat n.
Proof.
  rewrite Nat2Z.inj_succ, Z.pow_succ_r by lia. intros H.
  pose proof (Z.div2_odd z) as E. destruct (Z.odd z); unfold Z.b2z in E; lia.
Qed.

Lemma all_values_complete (t : TernaryVector) :
  forall z, consistent_from t z -> 0 <= z < 2 ^ Z.of_nat (length t) ->
    In z (ternary_ops.all_values t).
Proof.
  induction t as [|x t IH]; intros z H Hz.
  - simpl in *. left. lia.
  - destruct H as [Hx H]. apply div2_bounds in Hz as Hd.
    specialize (IH _ H Hd). pose proof (Z.div2_odd z) as Ez.
    cbn [ternary_ops.all_values]. destruct x; cbn [agrees] in Hx.
    + apply in_map_iff. exists (Z.div2 z). split; auto.
      destruct (Z.odd z); [discriminate|]. unfold Z.b2z in Ez. lia.
    + apply in_map_iff. exists (Z.div2 z). split; auto.
      rewrite Hx in Ez. unfold Z.b2z in Ez. lia.
    + apply in_flat_map. exists (Z.div2 z). split; auto.
      destruct (Z.odd z); unfold Z.b2z in Ez; [right; left|left]; lia.
Qed.

Lemma all_values_bounds (t : TernaryVector) :
  forall h, In h (ternary_ops.all_values t) -> 0 <= h < 2 ^ Z.of_nat (length t).
Proof.
  induction t as [|x t IH]; intros h H.
  - simpl in *. destruct H as [<-|[]]. lia.
  - change (length (x :: t)) with (S (length t)).
    rewrite Nat2Z.inj_succ, Z.pow_succ_r by lia.
    cbn [ternary_ops.all_values] in H. destruct x.
    + apply in_map_iff in H. destruct H as (h' & <- & H). apply IH in H. lia.
    + apply in_map_iff in H. destruct H as (h' & <- & H). apply IH in H. lia.
    + apply in_flat_map in H. destruct H as (h' & H & [<-|[<-|[]]]); apply IH in H; lia.
Qed.

Lemma flat_map_pair_length {A : Type} (f g : A -> A) (l : list A) :
  length (flat_map (fun h => [f h; g h]) l) = (2 * length l)%nat.
Proof. induction l; simpl; lia. Qed.

Lemma all_values_length (t : TernaryVector) :
  length (ternary_ops.all_values t) = (2 ^ count_unknown t)%nat.
Proof.
  unfold count_unknown. induction t as [|x t IH]; [reflexivity|].
  simpl. destruct x; simpl; rewrite ?length_map, ?flat_map_pair_length; lia.
Qed.

Lemma all_values_known (t : TernaryVector) :
  ternary_ops.IsFullyKnown t = true ->
  ternary_ops.all_values t = [ternary_ops.known_values t].
Proof.
  induction t as [|x t IH]; [reflexivity|].
  simpl. intros H. apply andb_true_iff in H. destruct H as [Hx H].
  rewrite (IH H). destruct x; try discriminate; cbn [map]; f_equal; lia.
Qed.

Lemma fully_known_count (t : TernaryVector) :
  ternary_ops.IsFullyKnown t = true <-> count_unknown t = O.
Proof.
  unfold count_unknown, ternary_ops.IsFullyKnown.
  induction t as [|x t IH]; simpl; [tauto|].
  rewrite andb_true_iff, IH. unfold ternary_ops.IsUnknown.
  destruct x; simpl; intuition; discriminate.
Qed.

Lemma Concat_pair (h l : Bits) :
  bits_ops.Concat [h; l]
  = mkBits (bit_count h + bit_count l) (value h * 2 ^ bit_count l + value l).
Proof. unfold bits_ops.Concat. simpl. f_equal. Qed.

Lemma AddInterval_fold (f : Bits -> Interval) (vs : list Bits) :
  forall s,
    fold_left (fun acc v => IntervalSet.AddInterval acc (f v)) vs s
    = mkIntervalSet (BitCount s) (Intervals s ++ map f vs).
Proof.
  induction vs as [|v vs IH]; intros s; simpl.
  - rewrite app_nil_r. now destruct s.
  - rewrite IH. simpl. now rewrite <- app_assoc.
Qed.

(** The deque of [FromTernary]. *)

Lemma lastn_all {A : Type} (k : nat) (l : list A) :
  (length l <= k)%nat -> lastn k l = l.
Proof. intros H. unfold lastn. now replace (length l - k)%nat with O by lia. Qed.

Lemma lastn_cons {A : Type} (k : nat) (a : A) (l : list A) :
  (k <= length l)%nat -> lastn k (a :: l) = lastn k l.
Proof.
  intros H. unfold lastn. simpl length.
  now replace (S (length l) - k)%nat with (S (length l - k)) by lia.
Qed.

Lemma lastn_length {A : Type} (k : nat) (l : list A) :
  length (lastn k l) = Nat.min k (length l).
Proof. unfold lastn. rewrite length_skipn. lia. Qed.

Lemma lastn_split {A : Type} (k : nat) (l : list A) :
  exists front, l = front ++ lastn k l.
Proof. exists (firstn (length l - k) l). unfold lastn. now rewrite firstn_skipn. Qed.

Lemma collect_x_locations_spec (m : Z) (t : TernaryVector) :
  0 <= m ->
  forall pos xl,
    (length xl <= Z.to_nat m + 1)%nat ->
    collect_x_locations m pos t xl
    = lastn (Z.to_nat m + 1) (xl ++ unknown_positions pos t).
Proof.
  intros Hm. induction t as [|b t IH]; intros pos xl Hxl; simpl.
  - rewrite app_nil_r. now rewrite lastn_all.
  - destruct (ternary_ops.IsUnknown b).
    + rewrite length_app. simpl length.
      destruct (Z.gtb_spec (Z.of_nat (length xl + 1)) (m + 1)) as [Hgt|Hle].
      * destruct xl as [|x xl]; [simpl in Hgt; lia|].
        simpl tl. rewrite IH by (rewrite length_app; simpl in *; lia).
        rewrite <- app_assoc. simpl app at 2.
        change ((x :: xl) ++ pos :: unknown_positions (S pos) t)
          with (x :: (xl ++ pos :: unknown_positions (S pos) t)).
        rewrite lastn_cons; [reflexivity|].
        rewrite length_app. simpl in *. lia.
      * rewrite IH by (rewrite length_app; simpl; lia).
        now rewrite <- app_assoc.
    + now apply IH.
Qed.

Lemma unknown_positions_length (t : TernaryVector) :
  forall pos, length (unknown_positions pos t) = count_unknown t.
Proof.
  unfold count_unknown. induction t as [|b t IH]; intros pos; simpl; auto.
  destruct (ternary_ops.IsUnknown b); simpl; auto.
Qed.

Lemma skipn_S_tail {A : Type} (k : nat) :
  forall (t : list A) b t', skipn k t = b :: t' -> skipn (S k) t = t'.
Proof.
  induction k as [|k IH]; intros t b t' H.
  - simpl in H. subst. reflexivity.
  - destruct t as [|a t]; [discriminate|]. simpl in H. simpl. eapply IH; eauto.
Qed.

Lemma unknown_positions_after (t : TernaryVector) (t0 : TernaryVector) :
  forall pos front p back,
    skipn pos t = t0 ->
    unknown_positions pos t0 = front ++ p :: back ->
    count_unknown (skipn (S p) t) = length back /\ (S p <= length t)%nat.
Proof.
  induction t0 as [|b t0 IH]; intros pos front p back Hs Hu.
  - simpl in Hu. destruct front; discriminate.
  - pose proof (skipn_S_tail pos t b t0 Hs) as Hs'.
    simpl in Hu. destruct (ternary_ops.IsUnknown b).
    + destruct front as [|a front]; simpl in Hu; injection Hu as E1 E2.
      * rewrite <- E1, Hs', <- E2, unknown_positions_length. split; auto.
        assert (Hlen : length (skipn pos t) = S (length t0)) by now rewrite Hs.
        rewrite length_skipn in Hlen. lia.
      * eapply IH; eauto.
    + eapply IH; eauto.
Qed.

Lemma find_known_le (t : TernaryVector) : (find_known t <= length t)%nat.
Proof. induction t as [|b t IH]; simpl; [lia|]. destruct (ternary_ops.IsKnown b); lia. Qed.

(** What [FromTernary] returns for a vector that is not fully known: the
    blocks over the fillings of the bits from some position [lsb_xs] up, of
    which at most [max_interval_bits] are unknown. *)
Lemma FromTernary_shape (tern : TernaryVector) (max_interval_bits : Z) :
  0 <= max_interval_bits ->
  ternary_ops.IsFullyKnown tern = false ->
  exists lsb_xs : nat,
    (lsb_xs <= length tern)%nat
    /\ Z.of_nat (count_unknown (skipn lsb_xs tern)) <= max_interval_bits
    /\ FromTernary tern max_interval_bits
       = Some (IntervalSet.Normalize
                 (mkIntervalSet (Z.of_nat (length tern))
                    (map (block lsb_xs)
                       (ternary_ops.AllBitsValues (skipn lsb_xs tern))))).
Proof.
  intros Hm Hk. unfold FromTernary.
  replace (0 <=? max_interval_bits) with true by (symmetry; now apply Z.leb_le).
  cbn [check bind]. rewrite Hk.
  rewrite collect_x_locations_spec by (simpl; lia). cbn [app].
  set (l0 := find_known tern).
  set (U := unknown_positions l0 (skipn l0 tern)).
  set (X := lastn (Z.to_nat max_interval_bits + 1) U).
  assert (HU : length U = count_unknown (skipn l0 tern)) by apply unknown_positions_length.
  assert (HX : length X = Nat.min (Z.to_nat max_interval_bits + 1) (length U)) by apply lastn_length.
  assert (tail_case : forall (l' : nat) (xl' : list nat),
    length xl' = count_unknown (skipn l' tern) ->
    match xl' with
    | [] =>
        Some (IntervalSet.Normalize
                (IntervalSet.AddInterval (IntervalSet.Empty (Z.of_nat (length tern)))
                   (Interval.Closed
                      (bits_ops.Concat [ternary_ops.ToKnownBitsValues (skipn l' tern); Bits_zero (Z.of_nat l')])
                      (bits_ops.Concat [ternary_ops.ToKnownBitsValues (skipn l' tern); AllOnes (Z.of_nat l')]))))
    | _ :: _ =>
        Some (IntervalSet.Normalize
                (fold_left
                   (fun acc v =>
                      IntervalSet.AddInterval acc
                        (Interval.Closed (bits_ops.Concat [v; Bits_zero (Z.of_nat l')])
                                         (bits_ops.Concat [v; AllOnes (Z.of_nat l')])))
                   (ternary_ops.AllBitsValues (skipn l' tern))
                   (IntervalSet.Empty (Z.of_nat (length tern)))))
    end
    = Some (IntervalSet.Normalize
              (mkIntervalSet (Z.of_nat (length tern))
                 (map (block l') (ternary_ops.AllBitsValues (skipn l' tern)))))).
  { intros l' xl' Hlen. destruct xl' as [|x xl'].
    - simpl in Hlen. symmetry in Hlen. apply fully_known_count in Hlen.
      unfold ternary_ops.AllBitsValues. rewrite (all_values_known _ Hlen).
      reflexivity.
    - rewrite (AddInterval_fold (block l')). reflexivity. }
  destruct (Z.gtb_spec (Z.of_nat (length X)) max_interval_bits) as [Hgt|Hle].
  - destruct (lastn_split (Z.to_nat max_interval_bits + 1) U) as [front Hsplit].
    fold X in Hsplit. destruct X as [|p back] eqn:EX; [simpl in Hgt; lia|].
    destruct (unknown_positions_after tern (skipn l0 tern) l0 front p back eq_refl Hsplit)
      as [Hc Hp].
    exists (S p). split; [exact Hp|]. split.
    + rewrite Hc. simpl in HX. lia.
    + cbn [hd tl]. apply tail_case. now rewrite Hc.
  - assert (EX : X = U) by (apply lastn_all; lia).
    exists l0. split; [apply find_known_le|]. split.
    + rewrite <- HU. rewrite <- EX. exact Hle.
    + rewrite EX. apply tail_case. exact HU.
Qed.

Lemma block_wf (n : nat) (lsb_xs : nat) (h : Z) :
  (lsb_xs <= n)%nat ->
  0 <= h < 2 ^ Z.of_nat (n - lsb_xs) ->
  wf_interval (Z.of_nat n) (block lsb_xs (mkBits (Z.of_nat (n - lsb_xs)) h))
  /\ proper (block lsb_xs (mkBits (Z.of_nat (n - lsb_xs)) h)).
Proof.
  intros Hl Hh. unfold block, Interval.Closed, wf_interval, has_width, proper.
  rewrite !Concat_pair. simpl.
  assert (E : 2 ^ Z.of_nat n = 2 ^ Z.of_nat (n - lsb_xs) * 2 ^ Z.of_nat lsb_xs).
  { rewrite <- Z.pow_add_r by lia. f_equal. lia. }
  assert (0 < 2 ^ Z.of_nat lsb_xs) by (apply Z.pow_pos_nonneg; lia).
  rewrite E. repeat split; try lia; try nia.
Qed.

Lemma block_covers (lsb_xs : nat) (w : Z) (v : Bits) :
  0 <= value v ->
  Interval.Covers (block lsb_xs (mkBits w (value v / 2 ^ Z.of_nat lsb_xs))) v = true.
Proof.
  intros Hv.
  assert (Hpos : 0 < 2 ^ Z.of_nat lsb_xs) by (apply Z.pow_pos_nonneg; lia).
  pose proof (Z.div_mod (value v) (2 ^ Z.of_nat lsb_xs) ltac:(lia)) as E.
  pose proof (Z.mod_pos_bound (value v) (2 ^ Z.of_nat lsb_xs) Hpos) as Hb.
  apply covers_proper.
  - unfold proper, block, Interval.Closed. rewrite !Concat_pair. simpl. lia.
  - unfold block, Interval.Closed. rewrite !Concat_pair. simpl. nia.
Qed.

Lemma blocks_wf (tern : TernaryVector) (lsb_xs : nat) :
  (lsb_xs <= length tern)%nat ->
  Forall (fun i => wf_interval (Z.of_nat (length tern)) i /\ proper i)
    (map (block lsb_xs) (ternary_ops.AllBitsValues (skipn lsb_xs tern))).
Proof.
  intros Hl. unfold ternary_ops.AllBitsValues. rewrite map_map.
  apply Forall_forall. intros i Hi. apply in_map_iff in Hi.
  destruct Hi as (h & <- & Hh). apply all_values_bounds in Hh.
  rewrite length_skipn in *. now apply block_wf.
Qed.

Lemma Forall_and_l {A : Type} (P Q : A -> Prop) (l : list A) :
  Forall (fun a => P a /\ Q a) l -> Forall P l.
Proof. intros H. eapply Forall_impl; [|exact H]. simpl. tauto. Qed.

Lemma Forall_and_r {A : Type} (P Q : A -> Prop) (l : list A) :
  Forall (fun a => P a /\ Q a) l -> Forall Q l.
Proof. intros H. eapply Forall_impl; [|exact H]. simpl. tauto. Qed.

Lemma known_values_unique (t : TernaryVector) (z : Z) :
  ternary_ops.IsFullyKnown t = true ->
  consistent_from t z -> 0 <= z < 2 ^ Z.of_nat (length t) ->
  z = ternary_ops.known_values t.
Proof.
  intros Hk Hc Hz. pose proof (all_values_complete t z Hc Hz) as Hin.
  rewrite (all_values_known t Hk) in Hin. destruct Hin as [<-|[]]. reflexivity.
Qed.

Lemma known_values_bounds (t : TernaryVector) :
  0 <= ternary_ops.known_values t < 2 ^ Z.of_nat (length t).
Proof.
  induction t as [|x t IH].
  - simpl. lia.
  - change (length (x :: t)) with (S (length t)).
    rewrite Nat2Z.inj_succ, Z.pow_succ_r by lia.
    cbn [ternary_ops.known_values]. destruct x; lia.
Qed.

Lemma Normalize_wf (s : IntervalSet) :
  wf_set s -> wf_set (IntervalSet.Normalize s).
Proof.
  intros [Hw Hwf]. split; simpl; auto. now apply normalize_list_wf.
Qed.

Lemma Normalize_normalized (s : IntervalSet) :
  wf_set s -> IntervalSet.IsNormalized (IntervalSet.Normalize s) = true.
Proof.
  intros [Hw Hwf]. unfold IntervalSet.IsNormalized. simpl.
  now apply normalize_list_separated.
Qed.

Lemma Normalize_covers (s : IntervalSet) (v : Bits) :
  wf_set s -> 0 <= value v < 2 ^ BitCount s ->
  IntervalSet.Covers (IntervalSet.Normalize s) v = IntervalSet.Covers s v.
Proof.
  intros [Hw Hwf] Hv. unfold IntervalSet.Covers. simpl.
  now apply normalize_list_covers.
Qed.

Lemma Precise_wf (b : Bits) :
  0 <= bit_count b -> 0 <= value b < 2 ^ bit_count b ->
  wf_set (IntervalSet.Precise b)
  /\ IntervalSet.IsNormalized (IntervalSet.Precise b) = true.
Proof.
  intros Hw Hv. split.
  - split; simpl; auto. repeat constructor; simpl; lia.
  - unfold IntervalSet.IsNormalized. simpl. rewrite !andb_true_r. apply Z.leb_le. lia.
Qed.

Lemma Precise_covers (b v : Bits) :
  IntervalSet.Covers (IntervalSet.Precise b) v = (value v =? value b).
Proof.
  unfold IntervalSet.Covers, IntervalSet.Precise, Interval.Precise. simpl.
  rewrite orb_false_r. unfold Interval.Covers, Interval.IsImproper, bits_ops.UGreaterThan.
  simpl. rewrite Z.ltb_irrefl.
  destruct (Z.leb_spec (value b) (value v)); destruct (Z.leb_spec (value v) (value b));
    destruct (Z.eqb_spec (value v) (value b)); simpl; auto; lia.
Qed.

(** [FromTernary] returns a normalized set that covers every filling of the
    unknown bits. *)
Lemma FromTernary_sound (tern : TernaryVector) (max_interval_bits : Z) (v : Bits) :
  0 <= max_interval_bits ->
  0 <= value v < 2 ^ Z.of_nat (length tern) ->
  consistent tern v = true ->
  exists s,
    FromTernary tern max_interval_bits = Some s
    /\ BitCount s = Z.of_nat (length tern)
    /\ wf_set s
    /\ IntervalSet.IsNormalized s = true
    /\ IntervalSet.Covers s v = true.
Proof.
  intros Hm Hv Hc. apply consistent_consistent_from in Hc.
  destruct (ternary_ops.IsFullyKnown tern) eqn:Hk.
  - exists (IntervalSet.Precise (ternary_ops.ToKnownBitsValues tern)).
    unfold FromTernary.
    replace (0 <=? max_interval_bits) with true by (symmetry; now apply Z.leb_le).
    cbn [check bind]. rewrite Hk.
    pose proof (known_values_bounds tern) as Hb.
    destruct (Precise_wf (ternary_ops.ToKnownBitsValues tern)) as [H1 H2];
      try (simpl; lia).
    repeat split; auto; try apply H1.
    rewrite Precise_covers. simpl. apply Z.eqb_eq.
    now apply known_values_unique.
  - destruct (FromTernary_shape tern max_interval_bits Hm Hk) as (l & Hl & _ & E).
    eexists. split; [exact E|].
    pose proof (blocks_wf tern l Hl) as Hb.
    assert (Hwf : wf_set (mkIntervalSet (Z.of_nat (length tern))
                   (map (block l) (ternary_ops.AllBitsValues (skipn l tern))))).
    { split; simpl; [lia|]. eapply Forall_and_l; eauto. }
    split; [reflexivity|].
    split; [now apply Normalize_wf|].
    split; [now apply Normalize_normalized|].
    rewrite Normalize_covers by auto.
    unfold IntervalSet.Covers. simpl. apply covers_list_iff.
    exists (block l (mkBits (Z.of_nat (length (skipn l tern))) (value v / 2 ^ Z.of_nat l))).
    split; [|apply block_covers; lia].
    apply in_map. unfold ternary_ops.AllBitsValues. apply in_map.
    apply all_values_complete; [now apply consistent_from_skipn|].
    rewrite length_skipn.
    assert (0 < 2 ^ Z.of_nat l) by (apply Z.pow_pos_nonneg; lia).
    split; [apply Z.div_pos; lia|].
    apply Z.div_lt_upper_bound; [lia|].
    rewrite <- Z.pow_add_r by lia.
    replace (Z.of_nat l + Z.of_nat (length tern - l)) with (Z.of_nat (length tern)) by lia.
    lia.
Qed.

(** [FromTernary] returns at most [2 ^ max_interval_bits] intervals. *)
Lemma FromTernary_count (tern : TernaryVector) (max_interval_bits : Z) :
  0 <= max_interval_bits ->
  exists s,
    FromTernary tern max_interval_bits = Some s
    /\ IntervalSet.NumberOfIntervals s <= 2 ^ max_interval_bits.
Proof.
  intros Hm. destruct (ternary_ops.IsFullyKnown tern) eqn:Hk.
  - exists (IntervalSet.Precise (ternary_ops.ToKnownBitsValues tern)).
    unfold FromTernary.
    replace (0 <=? max_interval_bits) with true by (symmetry; now apply Z.leb_le).
    cbn [check bind]. rewrite Hk. split; auto.
    unfold IntervalSet.NumberOfIntervals. simpl.
    assert (0 < 2 ^ max_interval_bits) by (apply Z.pow_pos_nonneg; lia). lia.
  - destruct (FromTernary_shape tern max_interval_bits Hm Hk) as (l & Hl & Hc & E).
    eexists. split; [exact E|].
    unfold IntervalSet.NumberOfIntervals. simpl.
    pose proof (blocks_wf tern l Hl) as Hb. apply Forall_and_r in Hb.
    pose proof (normalize_list_length (Z.of_nat (length tern)) _ Hb) as Hlen.
    unfold ternary_ops.AllBitsValues in Hlen at 2.
    rewrite !length_map, all_values_length in Hlen.
    apply Nat2Z.inj_le in Hlen. rewrite Nat2Z.inj_pow in Hlen.
    etransitivity; [exact Hlen|].
    apply Z.pow_le_mono_r; lia.
Qed.

(** * MinimizeIntervals: the intrusive list and the heap *)

Lemma store_set_eq (mem : store) (p : nat) (v : MergeInterval) :
  store_set mem p v p = v.
Proof. unfold store_set. now rewrite Nat.eqb_refl. Qed.

Lemma store_set_neq (mem : store) (p q : nat) (v : MergeInterval) :
  q <> p -> store_set mem p v q = mem q.
Proof. intros H. unfold store_set. apply Nat.eqb_neq in H. now rewrite H. Qed.

Lemma last_cons_default {A : Type} (l : list A) (a b : A) :
  last (a :: l) b = last l a.
Proof.
  revert a b. induction l as [|c l IH]; intros a b; [reflexivity|].
  change (last (a :: c :: l) b) with (last (c :: l) b). now rewrite !IH.
Qed.

Lemma linked_app (mem : store) (l1 l2 : list nat) :
  forall a, linked mem a (l1 ++ l2) <-> linked mem a l1 /\ linked mem (last l1 a) l2.
Proof.
  induction l1 as [|b l1 IH]; intros a.
  - simpl. tauto.
  - rewrite last_cons_default. simpl. rewrite IH. tauto.
Qed.

Lemma last_app_cons {A : Type} (l1 l2 : list A) (a d : A) :
  last (l1 ++ a :: l2) d = last l2 a.
Proof.
  induction l1 as [|b l1 IH]; simpl app.
  - apply last_cons_default.
  - rewrite last_cons_default. destruct l1 as [|c l1].
    + simpl app. apply last_cons_default.
    + simpl app in *. rewrite last_cons_default in IH. rewrite last_cons_default.
      exact IH.
Qed.

Lemma last_snoc {A : Type} (l : list A) (a d : A) : last (l ++ [a]) d = a.
Proof. apply last_last. Qed.

Lemma last_in_or_default {A : Type} (l : list A) (d : A) :
  In (last l d) (d :: l).
Proof.
  revert d. induction l as [|a l IH]; intros d; [now left|].
  rewrite last_cons_default. right. apply IH.
Qed.

(** Links that a change of the store leaves alone. *)
Lemma linked_frame (mem mem' : store) (l : list nat) :
  forall a,
    linked mem a l ->
    (forall x, In x (removelast (a :: l)) ->
       next (mem' x) = next (mem x)
       /\ UpperBound (fin mem' x) = UpperBound (fin mem x)) ->
    (forall y, In y l ->
       prev (mem' y) = prev (mem y)
       /\ gap_with_previous (mem' y) = gap_with_previous (mem y)
       /\ LowerBound (fin mem' y) = LowerBound (fin mem y)) ->
    linked mem' a l.
Proof.
  induction l as [|b l IH]; intros a Hl Hx Hy; [exact I|].
  destruct Hl as [(Hn & Hp & Hg) Hl]. split.
  - destruct (Hx a) as [Hxn Hxu]; [simpl; destruct l; now left|].
    destruct (Hy b) as (Hyp & Hyg & Hyl); [now left|].
    unfold link. rewrite Hxn, Hyp, Hyg, Hyl, Hxu. auto.
  - apply IH; auto.
    + intros x Hin. apply Hx. simpl. simpl in Hin. destruct l; [destruct Hin|].
      right. exact Hin.
    + intros y Hin. apply Hy. now right.
Qed.

Lemma NoDup_last_not_in_removelast {A : Type} (l : list A) (a : A) :
  NoDup (a :: l) -> ~ In (last l a) (removelast (a :: l)).
Proof.
  revert a. induction l as [|b l IH]; intros a Hnd Hin; [destruct Hin|].
  rewrite last_cons_default in Hin.
  change (removelast (a :: b :: l)) with (a :: removelast (b :: l)) in Hin.
  inversion Hnd as [|? ? Ha Hnd']; subst.
  destruct Hin as [Hin|Hin].
  - apply Ha. rewrite Hin. apply last_in_or_default.
  - eapply IH; eauto.
Qed.

(** Building the list. *)

Lemma first_and_seq_NoDup (n : nat) : NoDup (first_ptr :: seq 1 n).
Proof. change (first_ptr :: seq 1 n) with (seq 0 (S n)). apply seq_NoDup. Qed.

Lemma build_merge_list_spec (its : list Interval) :
  forall mem merge_list before,
    merge_list = seq 1 (length merge_list) ->
    linked mem first_ptr merge_list ->
    next (mem (last merge_list first_ptr)) = None ->
    fin mem (last merge_list first_ptr) = before ->
    exists mem' merge_list',
      build_merge_list mem merge_list before its = (mem', merge_list')
      /\ merge_list' = seq 1 (length merge_list + length its)
      /\ linked mem' first_ptr merge_list'
      /\ next (mem' (last merge_list' first_ptr)) = None
      /\ finals mem' merge_list' = finals mem merge_list ++ its.
Proof.
  induction its as [|it its IH]; intros mem ml before Hseq Hl Hn Hb.
  - exists mem, ml. simpl. rewrite Nat.add_0_r, app_nil_r. auto.
  - cbn [build_merge_list].
    set (prev_ptr := last ml first_ptr).
    set (node := S (length ml)).
    set (N := mkMergeInterval it
                (bits_ops.Sub (LowerBound it) (UpperBound before)) (Some prev_ptr) None).
    set (mem1 := store_set mem node N).
    set (mem2 := store_set mem1 prev_ptr (set_next (mem1 prev_ptr) (Some node))).
    assert (Hnd : NoDup (first_ptr :: ml)) by (rewrite Hseq; apply first_and_seq_NoDup).
    assert (Hfresh : ~ In node (first_ptr :: ml)).
    { rewrite Hseq. change (first_ptr :: seq 1 (length ml)) with (seq 0 (S (length ml))).
      rewrite in_seq. unfold node. lia. }
    assert (Hprev : In prev_ptr (first_ptr :: ml)) by apply last_in_or_default.
    assert (Hne : node <> prev_ptr) by (intros E; apply Hfresh; now rewrite E).
    assert (Hnode : mem2 node = N).
    { unfold mem2. rewrite store_set_neq by auto. apply store_set_eq. }
    assert (Hpp : mem2 prev_ptr = set_next (mem prev_ptr) (Some node)).
    { unfold mem2. rewrite store_set_eq. unfold mem1. now rewrite store_set_neq by auto. }
    assert (Hother : forall x, x <> node -> x <> prev_ptr -> mem2 x = mem x).
    { intros x H1 H2. unfold mem2, mem1. now rewrite !store_set_neq by auto. }
    assert (Hfin : forall x, In x (first_ptr :: ml) -> fin mem2 x = fin mem x
                     /\ prev (mem2 x) = prev (mem x)
                     /\ gap_with_previous (mem2 x) = gap_with_previous (mem x)).
    { intros x Hx. assert (x <> node) by (intros ->; contradiction).
      destruct (Nat.eq_dec x prev_ptr) as [->|Hxp].
      - unfold fin. rewrite Hpp. auto.
      - unfold fin. rewrite Hother by auto. auto. }
    destruct (IH mem2 (ml ++ [node]) it) as (mem' & ml' & E & Es & El & En & Ef).
    + rewrite length_app. simpl length. rewrite Nat.add_1_r, seq_S.
      rewrite <- Hseq. reflexivity.
    + apply linked_app. split.
      * apply (linked_frame mem); auto.
        -- intros x Hx.
           assert (x <> prev_ptr).
           { intros ->. now apply (NoDup_last_not_in_removelast ml first_ptr Hnd). }
           assert (Hin : In x (first_ptr :: ml)).
           { clear - Hx. revert Hx. generalize first_ptr.
             induction ml as [|b ml IHml]; intros a Hx; [destruct Hx|].
             change (removelast (a :: b :: ml)) with (a :: removelast (b :: ml)) in Hx.
             destruct Hx as [->|Hx]; [now left|]. right. now apply IHml. }
           assert (x <> node) by (intros ->; contradiction).
           unfold fin. rewrite Hother by auto. auto.
        -- intros y Hy. destruct (Hfin y) as (H1 & H2 & H3); [now right|].
           rewrite H1, H2, H3. auto.
      * fold prev_ptr. simpl. split; auto. unfold link.
        rewrite Hpp, Hnode. unfold fin. rewrite Hnode, Hpp. simpl.
        fold (fin mem prev_ptr). unfold prev_ptr. rewrite Hb. auto.
    + rewrite last_snoc, Hnode. reflexivity.
    + rewrite last_snoc. unfold fin. now rewrite Hnode.
    + exists mem', ml'. split; [exact E|]. split.
      * rewrite Es, length_app. simpl length. f_equal. lia.
      * split; [exact El|]. split; [exact En|].
        rewrite Ef. unfold finals.
        change (first_ptr :: ml ++ [node]) with ((first_ptr :: ml) ++ [node]).
        rewrite map_app, <- app_assoc.
        assert (Em : map (fin mem2) (first_ptr :: ml) = map (fin mem) (first_ptr :: ml)).
        { apply map_ext_in. intros x Hx. now apply Hfin. }
        rewrite Em. f_equal. simpl. unfold fin. now rewrite Hnode.
Qed.

(** The least node of the heap is the node after the smallest gap. *)

Lemma gap_plain (w : Z) (a b : Interval) :
  wf_interval w a -> wf_interval w b ->
  value (UpperBound a) + 1 < value (LowerBound b) ->
  value (bits_ops.Sub (LowerBound b) (UpperBound a))
  = value (LowerBound b) - value (UpperBound a).
Proof.
  intros [_ [_ Ha]] [[Hb1 Hb] _] Hlt. unfold bits_ops.Sub. simpl.
  rewrite Hb1. apply Z.mod_small. lia.
Qed.

Lemma compare_lt_iff (l r : MergeInterval) :
  MergeInterval_compare l r = Lt <->
  value (gap_with_previous l) < value (gap_with_previous r)
  \/ (value (gap_with_previous l) = value (gap_with_previous r)
      /\ value (LowerBound (final_interval l)) < value (LowerBound (final_interval r))).
Proof.
  unfold MergeInterval_compare, bits_ops.UCmp.
  destruct (Z.compare_spec (value (gap_with_previous l)) (value (gap_with_previous r)));
    [rewrite Z.compare_lt_iff| |]; split; intros; try lia; try discriminate; auto.
Qed.

Lemma min_element_position (w : Z) (mem : store) (l : list nat) :
  forall a best pos best_pos,
    linked mem a l ->
    IntervalSet.separated (map (fin mem) (a :: l)) = true ->
    Forall (wf_interval w) (map (fin mem) (a :: l)) ->
    value (LowerBound (fin mem best)) <= value (UpperBound (fin mem a)) ->
    (min_element mem best l = best
     /\ smallest_gap_from (fin mem a) (map (fin mem) l) pos best_pos
          (value (gap_with_previous (mem best))) = best_pos)
    \/ (exists j, (j < length l)%nat
                  /\ min_element mem best l = nth j l O
                  /\ smallest_gap_from (fin mem a) (map (fin mem) l) pos best_pos
                       (value (gap_with_previous (mem best))) = (pos + j)%nat).
Proof.
  induction l as [|p l IH]; intros a best pos best_pos Hl Hs Hwf Hb.
  - left. split; reflexivity.
  - destruct Hl as [(Hn & Hp & Hg) Hl].
    change (map (fin mem) (a :: p :: l)) with (fin mem a :: map (fin mem) (p :: l)) in *.
    apply separated_cons in Hs. destruct Hs as (Hpa & Hs & Hgap).
    change (map (fin mem) (p :: l)) with (fin mem p :: map (fin mem) l) in *.
    inversion Hwf as [|? ? Hwa Hwf']; subst.
    inversion Hwf' as [|? ? Hwp Hwf'']; subst.
    pose proof (gap_plain w _ _ Hwa Hwp Hgap) as Hd. rewrite <- Hg in Hd.
    pose proof (separated_cons _ _ Hs) as (Hpp & _ & _).
    cbn [min_element smallest_gap_from].
    rewrite <- Hd.
    destruct (Z.ltb_spec (value (gap_with_previous (mem p)))
                (value (gap_with_previous (mem best)))) as [Hlt|Hge].
    + assert (Ec : MergeInterval_compare (mem p) (mem best) = Lt)
        by (apply compare_lt_iff; auto).
      rewrite Ec.
      destruct (IH p p (S pos) pos Hl Hs Hwf' Hpp) as [[E1 E2]|(j & Hj & E1 & E2)].
      * right. exists O. simpl. rewrite E1, E2. split; [lia|]. split; [reflexivity|lia].
      * right. exists (S j). simpl. rewrite E1, E2. split; [lia|]. split; [reflexivity|lia].
    + assert (Ec : MergeInterval_compare (mem p) (mem best) <> Lt).
      { rewrite compare_lt_iff. unfold fin, proper in *. lia. }
      assert (Eb : match MergeInterval_compare (mem p) (mem best) with
                   | Lt => p | _ => best end = best)
        by (destruct (MergeInterval_compare (mem p) (mem best)); congruence).
      rewrite Eb.
      destruct (IH p best (S pos) best_pos Hl Hs Hwf') as [[E1 E2]|(j & Hj & E1 & E2)].
      * unfold proper in *. lia.
      * left. auto.
      * right. exists (S j). simpl. rewrite E1, E2. split; [lia|]. split; [reflexivity|lia].
Qed.

Lemma pop_min_element_smallest_gap (w : Z) (mem : store) (merge_list : list nat) :
  merge_list <> [] ->
  linked mem first_ptr merge_list ->
  NoDup (first_ptr :: merge_list) ->
  IntervalSet.separated (finals mem merge_list) = true ->
  Forall (wf_interval w) (finals mem merge_list) ->
  exists A m B,
    merge_list = A ++ m :: B
    /\ pop_min_element mem merge_list = Some (m, A ++ B)
    /\ smallest_gap (finals mem merge_list) = S (length A).
Proof.
  intros Hne Hl Hnd Hs Hwf. destruct merge_list as [|p l]; [congruence|].
  unfold finals in *.
  change (map (fin mem) (first_ptr :: p :: l))
    with (fin mem first_ptr :: map (fin mem) (p :: l)) in *.
  destruct Hl as [(Hn & Hp & Hg) Hl].
  apply separated_cons in Hs. destruct Hs as (Hpa & Hs & Hgap).
  inversion Hwf as [|? ? Hwa Hwf']; subst.
  change (map (fin mem) (p :: l)) with (fin mem p :: map (fin mem) l) in *.
  inversion Hwf' as [|? ? Hwp Hwf'']; subst.
  pose proof (gap_plain w _ _ Hwa Hwp Hgap) as Hd. rewrite <- Hg in Hd.
  pose proof (separated_cons _ _ Hs) as (Hpp & _ & _).
  assert (Hrem : forall A m B, p :: l = A ++ m :: B ->
            remove_ptr m (p :: l) = A ++ B).
  { inversion Hnd as [|? ? _ Hnd']; subst. clear - Hnd'.
    generalize dependent (p :: l). intros ml Hnd A. revert ml Hnd.
    induction A as [|x A IHA]; intros ml Hnd m B E; subst ml.
    - simpl. now rewrite Nat.eqb_refl.
    - simpl. inversion Hnd as [|? ? Hx Hnd']; subst.
      destruct (Nat.eqb_spec x m) as [->|Hxm].
      + exfalso. apply Hx. apply in_or_app. right. now left.
      + f_equal. now apply IHA. }
  cbn [smallest_gap pop_min_element]. rewrite <- Hd.
  destruct (min_element_position w mem l p p 2%nat 1%nat Hl Hs Hwf' Hpp)
    as [[E1 E2]|(j & Hj & E1 & E2)].
  - exists [], p, l. rewrite E1, E2. split; [reflexivity|]. split; [|reflexivity].
    f_equal. f_equal. apply (Hrem [] p l). reflexivity.
  - destruct (nth_split l O Hj) as (l1 & l2 & El & Hlen).
    exists (p :: l1), (nth j l O), l2. rewrite E1, E2.
    split; [simpl; now rewrite <- El|]. split.
    + f_equal. f_equal. apply Hrem. simpl. now rewrite <- El.
    + simpl. lia.
Qed.

(** Merging the least node into its predecessor. *)

Lemma merge_into_previous_spec (mem : store) (m p : nat) :
  p <> m ->
  (forall b, next (mem m) = Some b -> b <> p /\ b <> m) ->
  let mem' := merge_into_previous mem m p in
  mem' p = mkMergeInterval
             (mkInterval (LowerBound (fin mem p)) (UpperBound (fin mem m)))
             (gap_with_previous (mem p)) (prev (mem p)) (next (mem m))
  /\ (forall b, next (mem m) = Some b -> mem' b = set_prev (mem b) (prev (mem m)))
  /\ (forall x, x <> p -> next (mem m) <> Some x -> mem' x = mem x).
Proof.
  intros Hpm Hb. unfold merge_into_previous.
  set (mem1 := store_set mem p _).
  assert (E1m : mem1 m = mem m) by (unfold mem1; now rewrite store_set_neq by auto).
  rewrite E1m.
  set (mem2 := store_set mem1 p _).
  assert (E2m : mem2 m = mem m) by (unfold mem2; now rewrite store_set_neq by auto).
  rewrite E2m.
  assert (E2p : mem2 p = mkMergeInterval
             (mkInterval (LowerBound (fin mem p)) (UpperBound (fin mem m)))
             (gap_with_previous (mem p)) (prev (mem p)) (next (mem m))).
  { unfold mem2. rewrite store_set_eq. unfold mem1. rewrite store_set_eq. reflexivity. }
  assert (E2x : forall x, x <> p -> mem2 x = mem x).
  { intros x Hx. unfold mem2, mem1. now rewrite !store_set_neq by auto. }
  destruct (next (mem m)) as [b|] eqn:En.
  - destruct (Hb b eq_refl) as [Hbp Hbm]. repeat split.
    + now rewrite store_set_neq by auto.
    + intros b' E. injection E as <-. rewrite store_set_eq. now rewrite E2x by auto.
    + intros x Hx Hxb. rewrite store_set_neq by congruence. now apply E2x.
  - repeat split; auto. intros b' E. discriminate.
Qed.

Lemma merge_at_SS (i : nat) (a b : Interval) (l : list Interval) :
  merge_at (S (S i)) (a :: b :: l) = a :: merge_at (S i) (b :: l).
Proof. reflexivity. Qed.

Lemma merge_at_1 (a b : Interval) (l : list Interval) :
  merge_at 1 (a :: b :: l) = mkInterval (LowerBound a) (UpperBound b) :: l.
Proof. reflexivity. Qed.

Lemma finals_merge (mem mem' : store) (m : nat) (B : list nat) (A : list nat) :
  forall a0,
    NoDup (a0 :: A ++ m :: B) ->
    fin mem' (last A a0)
    = mkInterval (LowerBound (fin mem (last A a0))) (UpperBound (fin mem m)) ->
    (forall x, x <> last A a0 -> fin mem' x = fin mem x) ->
    map (fin mem') (a0 :: A ++ B)
    = merge_at (S (length A)) (map (fin mem) (a0 :: A ++ m :: B)).
Proof.
  induction A as [|x A IH]; intros a0 Hnd Hp Hx.
  - simpl in *. rewrite Hp. f_equal. apply map_ext_in. intros y Hy. apply Hx.
    inversion Hnd as [|? ? Ha _]; subst. intros ->. apply Ha. now right.
  - rewrite last_cons_default in Hp, Hx.
    inversion Hnd as [|? ? Ha Hnd']; subst.
    change (map (fin mem') (a0 :: (x :: A) ++ B))
      with (fin mem' a0 :: map (fin mem') (x :: A ++ B)).
    change (map (fin mem) (a0 :: (x :: A) ++ m :: B))
      with (fin mem a0 :: fin mem x :: map (fin mem) (A ++ m :: B)).
    change (length (x :: A)) with (S (length A)).
    rewrite merge_at_SS.
    change (fin mem x :: map (fin mem) (A ++ m :: B))
      with (map (fin mem) (x :: A ++ m :: B)).
    rewrite <- IH by auto. f_equal. apply Hx. intros ->. apply Ha.
    pose proof (last_in_or_default A x) as Hin.
    destruct Hin as [<-|Hin]; [now left|]. right. apply in_or_app. now left.
Qed.

Lemma in_removelast {A : Type} (l : list A) (x : A) :
  In x (removelast l) -> In x l.
Proof.
  induction l as [|a l IH]; [auto|]. destruct l as [|b l]; [intros []|].
  change (removelast (a :: b :: l)) with (a :: removelast (b :: l)).
  intros [->|H]; [now left|right; auto].
Qed.

Lemma list_inv_merge (mem : store) (A B : list nat) (m : nat) :
  list_inv mem (A ++ m :: B) ->
  let p := last A first_ptr in
  prev (mem m) = Some p
  /\ list_inv (merge_into_previous mem m p) (A ++ B)
  /\ finals (merge_into_previous mem m p) (A ++ B)
     = merge_at (S (length A)) (finals mem (A ++ m :: B)).
Proof.
  intros (Hnd & Hl & Hlast) p.
  apply linked_app in Hl. destruct Hl as [HlA HlmB]. fold p in HlmB.
  destruct HlmB as [(Hpn & Hmp & Hmg) HlB].
  split; [exact Hmp|].
  (* distinctness *)
  assert (HpIn : In p (first_ptr :: A)) by apply last_in_or_default.
  assert (Hnd2 : NoDup ((first_ptr :: A) ++ m :: B)) by exact Hnd.
  pose proof (NoDup_remove _ _ _ Hnd2) as [Hnd3 HmNot].
  assert (Hpm : p <> m).
  { intros E. apply HmNot. apply in_or_app. left. now rewrite <- E. }
  assert (HpB : ~ In p B).
  { intros Hin. apply NoDup_app_remove_r in Hnd2 as HndA.
    clear - Hnd3 HpIn Hin.
    induction (first_ptr :: A) as [|x l IHl]; [destruct HpIn|].
    simpl in Hnd3. inversion Hnd3 as [|? ? Hx Hnd']; subst.
    destruct HpIn as [->|HpIn]; [apply Hx, in_or_app; now right|auto]. }
  assert (Hnext : forall b, next (mem m) = Some b -> B <> [] /\ hd O B = b).
  { intros b E. destruct B as [|b' B'].
    - simpl in Hlast. rewrite last_last in Hlast. congruence.
    - destruct HlB as [(Hn' & _) _]. split; [discriminate|]. simpl. congruence. }
  assert (HnextB : forall b, next (mem m) = Some b -> In b B).
  { intros b E. destruct (Hnext b E) as [Hne <-]. destruct B; [congruence|now left]. }
  assert (Hbne : forall b, next (mem m) = Some b -> b <> p /\ b <> m).
  { intros b E. pose proof (HnextB b E) as Hin. split.
    - intros ->. contradiction.
    - intros ->. apply NoDup_remove_2 in Hnd2. apply Hnd2. apply in_or_app. now right. }
  destruct (merge_into_previous_spec mem m p Hpm Hbne) as (Ep & Eb & Ex).
  set (mem' := merge_into_previous mem m p) in *.
  assert (Hfin : forall x, x <> p -> fin mem' x = fin mem x).
  { intros x Hx. unfold fin. destruct (next (mem m)) as [b|] eqn:En.
    - destruct (Nat.eq_dec x b) as [->|Hxb].
      + rewrite (Eb b eq_refl). reflexivity.
      + rewrite Ex; auto. congruence.
    - rewrite Ex; auto. congruence. }
  assert (Hkeep : forall x, x <> p ->
            prev (mem' x) = (if match next (mem m) with Some b => Nat.eqb x b | None => false end
                             then prev (mem m) else prev (mem x))
            /\ gap_with_previous (mem' x) = gap_with_previous (mem x)
            /\ next (mem' x) = next (mem x)).
  { intros x Hx. destruct (next (mem m)) as [b|] eqn:En.
    - destruct (Nat.eqb_spec x b) as [->|Hxb].
      + rewrite (Eb b eq_refl). auto.
      + rewrite Ex; auto. congruence.
    - rewrite Ex; auto. congruence. }
  split; [split; [|split]|].
  - (* no duplicates *) exact Hnd3.
  - (* links *)
    apply linked_app. fold p. split.
    + apply (linked_frame mem); auto.
      * intros x Hx.
        assert (Hxp : x <> p).
        { intros ->. apply NoDup_app_remove_r in Hnd2.
          now apply (NoDup_last_not_in_removelast A first_ptr Hnd2). }
        destruct (Hkeep x Hxp) as (_ & _ & Hn). rewrite Hn, (Hfin x Hxp). auto.
      * intros y Hy.
        assert (HyB : ~ In y B).
        { intros Hin. apply NoDup_remove_1 in Hnd2. inversion Hnd2 as [|? ? _ Hnd4]; subst.
          clear - Hnd4 Hy Hin. induction A as [|x A IHA]; [destruct Hy|].
          simpl in Hnd4. inversion Hnd4 as [|? ? Hx Hnd']; subst.
          destruct Hy as [->|Hy]; [apply Hx, in_or_app; now right|auto]. }
        destruct (Nat.eq_dec y p) as [->|Hyp].
        -- unfold fin. rewrite Ep. simpl. auto.
        -- destruct (Hkeep y Hyp) as (Hpv & Hg & _). rewrite Hg, (Hfin y Hyp).
           split; [|auto]. rewrite Hpv.
           destruct (next (mem m)) as [b|] eqn:En; auto.
           destruct (Nat.eqb_spec y b) as [->|]; auto.
           exfalso. apply HyB. now apply HnextB.
    + destruct B as [|b B']; [exact I|].
      destruct HlB as [(Hmn & Hbp & Hbg) HlB'].
      assert (Hbp' : b <> p) by (intros ->; apply HpB; now left).
      split.
      * unfold link. rewrite Ep. simpl. split; [exact Hmn|].
        destruct (Hkeep b Hbp') as (Hpv & Hg & _).
        rewrite Hpv, Hg, Hmn, Nat.eqb_refl, (Hfin b Hbp'). split; [exact Hmp|].
        unfold fin at 2. rewrite Ep. simpl. exact Hbg.
      * apply (linked_frame mem); auto.
        -- intros x Hx. apply in_removelast in Hx.
           assert (Hxp : x <> p) by (intros ->; contradiction).
           destruct (Hkeep x Hxp) as (_ & _ & Hn). rewrite Hn, (Hfin x Hxp). auto.
        -- intros y Hy.
           assert (Hyp : y <> p) by (intros ->; apply HpB; now right).
           destruct (Hkeep y Hyp) as (Hpv & Hg & _). rewrite Hg, (Hfin y Hyp).
           split; [|auto]. rewrite Hpv, Hmn.
           destruct (Nat.eqb_spec y b) as [->|]; auto.
           exfalso. apply NoDup_remove_1 in Hnd2. apply NoDup_app_remove_l in Hnd2.
           inversion Hnd2; subst. contradiction.
  - (* the end of the list *)
    destruct B as [|b B'].
    + rewrite app_nil_r. fold p. rewrite Ep. simpl.
      simpl in Hlast. now rewrite last_last in Hlast.
    + rewrite last_app_cons in *. rewrite last_cons_default in Hlast.
      set (z := last B' b) in *.
      assert (HzB : In z (b :: B')) by apply last_in_or_default.
      assert (Hzp : z <> p) by (intros E; apply HpB; now rewrite <- E).
      destruct (Hkeep z Hzp) as (_ & _ & Hn). now rewrite Hn.
  - (* the intervals *)
    unfold finals. apply finals_merge; auto.
    fold p. unfold fin at 1. now rewrite Ep.
Qed.

(** * The reference greedy algorithm *)

Lemma merge_at_separated (l : list Interval) :
  forall i b,
    IntervalSet.separated (b :: l) = true ->
    exists c r,
      merge_at i (b :: l) = c :: r
      /\ LowerBound c = LowerBound b
      /\ IntervalSet.separated (c :: r) = true.
Proof.
  induction l as [|b' l IH]; intros i b Hs.
  - exists b, []. destruct i; auto.
  - destruct i as [|[|i]].
    + exists b, (b' :: l). auto.
    + rewrite merge_at_1. eexists; eexists. split; [reflexivity|]. split; [reflexivity|].
      apply separated_cons in Hs. destruct Hs as (Hpb & Hs & Hg).
      apply separated_cons in Hs as Hs'. destruct Hs' as (Hpb' & Hs' & Hg').
      unfold proper in *.
      destruct l as [|c l].
      * simpl. rewrite !andb_true_r. apply Z.leb_le. lia.
      * change (IntervalSet.separated (?a :: c :: l))
          with ((value (LowerBound a) <=? value (UpperBound a))
                && (value (UpperBound a) + 1 <? value (LowerBound c))
                && IntervalSet.separated (c :: l)).
        rewrite Hs'. simpl LowerBound. simpl UpperBound.
        rewrite andb_true_r, andb_true_iff, Z.leb_le, Z.ltb_lt. lia.
    + rewrite merge_at_SS.
      apply separated_cons in Hs. destruct Hs as (Hpb & Hs & Hg).
      destruct (IH (S i) b' Hs) as (c & r & E & El & Esep).
      exists b, (c :: r). rewrite E. split; [reflexivity|]. split; [reflexivity|].
      change (IntervalSet.separated (b :: c :: r))
        with ((value (LowerBound b) <=? value (UpperBound b))
              && (value (UpperBound b) + 1 <? value (LowerBound c))
              && IntervalSet.separated (c :: r)).
      rewrite Esep, El, andb_true_r, andb_true_iff, Z.leb_le, Z.ltb_lt.
      unfold proper in *. lia.
Qed.

Lemma merge_at_separated' (i : nat) (l : list Interval) :
  IntervalSet.separated l = true -> IntervalSet.separated (merge_at i l) = true.
Proof.
  destruct l as [|b l]; [destruct i; auto|]. intros Hs.
  destruct (merge_at_separated l i b Hs) as (c & r & E & _ & Esep). now rewrite E.
Qed.

Lemma merge_at_wf (w : Z) (l : list Interval) :
  forall i, Forall (wf_interval w) l -> Forall (wf_interval w) (merge_at i l).
Proof.
  induction l as [|a l IH]; intros i H; [destruct i; auto|].
  destruct l as [|b l]; [destruct i; auto|].
  destruct i as [|[|i]]; auto.
  - rewrite merge_at_1. inversion H as [|? ? Ha H']; subst.
    inversion H' as [|? ? Hb H'']; subst.
    constructor; auto. split; simpl; [apply Ha|apply Hb].
  - rewrite merge_at_SS. inversion H; subst. constructor; auto.
Qed.

Lemma merge_at_covers (l : list Interval) (v : Bits) :
  forall i,
    IntervalSet.separated l = true ->
    covers_list l v = true -> covers_list (merge_at i l) v = true.
Proof.
  induction l as [|a l IH]; intros i Hs Hc; [destruct i; auto|].
  destruct l as [|b l]; [destruct i; auto|].
  destruct i as [|[|i]]; auto.
  - rewrite merge_at_1.
    apply separated_cons in Hs. destruct Hs as (Hpa & Hs & Hg).
    apply separated_cons in Hs. destruct Hs as (Hpb & _ & _).
    change (covers_list (a :: b :: l) v)
      with (Interval.Covers a v || (Interval.Covers b v || covers_list l v)) in Hc.
    change (covers_list (?x :: l) v) with (Interval.Covers x v || covers_list l v).
    rewrite !orb_true_iff in *.
    destruct Hc as [Hc|[Hc|Hc]]; auto; left;
      apply covers_proper in Hc; auto; apply covers_proper;
      unfold proper in *; simpl; lia.
  - rewrite merge_at_SS.
    apply separated_cons in Hs. destruct Hs as (Hpa & Hs & Hg).
    change (covers_list (a :: ?x) v) with (Interval.Covers a v || covers_list x v) in *.
    rewrite orb_true_iff in *. destruct Hc as [Hc|Hc]; auto.
Qed.

Lemma merge_at_hull (l : list Interval) :
  forall i, hull_of (merge_at i l) = hull_of l.
Proof.
  induction l as [|a l IH]; intros i; [destruct i; auto|].
  destruct l as [|b l]; [destruct i; auto|].
  destruct i as [|[|i]]; auto.
  - rewrite merge_at_1. cbn [hull_of LowerBound]. f_equal. f_equal.
    destruct l as [|c l]; [reflexivity|].
    now rewrite !last_cons_default.
  - rewrite merge_at_SS. specialize (IH (S i)).
    destruct (merge_at (S i) (b :: l)) as [|c r] eqn:E; [discriminate|].
    cbn [hull_of] in *. injection IH as E1 E2. f_equal. f_equal.
    rewrite !last_cons_default. exact E2.
Qed.

Lemma merge_at_length (l : list Interval) :
  forall i, (1 <= i < length l)%nat -> length (merge_at i l) = (length l - 1)%nat.
Proof.
  induction l as [|a l IH]; intros i Hi; [simpl in Hi; lia|].
  destruct l as [|b l]; [simpl in Hi; lia|].
  destruct i as [|[|i]]; [lia| |].
  - rewrite merge_at_1. simpl. lia.
  - rewrite merge_at_SS.
    change (length (a :: merge_at (S i) (b :: l)))
      with (S (length (merge_at (S i) (b :: l)))).
    rewrite IH by (simpl in *; lia). simpl. lia.
Qed.

Lemma smallest_gap_from_range (l : list Interval) :
  forall before pos best_pos best,
    smallest_gap_from before l pos best_pos best = best_pos
    \/ (pos <= smallest_gap_from before l pos best_pos best < pos + length l)%nat.
Proof.
  induction l as [|cur l IH]; intros before pos best_pos best; [now left|].
  cbn [smallest_gap_from].
  destruct (value (LowerBound cur) - value (UpperBound before) <? best).
  - right. destruct (IH cur (S pos) pos (value (LowerBound cur) - value (UpperBound before)))
      as [E|E]; simpl length; lia.
  - destruct (IH cur (S pos) best_pos best) as [E|E]; [now left|right; simpl length; lia].
Qed.

Lemma smallest_gap_range (l : list Interval) :
  (2 <= length l)%nat -> (1 <= smallest_gap l < length l)%nat.
Proof.
  destruct l as [|a [|b l]]; simpl length; try lia. intros _.
  unfold smallest_gap.
  destruct (smallest_gap_from_range l b 2%nat 1%nat
              (value (LowerBound b) - value (UpperBound a))) as [E|E]; lia.
Qed.

Lemma greedy_merge_props (w : Z) (k : nat) (v : Bits) (fuel : nat) :
  forall l,
    IntervalSet.separated l = true -> Forall (wf_interval w) l ->
    let g := greedy_merge fuel k l in
    IntervalSet.separated g = true
    /\ Forall (wf_interval w) g
    /\ hull_of g = hull_of l
    /\ (covers_list l v = true -> covers_list g v = true)
    /\ (length g <= length l)%nat
    /\ ((1 <= k)%nat -> (length g <= Nat.max k (length l - fuel))%nat).
Proof.
  induction fuel as [|fuel IH]; intros l Hs Hwf; cbn [greedy_merge].
  - repeat split; auto; lia.
  - destruct (Nat.leb_spec (length l) k) as [Hle|Hgt].
    + repeat split; auto; lia.
    + destruct (IH (merge_at (smallest_gap l) l)) as (H1 & H2 & H3 & H4 & H5 & H6).
      * now apply merge_at_separated'.
      * now apply merge_at_wf.
      * split; [exact H1|]. split; [exact H2|].
        split; [now rewrite H3, merge_at_hull|].
        split; [intros Hc; apply H4; now apply merge_at_covers|].
        destruct (Nat.le_gt_cases 2 (length l)) as [H2l|H2l].
        -- pose proof (merge_at_length l (smallest_gap l) (smallest_gap_range l H2l)) as El.
           rewrite El in *. split; [lia|]. intros Hk. specialize (H6 Hk). lia.
        -- assert (El : merge_at (smallest_gap l) l = l).
           { destruct l as [|a [|b l]]; simpl in H2l; try lia; reflexivity. }
           rewrite El in *. split; [lia|]. intros Hk. lia.
Qed.

Lemma greedy_merge_fuel (k : nat) (fuel : nat) :
  forall l, (1 <= k)%nat -> (length l <= S fuel)%nat ->
    greedy_merge (S fuel) k l = greedy_merge fuel k l.
Proof.
  induction fuel as [|fuel IH]; intros l Hk Hl.
  - cbn [greedy_merge]. destruct (Nat.leb_spec (length l) k); [reflexivity|lia].
  - change (greedy_merge (S (S fuel)) k l)
      with (if (length l <=? k)%nat then l
            else greedy_merge (S fuel) k (merge_at (smallest_gap l) l)).
    change (greedy_merge (S fuel) k l)
      with (if (length l <=? k)%nat then l
            else greedy_merge fuel k (merge_at (smallest_gap l) l)).
    destruct (Nat.leb_spec (length l) k) as [Hle|Hgt]; [reflexivity|].
    apply IH; auto.
    rewrite merge_at_length; [lia|]. apply smallest_gap_range. lia.
Qed.

(** * The loop of [MinimizeIntervals] is the greedy algorithm *)

Lemma merge_loop_greedy (w size : Z) (fuel : nat) :
  1 <= size < 2 ^ 63 ->
  forall mem merge_list,
    list_inv mem merge_list ->
    IntervalSet.separated (finals mem merge_list) = true ->
    Forall (wf_interval w) (finals mem merge_list) ->
    exists mem' merge_list',
      merge_loop fuel size mem merge_list = (mem', merge_list')
      /\ finals mem' merge_list'
         = greedy_merge fuel (Z.to_nat size) (finals mem merge_list).
Proof.
  intros Hsize. induction fuel as [|fuel IH]; intros mem ml Hinv Hs Hwf.
  - exists mem, ml. auto.
  - cbn [merge_loop greedy_merge].
    rewrite (Z.mod_small (size - 1)) by lia.
    assert (Elen : length (finals mem ml) = S (length ml))
      by (unfold finals; now rewrite length_map).
    rewrite Elen.
    destruct (Z.gtb_spec (Z.of_nat (length ml)) (size - 1)) as [Hgt|Hle].
    + destruct (Nat.leb_spec (S (length ml)) (Z.to_nat size)) as [Hc|Hc]; [lia|].
      assert (Hne : ml <> []) by (intros ->; simpl in Hgt; lia).
      destruct Hinv as (Hnd & Hl & Hlast).
      destruct (pop_min_element_smallest_gap w mem ml Hne Hl Hnd Hs Hwf)
        as (A & m & B & Eml & Epop & Egap).
      rewrite Epop, Egap. subst ml.
      destruct (list_inv_merge mem A B m (conj Hnd (conj Hl Hlast))) as (Hp & Hinv' & Ef).
      rewrite Hp.
      destruct (IH (merge_into_previous mem m (last A first_ptr)) (A ++ B)) as (mem' & ml' & E & Eg).
      * exact Hinv'.
      * rewrite Ef. now apply merge_at_separated'.
      * rewrite Ef. now apply merge_at_wf.
      * exists mem', ml'. split; [exact E|]. now rewrite Eg, Ef.
    + destruct (Nat.leb_spec (S (length ml)) (Z.to_nat size)) as [Hc|Hc]; [|lia].
      exists mem, ml. auto.
Qed.

Lemma greedy_merge_done (fuel k : nat) (l : list Interval) :
  (length l <= k)%nat -> greedy_merge fuel k l = l.
Proof.
  intros H. destruct fuel; cbn [greedy_merge]; auto.
  destruct (Nat.leb_spec (length l) k); [reflexivity|lia].
Qed.

Lemma greedy_merge_to_one (w : Z) (l : list Interval) (h : Interval) :
  IntervalSet.separated l = true -> Forall (wf_interval w) l ->
  hull_of l = Some h ->
  greedy_merge (length l) 1 l = [h].
Proof.
  intros Hs Hwf Hh.
  destruct (greedy_merge_props w 1 (Bits_zero 0) (length l) l Hs Hwf)
    as (_ & _ & H3 & _ & _ & H6).
  specialize (H6 (le_n 1)). rewrite Nat.sub_diag in H6.
  rewrite Hh in H3.
  destruct (greedy_merge (length l) 1 l) as [|c [|d r]]; simpl in *; try discriminate; try lia.
  injection H3 as <-. now destruct c.
Qed.

Lemma SetIntervals_Normalize (w : Z) (l : list Interval) :
  l <> [] -> Forall (wf_interval w) l -> IntervalSet.separated l = true ->
  IntervalSet.Normalize (IntervalSet.SetIntervals l) = mkIntervalSet w l.
Proof.
  intros Hne Hwf Hs. unfold IntervalSet.Normalize, IntervalSet.SetIntervals. simpl.
  rewrite normalize_list_id by exact Hs. f_equal.
  destruct l as [|i l]; [congruence|]. inversion Hwf as [|? ? Hi _]; subst.
  apply Hi.
Qed.

(** The heap and the intrusive list compute what the reference greedy
    algorithm computes. *)
Lemma MinimizeIntervals_greedy (s : IntervalSet) (k : Z) :
  wf_set s -> 1 <= k < 2 ^ 63 ->
  MinimizeIntervals s k = reference_MinimizeIntervals s k.
Proof.
  intros Hwf Hk. unfold MinimizeIntervals, reference_MinimizeIntervals.
  pose proof (Normalize_wf s Hwf) as [Hw HwfN].
  pose proof (Normalize_normalized s Hwf) as HsN. unfold IntervalSet.IsNormalized in HsN.
  set (N := IntervalSet.Normalize s) in *.
  unfold IntervalSet.NumberOfIntervals.
  destruct (Z.leb_spec (Z.of_nat (length (Intervals N))) k) as [Hle|Hgt].
  - rewrite greedy_merge_done by lia. now destruct N.
  - destruct (Z.eqb_spec k 1) as [->|Hk1].
    + unfold IntervalSet.ConvexHull.
      destruct (Intervals N) as [|front rest] eqn:EN; [simpl in Hgt; lia|].
      pose proof (greedy_merge_to_one (BitCount N) (front :: rest)
                    (mkInterval (LowerBound front) (UpperBound (last rest front)))
                    HsN HwfN eq_refl) as Eg.
      change (Z.to_nat 1) with 1%nat. rewrite Eg.
      unfold IntervalSet.Normalize, IntervalSet.AddInterval, IntervalSet.Empty. simpl app.
      cbn [BitCount Intervals]. f_equal.
      apply normalize_list_id.
      destruct (greedy_merge_props (BitCount N) 1 (Bits_zero 0) (length (front :: rest))
                  (front :: rest) HsN HwfN) as (H1 & _).
      now rewrite Eg in H1.
    + destruct (Intervals N) as [|front rest] eqn:EN; [simpl in Hgt; lia|].
      set (first := mkMergeInterval front (Bits_zero 0) None None).
      destruct (build_merge_list_spec rest (fun _ => first) [] front eq_refl I eq_refl eq_refl)
        as (mem1 & ml1 & Eb & Eseq & El & Elast & Ef).
      rewrite Eb.
      assert (Ef' : finals mem1 ml1 = front :: rest) by (rewrite Ef; reflexivity).
      assert (Hinv : list_inv mem1 ml1).
      { split; [|split]; auto. rewrite Eseq. apply first_and_seq_NoDup. }
      destruct (merge_loop_greedy (BitCount N) k (length ml1) Hk mem1 ml1 Hinv)
        as (mem2 & ml2 & E2 & Eg); try (rewrite Ef'; auto).
      rewrite E2.
      change (final_interval (mem2 first_ptr) :: map (fun p => final_interval (mem2 p)) ml2)
        with (finals mem2 ml2).
      rewrite Eg, Ef'.
      assert (Elen : length ml1 = length rest).
      { rewrite Eseq. rewrite length_seq. simpl. reflexivity. }
      rewrite Elen.
      change (length (front :: rest)) with (S (length rest)).
      rewrite (greedy_merge_fuel (Z.to_nat k) (length rest)) by (simpl; lia).
      destruct (greedy_merge_props (BitCount N) (Z.to_nat k) (Bits_zero 0) (length rest)
                  (front :: rest) HsN HwfN) as (H1 & H2 & H3 & _).
      apply SetIntervals_Normalize; auto.
      intros E. rewrite E in H3. discriminate.
Qed.

(** * What [MinimizeIntervals] guarantees *)

Lemma greedy_merge_nonempty (fuel k : nat) (l : list Interval) :
  l <> [] -> greedy_merge fuel k l <> [].
Proof.
  revert l. induction fuel as [|fuel IH]; intros l Hne; cbn [greedy_merge]; auto.
  destruct (length l <=? k)%nat; auto. apply IH.
  destruct l as [|a [|b l]]; try congruence; [destruct (smallest_gap [a]); discriminate|].
  pose proof (merge_at_length (a :: b :: l) (smallest_gap (a :: b :: l))
                (smallest_gap_range (a :: b :: l) ltac:(simpl; lia))) as E.
  intros E0. rewrite E0 in E. simpl in E. lia.
Qed.

Lemma MinimizeIntervals_props (s : IntervalSet) (k : Z) :
  wf_set s -> 1 <= k < 2 ^ 63 ->
  let m := MinimizeIntervals s k in
  wf_set m
  /\ BitCount m = BitCount s
  /\ IntervalSet.IsNormalized m = true
  /\ (forall v, 0 <= value v < 2 ^ BitCount s ->
        IntervalSet.Covers s v = true -> IntervalSet.Covers m v = true)
  /\ IntervalSet.NumberOfIntervals m <= k
  /\ hull_of (Intervals m) = hull_of (Intervals (IntervalSet.Normalize s)).
Proof.
  intros Hwf Hk m. unfold m. rewrite MinimizeIntervals_greedy by auto.
  unfold reference_MinimizeIntervals.
  pose proof (Normalize_wf s Hwf) as [Hw HwfN].
  pose proof (Normalize_normalized s Hwf) as HsN. unfold IntervalSet.IsNormalized in HsN.
  set (N := IntervalSet.Normalize s) in *.
  assert (Hprops := fun v => greedy_merge_props (BitCount N) (Z.to_nat k) v
                                (length (Intervals N)) (Intervals N) HsN HwfN).
  destruct (Hprops (Bits_zero 0)) as (H1 & H2 & H3 & _ & _ & H6).
  split; [split; simpl; auto|].
  split; [reflexivity|].
  split; [exact H1|].
  split.
  - intros v Hv Hc. destruct (Hprops v) as (_ & _ & _ & H4 & _).
    unfold IntervalSet.Covers. cbn [Intervals]. apply H4.
    unfold N. rewrite <- (Normalize_covers s v Hwf Hv) in Hc. exact Hc.
  - split; [|exact H3].
    unfold IntervalSet.NumberOfIntervals. cbn [Intervals].
    specialize (H6 ltac:(lia)). lia.
Qed.

Lemma MinimizeIntervals_small (s : IntervalSet) (k : Z) :
  IntervalSet.IsNormalized s = true ->
  IntervalSet.NumberOfIntervals s <= k ->
  MinimizeIntervals s k = s.
Proof.
  intros Hn Hk. unfold MinimizeIntervals.
  assert (E : IntervalSet.Normalize s = s).
  { unfold IntervalSet.Normalize. rewrite normalize_list_id by exact Hn. now destruct s. }
  rewrite E. destruct (Z.leb_spec (IntervalSet.NumberOfIntervals s) k); [reflexivity|lia].
Qed.

Lemma MinimizeIntervals_one (s : IntervalSet) :
  wf_set s ->
  Intervals (MinimizeIntervals s 1)
  = match IntervalSet.ConvexHull (IntervalSet.Normalize s) with
    | Some h => [h]
    | None => []
    end.
Proof.
  intros Hwf.
  pose proof (Normalize_wf s Hwf) as [Hw HwfN].
  pose proof (Normalize_normalized s Hwf) as HsN. unfold IntervalSet.IsNormalized in HsN.
  unfold MinimizeIntervals, IntervalSet.NumberOfIntervals, IntervalSet.ConvexHull.
  set (N := IntervalSet.Normalize s) in *.
  destruct (Intervals N) as [|front rest] eqn:EN.
  { destruct (Z.leb_spec (Z.of_nat (@length Interval [])) 1) as [_|Hgt];
      [exact EN|simpl in Hgt; lia]. }
  destruct (Z.leb_spec (Z.of_nat (length (front :: rest))) 1) as [Hle|Hgt].
  - destruct rest; [|simpl in Hle; lia]. rewrite EN. simpl. now destruct front.
  - simpl Z.eqb. cbn [IntervalSet.Normalize IntervalSet.AddInterval IntervalSet.Empty Intervals BitCount app].
    apply normalize_list_id. simpl. rewrite !andb_true_r. apply Z.leb_le.
    pose proof (separated_sorted _ HsN) as Hsort.
    pose proof (separated_proper _ HsN) as Hprop.
    assert (Hlast : In (last rest front) (front :: rest)) by apply last_in_or_default.
    inversion Hsort as [|? ? _ Hall]; subst. inversion Hprop as [|? ? Hpf Hpr]; subst.
    destruct Hlast as [<-|Hin]; [exact Hpf|].
    rewrite Forall_forall in Hall, Hpr. specialize (Hall _ Hin). specialize (Hpr _ Hin).
    unfold lo_le, proper in *. lia.
Qed.

(** * The variadic harness *)

Lemma Maximal_covers (w : Z) (v : Bits) :
  0 <= value v < 2 ^ w -> Interval.Covers (Interval.Maximal w) v = true.
Proof.
  intros Hv. apply covers_proper; unfold proper, Interval.Maximal; simpl; lia.
Qed.

Lemma Maximal_wf (w : Z) : 0 <= w -> wf_interval w (Interval.Maximal w).
Proof.
  intros Hw. pose proof (pow2_pos w Hw).
  unfold Interval.Maximal, wf_interval, has_width. simpl. lia.
Qed.

Lemma add_corner_results_spec (w : Z) (lower upper : OverflowResult) (st : IntervalSet) :
  Intervals (fst (add_corner_results w lower upper st))
  = Intervals st ++ emitted w lower upper
  /\ BitCount (fst (add_corner_results w lower upper st)) = BitCount st
  /\ (snd (add_corner_results w lower upper st) = true ->
      emitted w lower upper = [Interval.Maximal w]).
Proof.
  unfold emitted, add_corner_results.
  destruct (negb (first_overflow_bit lower) && negb (first_overflow_bit upper)).
  - simpl. repeat split; auto. discriminate.
  - destruct (first_overflow_bit lower && first_overflow_bit upper
              || second_overflow_bit lower || second_overflow_bit upper
              || bits_ops.UGreaterThan (result upper) (result lower)).
    + simpl. repeat split; auto.
    + simpl. rewrite <- app_assoc. repeat split; auto. discriminate.
Qed.

Lemma emitted_wf (w : Z) (lower upper : OverflowResult) :
  0 <= w -> has_width w (result lower) -> has_width w (result upper) ->
  Forall (wf_interval w) (emitted w lower upper).
Proof.
  intros Hw Hl Hu. pose proof (pow2_pos w Hw).
  unfold emitted, add_corner_results.
  destruct (negb (first_overflow_bit lower) && negb (first_overflow_bit upper)).
  - simpl. constructor; [split; auto|constructor].
  - destruct (first_overflow_bit lower && first_overflow_bit upper
              || second_overflow_bit lower || second_overflow_bit upper
              || bits_ops.UGreaterThan (result upper) (result lower)).
    + simpl. constructor; [now apply Maximal_wf|constructor].
    + simpl. constructor; [|constructor; [|constructor]].
      * split; auto. split; simpl; lia.
      * split; auto. split; simpl; lia.
Qed.

Section Iterate.

Variable calc : list Bits -> OverflowResult.
Variable tonicities : list Tonicity.
Variable operands : list IntervalSet.
Variable w : Z.
Variable y : Bits.
Hypothesis w_nonneg : 0 <= w.
Hypothesis y_range : 0 <= value y < 2 ^ w.

Let callback (indexes : list nat) (result_intervals : IntervalSet) :=
  let (lower_bounds, upper_bounds) := corner_bounds tonicities operands indexes in
  add_corner_results w (calc lower_bounds) (calc upper_bounds) result_intervals.

Let added (indexes : list nat) : list Interval :=
  let (lower_bounds, upper_bounds) := corner_bounds tonicities operands indexes in
  emitted w (calc lower_bounds) (calc upper_bounds).

Lemma iterate_until_inv (numbers : list (list nat)) :
  forall st,
    BitCount st = w ->
    Forall (wf_interval w) (Intervals st) ->
    (forall n, In n numbers -> Forall (wf_interval w) (added n)) ->
    let st' := iterate_until callback numbers st in
    BitCount st' = w
    /\ Forall (wf_interval w) (Intervals st')
    /\ (covers_list (Intervals st) y = true -> covers_list (Intervals st') y = true)
    /\ (forall target, In target numbers ->
          covers_list (added target) y = true ->
          covers_list (Intervals st') y = true).
Proof.
  induction numbers as [|n numbers IH]; intros st Hb Hwf Hadd; cbn [iterate_until].
  - repeat split; auto.
  - assert (Hspec : Intervals (fst (callback n st)) = Intervals st ++ added n
                    /\ BitCount (fst (callback n st)) = BitCount st
                    /\ (snd (callback n st) = true -> added n = [Interval.Maximal w])).
    { unfold callback, added. destruct (corner_bounds tonicities operands n).
      apply add_corner_results_spec. }
    destruct Hspec as (Ei & Eb & Estop).
    destruct (callback n st) as [st1 stop]. simpl in Ei, Eb, Estop.
    assert (Hwf1 : Forall (wf_interval w) (Intervals st1)).
    { rewrite Ei. apply Forall_app. split; auto. apply Hadd. now left. }
    destruct stop.
    + split; [congruence|]. split; [exact Hwf1|].
      assert (Hc : covers_list (Intervals st1) y = true).
      { rewrite Ei, covers_list_app, (Estop eq_refl). simpl.
        rewrite Maximal_covers by exact y_range. now rewrite orb_true_r. }
      split; auto.
    + destruct (IH st1) as (H1 & H2 & H3 & H4); auto; [congruence|intros; apply Hadd; now right|].
      split; [exact H1|]. split; [exact H2|]. split.
      * intros Hc. apply H3. rewrite Ei, covers_list_app, Hc. reflexivity.
      * intros target [<-|Hin] Hc.
        -- apply H3. rewrite Ei, covers_list_app, Hc. apply orb_true_r.
        -- now apply (H4 target).
Qed.

End Iterate.

Lemma mixed_radix_numbers_complete (radix : list Z) :
  forall number,
    Forall2 (fun r d => (d < Z.to_nat r)%nat) radix number ->
    In number (mixed_radix_numbers radix).
Proof.
  induction radix as [|r radix IH]; intros number H; inversion H as [|? d ? tl Hd Htl]; subst.
  - now left.
  - simpl. apply in_flat_map. exists tl. split; [now apply IH|].
    apply (in_map (fun d => d :: tl)). apply in_seq. lia.
Qed.

Lemma mixed_radix_numbers_sound (radix : list Z) :
  forall number,
    In number (mixed_radix_numbers radix) ->
    Forall2 (fun r d => (d < Z.to_nat r)%nat) radix number.
Proof.
  induction radix as [|r radix IH]; intros number H.
  - destruct H as [<-|[]]. constructor.
  - simpl in H. apply in_flat_map in H. destruct H as (tl & Htl & H).
    apply in_map_iff in H. destruct H as (d & <- & Hd). apply in_seq in Hd.
    constructor; [lia|]. now apply IH.
Qed.

Lemma corner_bounds_select (tonicities : list Tonicity) :
  forall operands indexes,
    length tonicities = length operands ->
    length operands = length indexes ->
    corner_bounds tonicities operands indexes
    = corners tonicities (select operands indexes).
Proof.
  induction tonicities as [|t ts IH]; intros [|op ops] [|i ixs] H1 H2;
    simpl in *; try discriminate; auto.
  rewrite IH by lia. reflexivity.
Qed.

Lemma corners_widths (P : Bits -> Prop) (tonicities : list Tonicity) :
  forall ivs,
    length tonicities = length ivs ->
    Forall (fun iv => P (LowerBound iv) /\ P (UpperBound iv)) ivs ->
    Forall P (fst (corners tonicities ivs)) /\ Forall P (snd (corners tonicities ivs)).
Proof.
  induction tonicities as [|t ts IH]; intros [|iv ivs] Hl H; simpl in *; try discriminate; auto.
  inversion H as [|? ? [Hlo Hhi] H']; subst.
  destruct (IH ivs ltac:(lia) H') as [H1 H2].
  destruct (corners ts ivs) as [l u]. destruct t; simpl in *; auto.
Qed.

Lemma corners_has_width (tonicities : list Tonicity) :
  forall (sets : list IntervalSet) ivs,
    length tonicities = length sets ->
    Forall2 (fun s iv => wf_interval (BitCount s) iv) sets ivs ->
    Forall2 (fun s b => has_width (BitCount s) b) sets (fst (corners tonicities ivs))
    /\ Forall2 (fun s b => has_width (BitCount s) b) sets (snd (corners tonicities ivs)).
Proof.
  induction tonicities as [|t ts IH]; intros sets ivs Hl H.
  - destruct sets; [|discriminate]. inversion H; subst. simpl. split; constructor.
  - destruct sets as [|s sets]; [discriminate|]. inversion H as [|? iv ? ivs' [Hlo Hhi] H']; subst.
    destruct (IH sets ivs' ltac:(simpl in Hl; lia) H') as [H1 H2].
    simpl. destruct (corners ts ivs') as [l u]. destruct t; simpl in *; split; constructor; auto.
Qed.

Lemma separated_last_hi (l : list Interval) :
  forall a i, IntervalSet.separated (a :: l) = true -> In i (a :: l) ->
    value (UpperBound i) <= value (UpperBound (last l a)).
Proof.
  induction l as [|b l IH]; intros a i Hs Hin.
  - destruct Hin as [<-|[]]. simpl. lia.
  - rewrite last_cons_default.
    apply separated_cons in Hs. destruct Hs as (Hpa & Hs & Hg).
    destruct Hin as [<-|Hin]; [|now apply IH].
    pose proof (IH b b Hs ltac:(now left)) as Hb.
    apply separated_cons in Hs. destruct Hs as (Hpb & _ & _).
    unfold proper in *. lia.
Qed.

Lemma separated_within_hull (l : list Interval) (i : Interval) :
  IntervalSet.separated l = true -> In i l ->
  exists h, hull_of l = Some h
            /\ value (LowerBound h) <= value (LowerBound i)
            /\ value (UpperBound i) <= value (UpperBound h).
Proof.
  intros Hs Hin. destruct l as [|a l]; [destruct Hin|].
  eexists. split; [reflexivity|]. simpl. split.
  - destruct Hin as [<-|Hin]; [lia|].
    pose proof (separated_sorted _ Hs) as Hsort. inversion Hsort as [|? ? _ Hall]; subst.
    rewrite Forall_forall in Hall. apply (Hall i Hin).
  - now apply separated_last_hi.
Qed.

(** What the harness knows of an operand [m] minimized from [s]. *)
Lemma minimize_operands_props (inputs : list IntervalSet) :
  forall i, 0 <= i ->
    Forall wf_set inputs ->
    Forall2
      (fun s m =>
         wf_set m /\ BitCount m = BitCount s
         /\ IntervalSet.IsNormalized m = true
         /\ (forall v, 0 <= value v < 2 ^ BitCount s ->
               IntervalSet.Covers s v = true -> IntervalSet.Covers m v = true)
         /\ hull_of (Intervals m) = hull_of (Intervals (IntervalSet.Normalize s)))
      inputs (minimize_operands i inputs).
Proof.
  induction inputs as [|s inputs IH]; intros i Hi Hwf; simpl; constructor.
  - inversion Hwf; subst.
    assert (Hk : 1 <= (if i <? 12 then 5 else 1) < 2 ^ 63)
      by (destruct (i <? 12); lia).
    destruct (MinimizeIntervals_props s _ ltac:(assumption) Hk) as (P1 & P2 & P3 & P4 & _ & P6).
    auto.
  - inversion Hwf; subst. apply IH; auto. lia.
Qed.

(** A number that picks, in every operand, an interval around the value. *)
Lemma target_number (inputs : list IntervalSet) :
  forall operands xs,
    Forall2
      (fun s m =>
         wf_set m /\ BitCount m = BitCount s
         /\ IntervalSet.IsNormalized m = true
         /\ (forall v, 0 <= value v < 2 ^ BitCount s ->
               IntervalSet.Covers s v = true -> IntervalSet.Covers m v = true)
         /\ hull_of (Intervals m) = hull_of (Intervals (IntervalSet.Normalize s)))
      inputs operands ->
    Forall2 (fun s x => has_width (BitCount s) x /\ IntervalSet.Covers s x = true)
      inputs xs ->
    exists number,
      Forall2 (fun r d => (d < Z.to_nat r)%nat)
        (map IntervalSet.NumberOfIntervals operands) number
      /\ Forall2 within inputs (select operands number)
      /\ Forall2 (fun iv x => Interval.Covers iv x = true) (select operands number) xs.
Proof.
  induction inputs as [|s inputs IH]; intros operands xs Hops Hxs.
  - inversion Hops; subst. inversion Hxs; subst. exists []. simpl. repeat constructor.
  - inversion Hops as [|? m ? ops (Hwf & Hbc & Hn & Hsup & Hh) Hops']; subst.
    inversion Hxs as [|? x ? xs' [[Hxw Hxr] Hxc] Hxs']; subst.
    destruct (IH ops xs' Hops' Hxs') as (number & H1 & H2 & H3).
    specialize (Hsup x Hxr Hxc). unfold IntervalSet.Covers in Hsup.
    apply covers_list_iff in Hsup. destruct Hsup as (iv & Hin & Hc).
    destruct (In_nth _ _ default_interval Hin) as (d & Hd & Ed).
    exists (d :: number). simpl. rewrite Ed. split; [|split].
    + constructor; auto. unfold IntervalSet.NumberOfIntervals. lia.
    + constructor; auto. unfold within. destruct Hwf as [Hw Hall].
      rewrite Forall_forall in Hall. rewrite <- Hbc. split; [now apply Hall|].
      unfold IntervalSet.IsNormalized in Hn.
      pose proof (separated_proper _ Hn) as Hp. rewrite Forall_forall in Hp.
      split; [now apply Hp|]. rewrite <- Hh. now apply separated_within_hull.
    + constructor; auto.
Qed.

Lemma select_wf (inputs : list IntervalSet) :
  forall operands number,
    Forall2 (fun s m => wf_set m /\ BitCount m = BitCount s) inputs operands ->
    Forall2 (fun r d => (d < Z.to_nat r)%nat)
      (map IntervalSet.NumberOfIntervals operands) number ->
    Forall2 (fun s iv => wf_interval (BitCount s) iv) inputs (select operands number).
Proof.
  induction inputs as [|s inputs IH]; intros operands number Hops Hn.
  - inversion Hops; subst. simpl. constructor.
  - inversion Hops as [|? m ? ops [[Hw Hall] Hbc] Hops']; subst.
    simpl in Hn. inversion Hn as [|? d ? ds Hd Hn']; subst. simpl.
    constructor; [|now apply IH].
    rewrite Forall_forall in Hall. rewrite <- Hbc. apply Hall. apply nth_In.
    unfold IntervalSet.NumberOfIntervals in Hd. lia.
Qed.

(** The harness returns a normalized set of the width asked for. *)
Lemma PerformVariadicOp_wf (calc : list Bits -> OverflowResult)
    (tonicities : list Tonicity) (inputs : list IntervalSet) (w : Z) :
  0 <= w ->
  length tonicities = length inputs ->
  Forall wf_set inputs ->
  (forall bs, Forall2 (fun s b => has_width (BitCount s) b) inputs bs ->
     has_width w (result (calc bs))) ->
  let r := PerformVariadicOp calc tonicities inputs w in
  wf_set r /\ BitCount r = w /\ IntervalSet.IsNormalized r = true.
Proof.
  intros Hw Hlen Hwf Hcalc r.
  pose proof (minimize_operands_props inputs 0 ltac:(lia) Hwf) as Hops.
  set (operands := minimize_operands 0 inputs) in *.
  assert (Hlen2 : length inputs = length operands) by (eapply Forall2_length; eauto).
  assert (Hops' : Forall2 (fun s m => wf_set m /\ BitCount m = BitCount s) inputs operands).
  { eapply Forall2_impl; [|exact Hops]. simpl. tauto. }
  set (radix := map IntervalSet.NumberOfIntervals operands).
  assert (Hadded : forall n, In n (mixed_radix_numbers radix) ->
            Forall (wf_interval w)
              (let (lower_bounds, upper_bounds) := corner_bounds tonicities operands n in
               emitted w (calc lower_bounds) (calc upper_bounds))).
  { intros n Hn. apply mixed_radix_numbers_sound in Hn.
    assert (Hln : length operands = length n).
    { apply Forall2_length in Hn. unfold radix in Hn. now rewrite length_map in Hn. }
    rewrite corner_bounds_select by lia.
    pose proof (select_wf inputs operands n Hops' Hn) as Hsel.
    destruct (corners_has_width tonicities inputs _ Hlen Hsel) as [HL HU].
    destruct (corners tonicities (select operands n)) as [L U]. simpl in HL, HU.
    apply emitted_wf; auto. }
  assert (Hy : 0 <= value (Bits_zero w) < 2 ^ w) by (pose proof (pow2_pos w Hw); simpl; lia).
  pose proof (iterate_until_inv calc tonicities operands w (Bits_zero w) Hy
                (mixed_radix_numbers radix) (IntervalSet.Empty w) eq_refl
                (Forall_nil _) Hadded) as Hiter.
  cbv zeta in Hiter. destruct Hiter as (Hb & HwfR & _ & _).
  unfold r, PerformVariadicOp. fold operands. fold radix. unfold MixedRadixIterate.
  match goal with
  | H : Forall _ (Intervals ?st) |- _ => set (R := st) in *
  end.
  assert (HwfRs : wf_set R) by (split; [lia|now rewrite Hb]).
  pose proof (Normalize_wf R HwfRs) as HwfN.
  destruct (MinimizeIntervals_props (IntervalSet.Normalize R) 16 HwfN ltac:(lia))
    as (H1 & H2 & H3 & _).
  split; [exact H1|]. split; [rewrite H2; simpl; exact Hb|exact H3].
Qed.

(** Soundness of the harness: when the callback, given the corners of any
    choice of intervals around the operands, adds intervals that cover the
    result of the calculation, the harness returns a set that covers it. *)
Lemma PerformVariadicOp_sound (calc : list Bits -> OverflowResult)
    (tonicities : list Tonicity) (inputs : list IntervalSet) (w : Z) (xs : list Bits) :
  0 <= w ->
  length tonicities = length inputs ->
  Forall wf_set inputs ->
  Forall2 (fun s x => has_width (BitCount s) x /\ IntervalSet.Covers s x = true)
    inputs xs ->
  (forall bs, Forall2 (fun s b => has_width (BitCount s) b) inputs bs ->
     has_width w (result (calc bs))) ->
  (forall ivs,
     Forall2 within inputs ivs ->
     Forall2 (fun iv x => Interval.Covers iv x = true) ivs xs ->
     covers_list
       (emitted w (calc (fst (corners tonicities ivs))) (calc (snd (corners tonicities ivs))))
       (result (calc xs)) = true) ->
  let r := PerformVariadicOp calc tonicities inputs w in
  wf_set r /\ BitCount r = w /\ IntervalSet.IsNormalized r = true
  /\ IntervalSet.Covers r (result (calc xs)) = true.
Proof.
  intros Hw Hlen Hwf Hxs Hcalc Hcorner r.
  pose proof (minimize_operands_props inputs 0 ltac:(lia) Hwf) as Hops.
  set (operands := minimize_operands 0 inputs) in *.
  assert (Hy : has_width w (result (calc xs))).
  { apply Hcalc. eapply Forall2_impl; [|exact Hxs]. simpl. tauto. }
  destruct Hy as [_ Hy].
  assert (Hlen2 : length inputs = length operands) by (eapply Forall2_length; eauto).
  assert (Hops' : Forall2 (fun s m => wf_set m /\ BitCount m = BitCount s) inputs operands).
  { eapply Forall2_impl; [|exact Hops]. simpl. tauto. }
  set (radix := map IntervalSet.NumberOfIntervals operands).
  (* every number gives well-formed intervals *)
  assert (Hadded : forall n, In n (mixed_radix_numbers radix) ->
            Forall (wf_interval w)
              (let (lower_bounds, upper_bounds) := corner_bounds tonicities operands n in
               emitted w (calc lower_bounds) (calc upper_bounds))).
  { intros n Hn. apply mixed_radix_numbers_sound in Hn.
    assert (Hln : length operands = length n).
    { apply Forall2_length in Hn. unfold radix in Hn. now rewrite length_map in Hn. }
    rewrite corner_bounds_select by lia.
    pose proof (select_wf inputs operands n Hops' Hn) as Hsel.
    destruct (corners_has_width tonicities inputs _ Hlen Hsel) as [HL HU].
    destruct (corners tonicities (select operands n)) as [L U]. simpl in HL, HU.
    apply emitted_wf; auto. }
  destruct (target_number inputs operands xs Hops Hxs) as (number & Hnum & Hwithin & Hcov).
  pose proof (iterate_until_inv calc tonicities operands w (result (calc xs)) Hy
                (mixed_radix_numbers radix) (IntervalSet.Empty w) eq_refl
                (Forall_nil _) Hadded) as Hiter.
  cbv zeta in Hiter. destruct Hiter as (Hb & HwfR & _ & Htarget).
  specialize (Htarget number (mixed_radix_numbers_complete radix number Hnum)).
  assert (Hln : length operands = length number).
  { apply Forall2_length in Hnum. unfold radix in Hnum. now rewrite length_map in Hnum. }
  rewrite corner_bounds_select in Htarget by lia.
  specialize (Hcorner _ Hwithin Hcov).
  destruct (corners tonicities (select operands number)) as [L U]. simpl in Hcorner.
  specialize (Htarget Hcorner).
  unfold r, PerformVariadicOp. fold operands. fold radix. unfold MixedRadixIterate.
  match goal with
  | H : covers_list (Intervals ?st) _ = true |- _ => set (R := st) in *
  end.
  assert (HwfRs : wf_set R) by (split; [lia|now rewrite Hb]).
  pose proof (Normalize_wf R HwfRs) as HwfN.
  destruct (MinimizeIntervals_props (IntervalSet.Normalize R) 16 HwfN ltac:(lia))
    as (H1 & H2 & H3 & H4 & _ & _).
  split; [exact H1|]. split; [rewrite H2; simpl; exact Hb|]. split; [exact H3|].
  apply H4; [simpl; now rewrite Hb|].
  rewrite Normalize_covers; auto. now rewrite Hb.
Qed.

(** * The arithmetic transfer functions *)

(** The intervals added for two corner results cover every value between
    the corners. *)
Lemma emitted_overflow_sound (w : Z) (lower upper : OverflowResult) (TL TU T : Z)
    (y : Bits) :
  0 <= w ->
  overflow_spec w lower TL -> overflow_spec w upper TU ->
  TL <= T <= TU -> value y = T mod 2 ^ w ->
  covers_list (emitted w lower upper) y = true.
Proof.
  intros Hw ([_ HrL] & EL & O1L & O2L) ([_ HrU] & EU & O1U & O2U) HT Ey.
  pose proof (pow2_pos w Hw) as HM. set (M := 2 ^ w) in *.
  pose proof (Z.div_mod T M ltac:(lia)) as DT.
  pose proof (Z.div_mod TL M ltac:(lia)) as DL.
  pose proof (Z.div_mod TU M ltac:(lia)) as DU.
  pose proof (Z.mod_pos_bound T M HM) as BT.
  assert (QL : TL / M <= T / M) by (apply Z.div_le_mono; lia).
  assert (QU : T / M <= TU / M) by (apply Z.div_le_mono; lia).
  rewrite <- EL in DL. rewrite <- EU in DU. rewrite <- Ey in DT, BT.
  set (qL := TL / M) in *. set (qU := TU / M) in *. set (qT := T / M) in *.
  unfold emitted, add_corner_results.
  destruct (first_overflow_bit lower) eqn:FL; destruct (first_overflow_bit upper) eqn:FU;
    simpl negb; simpl andb; simpl orb.
  - simpl. rewrite Maximal_covers by lia. reflexivity.
  - assert (qU = 0) by (now apply O1U).
    assert (qL <> 0) by (intros E; apply O1L in E; discriminate).
    destruct (second_overflow_bit lower) eqn:SL; simpl orb;
      [simpl; now rewrite Maximal_covers by lia|].
    destruct (second_overflow_bit upper) eqn:SU; simpl orb;
      [simpl; now rewrite Maximal_covers by lia|].
    destruct (bits_ops.UGreaterThan (result upper) (result lower)) eqn:G;
      [simpl; now rewrite Maximal_covers by lia|].
    unfold bits_ops.UGreaterThan in G. apply Z.ltb_ge in G.
    specialize (O2L eq_refl).
    assert (qL = -1) by lia.
    assert (HqT : qT = -1 \/ qT = 0) by lia.
    simpl. apply orb_true_iff.
    destruct HqT as [E|E]; [left|right; apply orb_true_iff; left];
      apply covers_proper; unfold proper; simpl; nia.
  - assert (qL = 0) by (now apply O1L).
    assert (qU <> 0) by (intros E; apply O1U in E; discriminate).
    destruct (second_overflow_bit lower) eqn:SL; simpl orb;
      [simpl; now rewrite Maximal_covers by lia|].
    destruct (second_overflow_bit upper) eqn:SU; simpl orb;
      [simpl; now rewrite Maximal_covers by lia|].
    destruct (bits_ops.UGreaterThan (result upper) (result lower)) eqn:G;
      [simpl; now rewrite Maximal_covers by lia|].
    unfold bits_ops.UGreaterThan in G. apply Z.ltb_ge in G.
    specialize (O2U eq_refl).
    assert (qU = 1) by lia.
    assert (HqT : qT = 0 \/ qT = 1) by lia.
    simpl. apply orb_true_iff.
    destruct HqT as [E|E]; [left|right; apply orb_true_iff; left];
      apply covers_proper; unfold proper; simpl; nia.
  - assert (qL = 0) by (now apply O1L). assert (qU = 0) by (now apply O1U).
    assert (qT = 0) by lia.
    simpl. rewrite orb_false_r. apply covers_proper; unfold proper; simpl; nia.
Qed.

Lemma no_overflow_spec (w : Z) (b : Bits) :
  0 <= w -> has_width w b -> overflow_spec w (no_overflow b) (value b).
Proof.
  intros Hw [Hb Hv]. unfold overflow_spec, no_overflow. simpl.
  rewrite Z.mod_small, Z.div_small by lia. repeat split; auto; lia.
Qed.

(** The two wrappers of the harness. *)

Lemma PerformBinOp_sound (calc : Bits -> Bits -> OverflowResult)
    (a b : IntervalSet) (ta tb : Tonicity) (w : Z) (x y : Bits) :
  0 <= w -> wf_set a -> wf_set b ->
  has_width (BitCount a) x -> IntervalSet.Covers a x = true ->
  has_width (BitCount b) y -> IntervalSet.Covers b y = true ->
  (forall l r, has_width (BitCount a) l -> has_width (BitCount b) r ->
     has_width w (result (calc l r))) ->
  (forall ia ib, within a ia -> within b ib ->
     Interval.Covers ia x = true -> Interval.Covers ib y = true ->
     covers_list
       (emitted w (calc (lower_corner ta ia) (lower_corner tb ib))
                  (calc (upper_corner ta ia) (upper_corner tb ib)))
       (result (calc x y)) = true) ->
  let r := PerformBinOp calc a ta b tb w in
  wf_set r /\ BitCount r = w /\ IntervalSet.IsNormalized r = true
  /\ IntervalSet.Covers r (result (calc x y)) = true.
Proof.
  intros Hw Ha Hb Hx Hcx Hy Hcy Hcalc Hcorner. unfold PerformBinOp.
  apply (PerformVariadicOp_sound
           (fun bits => match bits with
                        | [l; r] => calc l r
                        | _ => no_overflow (Bits_zero w)
                        end)
           [ta; tb] [a; b] w [x; y]); auto.
  - intros bs H. inversion H as [|? l ? bs1 Hl H1]; subst.
    inversion H1 as [|? r ? bs2 Hr H2]; subst. inversion H2; subst. now apply Hcalc.
  - intros ivs H Hc. inversion H as [|? ia ? ivs1 Hia H1]; subst.
    inversion H1 as [|? ib ? ivs2 Hib H2]; subst. inversion H2; subst.
    inversion Hc as [|? ? ? ? Hca Hc1]; subst. inversion Hc1 as [|? ? ? ? Hcb _]; subst.
    specialize (Hcorner ia ib Hia Hib Hca Hcb).
    simpl. destruct ta, tb; exact Hcorner.
Qed.

Lemma PerformUnaryOp_sound (calc : Bits -> OverflowResult)
    (a : IntervalSet) (ta : Tonicity) (w : Z) (x : Bits) :
  0 <= w -> wf_set a ->
  has_width (BitCount a) x -> IntervalSet.Covers a x = true ->
  (forall l, has_width (BitCount a) l -> has_width w (result (calc l))) ->
  (forall ia, within a ia -> Interval.Covers ia x = true ->
     covers_list (emitted w (calc (lower_corner ta ia)) (calc (upper_corner ta ia)))
       (result (calc x)) = true) ->
  let r := PerformUnaryOp calc a ta w in
  wf_set r /\ BitCount r = w /\ IntervalSet.IsNormalized r = true
  /\ IntervalSet.Covers r (result (calc x)) = true.
Proof.
  intros Hw Ha Hx Hcx Hcalc Hcorner. unfold PerformUnaryOp.
  apply (PerformVariadicOp_sound
           (fun bits => match bits with
                        | [b] => calc b
                        | _ => no_overflow (Bits_zero w)
                        end)
           [ta] [a] w [x]); auto.
  - intros bs H. inversion H as [|? l ? bs1 Hl H1]; subst. inversion H1; subst.
    now apply Hcalc.
  - intros ivs H Hc. inversion H as [|? ia ? ivs1 Hia H1]; subst. inversion H1; subst.
    inversion Hc as [|? ? ? ? Hca _]; subst.
    specialize (Hcorner ia Hia Hca). simpl. destruct ta; exact Hcorner.
Qed.

Lemma PerformBinOp_wf (calc : Bits -> Bits -> OverflowResult)
    (a b : IntervalSet) (ta tb : Tonicity) (w : Z) :
  0 <= w -> wf_set a -> wf_set b ->
  (forall l r, has_width (BitCount a) l -> has_width (BitCount b) r ->
     has_width w (result (calc l r))) ->
  let r := PerformBinOp calc a ta b tb w in
  wf_set r /\ BitCount r = w /\ IntervalSet.IsNormalized r = true.
Proof.
  intros Hw Ha Hb Hcalc. unfold PerformBinOp.
  apply (PerformVariadicOp_wf
           (fun bits => match bits with
                        | [l; r] => calc l r
                        | _ => no_overflow (Bits_zero w)
                        end)
           [ta; tb] [a; b] w); auto.
  intros bs H. inversion H as [|? l ? bs1 Hl H1]; subst.
  inversion H1 as [|? r ? bs2 Hr H2]; subst. inversion H2; subst. now apply Hcalc.
Qed.

(** A binary calculation whose value before truncation is monotone or
    antitone in each operand, as its tonicities say. *)
Lemma PerformBinOp_overflow_sound (calc : Bits -> Bits -> OverflowResult)
    (T : Z -> Z -> Z) (a b : IntervalSet) (ta tb : Tonicity) (w : Z) (x y : Bits) :
  0 <= w -> wf_set a -> wf_set b ->
  has_width (BitCount a) x -> IntervalSet.Covers a x = true ->
  has_width (BitCount b) y -> IntervalSet.Covers b y = true ->
  (forall l r, has_width (BitCount a) l -> has_width (BitCount b) r ->
     overflow_spec w (calc l r) (T (value l) (value r))) ->
  (forall ia ib, within a ia -> within b ib ->
     Interval.Covers ia x = true -> Interval.Covers ib y = true ->
     T (value (lower_corner ta ia)) (value (lower_corner tb ib))
     <= T (value x) (value y)
     <= T (value (upper_corner ta ia)) (value (upper_corner tb ib))) ->
  let r := PerformBinOp calc a ta b tb w in
  wf_set r /\ BitCount r = w /\ IntervalSet.IsNormalized r = true
  /\ IntervalSet.Covers r (result (calc x y)) = true.
Proof.
  intros Hw Ha Hb Hx Hcx Hy Hcy Hspec Hmono.
  apply PerformBinOp_sound; auto.
  - intros l r Hl Hr. apply (Hspec l r Hl Hr).
  - intros ia ib Hia Hib Hca Hcb.
    assert (Hc : forall t s iv, within s iv ->
              has_width (BitCount s) (lower_corner t iv)
              /\ has_width (BitCount s) (upper_corner t iv)).
    { intros t s iv ([H1 H2] & _). destruct t; simpl; auto. }
    destruct (Hc ta a ia Hia) as [Hla Hua]. destruct (Hc tb b ib Hib) as [Hlb Hub].
    eapply emitted_overflow_sound; eauto.
    apply (Hspec x y Hx Hy).
Qed.

Lemma Covers_value_ext (s : IntervalSet) (u v : Bits) :
  value u = value v -> IntervalSet.Covers s u = IntervalSet.Covers s v.
Proof.
  intros E. unfold IntervalSet.Covers.
  induction (Intervals s) as [|i l IH]; [reflexivity|].
  simpl. rewrite IH. unfold Interval.Covers. now rewrite E.
Qed.

Lemma interval_covers_bounds (s : IntervalSet) (iv : Interval) (x : Bits) :
  within s iv -> Interval.Covers iv x = true ->
  0 <= value (LowerBound iv) <= value x
  /\ value x <= value (UpperBound iv) < 2 ^ BitCount s.
Proof.
  intros ([[_ Hl] [_ Hu]] & Hp & _) Hc. apply covers_proper in Hc; auto. lia.
Qed.

(** Add *)

Lemma Add_calc_spec (w : Z) (l r : Bits) :
  0 <= w -> has_width w l -> has_width w r ->
  overflow_spec w (Add_calc l r) (value l + value r).
Proof.
  intros Hw [Hbl Hl] [Hbr Hr]. pose proof (pow2_pos w Hw) as HM.
  unfold Add_calc, overflow_spec, bits_ops.Add, bits_ops.ZeroExtend, bits_ops.Truncate,
    GetFromMsb, has_width. cbn [bit_count value result first_overflow_bit second_overflow_bit].
  rewrite Hbl, Hbr, Z.max_id.
  replace (w + 1 - 1) with w by lia. replace (w - 0) with w by lia.
  assert (E2 : 2 ^ (w + 1) = 2 * 2 ^ w) by (rewrite Z.pow_add_r by lia; lia).
  rewrite E2. rewrite (Z.mod_small (value l + value r) (2 * 2 ^ w)) by lia.
  pose proof (Z.mod_pos_bound (value l + value r) (2 ^ w) HM).
  split; [split; [reflexivity|lia]|]. split; [reflexivity|].
  assert (Hq : 0 <= (value l + value r) / 2 ^ w <= 1).
  { split; [apply Z.div_pos; lia|]. apply Z.lt_succ_r.
    apply Z.div_lt_upper_bound; lia. }
  split.
  - rewrite Z.testbit_odd, Z.shiftr_div_pow2 by lia.
    destruct (Z.eq_dec ((value l + value r) / 2 ^ w) 0) as [E|E].
    + rewrite E. simpl. tauto.
    + replace ((value l + value r) / 2 ^ w) with 1 by lia. simpl. split; [discriminate|lia].
  - intros _. lia.
Qed.

Lemma Add_sound (a b : IntervalSet) (x y : Bits) :
  wf_set a -> wf_set b -> BitCount a = BitCount b ->
  has_width (BitCount a) x -> IntervalSet.Covers a x = true ->
  has_width (BitCount b) y -> IntervalSet.Covers b y = true ->
  wf_set (Add a b) /\ BitCount (Add a b) = BitCount a
  /\ IntervalSet.IsNormalized (Add a b) = true
  /\ IntervalSet.Covers (Add a b) (bits_ops.Add x y) = true.
Proof.
  intros Ha Hb Hab Hx Hcx Hy Hcy. pose proof Ha as [Hw _].
  destruct (PerformBinOp_overflow_sound Add_calc Z.add a b Monotone Monotone
              (BitCount a) x y) as (H1 & H2 & H3 & H4); auto.
  - intros l r Hl Hr. apply Add_calc_spec; auto. now rewrite Hab.
  - intros ia ib Hia Hib Hca Hcb. simpl.
    pose proof (interval_covers_bounds a ia x Hia Hca).
    pose proof (interval_covers_bounds b ib y Hib Hcb). lia.
  - unfold Add. repeat split; auto; try apply H1.
    rewrite <- H4. apply Covers_value_ext.
    destruct (Add_calc_spec (BitCount a) x y Hw Hx ltac:(now rewrite Hab)) as (_ & E & _).
    rewrite E. unfold bits_ops.Add. simpl. destruct Hx as [-> _]. reflexivity.
Qed.

(** Sub *)

Lemma Sub_calc_spec (w : Z) (l r : Bits) :
  0 <= w -> has_width w l -> has_width w r ->
  overflow_spec w (Sub_calc l r) (value l - value r).
Proof.
  intros Hw [Hbl Hl] [Hbr Hr]. pose proof (pow2_pos w Hw) as HM.
  unfold Sub_calc, overflow_spec, bits_ops.Sub, bits_ops.ULessThan, has_width.
  cbn [bit_count value result first_overflow_bit second_overflow_bit].
  rewrite Hbl.
  pose proof (Z.mod_pos_bound (value l - value r) (2 ^ w) HM).
  split; [split; [reflexivity|lia]|]. split; [reflexivity|].
  assert (Hq : -1 <= (value l - value r) / 2 ^ w <= 0).
  { split.
    - apply Z.div_le_lower_bound; lia.
    - apply Z.lt_succ_r. apply Z.div_lt_upper_bound; lia. }
  split; [|intros _; lia].
  destruct (Z.ltb_spec (value l) (value r)) as [Hlt|Hge].
  - split; [discriminate|]. intros E.
    pose proof (Z.div_mod (value l - value r) (2 ^ w) ltac:(lia)). nia.
  - split; [|reflexivity]. intros _. apply Z.div_small. lia.
Qed.

Lemma Sub_sound (a b : IntervalSet) (x y : Bits) :
  wf_set a -> wf_set b -> BitCount a = BitCount b ->
  has_width (BitCount a) x -> IntervalSet.Covers a x = true ->
  has_width (BitCount b) y -> IntervalSet.Covers b y = true ->
  wf_set (Sub a b) /\ BitCount (Sub a b) = BitCount a
  /\ IntervalSet.IsNormalized (Sub a b) = true
  /\ IntervalSet.Covers (Sub a b) (bits_ops.Sub x y) = true.
Proof.
  intros Ha Hb Hab Hx Hcx Hy Hcy. pose proof Ha as [Hw _].
  destruct (PerformBinOp_overflow_sound Sub_calc Z.sub a b Monotone Antitone
              (BitCount a) x y) as (H1 & H2 & H3 & H4); auto.
  - intros l r Hl Hr. apply Sub_calc_spec; auto. now rewrite Hab.
  - intros ia ib Hia Hib Hca Hcb. simpl.
    pose proof (interval_covers_bounds a ia x Hia Hca).
    pose proof (interval_covers_bounds b ib y Hib Hcb). lia.
Qed.

(** UMul *)

Lemma UMul_calc_spec (wa wb ow : Z) (l r : Bits) :
  0 <= ow -> has_width wa l -> has_width wb r ->
  overflow_spec ow (UMul_calc ow l r) (value l * value r).
Proof.
  intros Hw [Hbl Hl] [Hbr Hr]. pose proof (pow2_pos ow Hw) as HM.
  unfold UMul_calc, overflow_spec, bits_ops.UMul, WithSize, CountLeadingZeros, has_width.
  cbn [bit_count value result first_overflow_bit second_overflow_bit].
  pose proof (Z.mod_pos_bound (value l * value r) (2 ^ ow) HM).
  assert (Hp : 0 <= value l * value r) by nia.
  split; [split; [reflexivity|lia]|]. split; [reflexivity|].
  set (p := value l * value r) in *.
  assert (Hq : 0 <= p / 2 ^ ow) by (apply Z.div_pos; lia).
  destruct (Z.eqb_spec p 0) as [E0|Hne].
  - rewrite E0, Z.div_0_l by lia. split.
    + destruct (Z.leb_spec ow (bit_count l + bit_count r - (bit_count l + bit_count r - 0) - 1));
        [lia|tauto].
    + intros _. lia.
  - assert (Hpos : 0 < p) by lia.
    replace (bit_count l + bit_count r - (bit_count l + bit_count r - (Z.log2 p + 1)) - 1)
      with (Z.log2 p) by lia.
    split.
    + destruct (Z.leb_spec ow (Z.log2 p)) as [Hle|Hgt].
      * split; [discriminate|]. intros E. exfalso.
        apply Z.div_small_iff in E; [|lia].
        assert (Z.log2 p < ow) by (apply Z.log2_lt_pow2; lia). lia.
      * split; [|reflexivity]. intros _. apply Z.div_small.
        split; [lia|]. apply Z.log2_lt_pow2; lia.
    + intros H2. apply Z.leb_gt in H2.
      assert (p < 2 ^ (ow + 1)) by (apply Z.log2_lt_pow2; lia).
      rewrite Z.pow_add_r in * by lia.
      split; [lia|]. apply Z.lt_succ_r. apply Z.div_lt_upper_bound; lia.
Qed.

Lemma UMul_sound (a b : IntervalSet) (ow : Z) (x y : Bits) :
  0 <= ow -> wf_set a -> wf_set b ->
  has_width (BitCount a) x -> IntervalSet.Covers a x = true ->
  has_width (BitCount b) y -> IntervalSet.Covers b y = true ->
  wf_set (UMul a b ow) /\ BitCount (UMul a b ow) = ow
  /\ IntervalSet.IsNormalized (UMul a b ow) = true
  /\ IntervalSet.Covers (UMul a b ow) (WithSize (bits_ops.UMul x y) ow) = true.
Proof.
  intros Hw Ha Hb Hx Hcx Hy Hcy.
  destruct (PerformBinOp_overflow_sound (UMul_calc ow) Z.mul a b Monotone Monotone
              ow x y) as (H1 & H2 & H3 & H4); auto.
  - intros l r Hl Hr. eapply UMul_calc_spec; eauto.
  - intros ia ib Hia Hib Hca Hcb. simpl.
    pose proof (interval_covers_bounds a ia x Hia Hca).
    pose proof (interval_covers_bounds b ib y Hib Hcb). nia.
Qed.

(** Calculations that cannot overflow. *)

Lemma PerformUnaryOp_plain_sound (f : Bits -> Bits) (a : IntervalSet)
    (ta : Tonicity) (w : Z) (x : Bits) :
  0 <= w -> wf_set a ->
  has_width (BitCount a) x -> IntervalSet.Covers a x = true ->
  (forall l, has_width (BitCount a) l -> has_width w (f l)) ->
  (forall ia, within a ia -> Interval.Covers ia x = true ->
     value (f (lower_corner ta ia)) <= value (f x) <= value (f (upper_corner ta ia))) ->
  let r := PerformUnaryOp (fun b => no_overflow (f b)) a ta w in
  wf_set r /\ BitCount r = w /\ IntervalSet.IsNormalized r = true
  /\ IntervalSet.Covers r (f x) = true.
Proof.
  intros Hw Ha Hx Hcx Hf Hmono.
  apply (PerformUnaryOp_sound (fun b => no_overflow (f b)) a ta w x);
    [exact Hw|exact Ha|exact Hx|exact Hcx| |].
  - intros l Hl. now apply Hf.
  - intros ia Hia Hca.
    assert (Hc : has_width (BitCount a) (lower_corner ta ia)
                 /\ has_width (BitCount a) (upper_corner ta ia)).
    { destruct Hia as ([H1 H2] & _). destruct ta; simpl; auto. }
    destruct Hc as [Hl Hu].
    apply (emitted_overflow_sound w _ _ (value (f (lower_corner ta ia)))
             (value (f (upper_corner ta ia))) (value (f x))).
    + exact Hw.
    + apply no_overflow_spec; auto.
    + apply no_overflow_spec; auto.
    + now apply Hmono.
    + simpl. symmetry. apply Z.mod_small. apply (Hf x Hx).
Qed.

Lemma msb_spec (w v : Z) :
  0 <= v < 2 ^ w -> 0 <= w ->
  Z.testbit v (w - 1) = (1 <=? w) && (2 ^ (w - 1) <=? v).
Proof.
  intros Hv Hw. destruct (Z.leb_spec 1 w) as [H1|H1]; simpl.
  - rewrite Z.testbit_odd, Z.shiftr_div_pow2 by lia.
    assert (HP : 0 < 2 ^ (w - 1)) by (apply Z.pow_pos_nonneg; lia).
    assert (E : 2 ^ w = 2 * 2 ^ (w - 1)).
    { replace w with (w - 1 + 1) at 1 by lia. rewrite Z.pow_add_r by lia. lia. }
    destruct (Z.leb_spec (2 ^ (w - 1)) v) as [Hge|Hlt].
    + assert (v / 2 ^ (w - 1) = 1).
      { apply Z.le_antisymm.
        - apply Z.lt_succ_r. apply Z.div_lt_upper_bound; lia.
        - apply Z.div_le_lower_bound; lia. }
      now replace (v / 2 ^ (w - 1)) with 1.
    + now rewrite Z.div_small by lia.
  - replace w with 0 in * by lia. simpl. destruct v; try reflexivity; simpl in Hv; lia.
Qed.

Lemma SignExtend_value (w W : Z) (b : Bits) :
  0 <= w -> has_width w b ->
  value (bits_ops.SignExtend b W)
  = if (1 <=? w) && (2 ^ (w - 1) <=? value b)
    then value b + (2 ^ W - 2 ^ w) else value b.
Proof.
  intros Hw [Hb Hv]. unfold bits_ops.SignExtend, GetFromMsb.
  rewrite Hb. replace (w - 1 - 0) with (w - 1) by lia.
  rewrite msb_spec by auto.
  destruct ((1 <=? w) && (2 ^ (w - 1) <=? value b)); reflexivity.
Qed.

Lemma SignExtend_sound (a : IntervalSet) (width : Z) (x : Bits) :
  wf_set a -> BitCount a <= width ->
  has_width (BitCount a) x -> IntervalSet.Covers a x = true ->
  wf_set (SignExtend a width) /\ BitCount (SignExtend a width) = width
  /\ IntervalSet.IsNormalized (SignExtend a width) = true
  /\ IntervalSet.Covers (SignExtend a width) (bits_ops.SignExtend x width) = true.
Proof.
  intros Ha Hwd Hx Hcx. pose proof Ha as [Hw _].
  assert (Hpow : 2 ^ BitCount a <= 2 ^ width) by (apply Z.pow_le_mono_r; lia).
  apply (PerformUnaryOp_plain_sound (fun b => bits_ops.SignExtend b width)
           a Monotone width x); [lia|exact Ha|exact Hx|exact Hcx| |].
  - intros l Hl. split.
    + unfold bits_ops.SignExtend. destruct (GetFromMsb l 0); reflexivity.
    + rewrite (SignExtend_value (BitCount a)) by auto. destruct Hl as [_ Hl].
      destruct ((1 <=? BitCount a) && (2 ^ (BitCount a - 1) <=? value l)); lia.
  - intros ia Hia Hca.
    pose proof (interval_covers_bounds a ia x Hia Hca) as Hb.
    destruct Hia as ([Hl Hu] & _). simpl.
    rewrite !(SignExtend_value (BitCount a)) by auto.
    destruct (Z.leb_spec 1 (BitCount a)); simpl; [|lia].
    destruct (Z.leb_spec (2 ^ (BitCount a - 1)) (value (LowerBound ia)));
    destruct (Z.leb_spec (2 ^ (BitCount a - 1)) (value x));
    destruct (Z.leb_spec (2 ^ (BitCount a - 1)) (value (UpperBound ia))); lia.
Qed.

Lemma ZeroExtend_sound (a : IntervalSet) (width : Z) (x : Bits) :
  wf_set a -> BitCount a <= width ->
  has_width (BitCount a) x -> IntervalSet.Covers a x = true ->
  wf_set (ZeroExtend a width) /\ BitCount (ZeroExtend a width) = width
  /\ IntervalSet.IsNormalized (ZeroExtend a width) = true
  /\ IntervalSet.Covers (ZeroExtend a width) (bits_ops.ZeroExtend x width) = true.
Proof.
  intros Ha Hwd Hx Hcx. pose proof Ha as [Hw _].
  assert (Hpow : 2 ^ BitCount a <= 2 ^ width) by (apply Z.pow_le_mono_r; lia).
  apply (PerformUnaryOp_plain_sound (fun b => bits_ops.ZeroExtend b width)
           a Monotone width x); [lia|exact Ha|exact Hx|exact Hcx| |].
  - intros l [_ Hl]. split; simpl; [reflexivity|lia].
  - intros ia Hia Hca.
    pose proof (interval_covers_bounds a ia x Hia Hca) as Hb. simpl. lia.
Qed.

(** Neg: the upper corner of an interval that begins at zero is zero, and
    the interval added is improper. *)

Lemma Negate_value (w : Z) (b : Bits) :
  0 <= w -> has_width w b ->
  value (bits_ops.Negate b) = if value b =? 0 then 0 else 2 ^ w - value b.
Proof.
  intros Hw [Hb Hv]. unfold bits_ops.Negate. simpl. rewrite Hb.
  destruct (Z.eqb_spec (value b) 0) as [->|Hne]; [reflexivity|].
  rewrite <- (Z_mod_plus_full _ 1).
  replace (- value b + 1 * 2 ^ w) with (2 ^ w - value b) by lia.
  apply Z.mod_small. lia.
Qed.

Lemma Neg_sound (a : IntervalSet) (x : Bits) :
  wf_set a ->
  has_width (BitCount a) x -> IntervalSet.Covers a x = true ->
  wf_set (Neg a) /\ BitCount (Neg a) = BitCount a
  /\ IntervalSet.IsNormalized (Neg a) = true
  /\ IntervalSet.Covers (Neg a) (bits_ops.Negate x) = true.
Proof.
  intros Ha Hx Hcx. pose proof Ha as [Hw _].
  pose proof (pow2_pos _ Hw) as HM.
  apply (PerformUnaryOp_sound (fun b => no_overflow (bits_ops.Negate b))
           a Antitone (BitCount a) x); [exact Hw|exact Ha|exact Hx|exact Hcx| |].
  - intros l Hl. split; [apply Hl|]. simpl result.
    rewrite (Negate_value (BitCount a)) by auto. destruct Hl as [_ Hl].
    destruct (Z.eqb_spec (value l) 0); lia.
  - intros ia Hia Hca.
    pose proof (interval_covers_bounds a ia x Hia Hca) as Hb.
    destruct Hia as ([Hl Hu] & _).
    unfold emitted, add_corner_results. simpl. rewrite orb_false_r.
    unfold Interval.Covers, Interval.IsImproper, bits_ops.UGreaterThan.
    cbn [LowerBound UpperBound].
    rewrite !(Negate_value (BitCount a)) by auto.
    destruct (Z.eqb_spec (value (LowerBound ia)) 0);
    destruct (Z.eqb_spec (value (UpperBound ia)) 0);
    destruct (Z.eqb_spec (value x) 0);
    repeat match goal with
           | |- context [Z.ltb ?p ?q] => destruct (Z.ltb_spec p q)
           | |- context [Z.leb ?p ?q] => destruct (Z.leb_spec p q)
           end; simpl; try reflexivity; lia.
Qed.

(** UDiv *)

Lemma covers_list_flat_map {A : Type} (f : A -> list Interval) (l : list A) (v : Bits) :
  covers_list (flat_map f l) v = existsb (fun a => covers_list (f a) v) l.
Proof.
  induction l as [|a l IH]; [reflexivity|].
  simpl. now rewrite covers_list_app, IH.
Qed.

Lemma intersect_interval_covers (a b : Interval) (v : Bits) :
  proper a -> proper b ->
  covers_list (IntervalSet.intersect_interval a b) v
  = Interval.Covers a v && Interval.Covers b v.
Proof.
  intros Ha Hb. apply eq_true_iff_eq. rewrite andb_true_iff.
  rewrite !covers_proper by auto.
  unfold IntervalSet.intersect_interval, proper in *.
  destruct (Z.ltb_spec (value (LowerBound a)) (value (LowerBound b)));
  destruct (Z.ltb_spec (value (UpperBound a)) (value (UpperBound b)));
  match goal with
  | |- context [Z.leb ?p ?q] => destruct (Z.leb_spec p q)
  end; simpl; rewrite ?orb_false_r, ?covers_proper; unfold proper; simpl;
    try lia; (split; [intros; try discriminate; lia|intros; lia]).
Qed.

Lemma intersect_interval_wf (w : Z) (a b : Interval) :
  wf_interval w a -> wf_interval w b ->
  Forall (wf_interval w) (IntervalSet.intersect_interval a b).
Proof.
  intros [Hal Hau] [Hbl Hbu]. unfold IntervalSet.intersect_interval.
  destruct (value (LowerBound a) <? value (LowerBound b));
  destruct (value (UpperBound a) <? value (UpperBound b));
  match goal with
  | |- context [Z.leb ?p ?q] => destruct (Z.leb p q)
  end; constructor; try constructor; simpl; auto.
Qed.

Lemma intersect_lists_covers (la lb : list Interval) (v : Bits) :
  Forall proper la -> Forall proper lb ->
  existsb (fun ia => covers_list (flat_map (IntervalSet.intersect_interval ia) lb) v) la
  = covers_list la v && covers_list lb v.
Proof.
  intros Hpa Hpb. induction Hpa as [|ia la Hia Hla IH]; [reflexivity|].
  cbn [existsb]. rewrite IH, covers_list_flat_map.
  assert (E : existsb (fun ib => covers_list (IntervalSet.intersect_interval ia ib) v) lb
              = Interval.Covers ia v && covers_list lb v).
  { clear - Hia Hpb. induction Hpb as [|ib lb Hib Hlb IHb]; simpl.
    - now rewrite andb_false_r.
    - rewrite IHb, intersect_interval_covers by auto.
      destruct (Interval.Covers ia v), (Interval.Covers ib v); reflexivity. }
  rewrite E. simpl.
  destruct (Interval.Covers ia v), (covers_list lb v), (covers_list la v); reflexivity.
Qed.

Lemma Intersect_props (a b : IntervalSet) :
  wf_set a -> wf_set b -> BitCount a = BitCount b ->
  Forall proper (Intervals a) -> Forall proper (Intervals b) ->
  wf_set (IntervalSet.Intersect a b)
  /\ BitCount (IntervalSet.Intersect a b) = BitCount a
  /\ forall v, 0 <= value v < 2 ^ BitCount a ->
       IntervalSet.Covers (IntervalSet.Intersect a b) v
       = IntervalSet.Covers a v && IntervalSet.Covers b v.
Proof.
  intros [Hw Ha] [_ Hb] Hab Hpa Hpb. unfold IntervalSet.Intersect.
  set (l := flat_map (fun i => flat_map (IntervalSet.intersect_interval i) (Intervals b))
              (Intervals a)).
  assert (Hl : wf_set (mkIntervalSet (BitCount a) l)).
  { split; [exact Hw|]. simpl. unfold l. apply Forall_forall. intros i Hi.
    apply in_flat_map in Hi. destruct Hi as (ia & Hia & Hi).
    apply in_flat_map in Hi. destruct Hi as (ib & Hib & Hi).
    rewrite Forall_forall in Ha, Hb.
    pose proof (intersect_interval_wf (BitCount a) ia ib (Ha _ Hia)
                  ltac:(rewrite Hab; now apply Hb)) as Hwf.
    rewrite Forall_forall in Hwf. now apply Hwf. }
  split; [now apply Normalize_wf|]. split; [reflexivity|].
  intros v Hv. rewrite Normalize_covers by auto.
  unfold IntervalSet.Covers. cbn [Intervals]. unfold l.
  fold (covers_list (Intervals a) v). fold (covers_list (Intervals b) v).
  fold (covers_list (flat_map
                       (fun i => flat_map (IntervalSet.intersect_interval i) (Intervals b))
                       (Intervals a)) v).
  rewrite covers_list_flat_map.
  now apply intersect_lists_covers.
Qed.

Lemma NonZero_props (w : Z) :
  1 <= w ->
  wf_set (IntervalSet.NonZero w)
  /\ Forall proper (Intervals (IntervalSet.NonZero w))
  /\ forall v, 0 <= value v < 2 ^ w ->
       IntervalSet.Covers (IntervalSet.NonZero w) v = negb (value v =? 0).
Proof.
  intros Hw.
  assert (H2 : 2 <= 2 ^ w).
  { replace w with (1 + (w - 1)) by lia. rewrite Z.pow_add_r by lia.
    assert (0 < 2 ^ (w - 1)) by (apply Z.pow_pos_nonneg; lia). lia. }
  assert (E1 : 1 mod 2 ^ w = 1) by (apply Z.mod_small; lia).
  unfold IntervalSet.NonZero, UBits, AllOnes. split; [|split].
  - split; [simpl; lia|]. simpl. constructor; [|constructor].
    split; split; simpl; try reflexivity; lia.
  - simpl. constructor; [|constructor]. unfold proper. simpl. lia.
  - intros v Hv. unfold IntervalSet.Covers. simpl. rewrite orb_false_r.
    apply eq_true_iff_eq. rewrite covers_proper by (unfold proper; simpl; lia).
    simpl. rewrite E1, negb_true_iff, Z.eqb_neq. lia.
Qed.

Lemma hull_lower_covered (s : IntervalSet) (h : Interval) (v : Bits) :
  wf_set s ->
  hull_of (Intervals (IntervalSet.Normalize s)) = Some h ->
  value v = value (LowerBound h) ->
  IntervalSet.Covers s v = true.
Proof.
  intros Hwf Hh Ev.
  pose proof (Normalize_wf s Hwf) as [Hw HwfN].
  pose proof (Normalize_normalized s Hwf) as HsN. unfold IntervalSet.IsNormalized in HsN.
  destruct (Intervals (IntervalSet.Normalize s)) as [|front rest] eqn:EN; [discriminate|].
  simpl in Hh. injection Hh as <-. simpl in Ev.
  inversion HwfN as [|? ? [[_ Hfl] _] _]; subst.
  apply separated_cons in HsN. destruct HsN as (Hp & _ & _).
  rewrite <- (Normalize_covers s v Hwf) by (simpl in Hfl; lia).
  unfold IntervalSet.Covers. rewrite EN. simpl. apply orb_true_iff. left.
  apply covers_proper; auto. unfold proper in Hp. lia.
Qed.

Lemma within_nonzero (s : IntervalSet) (iv : Interval) :
  wf_set s -> IntervalSet.CoversZero s = false -> within s iv ->
  0 < value (LowerBound iv).
Proof.
  intros Hwf Hz ([[_ Hl] _] & _ & h & Hh & Hlo & _).
  destruct (Z.eq_dec (value (LowerBound h)) 0) as [E|Hne].
  - unfold IntervalSet.CoversZero in Hz.
    rewrite (hull_lower_covered s h (Bits_zero (BitCount s)) Hwf Hh) in Hz;
      [discriminate|simpl; lia].
  - pose proof (Normalize_wf s Hwf) as [_ HwfN].
    destruct (Intervals (IntervalSet.Normalize s)) as [|front rest]; [discriminate|].
    simpl in Hh. injection Hh as <-. simpl in *.
    inversion HwfN as [|? ? [[_ Hfl] _] _]; subst. lia.
Qed.

Lemma UDiv_value (w : Z) (l r : Bits) :
  has_width w l ->
  value (bits_ops.UDiv l r)
  = if value r =? 0 then 2 ^ w - 1 else value l / value r.
Proof.
  intros [Hb _]. unfold bits_ops.UDiv. rewrite Hb.
  destruct (value r =? 0); reflexivity.
Qed.

Lemma UDiv_has_width (w : Z) (l r : Bits) :
  0 <= w -> has_width w l -> 0 <= value r ->
  has_width w (bits_ops.UDiv l r).
Proof.
  intros Hw Hl Hr. pose proof (pow2_pos w Hw). split.
  - unfold bits_ops.UDiv. destruct Hl as [Hb _].
    destruct (value r =? 0); simpl; auto.
  - rewrite (UDiv_value w) by auto. destruct Hl as [_ Hl].
    destruct (Z.eqb_spec (value r) 0); [lia|].
    split; [apply Z.div_pos; lia|].
    apply Z.div_lt_upper_bound; [lia|]. nia.
Qed.

(** Division by a set that does not cover zero. *)
Lemma UDiv_nonzero_sound (a d : IntervalSet) (x y : Bits) :
  wf_set a -> wf_set d ->
  IntervalSet.CoversZero d = false ->
  has_width (BitCount a) x -> IntervalSet.Covers a x = true ->
  has_width (BitCount d) y -> IntervalSet.Covers d y = true ->
  let r := PerformBinOp (fun l r => no_overflow (bits_ops.UDiv l r))
             a Monotone d Antitone (BitCount a) in
  wf_set r /\ BitCount r = BitCount a /\ IntervalSet.IsNormalized r = true
  /\ IntervalSet.Covers r (bits_ops.UDiv x y) = true.
Proof.
  intros Ha Hd Hz Hx Hcx Hy Hcy. pose proof Ha as [Hw _].
  apply (PerformBinOp_overflow_sound (fun l r => no_overflow (bits_ops.UDiv l r))
           (fun p q => if q =? 0 then 2 ^ BitCount a - 1 else p / q)
           a d Monotone Antitone (BitCount a) x y);
    [exact Hw|exact Ha|exact Hd|exact Hx|exact Hcx|exact Hy|exact Hcy| |].
  - intros l r Hl Hr. rewrite <- (UDiv_value (BitCount a)) by auto.
    apply no_overflow_spec; auto. apply UDiv_has_width; auto. apply Hr.
  - intros ia ib Hia Hib Hca Hcb. simpl.
    pose proof (interval_covers_bounds a ia x Hia Hca).
    pose proof (interval_covers_bounds d ib y Hib Hcb).
    pose proof (within_nonzero d ib Hd Hz Hib).
    destruct (Z.eqb_spec (value (UpperBound ib)) 0); [lia|].
    destruct (Z.eqb_spec (value (LowerBound ib)) 0); [lia|].
    destruct (Z.eqb_spec (value y) 0); [lia|].
    split.
    + etransitivity; [apply (Z.div_le_mono _ (value x)); lia|].
      apply Z.div_le_compat_l; lia.
    + etransitivity; [apply (Z.div_le_mono _ (value (UpperBound ia))); lia|].
      apply Z.div_le_compat_l; lia.
Qed.

Lemma UDiv_sound (a b : IntervalSet) (x y : Bits) :
  wf_set a -> wf_set b -> BitCount a = BitCount b -> 1 <= BitCount a ->
  IntervalSet.IsNormalized b = true ->
  has_width (BitCount a) x -> IntervalSet.Covers a x = true ->
  has_width (BitCount b) y -> IntervalSet.Covers b y = true ->
  wf_set (UDiv a b) /\ BitCount (UDiv a b) = BitCount a
  /\ IntervalSet.IsNormalized (UDiv a b) = true
  /\ IntervalSet.Covers (UDiv a b) (bits_ops.UDiv x y) = true.
Proof.
  intros Ha Hb Hab Hw1 Hnb Hx Hcx Hy Hcy. pose proof Ha as [Hw _].
  pose proof (pow2_pos _ Hw) as HM.
  unfold UDiv. destruct (IntervalSet.CoversZero b) eqn:Hz; simpl negb; cbv iota.
  - (* the divisor may be zero *)
    destruct (NonZero_props (BitCount b) ltac:(lia)) as (HwfNZ & HpNZ & HcNZ).
    destruct (Intersect_props b (IntervalSet.NonZero (BitCount b)) Hb HwfNZ eq_refl
                (separated_proper _ Hnb) HpNZ) as (HwfI & HbI & HcI).
    set (nonzero_divisor := IntervalSet.Intersect b (IntervalSet.NonZero (BitCount b))) in *.
    assert (HzI : IntervalSet.CoversZero nonzero_divisor = false).
    { unfold IntervalSet.CoversZero. rewrite HbI, HcI by (simpl; lia).
      rewrite HcNZ by (simpl; lia). simpl. apply andb_false_r. }
    set (results :=
           if negb (IntervalSet.IsEmpty nonzero_divisor)
           then PerformBinOp (fun l r => no_overflow (bits_ops.UDiv l r))
                  a Monotone nonzero_divisor Antitone (BitCount a)
           else IntervalSet.Empty (BitCount a)).
    assert (Hin : value y <> 0 -> IntervalSet.Covers nonzero_divisor y = true).
    { intros Hy0. rewrite HcI by apply Hy. rewrite Hcy, HcNZ by apply Hy.
      simpl. apply negb_true_iff. now apply Z.eqb_neq. }
    assert (Hres : wf_set results /\ BitCount results = BitCount a
                   /\ (value y <> 0 -> IntervalSet.Covers results (bits_ops.UDiv x y) = true)).
    { unfold results. destruct (IntervalSet.IsEmpty nonzero_divisor) eqn:HE; simpl negb; cbv iota.
      - split; [split; simpl; [lia|constructor]|]. split; [reflexivity|].
        intros Hy0. exfalso. specialize (Hin Hy0).
        unfold IntervalSet.Covers in Hin. unfold IntervalSet.IsEmpty in HE.
        destruct (Intervals nonzero_divisor); discriminate.
      - destruct (PerformBinOp_wf (fun l r => no_overflow (bits_ops.UDiv l r))
                    a nonzero_divisor Monotone Antitone (BitCount a) Hw Ha HwfI)
          as (W1 & W2 & _).
        { intros l r Hl Hr. apply UDiv_has_width; auto. apply Hr. }
        split; [exact W1|]. split; [exact W2|].
        intros Hy0.
        apply (UDiv_nonzero_sound a nonzero_divisor x y Ha HwfI HzI Hx Hcx);
          [rewrite HbI; exact Hy|now apply Hin]. }
    destruct Hres as (R1 & R2 & R3).
    assert (Hadd : wf_set (IntervalSet.AddInterval results
                             (Interval.Precise (AllOnes (BitCount a))))).
    { destruct R1 as [Rw Rall]. split; simpl; [exact Rw|].
      apply Forall_app. split; [exact Rall|]. constructor; [|constructor].
      rewrite R2. split; split; simpl; try reflexivity; lia. }
    split; [now apply Normalize_wf|]. split; [simpl; exact R2|].
    split; [now apply Normalize_normalized|].
    assert (Hv : has_width (BitCount a) (bits_ops.UDiv x y))
      by (apply UDiv_has_width; auto; apply Hy).
    rewrite Normalize_covers by (auto; simpl; rewrite R2; apply Hv).
    unfold IntervalSet.Covers. cbn [IntervalSet.AddInterval Intervals].
    fold (covers_list (Intervals results ++ [Interval.Precise (AllOnes (BitCount a))])
            (bits_ops.UDiv x y)).
    rewrite covers_list_app. apply orb_true_iff.
    destruct (Z.eq_dec (value y) 0) as [Ey|Hy0].
    + right. simpl. rewrite orb_false_r. apply covers_proper; [unfold proper; simpl; lia|].
      rewrite (UDiv_value (BitCount a)) by auto. rewrite Ey. simpl. lia.
    + left. now apply R3.
  - apply UDiv_nonzero_sound; auto.
Qed.

(** Concat *)

Lemma corners_monotone (ivs : list Interval) :
  corners (repeat Monotone (length ivs)) ivs = (map LowerBound ivs, map UpperBound ivs).
Proof.
  induction ivs as [|iv ivs IH]; [reflexivity|]. simpl. now rewrite IH.
Qed.

Lemma concat_fold_width (sets : list IntervalSet) :
  forall bs acc wacc,
    Forall wf_set sets ->
    Forall2 (fun s b => has_width (BitCount s) b) sets bs ->
    0 <= wacc -> has_width wacc acc ->
    has_width (fold_left (fun v s => v + BitCount s) sets wacc)
      (fold_left
         (fun acc b => mkBits (bit_count acc + bit_count b)
                         (value acc * 2 ^ bit_count b + value b)) bs acc)
    /\ 0 <= fold_left (fun v s => v + BitCount s) sets wacc.
Proof.
  induction sets as [|s sets IH]; intros bs acc wacc Hwf H Hw Hacc;
    inversion H as [|? b ? bs' [Hb Hv] H']; subst; simpl.
  - auto.
  - inversion Hwf as [|? ? [Hs _] Hwf']; subst.
    apply IH; auto; [lia|]. destruct Hacc as [Ha Hva]. split; simpl; [lia|].
    rewrite Z.pow_add_r by lia. rewrite Hb.
    assert (0 < 2 ^ BitCount s) by (apply Z.pow_pos_nonneg; lia). nia.
Qed.

Lemma concat_fold_mono (sets : list IntervalSet) :
  forall bs cs acc acc',
    Forall wf_set sets ->
    Forall2 (fun s b => has_width (BitCount s) b) sets bs ->
    Forall2 (fun s b => has_width (BitCount s) b) sets cs ->
    Forall2 (fun b c => value b <= value c) bs cs ->
    bit_count acc = bit_count acc' -> 0 <= value acc <= value acc' ->
    value (fold_left
             (fun acc b => mkBits (bit_count acc + bit_count b)
                             (value acc * 2 ^ bit_count b + value b)) bs acc)
    <= value (fold_left
                (fun acc b => mkBits (bit_count acc + bit_count b)
                                (value acc * 2 ^ bit_count b + value b)) cs acc').
Proof.
  induction sets as [|s sets IH]; intros bs cs acc acc' Hwf Hb Hc Hle Hbc Hacc;
    inversion Hb as [|? b ? bs' [Hbw Hbv] Hb']; subst;
    inversion Hc as [|? c ? cs' [Hcw Hcv] Hc']; subst; simpl.
  - lia.
  - inversion Hwf as [|? ? [Hs _] Hwf']; subst.
    inversion Hle as [|? ? ? ? Hbcv Hle']; subst.
    apply IH; auto; simpl; [lia|].
    rewrite Hbw, Hcw.
    assert (0 < 2 ^ BitCount s) by (apply Z.pow_pos_nonneg; lia). nia.
Qed.

Lemma Concat_sound (sets : list IntervalSet) (xs : list Bits) :
  Forall wf_set sets ->
  Forall2 (fun s x => has_width (BitCount s) x /\ IntervalSet.Covers s x = true)
    sets xs ->
  wf_set (Concat sets) /\ IntervalSet.IsNormalized (Concat sets) = true
  /\ IntervalSet.Covers (Concat sets) (bits_ops.Concat xs) = true.
Proof.
  intros Hwf Hxs. unfold Concat.
  set (w := fold_left (fun v is_ => v + BitCount is_) sets 0).
  assert (Hcw : forall bs, Forall2 (fun s b => has_width (BitCount s) b) sets bs ->
            has_width w (bits_ops.Concat bs) /\ 0 <= w).
  { intros bs H. apply concat_fold_width; auto; [lia|]. split; simpl; [reflexivity|lia]. }
  assert (Hxw : Forall2 (fun s b => has_width (BitCount s) b) sets xs).
  { eapply Forall2_impl; [|exact Hxs]. simpl. tauto. }
  destruct (Hcw xs Hxw) as [Hyw Hw].
  destruct (PerformVariadicOp_sound (fun bits => no_overflow (bits_ops.Concat bits))
              (repeat Monotone (length sets)) sets w xs) as (H1 & H2 & H3 & H4); auto.
  - now rewrite repeat_length.
  - intros bs H. now apply Hcw.
  - intros ivs Hin Hc.
    assert (Hlen : length sets = length ivs) by (eapply Forall2_length; eauto).
    rewrite Hlen, corners_monotone. simpl fst. simpl snd.
    assert (HL : Forall2 (fun s b => has_width (BitCount s) b) sets (map LowerBound ivs)).
    { clear - Hin. induction Hin as [|s iv ? ? ([Hl _] & _) _ IH]; simpl; constructor; auto. }
    assert (HU : Forall2 (fun s b => has_width (BitCount s) b) sets (map UpperBound ivs)).
    { clear - Hin. induction Hin as [|s iv ? ? ([_ Hu] & _) _ IH]; simpl; constructor; auto. }
    assert (HLx : Forall2 (fun b c => value b <= value c) (map LowerBound ivs) xs
                  /\ Forall2 (fun b c => value b <= value c) xs (map UpperBound ivs)).
    { clear - Hin Hc. revert xs Hc.
      induction Hin as [|s iv ? ? Hw _ IH]; intros xs Hc; inversion Hc as [|? x ? xs' Hcx Hc']; subst.
      - split; constructor.
      - destruct (IH xs' Hc') as [I1 I2].
        pose proof (interval_covers_bounds s iv x Hw Hcx).
        split; simpl; constructor; auto; lia. }
    destruct HLx as [HLx HxU].
    apply (emitted_overflow_sound w _ _ (value (bits_ops.Concat (map LowerBound ivs)))
             (value (bits_ops.Concat (map UpperBound ivs))) (value (bits_ops.Concat xs)));
      auto.
    + apply no_overflow_spec; auto. now apply Hcw.
    + apply no_overflow_spec; auto. now apply Hcw.
    + split; apply (concat_fold_mono sets); auto; simpl; lia.
    + simpl. symmetry. apply Z.mod_small. apply Hyw.
Qed.

(** * Truncate *)

Lemma Slice_low (b : Bits) (w : Z) : Slice b 0 w = UBits (value b) w.
Proof. unfold Slice, UBits. now rewrite Z.pow_0_r, Z.div_1_r. Qed.

Lemma Truncate_loop_spec (w : Z) (l : list Interval) :
  forall st,
    Truncate_loop w (AllOnes w) l st
    = if existsb (wider_than w) l
      then IntervalSet.Maximal w
      else IntervalSet.Normalize
             (mkIntervalSet (BitCount st)
                (Intervals st ++ map (truncated_interval w) l)).
Proof.
  induction l as [|i l IH]; intros st; cbn [Truncate_loop existsb map].
  - rewrite app_nil_r. now destruct st.
  - fold (wider_than w i). destruct (wider_than w i); [reflexivity|].
    cbn [orb]. rewrite IH. cbn [IntervalSet.AddInterval BitCount Intervals].
    rewrite <- app_assoc, !Slice_low. reflexivity.
Qed.

Lemma wider_than_spec (W w : Z) (i : Interval) :
  wf_interval W i -> proper i ->
  wider_than w i = (2 ^ w <=? value (UpperBound i) - value (LowerBound i)).
Proof.
  intros [[_ Hl] [Hbu Hu]] Hp. unfold proper in Hp.
  unfold wider_than, bits_ops.UGreaterThan, bits_ops.Sub, AllOnes.
  cbn [value bit_count]. rewrite Hbu, Z.mod_small by lia.
  destruct (Z.ltb_spec (2 ^ w - 1) (value (UpperBound i) - value (LowerBound i)));
  destruct (Z.leb_spec (2 ^ w) (value (UpperBound i) - value (LowerBound i))); auto; lia.
Qed.

Lemma truncated_interval_wf (w : Z) (i : Interval) :
  0 <= w -> wf_interval w (truncated_interval w i).
Proof.
  intros Hw. pose proof (pow2_pos w Hw) as HM.
  unfold truncated_interval, UBits. split; split; simpl; auto;
    apply Z.mod_pos_bound; lia.
Qed.

(** The truncated interval covers the truncation of every value of an
    interval of fewer than [2^w + 1] values. *)
Lemma truncated_interval_covers (w : Z) (i : Interval) (x y : Bits) :
  0 <= w -> proper i ->
  value (UpperBound i) - value (LowerBound i) < 2 ^ w ->
  Interval.Covers i x = true ->
  value y = value x mod 2 ^ w ->
  Interval.Covers (truncated_interval w i) y = true.
Proof.
  intros Hw Hp Hn Hc Ey. pose proof (pow2_pos w Hw) as HM.
  apply covers_proper in Hc; auto. unfold proper in Hp.
  set (M := 2 ^ w) in *.
  pose proof (Z.div_mod (value (LowerBound i)) M ltac:(lia)) as DL.
  pose proof (Z.div_mod (value (UpperBound i)) M ltac:(lia)) as DU.
  pose proof (Z.div_mod (value x) M ltac:(lia)) as DX.
  pose proof (Z.mod_pos_bound (value (LowerBound i)) M HM) as BL.
  pose proof (Z.mod_pos_bound (value (UpperBound i)) M HM) as BU.
  pose proof (Z.mod_pos_bound (value x) M HM) as BX.
  assert (QL : value (LowerBound i) / M <= value x / M) by (apply Z.div_le_mono; lia).
  assert (QU : value x / M <= value (UpperBound i) / M) by (apply Z.div_le_mono; lia).
  rewrite <- Ey in DX, BX.
  unfold Interval.Covers, Interval.IsImproper, bits_ops.UGreaterThan, truncated_interval, UBits.
  cbn [LowerBound UpperBound value]. fold M.
  set (ql := value (LowerBound i) / M) in *. set (qu := value (UpperBound i) / M) in *.
  set (qx := value x / M) in *.
  set (rl := value (LowerBound i) mod M) in *. set (ru := value (UpperBound i) mod M) in *.
  assert (Hq : qu = ql \/ qu = ql + 1) by nia.
  assert (Hqx : qx = ql \/ qx = qu) by lia.
  destruct (Z.ltb_spec ru rl).
  - apply orb_true_iff. destruct Hq as [Hq|Hq]; [nia|].
    destruct Hqx as [E|E]; [left|right]; apply Z.leb_le; nia.
  - apply andb_true_iff. destruct Hq as [Hq|Hq]; [|nia].
    split; apply Z.leb_le; nia.
Qed.

(** An interval of exactly [2^w] values is truncated to an interval that
    covers every value. *)
Lemma truncated_interval_full (w : Z) (i : Interval) (y : Bits) :
  0 <= w -> proper i ->
  value (UpperBound i) - value (LowerBound i) = 2 ^ w - 1 ->
  0 <= value y < 2 ^ w ->
  Interval.Covers (truncated_interval w i) y = true.
Proof.
  intros Hw Hp Hn Hy. pose proof (pow2_pos w Hw) as HM.
  set (M := 2 ^ w) in *.
  pose proof (Z.div_mod (value (LowerBound i)) M ltac:(lia)) as DL.
  pose proof (Z.div_mod (value (UpperBound i)) M ltac:(lia)) as DU.
  pose proof (Z.mod_pos_bound (value (LowerBound i)) M HM) as BL.
  pose proof (Z.mod_pos_bound (value (UpperBound i)) M HM) as BU.
  unfold Interval.Covers, Interval.IsImproper, bits_ops.UGreaterThan, truncated_interval, UBits.
  cbn [LowerBound UpperBound value]. fold M.
  set (ql := value (LowerBound i) / M) in *. set (qu := value (UpperBound i) / M) in *.
  set (rl := value (LowerBound i) mod M) in *. set (ru := value (UpperBound i) mod M) in *.
  assert (Hq : qu = ql \/ qu = ql + 1) by nia.
  destruct (Z.ltb_spec ru rl).
  - apply orb_true_iff.
    destruct (Z.le_gt_cases rl (value y)); [left|right]; apply Z.leb_le; nia.
  - apply andb_true_iff. split; apply Z.leb_le; nia.
Qed.

(** A normalized set that covers every value is the maximal set. *)
Lemma normalize_list_full (w : Z) (l : list Interval) :
  0 <= w -> Forall (wf_interval w) l ->
  (forall v, 0 <= v < 2 ^ w -> covers_list l (mkBits w v) = true) ->
  IntervalSet.normalize_list w l = [Interval.Maximal w].
Proof.
  intros Hw Hwf Hall. pose proof (pow2_pos w Hw) as HM.
  pose proof (normalize_list_separated w l Hw Hwf) as Hs.
  pose proof (normalize_list_wf w l Hw Hwf) as HwfN.
  assert (HallN : forall v, 0 <= v < 2 ^ w ->
            covers_list (IntervalSet.normalize_list w l) (mkBits w v) = true).
  { intros v Hv. rewrite normalize_list_covers by auto. now apply Hall. }
  destruct (IntervalSet.normalize_list w l) as [|a rest].
  { specialize (HallN 0 ltac:(lia)). discriminate. }
  pose proof (separated_proper _ Hs) as Hprop.
  pose proof (separated_sorted _ Hs) as Hsort.
  pose proof (separated_beyond _ _ Hs) as Hbeyond.
  pose proof (Forall_inv HwfN) as [[Hal1 Hal] [Hau1 Hau]].
  pose proof (Forall_inv_tail HwfN) as HwfR.
  pose proof (Forall_inv Hprop) as Hpa. pose proof (Forall_inv_tail Hprop) as HpR.
  assert (HleR : Forall (lo_le a) rest) by (inversion Hsort; assumption).
  assert (Hlo : value (LowerBound a) = 0).
  { specialize (HallN 0 ltac:(lia)). apply covers_list_iff in HallN.
    destruct HallN as (i & Hin & Hc).
    destruct Hin as [<-|Hin].
    - apply covers_proper in Hc; auto. simpl in Hc. lia.
    - rewrite Forall_forall in HleR, HpR. specialize (HleR _ Hin). specialize (HpR _ Hin).
      apply covers_proper in Hc; auto. unfold lo_le in HleR. simpl in Hc. lia. }
  assert (Hhi : value (UpperBound a) = 2 ^ w - 1).
  { destruct (Z.eq_dec (value (UpperBound a)) (2 ^ w - 1)) as [E|Hne]; [exact E|].
    exfalso. specialize (HallN (value (UpperBound a) + 1) ltac:(lia)).
    apply covers_list_iff in HallN. destruct HallN as (i & Hin & Hc).
    destruct Hin as [<-|Hin].
    - apply covers_proper in Hc; auto. simpl in Hc. lia.
    - rewrite Forall_forall in Hbeyond, HpR.
      specialize (Hbeyond _ Hin). specialize (HpR _ Hin).
      apply covers_proper in Hc; auto. simpl in Hc. lia. }
  destruct rest as [|b rest].
  - f_equal. unfold Interval.Maximal, Bits_zero, AllOnes.
    destruct a as [[bl vl] [bu vu]]. simpl in *. congruence.
  - exfalso. pose proof (Forall_inv Hbeyond) as Hb. simpl in Hb.
    pose proof (Forall_inv HwfR) as [[_ Hbl] _]. lia.
Qed.

(** What [Truncate] returns (on proper intervals). *)
Lemma Truncate_spec (a : IntervalSet) (w : Z) :
  wf_set a -> Forall proper (Intervals a) ->
  Truncate a w
  = if existsb (fun i => 2 ^ w <=? value (UpperBound i) - value (LowerBound i))
         (Intervals a)
    then IntervalSet.Maximal w
    else IntervalSet.Normalize
           (mkIntervalSet w (map (truncated_interval w) (Intervals a))).
Proof.
  intros [_ Hwf] Hp. unfold Truncate. rewrite Truncate_loop_spec.
  assert (E : existsb (wider_than w) (Intervals a)
              = existsb (fun i => 2 ^ w <=? value (UpperBound i) - value (LowerBound i))
                  (Intervals a)).
  { clear - Hwf Hp. induction Hwf as [|i l Hi Hl IH]; [reflexivity|].
    inversion Hp; subst. simpl. rewrite IH by auto.
    now rewrite (wider_than_spec (BitCount a)) by auto. }
  rewrite E. reflexivity.
Qed.

Lemma Truncate_full (a : IntervalSet) (w : Z) :
  wf_set a -> Forall proper (Intervals a) -> 0 <= w ->
  (exists i, In i (Intervals a)
             /\ 2 ^ w <= value (UpperBound i) - value (LowerBound i) + 1) ->
  Truncate a w = IntervalSet.Maximal w.
Proof.
  intros Hwf Hp Hw (i & Hin & Hi). rewrite Truncate_spec by auto.
  destruct (existsb _ (Intervals a)) eqn:E; [reflexivity|].
  unfold IntervalSet.Normalize, IntervalSet.Maximal. cbn [BitCount Intervals]. f_equal.
  assert (Hnw : forall j, In j (Intervals a) ->
            value (UpperBound j) - value (LowerBound j) < 2 ^ w).
  { intros j Hj. apply Z.ltb_lt. rewrite Z.ltb_antisym.
    apply negb_true_iff.
    destruct (2 ^ w <=? value (UpperBound j) - value (LowerBound j)) eqn:Ej; auto.
    assert (Ht : existsb (fun i => 2 ^ w <=? value (UpperBound i) - value (LowerBound i))
                   (Intervals a) = true)
      by (apply existsb_exists; exists j; auto).
    congruence. }
  apply normalize_list_full; auto.
  - apply Forall_forall. intros j Hj. apply in_map_iff in Hj.
    destruct Hj as (j' & <- & _). now apply truncated_interval_wf.
  - intros v Hv. apply covers_list_iff. exists (truncated_interval w i).
    split; [now apply in_map|].
    rewrite Forall_forall in Hp.
    apply truncated_interval_full; auto. specialize (Hnw i Hin). lia.
Qed.

Lemma Truncate_sound (a : IntervalSet) (w : Z) (x : Bits) :
  wf_set a -> IntervalSet.IsNormalized a = true -> 0 <= w ->
  has_width (BitCount a) x -> IntervalSet.Covers a x = true ->
  wf_set (Truncate a w) /\ BitCount (Truncate a w) = w
  /\ IntervalSet.IsNormalized (Truncate a w) = true
  /\ IntervalSet.Covers (Truncate a w) (bits_ops.Truncate x w) = true.
Proof.
  intros Hwf Hn Hw Hx Hc. pose proof (pow2_pos w Hw) as HM.
  pose proof (separated_proper _ Hn) as Hp.
  rewrite Truncate_spec by auto.
  assert (Hy : 0 <= value (bits_ops.Truncate x w) < 2 ^ w)
    by (simpl; apply Z.mod_pos_bound; lia).
  destruct (existsb _ (Intervals a)) eqn:E.
  - split; [split; simpl; [lia|constructor; [now apply Maximal_wf|constructor]]|].
    split; [reflexivity|]. split.
    + unfold IntervalSet.IsNormalized. simpl. rewrite !andb_true_r. apply Z.leb_le. lia.
    + unfold IntervalSet.Covers. simpl. rewrite Maximal_covers by auto. reflexivity.
  - set (T := mkIntervalSet w (map (truncated_interval w) (Intervals a))).
    assert (HwfT : wf_set T).
    { split; simpl; [lia|]. apply Forall_forall. intros j Hj. apply in_map_iff in Hj.
      destruct Hj as (j' & <- & _). now apply truncated_interval_wf. }
    split; [now apply Normalize_wf|]. split; [reflexivity|].
    split; [now apply Normalize_normalized|].
    rewrite Normalize_covers by auto.
    unfold IntervalSet.Covers in *. simpl.
    apply covers_list_iff in Hc. destruct Hc as (i & Hin & Hci).
    apply covers_list_iff. exists (truncated_interval w i). split; [now apply in_map|].
    rewrite Forall_forall in Hp.
    apply (truncated_interval_covers w i x); auto.
    apply Z.ltb_lt. rewrite Z.ltb_antisym. apply negb_true_iff.
    destruct (2 ^ w <=? value (UpperBound i) - value (LowerBound i)) eqn:Ej; auto.
    assert (Ht : existsb (fun i => 2 ^ w <=? value (UpperBound i) - value (LowerBound i))
                   (Intervals a) = true)
      by (apply existsb_exists; exists i; auto).
    congruence.
Qed.

(** * The harness on single values *)

Lemma Precise_normalized (b : Bits) :
  IntervalSet.IsNormalized (IntervalSet.Precise b) = true.
Proof.
  unfold IntervalSet.IsNormalized. simpl. rewrite !andb_true_r. apply Z.leb_le. lia.
Qed.

Lemma iterate_until_single {S : Type} (f : list nat -> S -> S * bool)
    (number : list nat) (st : S) :
  iterate_until f [number] st = fst (f number st).
Proof. simpl. destruct (f number st) as [st' stop]. now destruct stop. Qed.

Lemma PerformBinOp_precise (calc : Bits -> Bits -> OverflowResult)
    (x y : Bits) (ta tb : Tonicity) (w : Z) :
  PerformBinOp calc (IntervalSet.Precise x) ta (IntervalSet.Precise y) tb w
  = MinimizeIntervals
      (IntervalSet.Normalize
         (fst (add_corner_results w (calc x y) (calc x y) (IntervalSet.Empty w))))
      16.
Proof.
  unfold PerformBinOp, PerformVariadicOp.
  assert (Eops : minimize_operands 0 [IntervalSet.Precise x; IntervalSet.Precise y]
                 = [IntervalSet.Precise x; IntervalSet.Precise y]).
  { cbn [minimize_operands]. change (0 <? 12) with true. change (0 + 1 <? 12) with true.
    cbv iota.
    rewrite (MinimizeIntervals_small (IntervalSet.Precise x) 5),
            (MinimizeIntervals_small (IntervalSet.Precise y) 5)
      by (try apply Precise_normalized; unfold IntervalSet.NumberOfIntervals; simpl; lia).
    reflexivity. }
  rewrite Eops. unfold MixedRadixIterate.
  change (mixed_radix_numbers
            (map IntervalSet.NumberOfIntervals
               [IntervalSet.Precise x; IntervalSet.Precise y])) with [[O; O]].
  rewrite iterate_until_single.
  assert (Ec : corner_bounds [ta; tb] [IntervalSet.Precise x; IntervalSet.Precise y] [O; O]
               = ([x; y], [x; y])) by (destruct ta, tb; reflexivity).
  rewrite Ec. reflexivity.
Qed.

(** Add on two single values: exact unless the sum overflows, in which case
    both corners overflow and the harness gives up. *)
Lemma Add_precise (w x y : Z) :
  0 <= w -> 0 <= x < 2 ^ w -> 0 <= y < 2 ^ w ->
  Add (IntervalSet.Precise (mkBits w x)) (IntervalSet.Precise (mkBits w y))
  = if x + y <? 2 ^ w
    then IntervalSet.Precise (mkBits w (x + y))
    else IntervalSet.Maximal w.
Proof.
  intros Hw Hx Hy. unfold Add. rewrite PerformBinOp_precise.
  destruct (Add_calc_spec w (mkBits w x) (mkBits w y) Hw) as ([Hb Hr] & Ev & O1 & _);
    try (split; simpl; auto).
  cbn [value] in *. cbn [IntervalSet.Precise BitCount bit_count].
  pose proof (pow2_pos w Hw) as HM.
  unfold add_corner_results.
  destruct (Z.ltb_spec (x + y) (2 ^ w)) as [Hlt|Hge].
  - assert (E1 : first_overflow_bit (Add_calc (mkBits w x) (mkBits w y)) = false).
    { apply O1. apply Z.div_small. lia. }
    rewrite E1. cbn [negb andb fst].
    unfold IntervalSet.AddInterval, IntervalSet.Empty. cbn [BitCount Intervals app].
    assert (Er : result (Add_calc (mkBits w x) (mkBits w y)) = mkBits w (x + y)).
    { destruct (result (Add_calc (mkBits w x) (mkBits w y))) as [bc v]. simpl in *.
      rewrite Z.mod_small in Ev by lia. congruence. }
    rewrite Er.
    assert (En : IntervalSet.Normalize
                   (mkIntervalSet w [mkInterval (mkBits w (x + y)) (mkBits w (x + y))])
                 = IntervalSet.Precise (mkBits w (x + y))).
    { unfold IntervalSet.Normalize. cbn [BitCount Intervals].
      rewrite normalize_list_id; [reflexivity|].
      simpl. rewrite !andb_true_r. apply Z.leb_le. lia. }
    rewrite En. apply MinimizeIntervals_small; [apply Precise_normalized|].
    unfold IntervalSet.NumberOfIntervals. simpl. lia.
  - assert (E1 : first_overflow_bit (Add_calc (mkBits w x) (mkBits w y)) = true).
    { destruct (first_overflow_bit (Add_calc (mkBits w x) (mkBits w y))); auto.
      assert (Hq : (x + y) / 2 ^ w = 0) by (now apply O1).
      apply Z.div_small_iff in Hq; lia. }
    rewrite E1. cbn [negb andb orb fst].
    unfold IntervalSet.AddInterval, IntervalSet.Empty. cbn [BitCount Intervals app].
    assert (En : IntervalSet.Normalize (mkIntervalSet w [Interval.Maximal w])
                 = IntervalSet.Maximal w).
    { unfold IntervalSet.Normalize. cbn [BitCount Intervals].
      rewrite normalize_list_id; [reflexivity|].
      simpl. rewrite !andb_true_r. apply Z.leb_le. lia. }
    rewrite En. apply MinimizeIntervals_small.
    + unfold IntervalSet.IsNormalized. simpl. rewrite !andb_true_r. apply Z.leb_le. lia.
    + unfold IntervalSet.NumberOfIntervals. simpl. lia.
Qed.

(** * UDiv when the divisor may be zero *)

Lemma UDiv_by_zero_only (a : IntervalSet) (w : Z) :
  1 <= w ->
  UDiv a (IntervalSet.Precise (Bits_zero w))
  = IntervalSet.Precise (AllOnes (BitCount a)).
Proof.
  intros Hw. unfold UDiv.
  assert (H2 : 2 <= 2 ^ w).
  { replace w with (1 + (w - 1)) by lia. rewrite Z.pow_add_r by lia.
    assert (0 < 2 ^ (w - 1)) by (apply Z.pow_pos_nonneg; lia). lia. }
  assert (Ez : IntervalSet.CoversZero (IntervalSet.Precise (Bits_zero w)) = true)
    by reflexivity.
  rewrite Ez. cbn [negb].
  assert (Ei : IntervalSet.Intersect (IntervalSet.Precise (Bits_zero w))
                 (IntervalSet.NonZero (BitCount (IntervalSet.Precise (Bits_zero w))))
               = IntervalSet.Empty w).
  { unfold IntervalSet.Intersect, IntervalSet.NonZero, IntervalSet.Precise,
      IntervalSet.intersect_interval, Interval.Precise, UBits, AllOnes, Bits_zero.
    cbn [BitCount Intervals bit_count flat_map LowerBound UpperBound value app].
    rewrite (Z.mod_small 1) by lia.
    change (0 <? 1) with true. cbv iota. cbn [value].
    destruct (Z.ltb_spec 0 (2 ^ w - 1)); [|lia]. cbn [value].
    change (1 <=? 0) with false. reflexivity. }
  rewrite Ei. cbn [IntervalSet.IsEmpty IntervalSet.Empty Intervals negb].
  unfold IntervalSet.Normalize, IntervalSet.AddInterval, IntervalSet.Precise.
  cbn [BitCount Intervals app AllOnes bit_count]. f_equal.
  apply normalize_list_id. simpl. rewrite !andb_true_r. apply Z.leb_le. lia.
Qed.

Lemma UDiv_covering_zero (a b : IntervalSet) :
  wf_set b -> IntervalSet.IsNormalized b = true -> 1 <= BitCount b ->
  IntervalSet.CoversZero b = true ->
  let nonzero_divisor := IntervalSet.Intersect b (IntervalSet.NonZero (BitCount b)) in
  IntervalSet.CoversZero nonzero_divisor = false
  /\ UDiv a b
     = IntervalSet.Combine
         (if IntervalSet.IsEmpty nonzero_divisor
          then IntervalSet.Empty (BitCount a)
          else UDiv a nonzero_divisor)
         (IntervalSet.Precise (AllOnes (BitCount a))).
Proof.
  intros Hb Hnb Hw Hz nz.
  destruct (NonZero_props (BitCount b) Hw) as (HwfNZ & HpNZ & HcNZ).
  destruct (Intersect_props b (IntervalSet.NonZero (BitCount b)) Hb HwfNZ eq_refl
              (separated_proper _ Hnb) HpNZ) as (HwfI & HbI & HcI).
  fold nz in HwfI, HbI, HcI.
  pose proof (pow2_pos (BitCount b) ltac:(lia)) as HM.
  assert (HzI : IntervalSet.CoversZero nz = false).
  { unfold IntervalSet.CoversZero. rewrite HbI, HcI by (simpl; lia).
    rewrite HcNZ by (simpl; lia). simpl. apply andb_false_r. }
  split; [exact HzI|].
  unfold UDiv at 1. rewrite Hz. cbn [negb]. fold nz.
  unfold IntervalSet.Combine, IntervalSet.AddInterval.
  destruct (IntervalSet.IsEmpty nz) eqn:HE; cbn [negb].
  - reflexivity.
  - unfold UDiv. rewrite HzI. cbn [negb]. reflexivity.
Qed.

(** Sets of width zero: the only value is the empty one. *)
Lemma zero_width_interval (i : Interval) :
  wf_interval 0 i -> i = mkInterval (mkBits 0 0) (mkBits 0 0).
Proof.
  destruct i as [[bl vl] [bh vh]]. unfold wf_interval, has_width.
  cbn [LowerBound UpperBound bit_count value]. change (2 ^ 0) with 1.
  intros [[-> Hl] [-> Hh]]. replace vl with 0 by lia. replace vh with 0 by lia.
  reflexivity.
Qed.

Lemma zero_width_set (r : IntervalSet) :
  wf_set r -> BitCount r = 0 -> IntervalSet.IsNormalized r = true ->
  Intervals r = [] \/ Intervals r = [mkInterval (mkBits 0 0) (mkBits 0 0)].
Proof.
  intros [_ Hwf] Hb Hn. rewrite Hb in Hwf. unfold IntervalSet.IsNormalized in Hn.
  destruct (Intervals r) as [|i [|j l]]; [now left| |].
  - right. now rewrite (zero_width_interval i (Forall_inv Hwf)).
  - exfalso.
    rewrite (zero_width_interval i (Forall_inv Hwf)) in Hn.
    rewrite (zero_width_interval j (Forall_inv (Forall_inv_tail Hwf))) in Hn.
    cbn in Hn. discriminate.
Qed.

Lemma UDiv_by_zero_only_zero_width (a : IntervalSet) :
  wf_set a -> BitCount a = 0 ->
  UDiv a (IntervalSet.Precise (Bits_zero 0))
  = IntervalSet.Precise (AllOnes (BitCount a)).
Proof.
  intros Ha Ha0. pose proof Ha as [Hw _]. unfold UDiv.
  change (IntervalSet.CoversZero (IntervalSet.Precise (Bits_zero 0))) with true.
  cbn [negb].
  set (nz := IntervalSet.Intersect (IntervalSet.Precise (Bits_zero 0))
               (IntervalSet.NonZero (BitCount (IntervalSet.Precise (Bits_zero 0))))).
  assert (Enz : nz = mkIntervalSet 0 [mkInterval (mkBits 0 0) (mkBits 0 0)])
    by (vm_compute; reflexivity).
  rewrite Enz. cbn [IntervalSet.IsEmpty Intervals negb].
  assert (Hnz : wf_set (mkIntervalSet 0 [mkInterval (mkBits 0 0) (mkBits 0 0)]))
    by wf_concrete.
  destruct (PerformBinOp_wf (fun l r => no_overflow (bits_ops.UDiv l r))
              a _ Monotone Antitone (BitCount a) Hw Ha Hnz)
    as (W1 & W2 & W3).
  { intros l r Hl Hr. apply UDiv_has_width; auto. apply Hr. }
  unfold IntervalSet.Normalize, IntervalSet.AddInterval. cbn [BitCount Intervals].
  rewrite W2.
  destruct (zero_width_set _ W1 (eq_trans W2 Ha0) W3) as [E|E];
    rewrite E, Ha0; vm_compute; reflexivity.
Qed.

Lemma UDiv_covering_zero_union (a b : IntervalSet) :
  IntervalSet.CoversZero b = true ->
  let nonzero_divisor := IntervalSet.Intersect b (IntervalSet.NonZero (BitCount b)) in
  UDiv a b
  = IntervalSet.Combine
      (if IntervalSet.IsEmpty nonzero_divisor
       then IntervalSet.Empty (BitCount a)
       else PerformBinOp (fun l r => no_overflow (bits_ops.UDiv l r))
              a Monotone nonzero_divisor Antitone (BitCount a))
      (IntervalSet.Precise (AllOnes (BitCount a))).
Proof.
  intros Hz nz. unfold UDiv. rewrite Hz. cbn [negb]. fold nz.
  unfold IntervalSet.Combine, IntervalSet.AddInterval.
  destruct (IntervalSet.IsEmpty nz); cbn [negb]; reflexivity.
Qed.

(** * The bitwise transfer functions *)

Lemma bits_below (w v : Z) :
  0 <= w -> 0 <= v ->
  (forall i, w <= i -> Z.testbit v i = false) -> v < 2 ^ w.
Proof.
  intros Hw Hv H.
  assert (E : v mod 2 ^ w = v).
  { apply Z.bits_inj'. intros i Hi.
    destruct (Z.lt_ge_cases i w).
    - now rewrite Z.mod_pow2_bits_low by lia.
    - rewrite Z.mod_pow2_bits_high by lia. symmetry. now apply H. }
  rewrite <- E. apply Z.mod_pos_bound. now apply pow2_pos.
Qed.

Lemma bitwise_has_width (f : Z -> Z -> Z) (g : bool -> bool -> bool) (w : Z) (x y : Bits) :
  g false false = false ->
  (forall a b, 0 <= a -> 0 <= b -> 0 <= f a b) ->
  (forall a b i, 0 <= i -> Z.testbit (f a b) i = g (Z.testbit a i) (Z.testbit b i)) ->
  0 <= w -> has_width w x -> has_width w y ->
  0 <= f (value x) (value y) < 2 ^ w.
Proof.
  intros Hg Hnn Hspec Hw [_ Hx] [_ Hy]. split; [apply Hnn; lia|].
  apply bits_below; [lia|apply Hnn; lia|].
  intros i Hi. rewrite Hspec by lia.
  rewrite (testbit_above w i (value x)), (testbit_above w i (value y)) by lia.
  exact Hg.
Qed.

Lemma zip_with_length (f : TernaryValue -> TernaryValue -> TernaryValue) (a : TernaryVector) :
  forall b, length a = length b ->
    length (TernaryEvaluator.zip_with f a b) = length a.
Proof.
  induction a as [|x a IH]; intros [|y b] H; simpl in *; try lia.
  now rewrite IH by lia.
Qed.

Lemma zip_with_nth (f : TernaryValue -> TernaryValue -> TernaryValue) (a : TernaryVector) :
  forall b i, length a = length b -> (i < length a)%nat ->
    nth i (TernaryEvaluator.zip_with f a b) kUnknown
    = f (nth i a kUnknown) (nth i b kUnknown).
Proof.
  induction a as [|x a IH]; intros [|y b] i H Hi; simpl in *; try lia.
  destruct i; [reflexivity|]. apply IH; lia.
Qed.

Lemma And_tracks : tracks TernaryEvaluator.And andb.
Proof. intros [] [] [] []; simpl; auto. Qed.
Lemma Or_tracks : tracks TernaryEvaluator.Or orb.
Proof. intros [] [] [] []; simpl; auto. Qed.
Lemma Xor_tracks : tracks TernaryEvaluator.Xor xorb.
Proof. intros [] [] [] []; simpl; auto. Qed.

Lemma zip_with_consistent (f : TernaryValue -> TernaryValue -> TernaryValue)
    (g : bool -> bool -> bool) (h : Z -> Z -> Z) (ta tb : TernaryVector) (x y r : Bits) :
  tracks f g ->
  (forall a b i, 0 <= i -> Z.testbit (h a b) i = g (Z.testbit a i) (Z.testbit b i)) ->
  length ta = length tb ->
  consistent ta x = true -> consistent tb y = true ->
  value r = h (value x) (value y) ->
  consistent (TernaryEvaluator.zip_with f ta tb) r = true.
Proof.
  intros Ht Hspec Hl Ha Hb Er. rewrite consistent_iff in *.
  intros i Hi. rewrite zip_with_length in Hi by auto.
  rewrite zip_with_nth by auto. rewrite Er, Hspec by lia.
  apply Ht; [apply Ha|apply Hb]; lia.
Qed.

(** The one-bit special case. *)

Lemma one_bit_value (x : Bits) :
  has_width 1 x -> value x = 0 \/ value x = 1.
Proof. intros [_ H]. change (2 ^ 1) with 2 in H. lia. Qed.

Lemma one_bit_testbit (x : Bits) :
  has_width 1 x -> Z.testbit (value x) 0 = (value x =? 1).
Proof. intros H. destruct (one_bit_value x H) as [->| ->]; reflexivity. Qed.

Lemma IsPrecise_covers (s : IntervalSet) (x : Bits) :
  IntervalSet.IsPrecise s = true -> IntervalSet.Covers s x = true ->
  exists i, Intervals s = [i] /\ value (LowerBound i) = value x
            /\ value (UpperBound i) = value x.
Proof.
  unfold IntervalSet.IsPrecise, IntervalSet.Covers.
  destruct (Intervals s) as [|i [|j l]]; try discriminate.
  intros Hp Hc. exists i. split; [reflexivity|].
  unfold Interval.IsPrecise, bits_ops.UEqual in Hp. apply Z.eqb_eq in Hp.
  simpl in Hc. rewrite orb_false_r in Hc.
  apply covers_proper in Hc; [|unfold proper; lia]. lia.
Qed.

Lemma OneBitRangeToTernary_agrees (s : IntervalSet) (x : Bits) :
  BitCount s = 1 -> has_width 1 x -> IntervalSet.Covers s x = true ->
  exists t, OneBitRangeToTernary s = Some t
            /\ agrees t (Z.testbit (value x) 0) = true.
Proof.
  intros Hb Hx Hc. unfold OneBitRangeToTernary. rewrite Hb. simpl.
  destruct (IntervalSet.IsPrecise s) eqn:Hp; [|exists kUnknown; auto].
  destruct (IsPrecise_covers s x Hp Hc) as (i & Ei & El & Eu).
  assert (Ez : IntervalSet.CoversZero s = (value x =? 0)).
  { unfold IntervalSet.CoversZero, IntervalSet.Covers. rewrite Ei. simpl.
    rewrite orb_false_r.
    unfold Interval.Covers, Interval.IsImproper, bits_ops.UGreaterThan.
    rewrite El, Eu, Z.ltb_irrefl.
    destruct (one_bit_value x Hx) as [E|E]; rewrite E; reflexivity. }
  destruct (one_bit_value x Hx) as [E|E]; rewrite Ez, E; simpl;
    [exists kKnownZero|exists kKnownOne]; split; reflexivity.
Qed.

Lemma TernaryToOneBitRange_props (t : TernaryValue) :
  wf_set (TernaryToOneBitRange t)
  /\ BitCount (TernaryToOneBitRange t) = 1
  /\ IntervalSet.IsNormalized (TernaryToOneBitRange t) = true.
Proof.
  destruct t; (split; [wf_concrete|]); split; reflexivity.
Qed.

Lemma TernaryToOneBitRange_covers (t : TernaryValue) (r : Bits) :
  has_width 1 r -> agrees t (Z.testbit (value r) 0) = true ->
  IntervalSet.Covers (TernaryToOneBitRange t) r = true.
Proof.
  intros Hr Ha. rewrite one_bit_testbit in Ha by exact Hr.
  unfold IntervalSet.Covers, Interval.Covers, Interval.IsImproper, bits_ops.UGreaterThan.
  destruct (one_bit_value r Hr) as [E|E]; rewrite E in *;
    destruct t; simpl in Ha; try discriminate; reflexivity.
Qed.

(** The general case goes through the ternary vectors. *)
Lemma bitwise_binary_sound (f : TernaryValue -> TernaryValue -> TernaryValue)
    (g : bool -> bool -> bool) (h : Z -> Z -> Z)
    (a b : IntervalSet) (max_interval_bits : Z) (x y : Bits) :
  tracks f g -> g false false = false ->
  (forall p q, 0 <= p -> 0 <= q -> 0 <= h p q) ->
  (forall p q i, 0 <= i -> Z.testbit (h p q) i = g (Z.testbit p i) (Z.testbit q i)) ->
  0 <= max_interval_bits ->
  operand a -> operand b -> BitCount a = BitCount b ->
  has_width (BitCount a) x -> IntervalSet.Covers a x = true ->
  has_width (BitCount b) y -> IntervalSet.Covers b y = true ->
  exists r,
    bitwise_binary f (TernaryEvaluator.zip_with f) a b max_interval_bits = Some r
    /\ operand r /\ BitCount r = BitCount a
    /\ IntervalSet.Covers r (mkBits (BitCount a) (h (value x) (value y))) = true.
Proof.
  intros Ht Hg Hnn Hspec Hm [Ha Hna] [Hb Hnb] Hab Hx Hcx Hy Hcy.
  pose proof Ha as [Hw _].
  pose proof (bitwise_has_width h g (BitCount a) x y Hg Hnn Hspec Hw Hx
                ltac:(rewrite Hab; exact Hy)) as Hr.
  unfold bitwise_binary. rewrite Hab, Z.eqb_refl. cbn [check bind].
  destruct (Z.eqb_spec (BitCount b) 1) as [E1|Hne].
  - rewrite Hab, E1 in *.
    destruct (OneBitRangeToTernary_agrees a x ltac:(lia) Hx Hcx) as (ta & Eta & Hta).
    destruct (OneBitRangeToTernary_agrees b y E1 Hy Hcy) as (tb & Etb & Htb).
    rewrite Eta, Etb. cbn [bind]. eexists. split; [reflexivity|].
    destruct (TernaryToOneBitRange_props (f ta tb)) as (P1 & P2 & P3).
    split; [split; auto|]. split; [exact P2|].
    apply TernaryToOneBitRange_covers; [split; [reflexivity|exact Hr]|].
    cbn [value]. rewrite Hspec by lia. now apply Ht.
  - destruct (ExtractTernaryVector_consistent a x Ha Hna Hcx) as (ta & Eta & Lta & Hta).
    destruct (ExtractTernaryVector_consistent b y Hb Hnb Hcy) as (tb & Etb & Ltb & Htb).
    rewrite Eta, Etb. cbn [bind].
    assert (Hlen : length ta = length tb) by (rewrite Lta, Ltb, Hab; reflexivity).
    set (r := mkBits (BitCount a) (h (value x) (value y))).
    destruct (FromTernary_sound (TernaryEvaluator.zip_with f ta tb) max_interval_bits r Hm)
      as (s & Es & Bs & Ws & Ns & Cs).
    + rewrite zip_with_length by auto. rewrite Lta, Z2Nat.id by lia. exact Hr.
    + eapply zip_with_consistent; eauto.
    + exists s. split; [exact Es|]. split; [split; auto|]. split; [|exact Cs].
      rewrite Bs, zip_with_length by auto. rewrite Lta. lia.
Qed.

Lemma And_sound (a b : IntervalSet) (max_interval_bits : Z) (x y : Bits) :
  0 <= max_interval_bits ->
  operand a -> operand b -> BitCount a = BitCount b ->
  has_width (BitCount a) x -> IntervalSet.Covers a x = true ->
  has_width (BitCount b) y -> IntervalSet.Covers b y = true ->
  exists r, And a b max_interval_bits = Some r /\ operand r
            /\ IntervalSet.Covers r (bits_ops.And x y) = true.
Proof.
  intros Hm Ha Hb Hab Hx Hcx Hy Hcy.
  destruct (bitwise_binary_sound TernaryEvaluator.And andb Z.land a b max_interval_bits x y)
    as (r & E & Hr & _ & Hc); auto using And_tracks.
  - intros p q Hp Hq. apply Z.land_nonneg. auto.
  - intros p q i Hi. apply Z.land_spec.
  - exists r. split; [exact E|]. split; [exact Hr|].
    unfold bits_ops.And. destruct Hx as [-> _]. exact Hc.
Qed.

Lemma Or_sound (a b : IntervalSet) (max_interval_bits : Z) (x y : Bits) :
  0 <= max_interval_bits ->
  operand a -> operand b -> BitCount a = BitCount b ->
  has_width (BitCount a) x -> IntervalSet.Covers a x = true ->
  has_width (BitCount b) y -> IntervalSet.Covers b y = true ->
  exists r, Or a b max_interval_bits = Some r /\ operand r
            /\ IntervalSet.Covers r (bits_ops.Or x y) = true.
Proof.
  intros Hm Ha Hb Hab Hx Hcx Hy Hcy.
  destruct (bitwise_binary_sound TernaryEvaluator.Or orb Z.lor a b max_interval_bits x y)
    as (r & E & Hr & _ & Hc); auto using Or_tracks.
  - intros p q Hp Hq. apply Z.lor_nonneg. auto.
  - intros p q i Hi. apply Z.lor_spec.
  - exists r. split; [exact E|]. split; [exact Hr|].
    unfold bits_ops.Or. destruct Hx as [-> _]. exact Hc.
Qed.

Lemma Xor_sound (a b : IntervalSet) (max_interval_bits : Z) (x y : Bits) :
  0 <= max_interval_bits ->
  operand a -> operand b -> BitCount a = BitCount b ->
  has_width (BitCount a) x -> IntervalSet.Covers a x = true ->
  has_width (BitCount b) y -> IntervalSet.Covers b y = true ->
  exists r, Xor a b max_interval_bits = Some r /\ operand r
            /\ IntervalSet.Covers r (bits_ops.Xor x y) = true.
Proof.
  intros Hm Ha Hb Hab Hx Hcx Hy Hcy.
  destruct (bitwise_binary_sound TernaryEvaluator.Xor xorb Z.lxor a b max_interval_bits x y)
    as (r & E & Hr & _ & Hc); auto using Xor_tracks.
  - intros p q Hp Hq. apply Z.lxor_nonneg. tauto.
  - intros p q i Hi. apply Z.lxor_spec.
  - exists r. split; [exact E|]. split; [exact Hr|].
    unfold bits_ops.Xor. destruct Hx as [-> _]. exact Hc.
Qed.

(** Not *)

Lemma Not_value (w : Z) (x : Bits) :
  0 <= w -> has_width w x ->
  0 <= value (bits_ops.Not x) < 2 ^ w
  /\ forall i, 0 <= i < w ->
       Z.testbit (value (bits_ops.Not x)) i = negb (Z.testbit (value x) i).
Proof.
  intros Hw [Hb Hx]. unfold bits_ops.Not. cbn [value]. rewrite Hb.
  assert (Ho : 0 <= Z.ones w).
  { rewrite Z.ones_equiv. pose proof (pow2_pos w Hw). lia. }
  assert (Hnn : 0 <= Z.lxor (value x) (Z.ones w)) by (apply Z.lxor_nonneg; lia).
  split; [split; [exact Hnn|]|].
  - apply bits_below; auto. intros i Hi.
    rewrite Z.lxor_spec, (testbit_above w i (value x)) by lia.
    rewrite Z.ones_spec_high by lia. reflexivity.
  - intros i Hi. rewrite Z.lxor_spec, Z.ones_spec_low by lia.
    now rewrite xorb_true_r.
Qed.

Lemma Not_agrees (t : TernaryValue) (b : bool) :
  agrees t b = true -> agrees (TernaryEvaluator.Not t) (negb b) = true.
Proof. destruct t, b; simpl; auto. Qed.

Lemma Not_sound (a : IntervalSet) (max_interval_bits : Z) (x : Bits) :
  0 <= max_interval_bits -> operand a ->
  has_width (BitCount a) x -> IntervalSet.Covers a x = true ->
  exists r, Not a max_interval_bits = Some r /\ operand r
            /\ IntervalSet.Covers r (bits_ops.Not x) = true.
Proof.
  intros Hm [Ha Hna] Hx Hcx. pose proof Ha as [Hw _].
  destruct (Not_value (BitCount a) x Hw Hx) as [Hr Hbits].
  unfold Not. destruct (Z.eqb_spec (BitCount a) 1) as [E1|Hne].
  - rewrite E1 in *.
    destruct (OneBitRangeToTernary_agrees a x E1 Hx Hcx) as (t & Et & Ht).
    rewrite Et. cbn [bind]. eexists. split; [reflexivity|].
    destruct (TernaryToOneBitRange_props (TernaryEvaluator.Not t)) as (P1 & P2 & P3).
    split; [split; auto|].
    apply TernaryToOneBitRange_covers.
    + split; [|exact Hr]. unfold bits_ops.Not. simpl. apply Hx.
    + rewrite Hbits by lia. now apply Not_agrees.
  - destruct (ExtractTernaryVector_consistent a x Ha Hna Hcx) as (t & Et & Lt & Ht).
    rewrite Et. cbn [bind].
    destruct (FromTernary_sound (TernaryEvaluator.BitwiseNot t) max_interval_bits
                (bits_ops.Not x) Hm) as (s & Es & Bs & Ws & Ns & Cs).
    + unfold TernaryEvaluator.BitwiseNot. rewrite length_map, Lt, Z2Nat.id by lia. exact Hr.
    + rewrite consistent_iff in *. unfold TernaryEvaluator.BitwiseNot.
      intros i Hi. rewrite length_map in Hi.
      change kUnknown with (TernaryEvaluator.Not kUnknown) at 1. rewrite map_nth.
      rewrite Hbits by lia. apply Not_agrees. now apply Ht.
    + exists s. split; [exact Es|]. split; [split; auto|exact Cs].
Qed.

(** * The reductions *)

Lemma AndReduce_sound (a : IntervalSet) (x : Bits) :
  wf_set a -> has_width (BitCount a) x -> IntervalSet.Covers a x = true ->
  IntervalSet.Covers (AndReduce a) (bits_ops.AndReduce x) = true.
Proof.
  intros [Hw _] [Hb Hx] Hc. unfold AndReduce, bits_ops.AndReduce. rewrite Hb.
  destruct (IntervalSet.CoversMax a) eqn:Hmax; cbn [negb].
  - destruct (IntervalSet.IsPrecise a) eqn:Hp; [|now destruct (value x =? _)].
    destruct (IsPrecise_covers a x Hp Hc) as (i & Ei & El & Eu).
    unfold IntervalSet.CoversMax, IntervalSet.Covers in Hmax. rewrite Ei in Hmax.
    simpl in Hmax. rewrite orb_false_r in Hmax.
    apply covers_proper in Hmax; [|unfold proper; lia]. simpl in Hmax.
    replace (value x =? 2 ^ BitCount a - 1) with true by (symmetry; apply Z.eqb_eq; lia).
    reflexivity.
  - destruct (Z.eqb_spec (value x) (2 ^ BitCount a - 1)) as [E|Hne]; [|reflexivity].
    unfold IntervalSet.CoversMax in Hmax.
    rewrite (Covers_value_ext a (AllOnes (BitCount a)) x) in Hmax by (simpl; lia).
    congruence.
Qed.

Lemma OrReduce_sound (a : IntervalSet) (x : Bits) :
  wf_set a -> has_width (BitCount a) x -> IntervalSet.Covers a x = true ->
  IntervalSet.Covers (OrReduce a) (bits_ops.OrReduce x) = true.
Proof.
  intros [Hw _] [Hb Hx] Hc. unfold OrReduce, bits_ops.OrReduce.
  destruct (IntervalSet.CoversZero a) eqn:Hz; cbn [negb].
  - destruct (IntervalSet.IsPrecise a) eqn:Hp; [|now destruct (value x =? _)].
    destruct (IsPrecise_covers a x Hp Hc) as (i & Ei & El & Eu).
    unfold IntervalSet.CoversZero, IntervalSet.Covers in Hz. rewrite Ei in Hz.
    simpl in Hz. rewrite orb_false_r in Hz.
    apply covers_proper in Hz; [|unfold proper; lia]. simpl in Hz.
    replace (value x =? 0) with true by (symmetry; apply Z.eqb_eq; lia).
    reflexivity.
  - destruct (Z.eqb_spec (value x) 0) as [E|Hne]; [|reflexivity].
    unfold IntervalSet.CoversZero in Hz.
    rewrite (Covers_value_ext a (Bits_zero (BitCount a)) x) in Hz by (simpl; lia).
    congruence.
Qed.

Lemma XorReduce_one_bit (b : Bits) : has_width 1 (bits_ops.XorReduce b).
Proof.
  unfold bits_ops.XorReduce. split; [reflexivity|]. cbn [value].
  change (2 ^ 1) with 2.
  induction (seq 0 (Z.to_nat (bit_count b))) as [|i l IH]; cbn [fold_right]; [lia|].
  destruct (Z.testbit (value b) (Z.of_nat i)); lia.
Qed.

Lemma XorReduce_sound (a : IntervalSet) (x : Bits) :
  wf_set a -> has_width (BitCount a) x -> IntervalSet.Covers a x = true ->
  IntervalSet.Covers (XorReduce a) (bits_ops.XorReduce x) = true.
Proof.
  intros [Hw Hwf] Hx Hc.
  pose proof (XorReduce_one_bit x) as H1.
  assert (Htop : IntervalSet.Covers (TernaryToOneBitRange kUnknown) (bits_ops.XorReduce x) = true)
    by (apply TernaryToOneBitRange_covers; auto).
  unfold XorReduce. unfold IntervalSet.Covers in Hc.
  destruct (Intervals a) as [|front rest] eqn:Ea; [exact Htop|].
  destruct (Interval.IsPrecise front) eqn:Hpf; cbn [negb]; [|exact Htop].
  destruct (forallb _ rest) eqn:Hall; [|exact Htop].
  (* every interval is a single value of the parity of the first *)
  assert (Hpar : forall i, In i (front :: rest) ->
            Interval.IsPrecise i = true
            /\ bits_ops.XorReduce (LowerBound i) = bits_ops.XorReduce (LowerBound front)).
  { intros i [<-|Hin]; [auto|].
    rewrite forallb_forall in Hall. specialize (Hall i Hin).
    apply andb_true_iff in Hall. destruct Hall as [Hp Heq]. split; [exact Hp|].
    unfold Bits_eqb in Heq. apply andb_true_iff in Heq. destruct Heq as [E1 E2].
    apply Z.eqb_eq in E1, E2.
    destruct (bits_ops.XorReduce (LowerBound i)), (bits_ops.XorReduce (LowerBound front)).
    simpl in *. congruence. }
  apply covers_list_iff in Hc. destruct Hc as (i & Hin & Hci).
  destruct (Hpar i Hin) as [Hpi Hxi].
  assert (Exi : x = LowerBound i).
  { unfold Interval.IsPrecise, bits_ops.UEqual in Hpi. apply Z.eqb_eq in Hpi.
    apply covers_proper in Hci; [|unfold proper; lia].
    rewrite Forall_forall in Hwf. destruct (Hwf i Hin) as [[Hb _] _].
    destruct Hx as [Hbx _]. destruct x, (LowerBound i). simpl in *.
    f_equal; lia. }
  rewrite Exi, Hxi.
  pose proof (XorReduce_one_bit (LowerBound front)) as Hf.
  apply TernaryToOneBitRange_covers; [exact Hf|].
  rewrite one_bit_testbit by exact Hf. unfold IsOne.
  destruct (one_bit_value _ Hf) as [E|E]; rewrite E; reflexivity.
Qed.

(** * Comparisons *)

Lemma bool_bits_props (b : bool) :
  has_width 1 (bool_bits b) /\ value (bool_bits b) = Z.b2z b
  /\ Z.testbit (value (bool_bits b)) 0 = b.
Proof. destruct b; unfold has_width; repeat split; vm_compute; congruence. Qed.

Lemma bool_bits_covers (t : TernaryValue) (b : bool) :
  agrees t b = true ->
  IntervalSet.Covers (TernaryToOneBitRange t) (bool_bits b) = true.
Proof.
  intros H. destruct (bool_bits_props b) as (H1 & _ & H3).
  apply TernaryToOneBitRange_covers; auto. now rewrite H3.
Qed.

Lemma covers_two (a b : IntervalSet) (x y : Bits) :
  operand a -> operand b ->
  IntervalSet.Covers a x = true -> IntervalSet.Covers b y = true ->
  exists ia ib,
    In ia (Intervals a) /\ In ib (Intervals b) /\ proper ia /\ proper ib
    /\ value (LowerBound ia) <= value x <= value (UpperBound ia)
    /\ value (LowerBound ib) <= value y <= value (UpperBound ib).
Proof.
  intros [_ Hna] [_ Hnb] Hcx Hcy.
  apply covers_list_iff in Hcx. destruct Hcx as (ia & Hia & Hca).
  apply covers_list_iff in Hcy. destruct Hcy as (ib & Hib & Hcb).
  pose proof (separated_proper _ Hna) as Hpa. pose proof (separated_proper _ Hnb) as Hpb.
  rewrite Forall_forall in Hpa, Hpb.
  exists ia, ib. repeat split; auto;
    try (apply covers_proper in Hca; auto; lia);
    try (apply covers_proper in Hcb; auto; lia).
Qed.

Lemma Eq_shape (a b : IntervalSet) : exists t, Eq a b = TernaryToOneBitRange t.
Proof.
  unfold Eq. destruct (IntervalSet.IsPrecise a && IntervalSet.IsPrecise b).
  - destruct (IntervalSet.GetPreciseValue a), (IntervalSet.GetPreciseValue b);
      eexists; reflexivity.
  - eexists; reflexivity.
Qed.

Lemma Eq_sound (a b : IntervalSet) (x y : Bits) :
  operand a -> operand b ->
  IntervalSet.Covers a x = true -> IntervalSet.Covers b y = true ->
  IntervalSet.Covers (Eq a b) (bool_bits (bits_ops.UEqual x y)) = true.
Proof.
  intros Ha Hb Hcx Hcy. unfold Eq.
  destruct (IntervalSet.IsPrecise a) eqn:Hpa; destruct (IntervalSet.IsPrecise b) eqn:Hpb;
    cbn [andb].
  - destruct (IsPrecise_covers a x Hpa Hcx) as (ia & Ea & Ela & _).
    destruct (IsPrecise_covers b y Hpb Hcy) as (ib & Eb & Elb & _).
    unfold IntervalSet.GetPreciseValue. rewrite Hpa, Hpb, Ea, Eb.
    unfold bits_ops.UEqual. rewrite Ela, Elb.
    apply bool_bits_covers. destruct (value x =? value y); reflexivity.
  - destruct (IntervalSet.Disjoint a b) eqn:Hd; apply bool_bits_covers; [|reflexivity].
    destruct (covers_two a b x y Ha Hb Hcx Hcy) as (ia & ib & Hia & Hib & Hpia & Hpib & Hx & Hy).
    unfold IntervalSet.Disjoint in Hd. rewrite forallb_forall in Hd.
    specialize (Hd ia Hia). rewrite forallb_forall in Hd. specialize (Hd ib Hib).
    unfold Interval.Disjoint in Hd. apply orb_true_iff in Hd.
    unfold bits_ops.UEqual. rewrite !Z.ltb_lt in Hd.
    destruct (Z.eqb_spec (value x) (value y)); [lia|reflexivity].
  - destruct (IntervalSet.Disjoint a b) eqn:Hd; apply bool_bits_covers; [|reflexivity].
    destruct (covers_two a b x y Ha Hb Hcx Hcy) as (ia & ib & Hia & Hib & Hpia & Hpib & Hx & Hy).
    unfold IntervalSet.Disjoint in Hd. rewrite forallb_forall in Hd.
    specialize (Hd ia Hia). rewrite forallb_forall in Hd. specialize (Hd ib Hib).
    unfold Interval.Disjoint in Hd. apply orb_true_iff in Hd.
    unfold bits_ops.UEqual. rewrite !Z.ltb_lt in Hd.
    destruct (Z.eqb_spec (value x) (value y)); [lia|reflexivity].
  - destruct (IntervalSet.Disjoint a b) eqn:Hd; apply bool_bits_covers; [|reflexivity].
    destruct (covers_two a b x y Ha Hb Hcx Hcy) as (ia & ib & Hia & Hib & Hpia & Hpib & Hx & Hy).
    unfold IntervalSet.Disjoint in Hd. rewrite forallb_forall in Hd.
    specialize (Hd ia Hia). rewrite forallb_forall in Hd. specialize (Hd ib Hib).
    unfold Interval.Disjoint in Hd. apply orb_true_iff in Hd.
    unfold bits_ops.UEqual. rewrite !Z.ltb_lt in Hd.
    destruct (Z.eqb_spec (value x) (value y)); [lia|reflexivity].
Qed.

Lemma Ne_sound (a b : IntervalSet) (max_interval_bits : Z) (x y : Bits) :
  0 <= max_interval_bits -> operand a -> operand b ->
  IntervalSet.Covers a x = true -> IntervalSet.Covers b y = true ->
  exists r, Ne a b max_interval_bits = Some r
            /\ IntervalSet.Covers r (bool_bits (negb (bits_ops.UEqual x y))) = true.
Proof.
  intros Hm Ha Hb Hcx Hcy. unfold Ne.
  pose proof (Eq_sound a b x y Ha Hb Hcx Hcy) as Heq.
  destruct (Eq_shape a b) as [t Et]. rewrite Et in *.
  destruct (TernaryToOneBitRange_props t) as (P1 & P2 & P3).
  destruct (bool_bits_props (bits_ops.UEqual x y)) as (B1 & _ & _).
  destruct (Not_sound (TernaryToOneBitRange t) max_interval_bits
              (bool_bits (bits_ops.UEqual x y)) Hm (conj P1 P3))
    as (r & Er & _ & Hr); [now rewrite P2|exact Heq|].
  exists r. split; [exact Er|]. rewrite <- Hr. apply Covers_value_ext.
  destruct (bits_ops.UEqual x y); reflexivity.
Qed.

Lemma hull_bounds (a : IntervalSet) (x : Bits) :
  operand a -> IntervalSet.Covers a x = true ->
  exists h, IntervalSet.ConvexHull a = Some h
            /\ value (LowerBound h) <= value x <= value (UpperBound h)
            /\ wf_interval (BitCount a) h.
Proof.
  intros [[_ Hwf] Hn] Hc. apply covers_list_iff in Hc. destruct Hc as (i & Hin & Hci).
  destruct (separated_within_hull _ i Hn Hin) as (h & Eh & Hlo & Hhi).
  pose proof (separated_proper _ Hn) as Hp. rewrite Forall_forall in Hp.
  apply covers_proper in Hci; auto.
  exists h. split; [exact Eh|]. split; [lia|].
  unfold hull_of in Eh. destruct (Intervals a) as [|f rest] eqn:Ea; [discriminate|].
  injection Eh as <-. rewrite Forall_forall in Hwf. split; simpl.
  - apply (Hwf f). now left.
  - apply (Hwf (last rest f)). apply last_in_or_default.
Qed.

Lemma ULt_sound (a b : IntervalSet) (x y : Bits) :
  operand a -> operand b ->
  IntervalSet.Covers a x = true -> IntervalSet.Covers b y = true ->
  exists r, ULt a b = Some r
            /\ IntervalSet.Covers r (bool_bits (bits_ops.ULessThan x y)) = true.
Proof.
  intros Ha Hb Hcx Hcy.
  destruct (hull_bounds a x Ha Hcx) as (ha & Eha & Hxa & _).
  destruct (hull_bounds b y Hb Hcy) as (hb & Ehb & Hyb & _).
  unfold ULt. rewrite Eha, Ehb. cbn [bind].
  destruct (Interval.Disjoint ha hb) eqn:Hd; eexists; (split; [reflexivity|]);
    apply bool_bits_covers; [|reflexivity].
  unfold Interval.Disjoint in Hd. apply orb_true_iff in Hd. rewrite !Z.ltb_lt in Hd.
  unfold Interval.lt, bits_ops.ULessThan.
  destruct (Z.ltb_spec (value (LowerBound ha)) (value (LowerBound hb)));
  destruct (Z.eqb_spec (value (LowerBound ha)) (value (LowerBound hb)));
  destruct (Z.ltb_spec (value (UpperBound ha)) (value (UpperBound hb)));
  destruct (Z.ltb_spec (value x) (value y)); simpl; try reflexivity; lia.
Qed.

Lemma UGt_sound (a b : IntervalSet) (x y : Bits) :
  operand a -> operand b ->
  IntervalSet.Covers a x = true -> IntervalSet.Covers b y = true ->
  exists r, UGt a b = Some r
            /\ IntervalSet.Covers r (bool_bits (bits_ops.UGreaterThan x y)) = true.
Proof.
  intros Ha Hb Hcx Hcy.
  destruct (hull_bounds a x Ha Hcx) as (ha & Eha & Hxa & _).
  destruct (hull_bounds b y Hb Hcy) as (hb & Ehb & Hyb & _).
  unfold UGt. rewrite Eha, Ehb. cbn [bind].
  destruct (Interval.Disjoint ha hb) eqn:Hd; eexists; (split; [reflexivity|]);
    apply bool_bits_covers; [|reflexivity].
  unfold Interval.Disjoint in Hd. apply orb_true_iff in Hd. rewrite !Z.ltb_lt in Hd.
  unfold Interval.gt, Interval.lt, bits_ops.UGreaterThan.
  destruct (Z.ltb_spec (value (LowerBound hb)) (value (LowerBound ha)));
  destruct (Z.eqb_spec (value (LowerBound hb)) (value (LowerBound ha)));
  destruct (Z.ltb_spec (value (UpperBound hb)) (value (UpperBound ha)));
  destruct (Z.ltb_spec (value y) (value x)); simpl; try reflexivity; lia.
Qed.

(** ** Signed comparisons *)

Lemma offset_props (w : Z) :
  1 <= w ->
  has_width w (bits_ops.Concat [UBits 1 1; Bits_zero (w - 1)])
  /\ value (bits_ops.Concat [UBits 1 1; Bits_zero (w - 1)]) = 2 ^ (w - 1).
Proof.
  intros Hw. rewrite Concat_pair. cbn [bit_count value UBits Bits_zero].
  change (1 mod 2 ^ 1) with 1.
  assert (HP : 0 < 2 ^ (w - 1)) by (apply Z.pow_pos_nonneg; lia).
  assert (E : 2 ^ w = 2 * 2 ^ (w - 1)).
  { replace w with (w - 1 + 1) at 1 by lia. rewrite Z.pow_add_r by lia. lia. }
  unfold has_width. cbn [bit_count value]. repeat split; lia.
Qed.

Lemma to_signed_spec (w : Z) (x : Bits) :
  has_width w x -> 1 <= w ->
  bits_ops.to_signed x
  = if 2 ^ (w - 1) <=? value x then value x - 2 ^ w else value x.
Proof.
  intros [Hb Hv] Hw. unfold bits_ops.to_signed, GetFromMsb. rewrite Hb.
  replace (w - 1 - 0) with (w - 1) by lia.
  rewrite msb_spec by lia.
  destruct (Z.leb_spec 1 w); [|lia]. cbn [andb]. reflexivity.
Qed.

Lemma biased_value (w : Z) (x o : Bits) :
  has_width w x -> 1 <= w -> value o = 2 ^ (w - 1) ->
  value (bits_ops.Add x o) = bits_ops.to_signed x + 2 ^ (w - 1).
Proof.
  intros Hx Hw Ho. rewrite (to_signed_spec w x Hx Hw). destruct Hx as [Hb Hv].
  unfold bits_ops.Add. cbn [value]. rewrite Hb, Ho.
  assert (HP : 0 < 2 ^ (w - 1)) by (apply Z.pow_pos_nonneg; lia).
  assert (E : 2 ^ w = 2 * 2 ^ (w - 1)).
  { replace w with (w - 1 + 1) at 1 by lia. rewrite Z.pow_add_r by lia. lia. }
  destruct (Z.leb_spec (2 ^ (w - 1)) (value x)).
  - symmetry. apply (Z.mod_unique _ _ 1); lia.
  - apply Z.mod_small. lia.
Qed.

(** The sign classes of a set bound the sign of each covered value. *)
Lemma sign_classes (a : IntervalSet) (x : Bits) :
  operand a -> IntervalSet.Covers a x = true -> 1 <= BitCount a ->
  exists p n,
    is_all_positive a = Some p /\ is_all_negative a = Some n
    /\ (p = true -> value x < 2 ^ (BitCount a - 1))
    /\ (n = true -> 2 ^ (BitCount a - 1) <= value x).
Proof.
  intros Ha Hc Hw.
  destruct (hull_bounds a x Ha Hc) as (h & Eh & Hx & [Hlo Hhi]).
  unfold is_all_positive, is_all_negative, IntervalSet.LowerBound, IntervalSet.UpperBound.
  rewrite Eh. cbn [option_map bind].
  destruct Hlo as [Bl Vl], Hhi as [Bh Vh].
  unfold GetFromMsb. rewrite Bl, Bh.
  replace (BitCount a - 1 - 0) with (BitCount a - 1) by lia.
  rewrite !msb_spec by lia.
  destruct (Z.leb_spec 1 (BitCount a)); [|lia]. cbn [andb].
  destruct (Z.leb_spec (2 ^ (BitCount a - 1)) (value (LowerBound h)));
    destruct (Z.leb_spec (2 ^ (BitCount a - 1)) (value (UpperBound h)));
    cbn [negb bind]; eexists; eexists; (split; [reflexivity|]); (split; [reflexivity|]);
    split; intros; try discriminate; lia.
Qed.

Lemma same_sign_class_spec (a b : IntervalSet) (x y : Bits) :
  operand a -> operand b -> BitCount a = BitCount b -> 1 <= BitCount a ->
  has_width (BitCount a) x -> has_width (BitCount b) y ->
  IntervalSet.Covers a x = true -> IntervalSet.Covers b y = true ->
  exists same,
    same_sign_class a b = Some same
    /\ (same = true ->
        bits_ops.to_signed x - bits_ops.to_signed y = value x - value y).
Proof.
  intros Ha Hb Hab Hw Hx Hy Hcx Hcy.
  destruct (sign_classes a x Ha Hcx Hw) as (pa & na & Epa & Ena & Hpa & Hna).
  assert (Hw' : 1 <= BitCount b) by lia.
  destruct (sign_classes b y Hb Hcy Hw') as (pb & nb & Epb & Enb & Hpb & Hnb).
  rewrite <- Hab in *.
  unfold same_sign_class. rewrite Epa, Epb, Ena, Enb.
  rewrite (to_signed_spec _ x Hx Hw), (to_signed_spec _ y Hy Hw).
  destruct pa, pb, na, nb; cbn [and_then or_else bind];
    eexists; (split; [reflexivity|]); intros Hs; try discriminate;
    try (specialize (Hpa eq_refl)); try (specialize (Hpb eq_refl));
    try (specialize (Hna eq_refl)); try (specialize (Hnb eq_refl));
    destruct (Z.leb_spec (2 ^ (BitCount a - 1)) (value x));
    destruct (Z.leb_spec (2 ^ (BitCount a - 1)) (value y)); lia.
Qed.

Lemma signed_offset_props (a : IntervalSet) :
  1 <= BitCount a ->
  exists o, signed_offset a = IntervalSet.Precise o
            /\ has_width (BitCount a) o /\ value o = 2 ^ (BitCount a - 1)
            /\ wf_set (IntervalSet.Precise o)
            /\ BitCount (IntervalSet.Precise o) = BitCount a
            /\ IntervalSet.Covers (IntervalSet.Precise o) o = true.
Proof.
  intros Hw. destruct (offset_props (BitCount a) Hw) as [Ho Hv].
  eexists. split; [reflexivity|]. split; [exact Ho|]. split; [exact Hv|].
  destruct Ho as [Hb Hr]. split; [|split].
  - apply Precise_wf; rewrite Hb; lia.
  - exact Hb.
  - rewrite Precise_covers. apply Z.eqb_refl.
Qed.

Lemma SLt_sound (a b : IntervalSet) (x y : Bits) :
  operand a -> operand b -> BitCount a = BitCount b -> 1 <= BitCount a ->
  has_width (BitCount a) x -> has_width (BitCount b) y ->
  IntervalSet.Covers a x = true -> IntervalSet.Covers b y = true ->
  exists r, SLt a b = Some r
            /\ IntervalSet.Covers r (bool_bits (bits_ops.SLessThan x y)) = true.
Proof.
  intros Ha Hb Hab Hw Hx Hy Hcx Hcy.
  destruct (same_sign_class_spec a b x y Ha Hb Hab Hw Hx Hy Hcx Hcy) as (same & Es & Hs).
  unfold SLt. destruct Ha as [Hwa Hna], Hb as [Hwb Hnb].
  rewrite Hna, Hnb, Es. cbn [check bind]. destruct same.
  - destruct (ULt_sound a b x y (conj Hwa Hna) (conj Hwb Hnb) Hcx Hcy) as (r & Er & Hr).
    exists r. split; [exact Er|].
    replace (bits_ops.SLessThan x y) with (bits_ops.ULessThan x y); [exact Hr|].
    unfold bits_ops.SLessThan, bits_ops.ULessThan. specialize (Hs eq_refl).
    destruct (Z.ltb_spec (value x) (value y));
      destruct (Z.ltb_spec (bits_ops.to_signed x) (bits_ops.to_signed y)); auto; lia.
  - destruct (signed_offset_props a Hw) as (o & Eo & Ho & Hv & Hwo & Hbo & Hco).
    rewrite Eo.
    assert (Hy' : has_width (BitCount a) y) by now rewrite Hab.
    assert (Ho' : has_width (BitCount (IntervalSet.Precise o)) o) by now rewrite Hbo.
    assert (Hbo' : BitCount b = BitCount (IntervalSet.Precise o)) by congruence.
    destruct (Add_sound a (IntervalSet.Precise o) x o Hwa Hwo (eq_sym Hbo) Hx Hcx Ho' Hco)
      as (A1 & A2 & A3 & A4).
    destruct (Add_sound b (IntervalSet.Precise o) y o Hwb Hwo Hbo' Hy Hcy Ho' Hco)
      as (B1 & B2 & B3 & B4).
    destruct (ULt_sound _ _ _ _ (conj A1 A3) (conj B1 B3) A4 B4) as (r & Er & Hr).
    exists r. split; [exact Er|].
    replace (bits_ops.SLessThan x y)
      with (bits_ops.ULessThan (bits_ops.Add x o) (bits_ops.Add y o)); [exact Hr|].
    unfold bits_ops.SLessThan, bits_ops.ULessThan.
    rewrite (biased_value _ x o Hx Hw Hv), (biased_value _ y o Hy' Hw Hv).
    destruct (Z.ltb_spec (bits_ops.to_signed x + 2 ^ (BitCount a - 1))
                (bits_ops.to_signed y + 2 ^ (BitCount a - 1)));
      destruct (Z.ltb_spec (bits_ops.to_signed x) (bits_ops.to_signed y)); auto; lia.
Qed.

Lemma SGt_sound (a b : IntervalSet) (x y : Bits) :
  operand a -> operand b -> BitCount a = BitCount b -> 1 <= BitCount a ->
  has_width (BitCount a) x -> has_width (BitCount b) y ->
  IntervalSet.Covers a x = true -> IntervalSet.Covers b y = true ->
  exists r, SGt a b = Some r
            /\ IntervalSet.Covers r (bool_bits (bits_ops.SGreaterThan x y)) = true.
Proof.
  intros Ha Hb Hab Hw Hx Hy Hcx Hcy.
  destruct (same_sign_class_spec a b x y Ha Hb Hab Hw Hx Hy Hcx Hcy) as (same & Es & Hs).
  unfold SGt. destruct Ha as [Hwa Hna], Hb as [Hwb Hnb].
  rewrite Hna, Hnb, Es. cbn [check bind]. destruct same.
  - destruct (UGt_sound a b x y (conj Hwa Hna) (conj Hwb Hnb) Hcx Hcy) as (r & Er & Hr).
    exists r. split; [exact Er|].
    replace (bits_ops.SGreaterThan x y) with (bits_ops.UGreaterThan x y); [exact Hr|].
    unfold bits_ops.SGreaterThan, bits_ops.UGreaterThan. specialize (Hs eq_refl).
    destruct (Z.ltb_spec (value y) (value x));
      destruct (Z.ltb_spec (bits_ops.to_signed y) (bits_ops.to_signed x)); auto; lia.
  - destruct (signed_offset_props a Hw) as (o & Eo & Ho & Hv & Hwo & Hbo & Hco).
    rewrite Eo.
    assert (Hy' : has_width (BitCount a) y) by now rewrite Hab.
    assert (Ho' : has_width (BitCount (IntervalSet.Precise o)) o) by now rewrite Hbo.
    assert (Hbo' : BitCount b = BitCount (IntervalSet.Precise o)) by congruence.
    destruct (Add_sound a (IntervalSet.Precise o) x o Hwa Hwo (eq_sym Hbo) Hx Hcx Ho' Hco)
      as (A1 & A2 & A3 & A4).
    destruct (Add_sound b (IntervalSet.Precise o) y o Hwb Hwo Hbo' Hy Hcy Ho' Hco)
      as (B1 & B2 & B3 & B4).
    destruct (UGt_sound _ _ _ _ (conj A1 A3) (conj B1 B3) A4 B4) as (r & Er & Hr).
    exists r. split; [exact Er|].
    replace (bits_ops.SGreaterThan x y)
      with (bits_ops.UGreaterThan (bits_ops.Add x o) (bits_ops.Add y o)); [exact Hr|].
    unfold bits_ops.SGreaterThan, bits_ops.UGreaterThan.
    rewrite (biased_value _ x o Hx Hw Hv), (biased_value _ y o Hy' Hw Hv).
    destruct (Z.ltb_spec (bits_ops.to_signed y + 2 ^ (BitCount a - 1))
                (bits_ops.to_signed x + 2 ^ (BitCount a - 1)));
      destruct (Z.ltb_spec (bits_ops.to_signed y) (bits_ops.to_signed x)); auto; lia.
Qed.

(** ** Gate *)

Lemma Gate_sound (c v : IntervalSet) (x y : Bits) :
  operand v -> has_width (BitCount v) y ->
  IntervalSet.Covers c x = true -> IntervalSet.Covers v y = true ->
  IntervalSet.Covers (Gate c v)
    (if value x =? 0 then Bits_zero (bit_count y) else y) = true.
Proof.
  intros [[Hw Hwf] Hnv] [Hby Hvy] Hcx Hcy. unfold Gate.
  assert (Hz : IntervalSet.CoversZero c = false -> value x <> 0).
  { intros Hf E. unfold IntervalSet.CoversZero in Hf.
    rewrite (Covers_value_ext c _ x) in Hf; [congruence|]. now rewrite E. }
  destruct (IntervalSet.IsPrecise c) eqn:Hp.
  - destruct (IntervalSet.CoversZero c) eqn:Hcz.
    + destruct (IsPrecise_covers c x Hp Hcx) as (i & Ei & Eli & _).
      destruct (IsPrecise_covers c _ Hp Hcz) as (j & Ej & Elj & _).
      assert (i = j) by congruence. subst j. cbn [value Bits_zero] in Elj.
      destruct (Z.eqb_spec (value x) 0); [|lia].
      rewrite Precise_covers. reflexivity.
    + destruct (Z.eqb_spec (value x) 0); [now apply Hz in e|exact Hcy].
  - destruct (IntervalSet.CoversZero c) eqn:Hcz.
    + unfold IntervalSet.Combine.
      assert (HP : 0 < 2 ^ BitCount v) by (apply Z.pow_pos_nonneg; lia).
      rewrite Normalize_covers.
      * unfold IntervalSet.Covers. cbn [Intervals].
        fold (covers_list (Intervals v ++ Intervals (IntervalSet.Precise (Bits_zero (BitCount v))))
                (if value x =? 0 then Bits_zero (bit_count y) else y)).
        rewrite covers_list_app. apply orb_true_iff.
        destruct (Z.eqb_spec (value x) 0).
        -- right. reflexivity.
        -- left. exact Hcy.
      * split; cbn [BitCount Intervals]; [exact Hw|].
        apply Forall_app. split; [exact Hwf|].
        constructor; [|constructor].
        split; unfold has_width; cbn; lia.
      * cbn [BitCount]. destruct (value x =? 0); cbn [value Bits_zero]; lia.
    + destruct (Z.eqb_spec (value x) 0); [now apply Hz in e|exact Hcy].
Qed.

(** ** OneHot *)

Lemma from_bits_bounds (l : list bool) :
  0 <= bits_ops.from_bits l < 2 ^ Z.of_nat (length l).
Proof.
  induction l as [|b l IH]; [cbn; lia|].
  cbn [bits_ops.from_bits length]. rewrite Nat2Z.inj_succ, Z.pow_succ_r by lia.
  destruct b; cbn [Z.b2z]; lia.
Qed.

Lemma from_bits_testbit (l : list bool) (i : nat) :
  Z.testbit (bits_ops.from_bits l) (Z.of_nat i) = nth i l false.
Proof.
  revert i. induction l as [|b l IH]; intros i.
  - cbn [bits_ops.from_bits]. rewrite Z.testbit_0_l. now destruct i.
  - cbn [bits_ops.from_bits]. rewrite Z.add_comm. destruct i as [|i].
    + apply Z.testbit_0_r.
    + rewrite Nat2Z.inj_succ, Z.testbit_succ_r by lia. apply IH.
Qed.

Lemma agrees_list_from (v : Z) (t : TernaryVector) :
  forall k,
    (forall i, (i < length t)%nat ->
       agrees (nth i t kUnknown) (Z.testbit v (Z.of_nat (k + i))) = true) ->
    agrees_list t (map (fun i => Z.testbit v (Z.of_nat i)) (seq k (length t))).
Proof.
  induction t as [|a t IH]; intros k H; [constructor|].
  cbn [length seq map]. constructor.
  - specialize (H 0%nat). cbn [nth length] in H. rewrite Nat.add_0_r in H.
    apply H. lia.
  - apply IH. intros i Hi. specialize (H (S i)). cbn [nth length] in H.
    replace (S k + i)%nat with (k + S i)%nat by lia. apply H. lia.
Qed.

Lemma consistent_agrees_list (t : TernaryVector) (v : Bits) :
  consistent t v = true ->
  agrees_list t (bits_ops.to_bits (length t) (value v)).
Proof.
  intros H. rewrite consistent_iff in H. apply agrees_list_from.
  intros i Hi. cbn [Nat.add]. now apply H.
Qed.

Lemma agrees_list_consistent (t : TernaryVector) (bs : list bool) (w : Z) :
  agrees_list t bs -> consistent t (mkBits w (bits_ops.from_bits bs)) = true.
Proof.
  intros H. apply consistent_iff. intros i Hi. cbn [value].
  rewrite from_bits_testbit. revert i Hi.
  induction H as [|a b t bs Hab _ IH]; intros i Hi; [cbn in Hi; lia|].
  destruct i as [|i]; cbn [nth]; [exact Hab|]. apply IH. cbn [length] in Hi. lia.
Qed.

Lemma agrees_list_rev (t : TernaryVector) (bs : list bool) :
  agrees_list t bs -> agrees_list (rev t) (rev bs).
Proof.
  induction 1 as [|a b t bs Hab _ IH]; [constructor|].
  cbn [rev]. apply Forall2_app; [exact IH|]. constructor; [exact Hab|constructor].
Qed.

Lemma one_hot_walk_agrees (t : TernaryVector) (bs : list bool) :
  agrees_list t bs ->
  forall np npb, agrees np npb = true ->
    agrees_list (fst (TernaryEvaluator.one_hot_walk np t))
                (fst (bits_ops.one_hot_walk npb bs))
    /\ agrees (snd (TernaryEvaluator.one_hot_walk np t))
              (snd (bits_ops.one_hot_walk npb bs)) = true.
Proof.
  induction 1 as [|a b t bs Hab _ IH]; intros np npb Hnp.
  - cbn. split; [constructor|exact Hnp].
  - cbn [TernaryEvaluator.one_hot_walk bits_ops.one_hot_walk].
    specialize (IH (TernaryEvaluator.And np (TernaryEvaluator.Not a)) (npb && negb b)).
    destruct (TernaryEvaluator.one_hot_walk (TernaryEvaluator.And np (TernaryEvaluator.Not a)) t)
      as [r z].
    destruct (bits_ops.one_hot_walk (npb && negb b) bs) as [rb zb].
    cbn [fst snd] in *.
    destruct IH as [IH1 IH2].
    { apply And_tracks; [exact Hnp|]. now apply Not_agrees. }
    split; [|exact IH2]. constructor; [|exact IH1]. now apply And_tracks.
Qed.

Lemma OneHot_sound (a : IntervalSet) (lsb_or_msb : LsbOrMsb) (max_interval_bits : Z)
    (x : Bits) :
  0 <= max_interval_bits -> operand a ->
  has_width (BitCount a) x -> IntervalSet.Covers a x = true ->
  exists r, OneHot a lsb_or_msb max_interval_bits = Some r
            /\ IntervalSet.Covers r
                 (match lsb_or_msb with
                  | kLsb => bits_ops.OneHotLsbToMsb x
                  | kMsb => bits_ops.OneHotMsbToLsb x
                  end) = true.
Proof.
  intros Hm [Ha Hn] [Hb Hv] Hc.
  destruct (ExtractTernaryVector_consistent a x Ha Hn Hc) as (t & Et & Hl & Ht).
  unfold OneHot. rewrite Et. cbn [bind].
  apply consistent_agrees_list in Ht. rewrite Hl, <- Hb in Ht.
  assert (Hone : agrees kKnownOne true = true) by reflexivity.
  destruct lsb_or_msb.
  - unfold TernaryEvaluator.OneHotLsbToMsb, bits_ops.OneHotLsbToMsb.
    destruct (one_hot_walk_agrees _ _ Ht _ _ Hone) as [H1 H2].
    destruct (TernaryEvaluator.one_hot_walk kKnownOne t) as [r z].
    destruct (bits_ops.one_hot_walk true _) as [rb zb]. cbn [fst snd] in *.
    assert (Hall : agrees_list (r ++ [z]) (rb ++ [zb])).
    { apply Forall2_app; [exact H1|]. constructor; [exact H2|constructor]. }
    destruct (FromTernary_sound (r ++ [z]) max_interval_bits
                (mkBits (bit_count x + 1) (bits_ops.from_bits (rb ++ [zb]))) Hm)
      as (s & Es & _ & _ & _ & Hs).
    + cbn [value]. rewrite (Forall2_length Hall). apply from_bits_bounds.
    + now apply agrees_list_consistent.
    + exists s. split; assumption.
  - unfold TernaryEvaluator.OneHotMsbToLsb, bits_ops.OneHotMsbToLsb.
    apply agrees_list_rev in Ht.
    destruct (one_hot_walk_agrees _ _ Ht _ _ Hone) as [H1 H2].
    destruct (TernaryEvaluator.one_hot_walk kKnownOne (rev t)) as [r z].
    destruct (bits_ops.one_hot_walk true _) as [rb zb]. cbn [fst snd] in *.
    assert (Hall : agrees_list (rev r ++ [z]) (rev rb ++ [zb])).
    { apply Forall2_app; [now apply agrees_list_rev|]. constructor; [exact H2|constructor]. }
    destruct (FromTernary_sound (rev r ++ [z]) max_interval_bits
                (mkBits (bit_count x + 1) (bits_ops.from_bits (rev rb ++ [zb]))) Hm)
      as (s & Es & _ & _ & _ & Hs).
    + cbn [value]. rewrite (Forall2_length Hall). apply from_bits_bounds.
    + now apply agrees_list_consistent.
    + exists s. split; assumption.
Qed.

(** ** UDiv at every width *)

Lemma NonZero_wf (w : Z) :
  0 <= w ->
  wf_set (IntervalSet.NonZero w) /\ Forall proper (Intervals (IntervalSet.NonZero w)).
Proof.
  intros Hw. pose proof (pow2_pos w Hw) as HP.
  pose proof (Z.mod_pos_bound 1 (2 ^ w) HP) as Hm.
  unfold IntervalSet.NonZero, UBits, AllOnes. split.
  - split; cbn [BitCount Intervals]; [exact Hw|].
    constructor; [|constructor]. split; split; cbn [bit_count value LowerBound UpperBound];
      try reflexivity; lia.
  - cbn [Intervals]. constructor; [|constructor].
    unfold proper. cbn [value LowerBound UpperBound]. lia.
Qed.

(** Division by zero: the all-ones value is always part of the result when
    the divisor may be zero. *)
Lemma UDiv_by_zero_covered (a b : IntervalSet) (x y : Bits) :
  wf_set a -> wf_set b -> BitCount a = BitCount b ->
  IntervalSet.IsNormalized b = true ->
  has_width (BitCount a) x -> has_width (BitCount b) y ->
  value y = 0 -> IntervalSet.Covers b y = true ->
  IntervalSet.Covers (UDiv a b) (bits_ops.UDiv x y) = true.
Proof.
  intros Ha Hb Hab Hnb Hx Hy Ey Hcy. pose proof Ha as [Hw _].
  pose proof (pow2_pos _ Hw) as HM.
  assert (Hz : IntervalSet.CoversZero b = true).
  { unfold IntervalSet.CoversZero. rewrite <- Hcy. apply Covers_value_ext. now rewrite Ey. }
  unfold UDiv. rewrite Hz. cbn [negb].
  destruct (NonZero_wf (BitCount b) ltac:(lia)) as (HwfNZ & HpNZ).
  destruct (Intersect_props b (IntervalSet.NonZero (BitCount b)) Hb HwfNZ eq_refl
              (separated_proper _ Hnb) HpNZ) as (HwfI & HbI & _).
  set (nonzero_divisor := IntervalSet.Intersect b (IntervalSet.NonZero (BitCount b))) in *.
  set (results :=
         if negb (IntervalSet.IsEmpty nonzero_divisor)
         then PerformBinOp (fun l r => no_overflow (bits_ops.UDiv l r))
                a Monotone nonzero_divisor Antitone (BitCount a)
         else IntervalSet.Empty (BitCount a)).
  assert (Hres : wf_set results /\ BitCount results = BitCount a).
  { unfold results. destruct (IntervalSet.IsEmpty nonzero_divisor); cbn [negb].
    - split; [split; cbn [BitCount Intervals IntervalSet.Empty]; [lia|constructor]|reflexivity].
    - destruct (PerformBinOp_wf (fun l r => no_overflow (bits_ops.UDiv l r))
                  a nonzero_divisor Monotone Antitone (BitCount a) Hw Ha HwfI)
        as (W1 & W2 & _); [|split; assumption].
      intros l r Hl Hr. apply UDiv_has_width; auto. apply Hr. }
  destruct Hres as (R1 & R2).
  assert (Hadd : wf_set (IntervalSet.AddInterval results
                           (Interval.Precise (AllOnes (BitCount a))))).
  { destruct R1 as [Rw Rall]. split; cbn [BitCount Intervals IntervalSet.AddInterval]; [exact Rw|].
    apply Forall_app. split; [exact Rall|]. constructor; [|constructor].
    rewrite R2. split; split; cbn; try reflexivity; lia. }
  assert (Hv : has_width (BitCount a) (bits_ops.UDiv x y))
    by (apply UDiv_has_width; auto; apply Hy).
  rewrite Normalize_covers; [|exact Hadd|cbn [BitCount IntervalSet.AddInterval]; rewrite R2; apply Hv].
  unfold IntervalSet.Covers. cbn [IntervalSet.AddInterval Intervals].
  fold (covers_list (Intervals results ++ [Interval.Precise (AllOnes (BitCount a))])
          (bits_ops.UDiv x y)).
  rewrite covers_list_app. apply orb_true_iff. right.
  cbn [covers_list existsb]. rewrite orb_false_r.
  apply covers_proper; [unfold proper; cbn; lia|].
  rewrite (UDiv_value (BitCount a)) by auto. rewrite Ey. cbn. lia.
Qed.

Lemma UDiv_sound_any_width (a b : IntervalSet) (x y : Bits) :
  wf_set a -> wf_set b -> BitCount a = BitCount b ->
  IntervalSet.IsNormalized b = true ->
  has_width (BitCount a) x -> IntervalSet.Covers a x = true ->
  has_width (BitCount b) y -> IntervalSet.Covers b y = true ->
  IntervalSet.Covers (UDiv a b) (bits_ops.UDiv x y) = true.
Proof.
  intros Ha Hb Hab Hnb Hx Hcx Hy Hcy.
  destruct (Z.eq_dec (value y) 0) as [Ey|Hy0].
  - now apply UDiv_by_zero_covered.
  - assert (Hw : 1 <= BitCount a).
    { destruct Hy as [_ Hy]. rewrite <- Hab in Hy. pose proof Ha as [Hw _].
      destruct (Z.eq_dec (BitCount a) 0) as [E|E]; [|lia].
      rewrite E in Hy. change (2 ^ 0) with 1 in Hy. lia. }
    now apply UDiv_sound.
Qed.

(** ** The operands of a transfer function *)

Lemma operands_one {A B : Type} (P : A -> Prop) (R : A -> B -> Prop)
    (d : A) (e : B) (sets : list A) (xs : list B) :
  length sets = 1%nat -> Forall P sets -> Forall2 R sets xs ->
  sets = [nth 0 sets d] /\ P (nth 0 sets d) /\ R (nth 0 sets d) (nth 0 xs e).
Proof.
  intros Hl HP HR. destruct HR as [|a x sets xs Hax HR]; [discriminate|].
  destruct HR; [|discriminate]. cbn [nth]. split; [reflexivity|].
  split; [exact (Forall_inv HP)|exact Hax].
Qed.

Lemma operands_two {A B : Type} (P : A -> Prop) (R : A -> B -> Prop)
    (d : A) (e : B) (sets : list A) (xs : list B) :
  length sets = 2%nat -> Forall P sets -> Forall2 R sets xs ->
  P (nth 0 sets d) /\ R (nth 0 sets d) (nth 0 xs e)
  /\ P (nth 1 sets d) /\ R (nth 1 sets d) (nth 1 xs e).
Proof.
  intros Hl HP HR. destruct HR as [|a x sets xs Hax HR]; [discriminate|].
  destruct HR as [|b y sets xs Hby HR]; [discriminate|]. cbn [nth].
  split; [exact (Forall_inv HP)|]. split; [exact Hax|].
  split; [exact (Forall_inv (Forall_inv_tail HP))|exact Hby].
Qed.

(** * Further properties of the code *)

(** ** Known bits *)

Lemma known_mask_from_bits (t : TernaryVector) :
  ternary_ops.known_mask t = bits_ops.from_bits (map ternary_ops.IsKnown t).
Proof.
  induction t as [|x t IH]; [reflexivity|].
  cbn [ternary_ops.known_mask map bits_ops.from_bits]. rewrite IH. reflexivity.
Qed.

Lemma known_values_from_bits (t : TernaryVector) :
  ternary_ops.known_values t
  = bits_ops.from_bits
      (map (fun x => match x with kKnownOne => true | _ => false end) t).
Proof.
  induction t as [|x t IH]; [reflexivity|].
  cbn [ternary_ops.known_values map bits_ops.from_bits]. rewrite IH.
  destruct x; reflexivity.
Qed.

Lemma known_mask_testbit (t : TernaryVector) (i : nat) :
  Z.testbit (ternary_ops.known_mask t) (Z.of_nat i)
  = ternary_ops.IsKnown (nth i t kUnknown).
Proof.
  rewrite known_mask_from_bits, from_bits_testbit.
  change false with (ternary_ops.IsKnown kUnknown). apply map_nth.
Qed.

Lemma known_values_testbit (t : TernaryVector) (i : nat) :
  Z.testbit (ternary_ops.known_values t) (Z.of_nat i)
  = match nth i t kUnknown with kKnownOne => true | _ => false end.
Proof.
  rewrite known_values_from_bits, from_bits_testbit.
  exact (map_nth (fun x => match x with kKnownOne => true | _ => false end) t kUnknown i).
Qed.

Lemma known_mask_bounds (t : TernaryVector) :
  0 <= ternary_ops.known_mask t < 2 ^ Z.of_nat (length t).
Proof.
  rewrite known_mask_from_bits.
  rewrite <- (length_map ternary_ops.IsKnown t). apply from_bits_bounds.
Qed.

(** The known bits of a value that is consistent with a vector are the
    known values of the vector. *)
Lemma consistent_known_bits (t : TernaryVector) (v : Bits) :
  consistent t v = true ->
  Z.land (value v) (ternary_ops.known_mask t) = ternary_ops.known_values t.
Proof.
  intros H. rewrite consistent_iff in H. apply Z.bits_inj'. intros n Hn.
  rewrite Z.land_spec. rewrite <- (Z2Nat.id n Hn).
  rewrite known_mask_testbit, known_values_testbit.
  destruct (Nat.lt_ge_cases (Z.to_nat n) (length t)) as [Hlt|Hge].
  - specialize (H _ Hlt).
    destruct (nth (Z.to_nat n) t kUnknown); cbn in H |- *.
    + apply negb_true_iff in H. rewrite H. reflexivity.
    + rewrite H. reflexivity.
    + apply andb_false_r.
  - rewrite nth_overflow by lia. apply andb_false_r.
Qed.

(** The value that reads every unknown bit as zero is consistent. *)
Lemma known_values_consistent (t : TernaryVector) :
  consistent t (ternary_ops.ToKnownBitsValues t) = true.
Proof.
  apply consistent_iff. intros i Hi. cbn [ternary_ops.ToKnownBitsValues value].
  rewrite known_values_testbit. destruct (nth i t kUnknown); reflexivity.
Qed.

(** ** The domain of [ExtractTernaryVector] *)

Lemma normalized_front_covered (s : IntervalSet) (front : Interval) (rest : list Interval) :
  IntervalSet.IsNormalized s = true -> Intervals s = front :: rest ->
  IntervalSet.Covers s (LowerBound front) = true.
Proof.
  intros Hn E. pose proof (separated_proper _ Hn) as Hp. rewrite E in Hp.
  unfold IntervalSet.Covers. rewrite E. cbn [existsb]. apply orb_true_iff. left.
  apply covers_proper; [exact (Forall_inv Hp)|].
  pose proof (Forall_inv Hp) as H. unfold proper in H. lia.
Qed.

Lemma ExtractTernaryVector_defined (s : IntervalSet) :
  wf_set s -> IntervalSet.IsNormalized s = true -> Intervals s <> [] ->
  exists t, ExtractTernaryVector s = Some t /\ length t = Z.to_nat (BitCount s).
Proof.
  intros Hwf Hn Hne. destruct (Intervals s) as [|front rest] eqn:E; [congruence|].
  pose proof (normalized_front_covered s front rest Hn E) as Hc.
  destruct (ExtractTernaryVector_consistent s _ Hwf Hn Hc) as (t & Et & Hl & _).
  exists t. split; assumption.
Qed.

Lemma ExtractTernaryVector_none (s : IntervalSet) :
  ExtractTernaryVector s = None
  <-> IntervalSet.IsNormalized s = false \/ Intervals s = [].
Proof.
  unfold ExtractTernaryVector, IntervalSet.IsEmpty.
  destruct (IntervalSet.IsNormalized s); cbn [check bind].
  - destruct (Intervals s) as [|front rest]; cbn [negb check bind].
    + split; auto.
    + split; [discriminate|]. intros [H|H]; discriminate.
  - split; auto.
Qed.

(** ** Single values and fully known vectors *)

Lemma common_prefix_length_refl (w : nat) (a : Z) : common_prefix_length w a a = w.
Proof.
  induction w as [|w IH]; [reflexivity|].
  cbn [common_prefix_length]. rewrite eqb_reflx, IH. reflexivity.
Qed.

Lemma ExtractTernaryInterval_precise (v : Bits) :
  0 <= bit_count v ->
  ExtractTernaryInterval (Interval.Precise v)
  = map (fun j => if Z.testbit (value v) (Z.of_nat j) then kKnownOne else kKnownZero)
      (seq 0 (Z.to_nat (bit_count v))).
Proof.
  intros Hw. unfold ExtractTernaryInterval, LongestCommonPrefixMSB, Interval.Precise,
    Interval.BitCount, Slice, Get.
  cbn [LowerBound UpperBound bit_count value].
  rewrite common_prefix_length_refl, Z2Nat.id by exact Hw.
  replace (bit_count v - bit_count v) with 0 by lia.
  cbn [Z.to_nat repeat app]. apply map_ext_in. intros j Hj. apply in_seq in Hj.
  change (2 ^ 0) with 1. rewrite Z.div_1_r, Z.mod_pow2_bits_low by lia. reflexivity.
Qed.

Lemma bits_vector_fully_known (z : Z) (n : nat) :
  ternary_ops.IsFullyKnown
    (map (fun j => if Z.testbit z (Z.of_nat j) then kKnownOne else kKnownZero) (seq 0 n))
  = true.
Proof.
  unfold ternary_ops.IsFullyKnown. rewrite forallb_forall. intros x Hx.
  apply in_map_iff in Hx. destruct Hx as (j & <- & _).
  destruct (Z.testbit z (Z.of_nat j)); reflexivity.
Qed.

Lemma Precise_props (v : Bits) (w : Z) :
  has_width w v -> 0 <= w ->
  wf_set (IntervalSet.Precise v)
  /\ IntervalSet.IsNormalized (IntervalSet.Precise v) = true
  /\ BitCount (IntervalSet.Precise v) = w
  /\ IntervalSet.Covers (IntervalSet.Precise v) v = true.
Proof.
  intros [Hb Hv] Hw. destruct (Precise_wf v) as [H1 H2]; [lia|now rewrite Hb|].
  split; [exact H1|]. split; [exact H2|]. split; [exact Hb|].
  rewrite Precise_covers. apply Z.eqb_refl.
Qed.

(** A single value gives a fully known vector, from which [FromTernary]
    gives the single value back. *)
Lemma Precise_round_trip (v : Bits) (w budget : Z) :
  has_width w v -> 0 <= w -> 0 <= budget ->
  exists t,
    ExtractTernaryVector (IntervalSet.Precise v) = Some t
    /\ ternary_ops.IsFullyKnown t = true
    /\ FromTernary t budget = Some (IntervalSet.Precise v).
Proof.
  intros Hv Hw Hb. destruct (Precise_props v w Hv Hw) as (H1 & H2 & H3 & H4).
  destruct (ExtractTernaryVector_consistent _ v H1 H2 H4) as (t & Et & Hl & Ht).
  assert (Hk : ternary_ops.IsFullyKnown t = true).
  { unfold ExtractTernaryVector in Et. rewrite H2 in Et. cbn in Et.
    injection Et as <-. destruct Hv as [Hbv _].
    rewrite ExtractTernaryInterval_precise by lia. apply bits_vector_fully_known. }
  exists t. split; [exact Et|]. split; [exact Hk|].
  unfold FromTernary. destruct (Z.leb_spec 0 budget); [|lia]. cbn [check bind].
  rewrite Hk. f_equal. f_equal.
  destruct Hv as [Hbv Hr]. rewrite H3 in Hl.
  apply consistent_consistent_from in Ht.
  assert (E : value v = ternary_ops.known_values t).
  { apply known_values_unique; auto. rewrite Hl, Z2Nat.id by lia. exact Hr. }
  unfold ternary_ops.ToKnownBitsValues. rewrite <- E, Hl, Z2Nat.id, <- Hbv by lia.
  now destruct v.
Qed.

(** A fully known vector is the vector of its own bits. *)
Lemma fully_known_bits (t : TernaryVector) :
  ternary_ops.IsFullyKnown t = true ->
  map (fun j => if Z.testbit (ternary_ops.known_values t) (Z.of_nat j)
                then kKnownOne else kKnownZero)
      (seq 0 (length t))
  = t.
Proof.
  intros Hk. apply (nth_ext _ _ kUnknown kUnknown).
  - now rewrite length_map, length_seq.
  - intros n Hn. rewrite length_map, length_seq in Hn.
    rewrite nth_map_seq by exact Hn. rewrite known_values_testbit.
    unfold ternary_ops.IsFullyKnown in Hk. rewrite forallb_forall in Hk.
    specialize (Hk (nth n t kUnknown) (nth_In _ _ Hn)).
    destruct (nth n t kUnknown); [reflexivity|reflexivity|discriminate].
Qed.

Lemma fully_known_round_trip (t : TernaryVector) (budget : Z) :
  ternary_ops.IsFullyKnown t = true -> 0 <= budget ->
  FromTernary t budget = Some (IntervalSet.Precise (ternary_ops.ToKnownBitsValues t))
  /\ ExtractTernaryVector (IntervalSet.Precise (ternary_ops.ToKnownBitsValues t)) = Some t.
Proof.
  intros Hk Hb. split.
  - unfold FromTernary. destruct (Z.leb_spec 0 budget); [|lia]. cbn [check bind].
    now rewrite Hk.
  - unfold ExtractTernaryVector. rewrite Precise_normalized. cbn [check bind].
    cbn [IntervalSet.IsEmpty IntervalSet.Precise Intervals negb check bind fold_left].
    rewrite ExtractTernaryInterval_precise by (cbn; lia).
    cbn [ternary_ops.ToKnownBitsValues bit_count value]. rewrite Nat2Z.id.
    f_equal. now apply fully_known_bits.
Qed.

(** ** [FromTernary]: domain, composition with [ExtractTernaryVector] *)

Lemma FromTernary_defined (t : TernaryVector) (budget : Z) :
  0 <= budget ->
  exists s,
    FromTernary t budget = Some s
    /\ BitCount s = Z.of_nat (length t)
    /\ wf_set s
    /\ IntervalSet.IsNormalized s = true
    /\ Intervals s <> [].
Proof.
  intros Hb.
  destruct (FromTernary_sound t budget (ternary_ops.ToKnownBitsValues t) Hb)
    as (s & Es & H1 & H2 & H3 & H4).
  - apply known_values_bounds.
  - apply known_values_consistent.
  - exists s. split; [exact Es|]. split; [exact H1|]. split; [exact H2|].
    split; [exact H3|]. intros E. unfold IntervalSet.Covers in H4.
    rewrite E in H4. discriminate.
Qed.

Lemma FromTernary_negative (t : TernaryVector) (budget : Z) :
  budget < 0 -> FromTernary t budget = None.
Proof.
  intros Hb. unfold FromTernary. destruct (Z.leb_spec 0 budget); [lia|reflexivity].
Qed.

Lemma filling_testbit (d : bool) (t : TernaryVector) (i : nat) :
  (i < length t)%nat ->
  Z.testbit (filling d t) (Z.of_nat i)
  = match nth i t kUnknown with
    | kKnownZero => false
    | kKnownOne => true
    | kUnknown => d
    end.
Proof.
  intros Hi. unfold filling. rewrite from_bits_testbit.
  rewrite (nth_indep _ false d) by (now rewrite length_map).
  exact (map_nth (fun x => match x with
                           | kKnownZero => false | kKnownOne => true | kUnknown => d
                           end) t kUnknown i).
Qed.

Lemma filling_bounds (d : bool) (t : TernaryVector) :
  0 <= filling d t < 2 ^ Z.of_nat (length t).
Proof.
  unfold filling.
  rewrite <- (length_map (fun x => match x with
                                   | kKnownZero => false | kKnownOne => true | kUnknown => d
                                   end) t).
  apply from_bits_bounds.
Qed.

Lemma filling_consistent (d : bool) (t : TernaryVector) (w : Z) :
  consistent t (mkBits w (filling d t)) = true.
Proof.
  apply consistent_iff. intros i Hi. cbn [value]. rewrite filling_testbit by exact Hi.
  destruct (nth i t kUnknown); reflexivity.
Qed.

(** What [ExtractTernaryVector] knows of the set that [FromTernary] made of a
    vector, the vector knew. *)
Lemma Extract_FromTernary_known (t t' : TernaryVector) (budget : Z) (s : IntervalSet) :
  FromTernary t budget = Some s -> ExtractTernaryVector s = Some t' ->
  length t' = length t
  /\ forall i, (i < length t)%nat ->
       ternary_ops.IsKnown (nth i t' kUnknown) = true ->
       nth i t kUnknown = nth i t' kUnknown.
Proof.
  intros Es Et.
  assert (Hb : 0 <= budget).
  { destruct (Z.lt_ge_cases budget 0) as [H|H]; [|lia].
    rewrite FromTernary_negative in Es by exact H. discriminate. }
  assert (Hfill : forall d,
            length t' = length t
            /\ consistent t' (mkBits (Z.of_nat (length t)) (filling d t)) = true).
  { intros d.
    destruct (FromTernary_sound t budget (mkBits (Z.of_nat (length t)) (filling d t)) Hb)
      as (s' & Es' & H1 & H2 & H3 & H4).
    - apply filling_bounds.
    - apply filling_consistent.
    - assert (s' = s) by congruence. subst s'.
      destruct (ExtractTernaryVector_consistent s _ H2 H3 H4) as (t'' & Et'' & Hl & Hc).
      assert (t'' = t') by congruence. subst t''.
      split; [|exact Hc]. rewrite Hl, H1. apply Nat2Z.id. }
  split; [apply (Hfill false)|].
  intros i Hi Hk.
  destruct (nth i t' kUnknown) eqn:E'; [| |discriminate].
  - destruct (Hfill true) as [Hl Hc]. rewrite consistent_iff in Hc.
    specialize (Hc i ltac:(lia)). rewrite E' in Hc. cbn [value agrees] in Hc.
    rewrite filling_testbit in Hc by exact Hi.
    destruct (nth i t kUnknown); [reflexivity|discriminate|discriminate].
  - destruct (Hfill false) as [Hl Hc]. rewrite consistent_iff in Hc.
    specialize (Hc i ltac:(lia)). rewrite E' in Hc. cbn [value agrees] in Hc.
    rewrite filling_testbit in Hc by exact Hi.
    destruct (nth i t kUnknown); [discriminate|reflexivity|discriminate].
Qed.

(** ** [FromTernary] with a budget that covers every unknown bit *)

Lemma all_values_sound (t : TernaryVector) :
  forall h, In h (ternary_ops.all_values t) -> consistent_from t h.
Proof.
  induction t as [|x t IH]; intros h Hh; [exact I|].
  cbn [ternary_ops.all_values] in Hh. cbn [consistent_from].
  destruct x.
  - apply in_map_iff in Hh. destruct Hh as (h' & <- & Hh').
    rewrite Z.odd_mul, Z.div2_div, Z.mul_comm, Z.div_mul by lia.
    split; [reflexivity|now apply IH].
  - apply in_map_iff in Hh. destruct Hh as (h' & <- & Hh').
    rewrite Z.odd_add, Z.odd_mul, Z.div2_div.
    replace ((2 * h' + 1) / 2) with h'
      by (apply (Z.div_unique _ 2 h' 1); lia).
    split; [reflexivity|now apply IH].
  - apply in_flat_map in Hh. destruct Hh as (h' & Hh' & [<-|[<-|[]]]).
    + rewrite Z.div2_div, Z.mul_comm, Z.div_mul by lia. split; [reflexivity|now apply IH].
    + rewrite Z.div2_div.
      replace ((2 * h' + 1) / 2) with h'
        by (apply (Z.div_unique _ 2 h' 1); lia).
      split; [reflexivity|now apply IH].
Qed.

Lemma block_covers_inv (lsb_xs : nat) (w h : Z) (v : Bits) :
  Interval.Covers (block lsb_xs (mkBits w h)) v = true ->
  value v / 2 ^ Z.of_nat lsb_xs = h.
Proof.
  intros Hc. assert (HP : 0 < 2 ^ Z.of_nat lsb_xs) by (apply Z.pow_pos_nonneg; lia).
  unfold block, Interval.Closed in Hc. rewrite !Concat_pair in Hc.
  cbn [bit_count value Bits_zero AllOnes] in Hc.
  apply covers_proper in Hc; [|unfold proper; cbn [LowerBound UpperBound value]; lia].
  cbn [LowerBound UpperBound value] in Hc.
  symmetry. apply (Z.div_unique _ _ h (value v - h * 2 ^ Z.of_nat lsb_xs)); lia.
Qed.

Lemma find_known_prefix (t : TernaryVector) :
  forall i, (i < find_known t)%nat -> nth i t kUnknown = kUnknown.
Proof.
  induction t as [|x t IH]; intros i Hi; [destruct i; reflexivity|].
  cbn [find_known] in Hi. destruct x; cbn [ternary_ops.IsKnown] in Hi; try lia.
  destruct i as [|i]; [reflexivity|]. cbn [nth]. apply IH. lia.
Qed.

Lemma consistent_from_prefix (k : nat) (t : TernaryVector) (z : Z) :
  0 <= z ->
  (forall i, (i < k)%nat -> nth i t kUnknown = kUnknown) ->
  consistent_from (skipn k t) (z / 2 ^ Z.of_nat k) ->
  consistent_from t z.
Proof.
  intros Hz Hpre Hc. rewrite consistent_from_iff in Hc |- *. intros i Hi.
  destruct (Nat.lt_ge_cases i k) as [Hlt|Hge].
  - now rewrite Hpre.
  - specialize (Hc (i - k)%nat). rewrite length_skipn in Hc.
    specialize (Hc ltac:(lia)).
    rewrite nth_skipn in Hc. replace (k + (i - k))%nat with i in Hc by lia.
    rewrite Z.div_pow2_bits in Hc by lia.
    replace (Z.of_nat (i - k) + Z.of_nat k) with (Z.of_nat i) in Hc by lia.
    exact Hc.
Qed.

Lemma count_unknown_skipn (k : nat) :
  forall t, (count_unknown (skipn k t) <= count_unknown t)%nat.
Proof.
  unfold count_unknown. induction k as [|k IH]; intros t; [cbn; lia|].
  destruct t as [|x t]; [cbn; lia|]. cbn [skipn filter].
  specialize (IH t). destruct (ternary_ops.IsUnknown x); cbn [length]; lia.
Qed.

Lemma FromTernary_enough_budget (tern : TernaryVector) (max_interval_bits : Z) :
  0 <= max_interval_bits ->
  ternary_ops.IsFullyKnown tern = false ->
  Z.of_nat (count_unknown tern) <= max_interval_bits ->
  FromTernary tern max_interval_bits
  = Some (IntervalSet.Normalize
            (mkIntervalSet (Z.of_nat (length tern))
               (map (block (find_known tern))
                  (ternary_ops.AllBitsValues (skipn (find_known tern) tern))))).
Proof.
  intros Hm Hk Hcount. unfold FromTernary.
  replace (0 <=? max_interval_bits) with true by (symmetry; now apply Z.leb_le).
  cbn [check bind]. rewrite Hk.
  rewrite collect_x_locations_spec by (simpl; lia). cbn [app].
  set (l0 := find_known tern).
  set (U := unknown_positions l0 (skipn l0 tern)).
  assert (HU : length U = count_unknown (skipn l0 tern)) by apply unknown_positions_length.
  pose proof (count_unknown_skipn l0 tern) as Hle.
  rewrite (lastn_all (Z.to_nat max_interval_bits + 1) U) by lia.
  destruct (Z.gtb_spec (Z.of_nat (length U)) max_interval_bits) as [Hgt|_]; [lia|].
  destruct U as [|x xl'].
  - cbn [length] in HU. symmetry in HU. apply fully_known_count in HU.
    unfold ternary_ops.AllBitsValues. rewrite (all_values_known _ HU). reflexivity.
  - rewrite (AddInterval_fold (block l0)). reflexivity.
Qed.

Lemma consistent_value_ext (t : TernaryVector) (u v : Bits) :
  value u = value v -> consistent t u = consistent t v.
Proof. intros E. unfold consistent, Get. now rewrite E. Qed.

(** With a budget of at least the number of unknown bits, [FromTernary]
    returns the fillings of the vector and nothing else. *)
Lemma FromTernary_exact (tern : TernaryVector) (max_interval_bits : Z)
    (s : IntervalSet) (v : Bits) :
  Z.of_nat (count_unknown tern) <= max_interval_bits ->
  0 <= value v < 2 ^ Z.of_nat (length tern) ->
  FromTernary tern max_interval_bits = Some s ->
  IntervalSet.Covers s v = consistent tern v.
Proof.
  intros Hcount Hv Es.
  assert (Hm : 0 <= max_interval_bits) by lia.
  destruct (consistent tern v) eqn:Hc.
  - destruct (FromTernary_sound tern max_interval_bits v Hm Hv Hc) as (s' & Es' & _ & _ & _ & H).
    congruence.
  - apply not_true_is_false. intros Hcov. apply not_true_iff_false in Hc. apply Hc. clear Hc.
    destruct (ternary_ops.IsFullyKnown tern) eqn:Hk.
    + unfold FromTernary in Es.
      replace (0 <=? max_interval_bits) with true in Es by (symmetry; now apply Z.leb_le).
      cbn [check bind] in Es. rewrite Hk in Es. injection Es as <-.
      rewrite Precise_covers in Hcov. apply Z.eqb_eq in Hcov.
      rewrite (consistent_value_ext _ _ _ Hcov). apply known_values_consistent.
    + rewrite (FromTernary_enough_budget tern max_interval_bits Hm Hk Hcount) in Es.
      injection Es as <-.
      pose proof (blocks_wf tern (find_known tern) (find_known_le tern)) as Hb.
      rewrite Normalize_covers in Hcov;
        [|split; cbn [BitCount Intervals]; [lia|eapply Forall_and_l; eauto]|exact Hv].
      unfold IntervalSet.Covers in Hcov. cbn [Intervals] in Hcov.
      apply covers_list_iff in Hcov. destruct Hcov as (i & Hin & Hi).
      apply in_map_iff in Hin. destruct Hin as (b & <- & Hb').
      unfold ternary_ops.AllBitsValues in Hb'. apply in_map_iff in Hb'.
      destruct Hb' as (h & <- & Hh).
      apply block_covers_inv in Hi. subst h.
      apply consistent_consistent_from.
      apply (consistent_from_prefix (find_known tern)); [lia|apply find_known_prefix|].
      now apply all_values_sound.
Qed.

(** ** One-bit sets and ternary values *)

Lemma OneBitRangeToTernary_of_ternary (t : TernaryValue) :
  OneBitRangeToTernary (TernaryToOneBitRange t) = Some t.
Proof. destruct t; reflexivity. Qed.

Lemma one_bit_bits (b : Bits) :
  has_width 1 b -> b = mkBits 1 0 \/ b = mkBits 1 1.
Proof.
  destruct b as [bc v]. unfold has_width. cbn [bit_count value].
  change (2 ^ 1) with 2. intros [-> Hv].
  destruct (Z.eq_dec v 0) as [->|Hne]; [now left|right].
  replace v with 1 by lia. reflexivity.
Qed.

Lemma one_bit_set_of_ternary (s : IntervalSet) :
  wf_set s -> BitCount s = 1 -> IntervalSet.IsNormalized s = true ->
  Intervals s <> [] ->
  exists t, OneBitRangeToTernary s = Some t /\ TernaryToOneBitRange t = s.
Proof.
  destruct s as [w l]. unfold wf_set, IntervalSet.IsNormalized.
  cbn [BitCount Intervals]. intros [_ Hwf] -> Hn Hne.
  destruct l as [|i [|j l]]; [congruence| |].
  - destruct i as [lo hi]. pose proof (Forall_inv Hwf) as [Hlo Hhi].
    cbn [LowerBound UpperBound] in Hlo, Hhi.
    destruct (one_bit_bits lo Hlo) as [-> | ->];
      destruct (one_bit_bits hi Hhi) as [-> | ->].
    + exists kKnownZero. split; reflexivity.
    + exists kUnknown. split; reflexivity.
    + discriminate Hn.
    + exists kKnownOne. split; reflexivity.
  - exfalso. destruct i as [lo hi], j as [lo' hi'].
    pose proof (Forall_inv Hwf) as [Hlo Hhi].
    pose proof (Forall_inv (Forall_inv_tail Hwf)) as [Hlo' Hhi'].
    cbn [LowerBound UpperBound] in *.
    cbn [IntervalSet.separated LowerBound UpperBound] in Hn.
    apply andb_true_iff in Hn. destruct Hn as [Hn _].
    apply andb_true_iff in Hn. destruct Hn as [_ Hn]. apply Z.ltb_lt in Hn.
    destruct Hhi as [_ Hhi], Hlo' as [_ Hlo']. change (2 ^ 1) with 2 in *. lia.
Qed.

(** ** The number of intervals that [MinimizeIntervals] leaves *)

Lemma greedy_merge_length (k : nat) (fuel : nat) :
  (1 <= k)%nat ->
  forall l,
    length (greedy_merge fuel k l)
    = if (length l <=? k)%nat then length l else Nat.max k (length l - fuel).
Proof.
  intros Hk. induction fuel as [|fuel IH]; intros l; cbn [greedy_merge].
  - destruct (Nat.leb_spec (length l) k); lia.
  - destruct (Nat.leb_spec (length l) k) as [Hle|Hgt]; [reflexivity|].
    rewrite IH.
    rewrite merge_at_length by (apply smallest_gap_range; lia).
    destruct (Nat.leb_spec (length l - 1) k); lia.
Qed.

Lemma MinimizeIntervals_count (s : IntervalSet) (k : Z) :
  wf_set s -> 1 <= k < 2 ^ 63 ->
  IntervalSet.NumberOfIntervals (MinimizeIntervals s k)
  = Z.min k (IntervalSet.NumberOfIntervals (IntervalSet.Normalize s)).
Proof.
  intros Hwf Hk. rewrite MinimizeIntervals_greedy by assumption.
  unfold reference_MinimizeIntervals, IntervalSet.NumberOfIntervals. cbn [Intervals].
  rewrite greedy_merge_length by lia.
  set (n := length (Intervals (IntervalSet.Normalize s))).
  destruct (Nat.leb_spec n (Z.to_nat k)); lia.
Qed.

(** ** The shape of what the harness returns *)

Lemma PerformVariadicOp_minimized (calc : list Bits -> OverflowResult)
    (tonicities : list Tonicity) (inputs : list IntervalSet) (w : Z) :
  0 <= w ->
  length tonicities = length inputs ->
  Forall wf_set inputs ->
  (forall bs, Forall2 (fun s b => has_width (BitCount s) b) inputs bs ->
     has_width w (result (calc bs))) ->
  exists R,
    wf_set R /\ BitCount R = w
    /\ PerformVariadicOp calc tonicities inputs w
       = MinimizeIntervals (IntervalSet.Normalize R) 16.
Proof.
  intros Hw Hlen Hwf Hcalc.
  pose proof (minimize_operands_props inputs 0 ltac:(lia) Hwf) as Hops.
  set (operands := minimize_operands 0 inputs) in *.
  assert (Hlen2 : length inputs = length operands) by (eapply Forall2_length; eauto).
  assert (Hops' : Forall2 (fun s m => wf_set m /\ BitCount m = BitCount s) inputs operands).
  { eapply Forall2_impl; [|exact Hops]. simpl. tauto. }
  set (radix := map IntervalSet.NumberOfIntervals operands).
  assert (Hadded : forall n, In n (mixed_radix_numbers radix) ->
            Forall (wf_interval w)
              (let (lower_bounds, upper_bounds) := corner_bounds tonicities operands n in
               emitted w (calc lower_bounds) (calc upper_bounds))).
  { intros n Hn. apply mixed_radix_numbers_sound in Hn.
    assert (Hln : length operands = length n).
    { apply Forall2_length in Hn. unfold radix in Hn. now rewrite length_map in Hn. }
    rewrite corner_bounds_select by lia.
    pose proof (select_wf inputs operands n Hops' Hn) as Hsel.
    destruct (corners_has_width tonicities inputs _ Hlen Hsel) as [HL HU].
    destruct (corners tonicities (select operands n)) as [L U]. simpl in HL, HU.
    apply emitted_wf; auto. }
  assert (Hy : 0 <= value (Bits_zero w) < 2 ^ w) by (pose proof (pow2_pos w Hw); simpl; lia).
  pose proof (iterate_until_inv calc tonicities operands w (Bits_zero w) Hy
                (mixed_radix_numbers radix) (IntervalSet.Empty w) eq_refl
                (Forall_nil _) Hadded) as Hiter.
  cbv zeta in Hiter. destruct Hiter as (Hb & HwfR & _ & _).
  eexists. split; [|split; [exact Hb|reflexivity]].
  split; [rewrite Hb; exact Hw|rewrite Hb; exact HwfR].
Qed.

Lemma PerformVariadicOp_shape (calc : list Bits -> OverflowResult)
    (tonicities : list Tonicity) (inputs : list IntervalSet) (w : Z) :
  0 <= w ->
  length tonicities = length inputs ->
  Forall wf_set inputs ->
  (forall bs, Forall2 (fun s b => has_width (BitCount s) b) inputs bs ->
     has_width w (result (calc bs))) ->
  let r := PerformVariadicOp calc tonicities inputs w in
  BitCount r = w /\ IntervalSet.IsNormalized r = true
  /\ IntervalSet.NumberOfIntervals r <= 16.
Proof.
  intros Hw Hlen Hwf Hcalc r.
  destruct (PerformVariadicOp_minimized calc tonicities inputs w Hw Hlen Hwf Hcalc)
    as (R & HR & Hb & E).
  subst r. rewrite E.
  destruct (MinimizeIntervals_props (IntervalSet.Normalize R) 16
              (Normalize_wf R HR) ltac:(lia)) as (_ & H2 & H3 & _ & H5 & _).
  split; [rewrite H2; exact Hb|]. split; [exact H3|exact H5].
Qed.

(** ** The harness on single values *)

Lemma minimize_operands_precise (xs : list Bits) :
  forall i, minimize_operands i (map IntervalSet.Precise xs) = map IntervalSet.Precise xs.
Proof.
  induction xs as [|x xs IH]; intros i; [reflexivity|].
  cbn [map minimize_operands]. rewrite IH. f_equal.
  apply MinimizeIntervals_small; [apply Precise_normalized|].
  unfold IntervalSet.NumberOfIntervals. cbn. destruct (i <? 12); lia.
Qed.

Lemma mixed_radix_numbers_ones (xs : list Bits) :
  mixed_radix_numbers (map IntervalSet.NumberOfIntervals (map IntervalSet.Precise xs))
  = [repeat O (length xs)].
Proof.
  induction xs as [|x xs IH]; [reflexivity|].
  cbn [map mixed_radix_numbers length repeat]. rewrite IH. reflexivity.
Qed.

Lemma corner_bounds_precise (tonicities : list Tonicity) :
  forall xs, length tonicities = length xs ->
    corner_bounds tonicities (map IntervalSet.Precise xs) (repeat O (length xs))
    = (xs, xs).
Proof.
  induction tonicities as [|t ts IH]; intros [|x xs] Hl; try discriminate; [reflexivity|].
  cbn [map length repeat corner_bounds]. rewrite IH by (cbn in Hl; lia).
  destruct t; reflexivity.
Qed.

Lemma PerformVariadicOp_precise (calc : list Bits -> OverflowResult)
    (tonicities : list Tonicity) (xs : list Bits) (w : Z) :
  length tonicities = length xs ->
  PerformVariadicOp calc tonicities (map IntervalSet.Precise xs) w
  = MinimizeIntervals
      (IntervalSet.Normalize
         (fst (add_corner_results w (calc xs) (calc xs) (IntervalSet.Empty w))))
      16.
Proof.
  intros Hl. unfold PerformVariadicOp, MixedRadixIterate.
  rewrite minimize_operands_precise, mixed_radix_numbers_ones, iterate_until_single.
  rewrite corner_bounds_precise by exact Hl. reflexivity.
Qed.

Lemma single_interval_set (w : Z) (b : Bits) :
  bit_count b = w ->
  MinimizeIntervals (IntervalSet.Normalize (mkIntervalSet w [mkInterval b b])) 16
  = IntervalSet.Precise b.
Proof.
  intros <-.
  assert (En : IntervalSet.Normalize (mkIntervalSet (bit_count b) [mkInterval b b])
               = IntervalSet.Precise b).
  { unfold IntervalSet.Normalize. cbn [BitCount Intervals].
    rewrite normalize_list_id; [reflexivity|].
    cbn. rewrite !andb_true_r. apply Z.leb_le. lia. }
  rewrite En. apply MinimizeIntervals_small; [apply Precise_normalized|].
  unfold IntervalSet.NumberOfIntervals. cbn. lia.
Qed.

Lemma maximal_interval_set (w : Z) :
  0 <= w ->
  MinimizeIntervals (IntervalSet.Normalize (mkIntervalSet w [Interval.Maximal w])) 16
  = IntervalSet.Maximal w.
Proof.
  intros Hw. pose proof (pow2_pos w Hw) as HM.
  assert (Hs : IntervalSet.separated [Interval.Maximal w] = true).
  { cbn. rewrite !andb_true_r. apply Z.leb_le. lia. }
  assert (En : IntervalSet.Normalize (mkIntervalSet w [Interval.Maximal w])
               = IntervalSet.Maximal w).
  { unfold IntervalSet.Normalize. cbn [BitCount Intervals].
    rewrite normalize_list_id by exact Hs. reflexivity. }
  rewrite En. apply MinimizeIntervals_small; [exact Hs|].
  unfold IntervalSet.NumberOfIntervals. cbn. lia.
Qed.

(** One choice of corners, the same on both sides: the single result when
    the calculation reports no overflow, everything when it does. *)
Lemma single_corner_result (w : Z) (r : OverflowResult) :
  0 <= w -> bit_count (result r) = w ->
  MinimizeIntervals
    (IntervalSet.Normalize (fst (add_corner_results w r r (IntervalSet.Empty w)))) 16
  = if first_overflow_bit r then IntervalSet.Maximal w
    else IntervalSet.Precise (result r).
Proof.
  intros Hw Hb. unfold add_corner_results.
  destruct (first_overflow_bit r); cbn [negb andb orb fst].
  - unfold IntervalSet.AddInterval, IntervalSet.Empty. cbn [BitCount Intervals app].
    now apply maximal_interval_set.
  - unfold IntervalSet.AddInterval, IntervalSet.Empty. cbn [BitCount Intervals app].
    now apply single_interval_set.
Qed.

Lemma PerformBinOp_single (calc : Bits -> Bits -> OverflowResult)
    (x y : Bits) (ta tb : Tonicity) (w : Z) :
  0 <= w -> bit_count (result (calc x y)) = w ->
  PerformBinOp calc (IntervalSet.Precise x) ta (IntervalSet.Precise y) tb w
  = if first_overflow_bit (calc x y) then IntervalSet.Maximal w
    else IntervalSet.Precise (result (calc x y)).
Proof.
  intros Hw Hb. unfold PerformBinOp.
  rewrite (PerformVariadicOp_precise _ [ta; tb] [x; y] w eq_refl).
  now apply single_corner_result.
Qed.

Lemma PerformUnaryOp_single (calc : Bits -> OverflowResult)
    (x : Bits) (tone : Tonicity) (w : Z) :
  0 <= w -> bit_count (result (calc x)) = w ->
  PerformUnaryOp calc (IntervalSet.Precise x) tone w
  = if first_overflow_bit (calc x) then IntervalSet.Maximal w
    else IntervalSet.Precise (result (calc x)).
Proof.
  intros Hw Hb. unfold PerformUnaryOp.
  rewrite (PerformVariadicOp_precise _ [tone] [x] w eq_refl).
  now apply single_corner_result.
Qed.

(** ** The overflow bits of the calculations *)

Lemma Add_calc_bits (w : Z) (l r : Bits) :
  0 <= w -> has_width w l -> has_width w r ->
  result (Add_calc l r) = mkBits w ((value l + value r) mod 2 ^ w)
  /\ first_overflow_bit (Add_calc l r) = (2 ^ w <=? value l + value r)
  /\ second_overflow_bit (Add_calc l r) = false.
Proof.
  intros Hw Hl Hr. pose proof (pow2_pos w Hw) as HM.
  destruct (Add_calc_spec w l r Hw Hl Hr) as ([Hb _] & Ev & O1 & _).
  split; [|split; [|reflexivity]].
  - destruct (result (Add_calc l r)) as [bc v]. cbn [bit_count value] in Hb, Ev. congruence.
  - destruct Hl as [_ Hl], Hr as [_ Hr].
    destruct (Z.leb_spec (2 ^ w) (value l + value r)) as [Hge|Hlt].
    + destruct (first_overflow_bit (Add_calc l r)); [reflexivity|].
      assert (Hq : (value l + value r) / 2 ^ w = 0) by (now apply O1).
      apply Z.div_small_iff in Hq; lia.
    + apply O1. apply Z.div_small. lia.
Qed.

Lemma UMul_calc_bits (wa wb ow : Z) (l r : Bits) :
  0 <= ow -> has_width wa l -> has_width wb r ->
  result (UMul_calc ow l r) = mkBits ow ((value l * value r) mod 2 ^ ow)
  /\ first_overflow_bit (UMul_calc ow l r) = (2 ^ ow <=? value l * value r)
  /\ second_overflow_bit (UMul_calc ow l r) = (2 ^ (ow + 1) <=? value l * value r).
Proof.
  intros Hw [_ Hl] [_ Hr]. pose proof (pow2_pos ow Hw) as HM.
  pose proof (pow2_pos (ow + 1) ltac:(lia)) as HM1.
  unfold UMul_calc, bits_ops.UMul, WithSize, CountLeadingZeros.
  cbn [bit_count value result first_overflow_bit second_overflow_bit].
  assert (Hp : 0 <= value l * value r) by nia.
  set (p := value l * value r) in *.
  split; [reflexivity|].
  destruct (Z.eqb_spec p 0) as [E0|Hne].
  - rewrite E0.
    replace (bit_count l + bit_count r - (bit_count l + bit_count r - 0) - 1) with (-1) by lia.
    split.
    + destruct (Z.leb_spec ow (-1)); [lia|]. destruct (Z.leb_spec (2 ^ ow) 0); [lia|reflexivity].
    + destruct (Z.leb_spec (ow + 1) (-1)); [lia|].
      destruct (Z.leb_spec (2 ^ (ow + 1)) 0); [lia|reflexivity].
  - assert (Hpos : 0 < p) by lia.
    replace (bit_count l + bit_count r - (bit_count l + bit_count r - (Z.log2 p + 1)) - 1)
      with (Z.log2 p) by lia.
    split.
    + destruct (Z.leb_spec ow (Z.log2 p)) as [Hle|Hgt];
        destruct (Z.leb_spec (2 ^ ow) p) as [Hle'|Hgt']; try reflexivity.
      * apply Z.log2_le_pow2 in Hle; lia.
      * apply Z.log2_le_pow2 in Hle'; lia.
    + destruct (Z.leb_spec (ow + 1) (Z.log2 p)) as [Hle|Hgt];
        destruct (Z.leb_spec (2 ^ (ow + 1)) p) as [Hle'|Hgt']; try reflexivity.
      * apply Z.log2_le_pow2 in Hle; lia.
      * apply Z.log2_le_pow2 in Hle'; lia.
Qed.

(** ** Truncation to the width of the set *)

Lemma truncated_interval_id (w : Z) (i : Interval) :
  wf_interval w i -> truncated_interval w i = i.
Proof.
  destruct i as [[bl vl] [bh vh]]. unfold wf_interval, has_width, truncated_interval, UBits.
  cbn [LowerBound UpperBound bit_count value]. intros [[-> Hl] [-> Hh]].
  now rewrite !Z.mod_small by lia.
Qed.

Lemma Truncate_own_width (a : IntervalSet) :
  wf_set a -> IntervalSet.IsNormalized a = true -> Truncate a (BitCount a) = a.
Proof.
  intros Hwf Hn. pose proof Hwf as [Hw Hall].
  pose proof (separated_proper _ Hn) as Hp.
  rewrite Truncate_spec by assumption.
  assert (Ex : existsb (fun i => 2 ^ BitCount a <=? value (UpperBound i) - value (LowerBound i))
                 (Intervals a) = false).
  { apply not_true_is_false. intros H. apply existsb_exists in H.
    destruct H as (i & Hin & Hi). apply Z.leb_le in Hi.
    rewrite Forall_forall in Hall. destruct (Hall i Hin) as [[_ Hl] [_ Hh]]. lia. }
  rewrite Ex.
  assert (Em : map (truncated_interval (BitCount a)) (Intervals a) = Intervals a).
  { rewrite <- (map_id (Intervals a)) at 2. apply map_ext_in. intros i Hin.
    rewrite Forall_forall in Hall. now apply truncated_interval_id, Hall. }
  rewrite Em. unfold IntervalSet.Normalize. cbn [BitCount Intervals].
  rewrite normalize_list_id by exact Hn. now destruct a.
Qed.

(** ** Unsigned comparisons of convex hulls *)

Lemma hull_proper (a : IntervalSet) (h : Interval) :
  IntervalSet.IsNormalized a = true -> IntervalSet.ConvexHull a = Some h -> proper h.
Proof.
  intros Hn Eh. unfold IntervalSet.ConvexHull in Eh.
  destruct (Intervals a) as [|f rest] eqn:E; [discriminate|]. injection Eh as <-.
  unfold IntervalSet.IsNormalized in Hn. rewrite E in Hn.
  pose proof (separated_proper _ Hn) as Hp.
  pose proof (separated_last_hi rest f f Hn ltac:(now left)) as Hl.
  pose proof (Forall_inv Hp) as Hf. unfold proper in *. cbn [LowerBound UpperBound]. lia.
Qed.

Lemma ULt_UGt_decided (a b : IntervalSet) (ha hb : Interval) :
  IntervalSet.IsNormalized a = true -> IntervalSet.IsNormalized b = true ->
  IntervalSet.ConvexHull a = Some ha -> IntervalSet.ConvexHull b = Some hb ->
  ULt a b
  = Some (TernaryToOneBitRange
            (if value (UpperBound ha) <? value (LowerBound hb) then kKnownOne
             else if value (UpperBound hb) <? value (LowerBound ha) then kKnownZero
             else kUnknown))
  /\ UGt a b
     = Some (TernaryToOneBitRange
               (if value (UpperBound hb) <? value (LowerBound ha) then kKnownOne
                else if value (UpperBound ha) <? value (LowerBound hb) then kKnownZero
                else kUnknown)).
Proof.
  intros Hna Hnb Eha Ehb.
  pose proof (hull_proper a ha Hna Eha) as Hpa.
  pose proof (hull_proper b hb Hnb Ehb) as Hpb.
  unfold proper in Hpa, Hpb.
  unfold ULt, UGt. rewrite Eha, Ehb. cbn [bind].
  unfold Interval.Disjoint, Interval.gt, Interval.lt.
  destruct (Z.ltb_spec (value (UpperBound ha)) (value (LowerBound hb)));
  destruct (Z.ltb_spec (value (UpperBound hb)) (value (LowerBound ha)));
  destruct (Z.ltb_spec (value (LowerBound ha)) (value (LowerBound hb)));
  destruct (Z.ltb_spec (value (LowerBound hb)) (value (LowerBound ha)));
  destruct (Z.eqb_spec (value (LowerBound ha)) (value (LowerBound hb)));
  destruct (Z.eqb_spec (value (LowerBound hb)) (value (LowerBound ha)));
  destruct (Z.ltb_spec (value (UpperBound ha)) (value (UpperBound hb)));
  destruct (Z.ltb_spec (value (UpperBound hb)) (value (UpperBound ha)));
  cbn [orb andb]; try lia; split; reflexivity.
Qed.

(** ** [Ne] as the negation of [Eq] *)

Lemma Ne_negates_Eq (a b : IntervalSet) (max_interval_bits : Z) :
  exists t,
    Eq a b = TernaryToOneBitRange t
    /\ Ne a b max_interval_bits = Some (TernaryToOneBitRange (TernaryEvaluator.Not t)).
Proof.
  destruct (Eq_shape a b) as [t Et]. exists t. split; [exact Et|].
  unfold Ne, Not. rewrite Et.
  destruct (TernaryToOneBitRange_props t) as (_ & Hb & _). rewrite Hb.
  cbn [Z.eqb Pos.eqb]. rewrite OneBitRangeToTernary_of_ternary. reflexivity.
Qed.

(** ** What [Gate] lets through *)

Lemma Gate_within (c v : IntervalSet) (x : Bits) :
  wf_set v -> 0 <= value x < 2 ^ BitCount v ->
  IntervalSet.Covers (Gate c v) x = true ->
  IntervalSet.Covers v x = true \/ value x = 0.
Proof.
  intros [Hw Hwf] Hx. unfold Gate.
  assert (Hcomb : IntervalSet.Covers
                    (IntervalSet.Combine v (IntervalSet.Precise (Bits_zero (BitCount v)))) x
                  = true ->
                  IntervalSet.Covers v x = true \/ value x = 0).
  { unfold IntervalSet.Combine. rewrite Normalize_covers.
    - unfold IntervalSet.Covers. cbn [Intervals].
      fold (covers_list (Intervals v ++ Intervals (IntervalSet.Precise (Bits_zero (BitCount v)))) x).
      rewrite covers_list_app. intros H. apply orb_true_iff in H.
      destruct H as [H|H]; [now left|right].
      change (IntervalSet.Covers (IntervalSet.Precise (Bits_zero (BitCount v))) x = true) in H.
      rewrite Precise_covers in H. now apply Z.eqb_eq in H.
    - split; cbn [BitCount Intervals]; [exact Hw|].
      apply Forall_app. split; [exact Hwf|]. constructor; [|constructor].
      split; unfold has_width; cbn; lia.
    - exact Hx. }
  destruct (IntervalSet.IsPrecise c), (IntervalSet.CoversZero c); auto.
  rewrite Precise_covers. intros H. right. now apply Z.eqb_eq in H.
Qed.

(** ** Widths of concatenations *)

Lemma concat_fold_bit_count (xs : list Bits) :
  forall acc,
    bit_count
      (fold_left
         (fun acc b => mkBits (bit_count acc + bit_count b)
                         (value acc * 2 ^ bit_count b + value b)) xs acc)
    = fold_left (fun v s => v + BitCount s) (map IntervalSet.Precise xs) (bit_count acc).
Proof.
  induction xs as [|x xs IH]; intros acc; [reflexivity|].
  cbn [fold_left map]. rewrite IH. reflexivity.
Qed.

Lemma width_sum_nonneg (xs : list Bits) :
  Forall (fun x => 0 <= bit_count x) xs ->
  forall n, 0 <= n ->
    0 <= fold_left (fun v s => v + BitCount s) (map IntervalSet.Precise xs) n.
Proof.
  induction 1 as [|x xs Hx _ IH]; intros n Hn; [exact Hn|].
  cbn [map fold_left]. apply IH. cbn. lia.
Qed.

(** ** One-hot encoding of a fully known vector *)

Lemma one_hot_walk_known (t : TernaryVector) :
  forall np,
    ternary_ops.IsKnown np = true -> ternary_ops.IsFullyKnown t = true ->
    ternary_ops.IsFullyKnown (fst (TernaryEvaluator.one_hot_walk np t)) = true
    /\ ternary_ops.IsKnown (snd (TernaryEvaluator.one_hot_walk np t)) = true.
Proof.
  induction t as [|x t IH]; intros np Hnp Hk; [split; [reflexivity|exact Hnp]|].
  cbn [ternary_ops.IsFullyKnown forallb] in Hk. apply andb_true_iff in Hk.
  destruct Hk as [Hx Hk]. cbn [TernaryEvaluator.one_hot_walk].
  specialize (IH (TernaryEvaluator.And np (TernaryEvaluator.Not x))).
  destruct (TernaryEvaluator.one_hot_walk (TernaryEvaluator.And np (TernaryEvaluator.Not x)) t)
    as [r z].
  cbn [fst snd] in *. destruct IH as [IH1 IH2]; [|exact Hk|].
  - destruct np, x; try discriminate; reflexivity.
  - split; [|exact IH2]. cbn [ternary_ops.IsFullyKnown forallb].
    apply andb_true_iff. split; [|exact IH1].
    destruct np, x; try discriminate; reflexivity.
Qed.

Lemma one_hot_walk_length (l : list bool) :
  forall np, length (fst (bits_ops.one_hot_walk np l)) = length l.
Proof.
  induction l as [|b l IH]; intros np; [reflexivity|].
  cbn [bits_ops.one_hot_walk]. specialize (IH (np && negb b)).
  destruct (bits_ops.one_hot_walk (np && negb b) l) as [r z]. cbn [fst length] in *.
  now rewrite IH.
Qed.

Lemma fully_known_app (a b : TernaryVector) :
  ternary_ops.IsFullyKnown a = true -> ternary_ops.IsFullyKnown b = true ->
  ternary_ops.IsFullyKnown (a ++ b) = true.
Proof.
  unfold ternary_ops.IsFullyKnown. intros Ha Hb. rewrite forallb_app, Ha, Hb. reflexivity.
Qed.

Lemma fully_known_rev (a : TernaryVector) :
  ternary_ops.IsFullyKnown a = true -> ternary_ops.IsFullyKnown (rev a) = true.
Proof.
  unfold ternary_ops.IsFullyKnown. rewrite !forallb_forall. intros H x Hx.
  apply H. now apply in_rev.
Qed.

Lemma known_agrees_values (t : TernaryVector) (bs : list bool) :
  agrees_list t bs -> ternary_ops.IsFullyKnown t = true ->
  ternary_ops.known_values t = bits_ops.from_bits bs.
Proof.
  induction 1 as [|x b t bs Hxb _ IH]; intros Hk; [reflexivity|].
  cbn [ternary_ops.IsFullyKnown forallb] in Hk. apply andb_true_iff in Hk.
  destruct Hk as [Hx Hk]. cbn [ternary_ops.known_values bits_ops.from_bits].
  rewrite (IH Hk). destruct x, b; try discriminate; reflexivity.
Qed.

Lemma OneHot_single (x : Bits) (lsb_or_msb : LsbOrMsb) (max_interval_bits : Z) :
  0 <= bit_count x -> 0 <= value x < 2 ^ bit_count x -> 0 <= max_interval_bits ->
  OneHot (IntervalSet.Precise x) lsb_or_msb max_interval_bits
  = Some (IntervalSet.Precise
            (match lsb_or_msb with
             | kLsb => bits_ops.OneHotLsbToMsb x
             | kMsb => bits_ops.OneHotMsbToLsb x
             end)).
Proof.
  intros Hw Hv Hm.
  destruct (Precise_props x (bit_count x) (conj eq_refl Hv) Hw) as (H1 & H2 & H3 & H4).
  destruct (ExtractTernaryVector_consistent _ x H1 H2 H4) as (t & Et & Hl & Ht).
  destruct (Precise_round_trip x (bit_count x) 0 (conj eq_refl Hv) Hw (Z.le_refl 0))
    as (t' & Et' & Hk & _).
  assert (t' = t) by congruence. subst t'.
  rewrite H3 in Hl.
  unfold OneHot. rewrite Et. cbn [bind].
  apply consistent_agrees_list in Ht. rewrite Hl in Ht.
  assert (Hone : agrees kKnownOne true = true) by reflexivity.
  assert (Hfin : forall (res : TernaryVector) (bs : list bool),
            agrees_list res bs -> ternary_ops.IsFullyKnown res = true ->
            length bs = S (Z.to_nat (bit_count x)) ->
            FromTernary res max_interval_bits
            = Some (IntervalSet.Precise (mkBits (bit_count x + 1) (bits_ops.from_bits bs)))).
  { intros res bs Ha Hkr Hlen. unfold FromTernary.
    destruct (Z.leb_spec 0 max_interval_bits); [|lia]. cbn [check bind]. rewrite Hkr.
    unfold ternary_ops.ToKnownBitsValues.
    rewrite (known_agrees_values res bs Ha Hkr), (Forall2_length Ha), Hlen.
    do 3 f_equal. lia. }
  destruct lsb_or_msb.
  - unfold TernaryEvaluator.OneHotLsbToMsb, bits_ops.OneHotLsbToMsb.
    destruct (one_hot_walk_agrees _ _ Ht _ _ Hone) as [A1 A2].
    destruct (one_hot_walk_known t kKnownOne eq_refl Hk) as [K1 K2].
    pose proof (one_hot_walk_length
                  (bits_ops.to_bits (Z.to_nat (bit_count x)) (value x)) true) as L.
    destruct (TernaryEvaluator.one_hot_walk kKnownOne t) as [r z].
    destruct (bits_ops.one_hot_walk true _) as [rb zb]. cbn [fst snd] in *.
    apply Hfin.
    + apply Forall2_app; [exact A1|]. constructor; [exact A2|constructor].
    + apply fully_known_app; [exact K1|]. cbn. now rewrite K2.
    + rewrite length_app, L. unfold bits_ops.to_bits.
      rewrite length_map, length_seq. cbn. lia.
  - unfold TernaryEvaluator.OneHotMsbToLsb, bits_ops.OneHotMsbToLsb.
    apply agrees_list_rev in Ht.
    destruct (one_hot_walk_agrees _ _ Ht _ _ Hone) as [A1 A2].
    destruct (one_hot_walk_known (rev t) kKnownOne eq_refl (fully_known_rev t Hk)) as [K1 K2].
    pose proof (one_hot_walk_length
                  (rev (bits_ops.to_bits (Z.to_nat (bit_count x)) (value x))) true) as L.
    destruct (TernaryEvaluator.one_hot_walk kKnownOne (rev t)) as [r z].
    destruct (bits_ops.one_hot_walk true _) as [rb zb]. cbn [fst snd] in *.
    apply Hfin.
    + apply Forall2_app; [now apply agrees_list_rev|]. constructor; [exact A2|constructor].
    + apply fully_known_app; [now apply fully_known_rev|]. cbn. now rewrite K2.
    + rewrite length_app, length_rev, L, length_rev. unfold bits_ops.to_bits.
      rewrite length_map, length_seq. cbn. lia.
Qed.

(** ** Bitwise operations on single values *)

Lemma FromTernary_known_covering (t : TernaryVector) (max_interval_bits : Z) (c : Bits) :
  0 <= max_interval_bits -> ternary_ops.IsFullyKnown t = true ->
  has_width (Z.of_nat (length t)) c -> consistent t c = true ->
  FromTernary t max_interval_bits = Some (IntervalSet.Precise c).
Proof.
  intros Hm Hk [Hb Hv] Hc. unfold FromTernary.
  destruct (Z.leb_spec 0 max_interval_bits); [|lia]. cbn [check bind]. rewrite Hk.
  apply consistent_consistent_from in Hc.
  unfold ternary_ops.ToKnownBitsValues.
  rewrite <- (known_values_unique t (value c) Hk Hc Hv), <- Hb. now destruct c.
Qed.

Lemma Precise_ternary (x : Bits) (w : Z) :
  has_width w x -> 0 <= w ->
  exists t,
    ExtractTernaryVector (IntervalSet.Precise x) = Some t
    /\ ternary_ops.IsFullyKnown t = true
    /\ length t = Z.to_nat w
    /\ consistent t x = true.
Proof.
  intros Hx Hw. destruct (Precise_props x w Hx Hw) as (H1 & H2 & H3 & H4).
  destruct (ExtractTernaryVector_consistent _ x H1 H2 H4) as (t & Et & Hl & Ht).
  destruct (Precise_round_trip x w 0 Hx Hw (Z.le_refl 0)) as (t' & Et' & Hk & _).
  assert (t' = t) by congruence. subst t'. rewrite H3 in Hl.
  exists t. repeat split; assumption.
Qed.

Lemma zip_with_known (f : TernaryValue -> TernaryValue -> TernaryValue) :
  (forall p q, ternary_ops.IsKnown p = true -> ternary_ops.IsKnown q = true ->
     ternary_ops.IsKnown (f p q) = true) ->
  forall a b,
    ternary_ops.IsFullyKnown a = true -> ternary_ops.IsFullyKnown b = true ->
    ternary_ops.IsFullyKnown (TernaryEvaluator.zip_with f a b) = true.
Proof.
  intros Hf. induction a as [|x a IH]; intros [|y b] Ha Hb; try reflexivity.
  cbn [ternary_ops.IsFullyKnown forallb TernaryEvaluator.zip_with] in *.
  apply andb_true_iff in Ha, Hb. destruct Ha as [Hx Ha], Hb as [Hy Hb].
  apply andb_true_iff. split; [now apply Hf|now apply IH].
Qed.

Lemma bitwise_binary_single (f : TernaryValue -> TernaryValue -> TernaryValue)
    (g : bool -> bool -> bool) (h : Z -> Z -> Z)
    (x y : Bits) (w max_interval_bits : Z) :
  tracks f g -> g false false = false ->
  (forall p q, 0 <= p -> 0 <= q -> 0 <= h p q) ->
  (forall p q i, 0 <= i -> Z.testbit (h p q) i = g (Z.testbit p i) (Z.testbit q i)) ->
  (forall p q, ternary_ops.IsKnown p = true -> ternary_ops.IsKnown q = true ->
     ternary_ops.IsKnown (f p q) = true) ->
  0 <= max_interval_bits -> 0 <= w -> w <> 1 ->
  has_width w x -> has_width w y ->
  bitwise_binary f (TernaryEvaluator.zip_with f)
    (IntervalSet.Precise x) (IntervalSet.Precise y) max_interval_bits
  = Some (IntervalSet.Precise (mkBits w (h (value x) (value y)))).
Proof.
  intros Ht Hg Hnn Hspec Hknown Hm Hw Hne Hx Hy.
  pose proof (bitwise_has_width h g w x y Hg Hnn Hspec Hw Hx Hy) as Hr.
  destruct (Precise_ternary x w Hx Hw) as (ta & Eta & Ka & La & Ca).
  destruct (Precise_ternary y w Hy Hw) as (tb & Etb & Kb & Lb & Cb).
  unfold bitwise_binary. cbn [BitCount IntervalSet.Precise].
  destruct Hx as [Hbx Hvx], Hy as [Hby Hvy]. rewrite Hbx, Hby, Z.eqb_refl.
  cbn [check bind]. destruct (Z.eqb_spec w 1) as [E|_]; [contradiction|].
  fold (IntervalSet.Precise x). fold (IntervalSet.Precise y).
  rewrite Eta, Etb. cbn [bind].
  assert (Hlen : length ta = length tb) by congruence.
  apply FromTernary_known_covering.
  - exact Hm.
  - now apply zip_with_known.
  - rewrite zip_with_length by exact Hlen. rewrite La, Z2Nat.id by lia.
    split; [reflexivity|exact Hr].
  - eapply zip_with_consistent; eauto.
Qed.

Lemma Not_single_wide (x : Bits) (w max_interval_bits : Z) :
  0 <= max_interval_bits -> 0 <= w -> w <> 1 -> has_width w x ->
  Not (IntervalSet.Precise x) max_interval_bits
  = Some (IntervalSet.Precise (bits_ops.Not x)).
Proof.
  intros Hm Hw Hne Hx.
  destruct (Not_value w x Hw Hx) as [Hr Hbits].
  destruct (Precise_ternary x w Hx Hw) as (t & Et & Hk & Hl & Hc).
  unfold Not. cbn [BitCount IntervalSet.Precise]. destruct Hx as [Hbx Hvx]. rewrite Hbx.
  destruct (Z.eqb_spec w 1) as [E|_]; [contradiction|].
  fold (IntervalSet.Precise x). rewrite Et. cbn [bind].
  apply FromTernary_known_covering.
  - exact Hm.
  - unfold TernaryEvaluator.BitwiseNot, ternary_ops.IsFullyKnown in *.
    rewrite forallb_forall in *. intros p Hp. apply in_map_iff in Hp.
    destruct Hp as (q & <- & Hq). specialize (Hk q Hq). now destruct q.
  - unfold TernaryEvaluator.BitwiseNot. rewrite length_map, Hl, Z2Nat.id by lia.
    split; [exact Hbx|exact Hr].
  - rewrite consistent_iff in *. unfold TernaryEvaluator.BitwiseNot.
    intros i Hi. rewrite length_map in Hi.
    change kUnknown with (TernaryEvaluator.Not kUnknown) at 1. rewrite map_nth.
    rewrite Hbits by lia. apply Not_agrees. now apply Hc.
Qed.

(** ** Signed comparison of single values across the sign classes *)

Lemma Maximal_hull (w : Z) :
  IntervalSet.ConvexHull (IntervalSet.Maximal w) = Some (Interval.Maximal w).
Proof. reflexivity. Qed.

Lemma biased_single (w : Z) (x : Bits) :
  1 <= w -> has_width w x ->
  Add (IntervalSet.Precise x) (signed_offset (IntervalSet.Precise x))
  = if value x <? 2 ^ (w - 1)
    then IntervalSet.Precise (mkBits w (value x + 2 ^ (w - 1)))
    else IntervalSet.Maximal w.
Proof.
  intros Hw [Hb Hv].
  assert (HP : 0 < 2 ^ (w - 1)) by (apply Z.pow_pos_nonneg; lia).
  assert (E : 2 ^ w = 2 * 2 ^ (w - 1)).
  { replace w with (w - 1 + 1) at 1 by lia. rewrite Z.pow_add_r by lia. lia. }
  destruct (offset_props w Hw) as [[Hob _] Hov].
  unfold signed_offset. cbn [BitCount IntervalSet.Precise]. rewrite Hb.
  set (o := bits_ops.Concat [UBits 1 1; Bits_zero (w - 1)]) in *.
  assert (Eo : o = mkBits w (2 ^ (w - 1))) by (destruct o; cbn in *; congruence).
  assert (Ex : x = mkBits w (value x)) by (destruct x; cbn in *; congruence).
  rewrite Eo, Ex. cbn [value].
  rewrite Add_precise by lia.
  destruct (Z.ltb_spec (value x + 2 ^ (w - 1)) (2 ^ w));
    destruct (Z.ltb_spec (value x) (2 ^ (w - 1))); try lia; reflexivity.
Qed.

Lemma same_sign_class_single (w : Z) (x y : Bits) :
  1 <= w -> has_width w x -> has_width w y ->
  same_sign_class (IntervalSet.Precise x) (IntervalSet.Precise y)
  = Some (Bool.eqb (value x <? 2 ^ (w - 1)) (value y <? 2 ^ (w - 1))).
Proof.
  intros Hw [Hbx Hvx] [Hby Hvy].
  unfold same_sign_class, is_all_positive, is_all_negative,
    IntervalSet.LowerBound, IntervalSet.UpperBound, IntervalSet.ConvexHull.
  cbn [IntervalSet.Precise Intervals Interval.Precise last option_map bind
       LowerBound UpperBound].
  unfold GetFromMsb. rewrite Hbx, Hby.
  replace (w - 1 - 0) with (w - 1) by lia.
  rewrite !msb_spec by lia.
  destruct (Z.leb_spec 1 w); [|lia]. cbn [andb].
  destruct (Z.leb_spec (2 ^ (w - 1)) (value x));
    destruct (Z.leb_spec (2 ^ (w - 1)) (value y));
    destruct (Z.ltb_spec (value x) (2 ^ (w - 1)));
    destruct (Z.ltb_spec (value y) (2 ^ (w - 1))); try lia; reflexivity.
Qed.

Lemma signed_across_classes (w : Z) (x y : Bits) :
  1 <= w -> has_width w x -> has_width w y ->
  (value x <? 2 ^ (w - 1)) <> (value y <? 2 ^ (w - 1)) ->
  SLt (IntervalSet.Precise x) (IntervalSet.Precise y)
  = Some (TernaryToOneBitRange kUnknown)
  /\ SGt (IntervalSet.Precise x) (IntervalSet.Precise y)
     = Some (TernaryToOneBitRange kUnknown).
Proof.
  intros Hw Hx Hy Hdiff.
  assert (HP : 0 < 2 ^ (w - 1)) by (apply Z.pow_pos_nonneg; lia).
  assert (E : 2 ^ w = 2 * 2 ^ (w - 1)).
  { replace w with (w - 1 + 1) at 1 by lia. rewrite Z.pow_add_r by lia. lia. }
  pose proof (biased_single w x Hw Hx) as Bx.
  pose proof (biased_single w y Hw Hy) as By.
  assert (Eoff : signed_offset (IntervalSet.Precise y) = signed_offset (IntervalSet.Precise x)).
  { unfold signed_offset. cbn [BitCount IntervalSet.Precise].
    destruct Hx as [-> _], Hy as [-> _]. reflexivity. }
  rewrite Eoff in By.
  unfold SLt, SGt. rewrite !Precise_normalized. cbn [check bind].
  rewrite (same_sign_class_single w x y Hw Hx Hy). cbn [bind].
  destruct Hx as [_ Hvx], Hy as [_ Hvy].
  destruct (Z.ltb_spec (value x) (2 ^ (w - 1))) as [Hxs|Hxs];
    destruct (Z.ltb_spec (value y) (2 ^ (w - 1))) as [Hys|Hys];
    try (exfalso; apply Hdiff; reflexivity); cbn [Bool.eqb];
    rewrite Bx, By; unfold ULt, UGt; rewrite Maximal_hull;
    cbn [IntervalSet.ConvexHull IntervalSet.Precise Intervals Interval.Precise last bind
         LowerBound UpperBound];
    unfold Interval.Disjoint, Interval.Maximal;
    cbn [LowerBound UpperBound value Bits_zero AllOnes].
  - destruct (Z.ltb_spec (value x + 2 ^ (w - 1)) 0); [lia|].
    destruct (Z.ltb_spec (2 ^ w - 1) (value x + 2 ^ (w - 1))); [lia|].
    split; reflexivity.
  - destruct (Z.ltb_spec (value y + 2 ^ (w - 1)) 0); [lia|].
    destruct (Z.ltb_spec (2 ^ w - 1) (value y + 2 ^ (w - 1))); [lia|].
    split; reflexivity.
Qed.

(** * The properties of the specification *)


(** C7: every value of a normalized, non-empty interval set agrees with
    every known bit of the ternary vector that [ExtractTernaryVector]
    returns for the set. *)
Theorem ExtractTernaryVector_agrees (s : IntervalSet) (v : Bits) :
  wf_set s ->
  IntervalSet.IsNormalized s = true ->
  IntervalSet.Covers s v = true ->
  exists t,
    ExtractTernaryVector s = Some t
    /\ forall i, (i < length t)%nat ->
         match nth i t kUnknown with
         | kKnownZero => Get v (Z.of_nat i) = false
         | kKnownOne => Get v (Z.of_nat i) = true
         | kUnknown => True
         end.
Proof.
  intros Hwf Hn Hc.
  destruct (ExtractTernaryVector_consistent s v Hwf Hn Hc) as (t & E & _ & Ht).
  exists t. split; [exact E|]. intros i Hi.
  rewrite consistent_iff in Ht. specialize (Ht i Hi). unfold Get.
  destruct (nth i t kUnknown); simpl in Ht; auto.
  now apply negb_true_iff.
Qed.

Lemma ExtractTernaryVector_agrees_witness :
  let s := FromRanges 4 [(4, 5); (12, 12)] in
  let v := UBits 5 4 in
  wf_set s /\ IntervalSet.IsNormalized s = true /\ IntervalSet.Covers s v = true
  /\ exists t,
       ExtractTernaryVector s = Some t
       /\ forall i, (i < length t)%nat ->
            match nth i t kUnknown with
            | kKnownZero => Get v (Z.of_nat i) = false
            | kKnownOne => Get v (Z.of_nat i) = true
            | kUnknown => True
            end.
Proof.
  intros s v.
  assert (Hwf : wf_set s) by wf_concrete.
  split; [exact Hwf|]. split; [reflexivity|]. split; [reflexivity|].
  apply (ExtractTernaryVector_agrees s v Hwf); reflexivity.
Defined.

(** C10: whatever the budget, the interval set that [FromTernary] returns
    covers every value obtained by filling the unknown bits of the vector. *)
Theorem FromTernary_covers_fillings (tern : TernaryVector) (budget : Z) (v : Bits) :
  0 <= budget ->
  has_width (Z.of_nat (length tern)) v ->
  consistent tern v = true ->
  exists s, FromTernary tern budget = Some s /\ IntervalSet.Covers s v = true.
Proof.
  intros Hb [_ Hv] Hc.
  destruct (FromTernary_sound tern budget v Hb Hv Hc) as (s & E & _ & _ & _ & Hs).
  exists s. auto.
Qed.

Lemma FromTernary_covers_fillings_witness :
  let tern := [kKnownZero; kUnknown; kKnownZero; kUnknown; kUnknown; kKnownOne] in
  let v := UBits 42 6 in
  0 <= 1 /\ has_width (Z.of_nat (length tern)) v /\ consistent tern v = true
  /\ exists s, FromTernary tern 1 = Some s /\ IntervalSet.Covers s v = true.
Proof.
  intros tern v.
  assert (Hw : has_width (Z.of_nat (length tern)) v) by closed_arith.
  split; [lia|]. split; [exact Hw|]. split; [reflexivity|].
  apply (FromTernary_covers_fillings tern 1 v); [lia|exact Hw|reflexivity].
Defined.

(** C2, as the code has it: the second argument of [FromTernary] counts
    unknown bits, and the interval set returned holds at most
    [2 ^ max_interval_bits] intervals. *)
Theorem FromTernary_interval_count (tern : TernaryVector) (max_interval_bits : Z) :
  0 <= max_interval_bits ->
  exists s,
    FromTernary tern max_interval_bits = Some s
    /\ IntervalSet.NumberOfIntervals s <= 2 ^ max_interval_bits.
Proof. apply FromTernary_count. Qed.

Lemma FromTernary_interval_count_witness :
  0 <= 1
  /\ exists s,
       FromTernary [kKnownZero; kUnknown; kKnownZero] 1 = Some s
       /\ IntervalSet.NumberOfIntervals s <= 2 ^ 1.
Proof.
  split; [lia|].
  apply (FromTernary_interval_count [kKnownZero; kUnknown; kKnownZero] 1). lia.
Defined.

(** C2 as stated fails: with a budget of 1 the vector 0X0 gives the two
    intervals [0,0] and [2,2]. *)
Lemma FromTernary_budget_exceeded :
  ~ (forall (tern : TernaryVector) (budget : Z) (s : IntervalSet),
       0 <= budget ->
       FromTernary tern budget = Some s ->
       IntervalSet.NumberOfIntervals s <= budget).
Proof.
  intros H.
  specialize (H [kKnownZero; kUnknown; kKnownZero] 1
                (FromRanges 3 [(0, 0); (2, 2)]) ltac:(lia) eq_refl).
  vm_compute in H. apply H. reflexivity.
Qed.

(** C6: [MinimizeIntervals s k] covers every value that [s] covers and holds
    at most [k] intervals; a normalized set of at most [k] intervals is
    returned as it is, so that minimizing twice is minimizing once; for
    [k = 1] the result is the convex hull. *)
Theorem MinimizeIntervals_contract (s : IntervalSet) (k : Z) :
  wf_set s -> 1 <= k < 2 ^ 63 ->
  (forall v, has_width (BitCount s) v ->
     IntervalSet.Covers s v = true ->
     IntervalSet.Covers (MinimizeIntervals s k) v = true)
  /\ IntervalSet.NumberOfIntervals (MinimizeIntervals s k) <= k
  /\ (IntervalSet.IsNormalized s = true ->
      IntervalSet.NumberOfIntervals s <= k -> MinimizeIntervals s k = s)
  /\ MinimizeIntervals (MinimizeIntervals s k) k = MinimizeIntervals s k
  /\ (IntervalSet.IsNormalized s = true -> k = 1 ->
      Intervals (MinimizeIntervals s k)
      = match IntervalSet.ConvexHull s with Some h => [h] | None => [] end).
Proof.
  intros Hwf Hk.
  destruct (MinimizeIntervals_props s k Hwf Hk) as (H1 & H2 & H3 & H4 & H5 & H6).
  split; [intros v [_ Hv]; now apply H4|].
  split; [exact H5|].
  split; [apply MinimizeIntervals_small|].
  split; [now apply MinimizeIntervals_small|].
  intros Hn ->. rewrite MinimizeIntervals_one by exact Hwf.
  assert (E : IntervalSet.Normalize s = s).
  { unfold IntervalSet.Normalize. rewrite normalize_list_id by exact Hn. now destruct s. }
  now rewrite E.
Qed.

Lemma MinimizeIntervals_contract_witness :
  let s := FromRanges 8 [(0, 0); (2, 2); (10, 20); (30, 31)] in
  wf_set s /\ 1 <= 2 < 2 ^ 63
  /\ IntervalSet.NumberOfIntervals (MinimizeIntervals s 2) <= 2.
Proof.
  intros s.
  assert (Hwf : wf_set s) by wf_concrete.
  split; [exact Hwf|]. split; [lia|].
  apply (MinimizeIntervals_contract s 2 Hwf). lia.
Defined.

(** C9: the heap and the intrusive list of [MinimizeIntervals] give the
    result of the reference greedy algorithm, which merges the gap of least
    distance first and the earliest one among gaps of equal distance; the
    sets [0,0], [2,2], [10,20] minimized to two intervals are [0,2],
    [10,20]. *)
Theorem MinimizeIntervals_refines_greedy (s : IntervalSet) (k : Z) :
  wf_set s -> 1 <= k < 2 ^ 63 ->
  MinimizeIntervals s k = reference_MinimizeIntervals s k
  /\ MinimizeIntervals (FromRanges 8 [(0, 0); (2, 2); (10, 20)]) 2
     = FromRanges 8 [(0, 2); (10, 20)].
Proof.
  intros Hwf Hk. split; [now apply MinimizeIntervals_greedy|].
  vm_compute. reflexivity.
Qed.

Lemma MinimizeIntervals_refines_greedy_witness :
  let s := FromRanges 8 [(0, 0); (2, 2); (10, 20); (23, 23)] in
  wf_set s /\ 1 <= 2 < 2 ^ 63
  /\ MinimizeIntervals s 2 = reference_MinimizeIntervals s 2.
Proof.
  intros s.
  assert (Hwf : wf_set s) by wf_concrete.
  split; [exact Hwf|]. split; [lia|].
  apply (MinimizeIntervals_refines_greedy s 2 Hwf). lia.
Defined.

(** C3, as the code has it: [Add] on two single values of width [w] is the
    single value [x + y] when the sum fits in [w] bits; when it does not,
    both corners of the harness overflow and the result is the maximal set. *)
Theorem Add_on_singletons (w x y : Z) :
  0 <= w -> 0 <= x < 2 ^ w -> 0 <= y < 2 ^ w ->
  (x + y < 2 ^ w ->
   Add (IntervalSet.Precise (mkBits w x)) (IntervalSet.Precise (mkBits w y))
   = IntervalSet.Precise (mkBits w ((x + y) mod 2 ^ w)))
  /\ (2 ^ w <= x + y ->
      Add (IntervalSet.Precise (mkBits w x)) (IntervalSet.Precise (mkBits w y))
      = IntervalSet.Maximal w).
Proof.
  intros Hw Hx Hy. rewrite (Add_precise w x y Hw Hx Hy). split; intros H.
  - destruct (Z.ltb_spec (x + y) (2 ^ w)); [|lia]. now rewrite Z.mod_small by lia.
  - destruct (Z.ltb_spec (x + y) (2 ^ w)); [lia|reflexivity].
Qed.

Lemma Add_on_singletons_witness :
  0 <= 8 /\ 0 <= 5 < 2 ^ 8 /\ 0 <= 7 < 2 ^ 8
  /\ (5 + 7 < 2 ^ 8 ->
      Add (IntervalSet.Precise (mkBits 8 5)) (IntervalSet.Precise (mkBits 8 7))
      = IntervalSet.Precise (mkBits 8 ((5 + 7) mod 2 ^ 8))).
Proof.
  split; [lia|]. split; [lia|]. split; [lia|].
  apply (Add_on_singletons 8 5 7); lia.
Defined.

(** C3 as stated fails: 255 + 128 overflows 8 bits, and [Add] returns the
    maximal set instead of the single value 127. *)
Lemma Add_on_singletons_not_exact :
  Add (IntervalSet.Precise (UBits 255 8)) (IntervalSet.Precise (UBits 128 8))
  = IntervalSet.Maximal 8
  /\ Add (IntervalSet.Precise (UBits 255 8)) (IntervalSet.Precise (UBits 128 8))
     <> IntervalSet.Precise (UBits ((255 + 128) mod 2 ^ 8) 8).
Proof. split; [vm_compute; reflexivity|vm_compute; discriminate]. Qed.

(** C4, as the code has it: the bias addition of 0xFF overflows on both
    corners and yields the maximal 8-bit set, so that [SLt] on the single
    values 0xFF and 0x01 returns the maximal 1-bit set, which covers the
    value 1. *)
Theorem SLt_scenario :
  Add (IntervalSet.Precise (UBits 255 8)) (signed_offset (IntervalSet.Precise (UBits 255 8)))
  = IntervalSet.Maximal 8
  /\ SLt (IntervalSet.Precise (UBits 255 8)) (IntervalSet.Precise (UBits 1 8))
     = Some (IntervalSet.Maximal 1)
  /\ IntervalSet.Covers (IntervalSet.Maximal 1) (UBits 1 1) = true.
Proof. repeat split; vm_compute; reflexivity. Qed.

(** C4 as stated fails: the result is not the single value 1. *)
Lemma SLt_scenario_not_precise :
  SLt (IntervalSet.Precise (UBits 255 8)) (IntervalSet.Precise (UBits 1 8))
  <> Some (IntervalSet.Precise (UBits 1 1)).
Proof. vm_compute. discriminate. Qed.

(** C5: division by the set that holds only zero gives the single all-ones
    value; when the divisor covers zero, the result is the normalized union
    of that value with the ordinary transfer on the divisor intersected
    with the non-zero values, where that intersection is not empty.  The
    ordinary transfer is the variadic harness on the division of the
    corners, which is what [UDiv] does on a divisor that is free of zero. *)
Theorem UDiv_division_by_zero (a b : IntervalSet) :
  wf_set a -> wf_set b -> IntervalSet.IsNormalized b = true ->
  BitCount a = BitCount b ->
  (b = IntervalSet.Precise (Bits_zero (BitCount b)) ->
   UDiv a b = IntervalSet.Precise (AllOnes (BitCount a)))
  /\ (IntervalSet.CoversZero b = true ->
      let nonzero_divisor := IntervalSet.Intersect b (IntervalSet.NonZero (BitCount b)) in
      let transfer :=
        PerformBinOp (fun l r => no_overflow (bits_ops.UDiv l r))
          a Monotone nonzero_divisor Antitone (BitCount a) in
      (1 <= BitCount b -> UDiv a nonzero_divisor = transfer)
      /\ UDiv a b
         = IntervalSet.Combine
             (if IntervalSet.IsEmpty nonzero_divisor
              then IntervalSet.Empty (BitCount a) else transfer)
             (IntervalSet.Precise (AllOnes (BitCount a)))).
Proof.
  intros Ha Hb Hn Hab. split.
  - intros Eb. destruct (Z.eq_dec (BitCount b) 0) as [E0|Hne].
    + rewrite E0 in Eb. rewrite Eb.
      apply UDiv_by_zero_only_zero_width; [exact Ha|congruence].
    + rewrite Eb. apply UDiv_by_zero_only. destruct Hb as [Hw _]. lia.
  - intros Hz nz transfer. split.
    + intros Hw. destruct (UDiv_covering_zero a b Hb Hn Hw Hz) as [HzI _].
      fold nz in HzI. unfold UDiv. rewrite HzI. reflexivity.
    + apply (UDiv_covering_zero_union a b Hz).
Qed.

Lemma UDiv_division_by_zero_witness :
  let a := FromRanges 4 [(2, 13)] in
  let b := FromRanges 4 [(0, 0)] in
  wf_set a /\ wf_set b /\ IntervalSet.IsNormalized b = true
  /\ BitCount a = BitCount b
  /\ (b = IntervalSet.Precise (Bits_zero (BitCount b)) ->
      UDiv a b = IntervalSet.Precise (AllOnes (BitCount a))).
Proof.
  intros a b.
  assert (Hwa : wf_set a) by wf_concrete.
  assert (Hwb : wf_set b) by wf_concrete.
  split; [exact Hwa|]. split; [exact Hwb|]. split; [reflexivity|]. split; [reflexivity|].
  apply (UDiv_division_by_zero a b Hwa Hwb); reflexivity.
Defined.

(** C8: [Truncate] to [w] bits returns the maximal set when some interval
    spans at least [2^w] values (and so when [hi - lo >= 2^w]); when every
    interval has [hi - lo < 2^w], it returns the normalized union of the
    intervals [lo mod 2^w, hi mod 2^w], the improper ones among them split
    by the normalization. *)
Theorem Truncate_behaviour (s : IntervalSet) (w : Z) :
  wf_set s -> IntervalSet.IsNormalized s = true -> 0 <= w ->
  ((exists i, In i (Intervals s)
              /\ 2 ^ w <= value (UpperBound i) - value (LowerBound i) + 1) ->
   Truncate s w = IntervalSet.Maximal w)
  /\ ((forall i, In i (Intervals s) ->
         value (UpperBound i) - value (LowerBound i) < 2 ^ w) ->
      Truncate s w
      = IntervalSet.Normalize
          (mkIntervalSet w (map (truncated_interval w) (Intervals s)))).
Proof.
  intros Hwf Hn Hw. pose proof (separated_proper _ Hn) as Hp. split.
  - now apply Truncate_full.
  - intros Hall. rewrite Truncate_spec by auto.
    destruct (existsb _ (Intervals s)) eqn:E; [|reflexivity].
    apply existsb_exists in E. destruct E as (i & Hin & Hi).
    apply Z.leb_le in Hi. specialize (Hall i Hin). lia.
Qed.

Lemma Truncate_behaviour_witness :
  let s := FromRanges 4 [(3, 4); (9, 12)] in
  wf_set s /\ IntervalSet.IsNormalized s = true /\ 0 <= 2
  /\ ((exists i, In i (Intervals s)
                 /\ 2 ^ 2 <= value (UpperBound i) - value (LowerBound i) + 1) ->
      Truncate s 2 = IntervalSet.Maximal 2).
Proof.
  intros s.
  assert (Hwf : wf_set s) by wf_concrete.
  split; [exact Hwf|]. split; [reflexivity|]. split; [lia|].
  apply (Truncate_behaviour s 2 Hwf); [reflexivity|lia].
Defined.

(** C1: soundness of every transfer function.  For operands that are
    well-formed normalized interval sets, in the number and of the widths
    that the function asks for, and concrete values [x1, ..., xn] of these
    widths with [xi] covered by the [i]-th set, the transfer function
    returns an interval set, and that set covers the result of the concrete
    operation on [x1, ..., xn]. *)
Theorem transfer_functions_sound (default_bits : Z) (F : TransferFunction)
    (sets : list IntervalSet) (xs : list Bits) :
  0 <= default_bits ->
  applicable F sets ->
  Forall operand sets ->
  Forall2 (fun s x => has_width (BitCount s) x /\ IntervalSet.Covers s x = true) sets xs ->
  exists r,
    F_abstract default_bits F sets = Some r
    /\ IntervalSet.Covers r (F_concrete F xs) = true.
Proof.
  intros Hd Happ Hops Hxs.
  set (R := fun s x => has_width (BitCount s) x /\ IntervalSet.Covers s x = true) in Hxs.
  pose proof (operands_one operand R (IntervalSet.Empty 0) (Bits_zero 0) sets xs) as One.
  pose proof (operands_two operand R (IntervalSet.Empty 0) (Bits_zero 0) sets xs) as Two.
  subst R. cbv beta in One, Two.
  destruct F; cbn [applicable] in Happ; cbn [F_abstract F_concrete];
    set (a := nth 0 sets (IntervalSet.Empty 0)) in *;
    set (b := nth 1 sets (IntervalSet.Empty 0)) in *;
    set (x := nth 0 xs (Bits_zero 0)) in *;
    set (y := nth 1 xs (Bits_zero 0)) in *.
  - (* Add *)
    destruct Happ as [Hl Hab].
    destruct (Two Hl Hops Hxs) as ([Ha _] & [Hx Hcx] & [Hb _] & [Hy Hcy]).
    eexists. split; [reflexivity|]. now apply Add_sound.
  - (* Sub *)
    destruct Happ as [Hl Hab].
    destruct (Two Hl Hops Hxs) as ([Ha _] & [Hx Hcx] & [Hb _] & [Hy Hcy]).
    eexists. split; [reflexivity|]. now apply Sub_sound.
  - (* Neg *)
    destruct (One Happ Hops Hxs) as (_ & [Ha _] & [Hx Hcx]).
    eexists. split; [reflexivity|]. now apply Neg_sound.
  - (* UMul *)
    destruct Happ as [Hl Hw].
    destruct (Two Hl Hops Hxs) as ([Ha _] & [Hx Hcx] & [Hb _] & [Hy Hcy]).
    eexists. split; [reflexivity|]. now apply UMul_sound.
  - (* UDiv *)
    destruct Happ as [Hl Hab].
    destruct (Two Hl Hops Hxs) as ([Ha _] & [Hx Hcx] & [Hb Hnb] & [Hy Hcy]).
    eexists. split; [reflexivity|]. now apply UDiv_sound_any_width.
  - (* SignExtend *)
    destruct Happ as [Hl Hw].
    destruct (One Hl Hops Hxs) as (_ & [Ha _] & [Hx Hcx]).
    eexists. split; [reflexivity|]. now apply SignExtend_sound.
  - (* ZeroExtend *)
    destruct Happ as [Hl Hw].
    destruct (One Hl Hops Hxs) as (_ & [Ha _] & [Hx Hcx]).
    eexists. split; [reflexivity|]. now apply ZeroExtend_sound.
  - (* Truncate *)
    destruct Happ as [Hl Hw].
    destruct (One Hl Hops Hxs) as (_ & [Ha Hna] & [Hx Hcx]).
    eexists. split; [reflexivity|]. apply Truncate_sound; auto. lia.
  - (* Concat *)
    eexists. split; [reflexivity|]. apply Concat_sound; [|exact Hxs].
    apply (Forall_impl _ (fun s (H : operand s) => proj1 H) Hops).
  - (* Not *)
    destruct (One Happ Hops Hxs) as (_ & Ha & [Hx Hcx]).
    destruct (Not_sound a default_bits x Hd Ha Hx Hcx) as (r & Er & _ & Hr).
    exists r. split; assumption.
  - (* And *)
    destruct Happ as [Hl Hab].
    destruct (Two Hl Hops Hxs) as (Ha & [Hx Hcx] & Hb & [Hy Hcy]).
    destruct (And_sound a b default_bits x y Hd Ha Hb Hab Hx Hcx Hy Hcy) as (r & Er & _ & Hr).
    exists r. split; assumption.
  - (* Or *)
    destruct Happ as [Hl Hab].
    destruct (Two Hl Hops Hxs) as (Ha & [Hx Hcx] & Hb & [Hy Hcy]).
    destruct (Or_sound a b default_bits x y Hd Ha Hb Hab Hx Hcx Hy Hcy) as (r & Er & _ & Hr).
    exists r. split; assumption.
  - (* Xor *)
    destruct Happ as [Hl Hab].
    destruct (Two Hl Hops Hxs) as (Ha & [Hx Hcx] & Hb & [Hy Hcy]).
    destruct (Xor_sound a b default_bits x y Hd Ha Hb Hab Hx Hcx Hy Hcy) as (r & Er & _ & Hr).
    exists r. split; assumption.
  - (* AndReduce *)
    destruct (One Happ Hops Hxs) as (_ & [Ha _] & [Hx Hcx]).
    eexists. split; [reflexivity|]. now apply AndReduce_sound.
  - (* OrReduce *)
    destruct (One Happ Hops Hxs) as (_ & [Ha _] & [Hx Hcx]).
    eexists. split; [reflexivity|]. now apply OrReduce_sound.
  - (* XorReduce *)
    destruct (One Happ Hops Hxs) as (_ & [Ha _] & [Hx Hcx]).
    eexists. split; [reflexivity|]. now apply XorReduce_sound.
  - (* Eq *)
    destruct Happ as [Hl Hab].
    destruct (Two Hl Hops Hxs) as (Ha & [Hx Hcx] & Hb & [Hy Hcy]).
    eexists. split; [reflexivity|]. now apply Eq_sound.
  - (* Ne *)
    destruct Happ as [Hl Hab].
    destruct (Two Hl Hops Hxs) as (Ha & [Hx Hcx] & Hb & [Hy Hcy]).
    now apply Ne_sound.
  - (* ULt *)
    destruct Happ as [Hl Hab].
    destruct (Two Hl Hops Hxs) as (Ha & [Hx Hcx] & Hb & [Hy Hcy]).
    now apply ULt_sound.
  - (* UGt *)
    destruct Happ as [Hl Hab].
    destruct (Two Hl Hops Hxs) as (Ha & [Hx Hcx] & Hb & [Hy Hcy]).
    now apply UGt_sound.
  - (* SLt *)
    destruct Happ as (Hl & Hab & Hw).
    destruct (Two Hl Hops Hxs) as (Ha & [Hx Hcx] & Hb & [Hy Hcy]).
    now apply SLt_sound.
  - (* SGt *)
    destruct Happ as (Hl & Hab & Hw).
    destruct (Two Hl Hops Hxs) as (Ha & [Hx Hcx] & Hb & [Hy Hcy]).
    now apply SGt_sound.
  - (* Gate *)
    destruct (Two Happ Hops Hxs) as (Ha & [Hx Hcx] & Hb & [Hy Hcy]).
    eexists. split; [reflexivity|]. now apply Gate_sound.
  - (* OneHot *)
    destruct Happ as [Hl Hw].
    destruct (One Hl Hops Hxs) as (_ & Ha & [Hx Hcx]).
    destruct lsb_or_msb.
    + exact (OneHot_sound a kLsb max_interval_bits x Hw Ha Hx Hcx).
    + exact (OneHot_sound a kMsb max_interval_bits x Hw Ha Hx Hcx).
Qed.

Lemma transfer_functions_sound_witness :
  let sets := [FromRanges 8 [(1, 3); (200, 250)]; FromRanges 8 [(7, 9)]] in
  let xs := [UBits 249 8; UBits 8 8] in
  0 <= 4 /\ applicable TAdd sets /\ Forall operand sets
  /\ Forall2 (fun s x => has_width (BitCount s) x /\ IntervalSet.Covers s x = true) sets xs
  /\ exists r,
       F_abstract 4 TAdd sets = Some r
       /\ IntervalSet.Covers r (F_concrete TAdd xs) = true.
Proof.
  intros sets xs.
  assert (Happ : applicable TAdd sets) by (split; reflexivity).
  assert (Hops : Forall operand sets).
  { constructor; [split; [wf_concrete|reflexivity]|].
    constructor; [split; [wf_concrete|reflexivity]|constructor]. }
  assert (Hxs : Forall2 (fun s x => has_width (BitCount s) x /\ IntervalSet.Covers s x = true)
                  sets xs).
  { constructor; [split; [closed_arith|reflexivity]|].
    constructor; [split; [closed_arith|reflexivity]|constructor]. }
  split; [lia|]. split; [exact Happ|]. split; [exact Hops|]. split; [exact Hxs|].
  apply (transfer_functions_sound 4 TAdd sets xs); [lia|exact Happ|exact Hops|exact Hxs].
Defined.

(** * Further properties, read off the code *)

(** X1: [ExtractKnownBits] on a normalized, non-empty set returns a mask and
    values of the width of the set, and every value of the set, masked,
    gives the known values. *)
Theorem ExtractKnownBits_masks_values (s : IntervalSet) (v : Bits) :
  wf_set s -> IntervalSet.IsNormalized s = true -> IntervalSet.Covers s v = true ->
  exists kb,
    ExtractKnownBits s = Some kb
    /\ has_width (BitCount s) (known_bits kb)
    /\ has_width (BitCount s) (known_bit_values kb)
    /\ Z.land (value v) (value (known_bits kb)) = value (known_bit_values kb).
Proof.
  intros Hwf Hn Hc. pose proof Hwf as [Hw _].
  destruct (ExtractTernaryVector_consistent s v Hwf Hn Hc) as (t & Et & Hl & Ht).
  unfold ExtractKnownBits. rewrite Et. cbn [bind]. eexists. split; [reflexivity|].
  cbn [known_bits known_bit_values ternary_ops.ToKnownBits ternary_ops.ToKnownBitsValues].
  assert (El : Z.of_nat (length t) = BitCount s) by (rewrite Hl; lia).
  split; [|split].
  - split; [exact El|]. cbn [value]. rewrite <- El. apply known_mask_bounds.
  - split; [exact El|]. cbn [value]. rewrite <- El. apply known_values_bounds.
  - cbn [value]. now apply consistent_known_bits.
Qed.

Lemma ExtractKnownBits_masks_values_witness :
  let s := FromRanges 4 [(4, 5); (12, 13)] in
  let v := UBits 13 4 in
  wf_set s /\ IntervalSet.IsNormalized s = true /\ IntervalSet.Covers s v = true
  /\ exists kb,
       ExtractKnownBits s = Some kb
       /\ has_width (BitCount s) (known_bits kb)
       /\ has_width (BitCount s) (known_bit_values kb)
       /\ Z.land (value v) (value (known_bits kb)) = value (known_bit_values kb).
Proof.
  intros s v.
  assert (Hwf : wf_set s) by wf_concrete.
  split; [exact Hwf|]. split; [reflexivity|]. split; [reflexivity|].
  apply (ExtractKnownBits_masks_values s v Hwf); reflexivity.
Defined.

(** X2: [ExtractTernaryVector] fails exactly on the sets that are not
    normalized or hold no interval; where it returns a vector, the vector
    has one entry per bit of the set. *)
Theorem ExtractTernaryVector_domain (s : IntervalSet) :
  wf_set s ->
  (ExtractTernaryVector s = None
   <-> IntervalSet.IsNormalized s = false \/ Intervals s = [])
  /\ (forall t, ExtractTernaryVector s = Some t -> length t = Z.to_nat (BitCount s)).
Proof.
  intros Hwf. split; [apply ExtractTernaryVector_none|].
  intros t Et.
  destruct (IntervalSet.IsNormalized s) eqn:Hn.
  - destruct (Intervals s) as [|front rest] eqn:E.
    + assert (H : ExtractTernaryVector s = None)
        by (apply ExtractTernaryVector_none; now right).
      congruence.
    + destruct (ExtractTernaryVector_defined s Hwf Hn) as (t' & Et' & Hl); [congruence|].
      congruence.
  - assert (H : ExtractTernaryVector s = None)
      by (apply ExtractTernaryVector_none; now left).
    congruence.
Qed.

Lemma ExtractTernaryVector_domain_witness :
  let s := FromRanges 4 [(4, 5); (12, 13)] in
  wf_set s
  /\ forall t, ExtractTernaryVector s = Some t -> length t = Z.to_nat (BitCount s).
Proof.
  intros s.
  assert (Hwf : wf_set s) by wf_concrete.
  split; [exact Hwf|]. apply (ExtractTernaryVector_domain s Hwf).
Defined.

(** X3: the ternary vector of a single value is fully known, and
    [FromTernary] gives the single value back from it, whatever the
    budget. *)
Theorem Precise_through_ternary (v : Bits) (budget : Z) :
  0 <= bit_count v -> 0 <= value v < 2 ^ bit_count v -> 0 <= budget ->
  exists t,
    ExtractTernaryVector (IntervalSet.Precise v) = Some t
    /\ ternary_ops.IsFullyKnown t = true
    /\ FromTernary t budget = Some (IntervalSet.Precise v).
Proof.
  intros Hw Hv Hb. apply (Precise_round_trip v (bit_count v)); auto. now split.
Qed.

Lemma Precise_through_ternary_witness :
  0 <= bit_count (UBits 11 4) /\ 0 <= value (UBits 11 4) < 2 ^ bit_count (UBits 11 4)
  /\ 0 <= 0
  /\ exists t,
       ExtractTernaryVector (IntervalSet.Precise (UBits 11 4)) = Some t
       /\ ternary_ops.IsFullyKnown t = true
       /\ FromTernary t 0 = Some (IntervalSet.Precise (UBits 11 4)).
Proof.
  assert (H1 : 0 <= bit_count (UBits 11 4)) by closed_arith.
  assert (H2 : 0 <= value (UBits 11 4) < 2 ^ bit_count (UBits 11 4)) by closed_arith.
  split; [exact H1|]. split; [exact H2|]. split; [lia|].
  apply (Precise_through_ternary (UBits 11 4) 0 H1 H2). lia.
Defined.

(** X4: [FromTernary] turns a fully known vector into the single value it
    spells, and [ExtractTernaryVector] gives the vector back from that
    set. *)
Theorem fully_known_through_intervals (t : TernaryVector) (budget : Z) :
  ternary_ops.IsFullyKnown t = true -> 0 <= budget ->
  exists s,
    FromTernary t budget = Some s
    /\ s = IntervalSet.Precise (ternary_ops.ToKnownBitsValues t)
    /\ ExtractTernaryVector s = Some t.
Proof.
  intros Hk Hb. destruct (fully_known_round_trip t budget Hk Hb) as [H1 H2].
  eexists. split; [exact H1|]. split; [reflexivity|exact H2].
Qed.

Lemma fully_known_through_intervals_witness :
  let t := [kKnownOne; kKnownZero; kKnownZero; kKnownOne; kKnownOne] in
  ternary_ops.IsFullyKnown t = true /\ 0 <= 2
  /\ exists s,
       FromTernary t 2 = Some s
       /\ s = IntervalSet.Precise (ternary_ops.ToKnownBitsValues t)
       /\ ExtractTernaryVector s = Some t.
Proof.
  intros t. split; [reflexivity|]. split; [lia|].
  apply (fully_known_through_intervals t 2); [reflexivity|lia].
Defined.

(** X5: [FromTernary] fails on a negative budget and on nothing else; what
    it returns has the width of the vector, is normalized and not empty, so
    that [ExtractTernaryVector] accepts it. *)
Theorem FromTernary_domain (t : TernaryVector) (budget : Z) :
  (FromTernary t budget = None <-> budget < 0)
  /\ (forall s, FromTernary t budget = Some s ->
        BitCount s = Z.of_nat (length t)
        /\ IntervalSet.IsNormalized s = true
        /\ Intervals s <> []
        /\ exists t', ExtractTernaryVector s = Some t' /\ length t' = length t).
Proof.
  assert (Hsome : 0 <= budget ->
            exists s, FromTernary t budget = Some s
                      /\ BitCount s = Z.of_nat (length t) /\ wf_set s
                      /\ IntervalSet.IsNormalized s = true /\ Intervals s <> [])
    by apply FromTernary_defined.
  split.
  - split.
    + intros HN. destruct (Z.lt_ge_cases budget 0) as [H|H]; [exact H|].
      destruct (Hsome H) as (s & Es & _). congruence.
    + apply FromTernary_negative.
  - intros s Es.
    assert (Hb : 0 <= budget).
    { destruct (Z.lt_ge_cases budget 0) as [H|H]; [|exact H].
      rewrite FromTernary_negative in Es by exact H. discriminate. }
    destruct (Hsome Hb) as (s' & Es' & H1 & H2 & H3 & H4).
    assert (s' = s) by congruence. subst s'.
    split; [exact H1|]. split; [exact H3|]. split; [exact H4|].
    destruct (ExtractTernaryVector_defined s H2 H3 H4) as (t' & Et' & Hl).
    exists t'. split; [exact Et'|]. rewrite Hl, H1. apply Nat2Z.id.
Qed.

(** X6: going from a ternary vector to an interval set and back loses
    knowledge only: every bit that [ExtractTernaryVector] knows of the set
    that [FromTernary] returned was known, with that value, in the vector. *)
Theorem ExtractTernaryVector_of_FromTernary (t t' : TernaryVector) (budget : Z)
    (s : IntervalSet) :
  FromTernary t budget = Some s -> ExtractTernaryVector s = Some t' ->
  length t' = length t
  /\ forall i, (i < length t)%nat ->
       ternary_ops.IsKnown (nth i t' kUnknown) = true ->
       nth i t kUnknown = nth i t' kUnknown.
Proof. apply Extract_FromTernary_known. Qed.

Lemma ExtractTernaryVector_of_FromTernary_witness :
  let t := [kUnknown; kKnownOne; kUnknown; kKnownZero; kUnknown; kKnownOne] in
  let s := FromRanges 6 [(32, 39); (48, 55)] in
  let t' := [kUnknown; kUnknown; kUnknown; kKnownZero; kUnknown; kKnownOne] in
  FromTernary t 1 = Some s /\ ExtractTernaryVector s = Some t'
  /\ length t' = length t
  /\ forall i, (i < length t)%nat ->
       ternary_ops.IsKnown (nth i t' kUnknown) = true ->
       nth i t kUnknown = nth i t' kUnknown.
Proof.
  intros t s t'.
  assert (H1 : FromTernary t 1 = Some s) by reflexivity.
  assert (H2 : ExtractTernaryVector s = Some t') by reflexivity.
  split; [exact H1|]. split; [exact H2|].
  apply (ExtractTernaryVector_of_FromTernary t t' 1 s H1 H2).
Defined.

(** X7: going from an interval set to its ternary vector and back loses no
    value: the set that [FromTernary] returns for the vector of
    [ExtractTernaryVector] covers every value of the set. *)
Theorem FromTernary_of_ExtractTernaryVector (s : IntervalSet) (budget : Z) (v : Bits) :
  wf_set s -> IntervalSet.IsNormalized s = true -> 0 <= budget ->
  has_width (BitCount s) v -> IntervalSet.Covers s v = true ->
  exists t r,
    ExtractTernaryVector s = Some t
    /\ FromTernary t budget = Some r
    /\ BitCount r = BitCount s
    /\ IntervalSet.Covers r v = true.
Proof.
  intros Hwf Hn Hb [_ Hv] Hc. pose proof Hwf as [Hw _].
  destruct (ExtractTernaryVector_consistent s v Hwf Hn Hc) as (t & Et & Hl & Ht).
  assert (El : Z.of_nat (length t) = BitCount s) by (rewrite Hl; lia).
  destruct (FromTernary_sound t budget v Hb) as (r & Er & H1 & _ & _ & H4);
    [now rewrite El|exact Ht|].
  exists t, r. split; [exact Et|]. split; [exact Er|]. split; [congruence|exact H4].
Qed.

Lemma FromTernary_of_ExtractTernaryVector_witness :
  let s := FromRanges 4 [(4, 5); (12, 13)] in
  let v := UBits 12 4 in
  wf_set s /\ IntervalSet.IsNormalized s = true /\ 0 <= 1
  /\ has_width (BitCount s) v /\ IntervalSet.Covers s v = true
  /\ exists t r,
       ExtractTernaryVector s = Some t
       /\ FromTernary t 1 = Some r
       /\ BitCount r = BitCount s
       /\ IntervalSet.Covers r v = true.
Proof.
  intros s v.
  assert (Hwf : wf_set s) by wf_concrete.
  assert (Hv : has_width (BitCount s) v) by closed_arith.
  split; [exact Hwf|]. split; [reflexivity|]. split; [lia|]. split; [exact Hv|].
  split; [reflexivity|].
  apply (FromTernary_of_ExtractTernaryVector s 1 v Hwf); [reflexivity|lia|exact Hv|reflexivity].
Defined.

(** X8: with a budget of at least the number of unknown bits, [FromTernary]
    is exact: the set it returns covers a value of the width of the vector
    if and only if the value agrees with every known bit. *)
Theorem FromTernary_exact_fillings (t : TernaryVector) (budget : Z) (s : IntervalSet)
    (v : Bits) :
  Z.of_nat (count_unknown t) <= budget ->
  has_width (Z.of_nat (length t)) v ->
  FromTernary t budget = Some s ->
  (IntervalSet.Covers s v = true <-> consistent t v = true).
Proof.
  intros Hc [_ Hv] Es. now rewrite (FromTernary_exact t budget s v Hc Hv Es).
Qed.

Lemma FromTernary_exact_fillings_witness :
  let t := [kUnknown; kKnownOne; kUnknown; kKnownZero] in
  let s := FromRanges 4 [(2, 3); (6, 7)] in
  let v := UBits 7 4 in
  Z.of_nat (count_unknown t) <= 2 /\ has_width (Z.of_nat (length t)) v
  /\ FromTernary t 2 = Some s
  /\ (IntervalSet.Covers s v = true <-> consistent t v = true).
Proof.
  intros t s v.
  assert (Hc : Z.of_nat (count_unknown t) <= 2) by (vm_compute; congruence).
  assert (Hv : has_width (Z.of_nat (length t)) v) by closed_arith.
  assert (Es : FromTernary t 2 = Some s) by reflexivity.
  split; [exact Hc|]. split; [exact Hv|]. split; [exact Es|].
  apply (FromTernary_exact_fillings t 2 s v Hc Hv Es).
Defined.

(** X9: the two conversions between one-bit sets and ternary values are
    inverse to each other: a ternary value comes back from its set, and a
    normalized, non-empty one-bit set comes back from its ternary value;
    [OneBitRangeToTernary] fails on every other width. *)
Theorem one_bit_round_trip (t : TernaryValue) (s : IntervalSet) :
  OneBitRangeToTernary (TernaryToOneBitRange t) = Some t
  /\ (BitCount s <> 1 -> OneBitRangeToTernary s = None)
  /\ (wf_set s -> BitCount s = 1 -> IntervalSet.IsNormalized s = true ->
      Intervals s <> [] ->
      exists t', OneBitRangeToTernary s = Some t' /\ TernaryToOneBitRange t' = s).
Proof.
  split; [apply OneBitRangeToTernary_of_ternary|]. split.
  - intros Hne. unfold OneBitRangeToTernary.
    destruct (Z.eqb_spec (BitCount s) 1); [contradiction|reflexivity].
  - apply one_bit_set_of_ternary.
Qed.

Lemma one_bit_round_trip_witness :
  let s := FromRanges 1 [(0, 1)] in
  wf_set s /\ BitCount s = 1 /\ IntervalSet.IsNormalized s = true /\ Intervals s <> []
  /\ exists t', OneBitRangeToTernary s = Some t' /\ TernaryToOneBitRange t' = s.
Proof.
  intros s.
  assert (Hwf : wf_set s) by wf_concrete.
  assert (Hne : Intervals s <> []) by (vm_compute; congruence).
  split; [exact Hwf|]. split; [reflexivity|]. split; [reflexivity|]. split; [exact Hne|].
  apply (one_bit_round_trip kUnknown s); [exact Hwf|reflexivity|reflexivity|exact Hne].
Defined.

(** X10: [MinimizeIntervals] returns a normalized set of the width of its
    argument, whose convex hull is the convex hull of the normalized
    argument: merging never moves the least or the greatest value. *)
Theorem MinimizeIntervals_keeps_hull (s : IntervalSet) (k : Z) :
  wf_set s -> 1 <= k < 2 ^ 63 ->
  BitCount (MinimizeIntervals s k) = BitCount s
  /\ IntervalSet.IsNormalized (MinimizeIntervals s k) = true
  /\ IntervalSet.ConvexHull (MinimizeIntervals s k)
     = IntervalSet.ConvexHull (IntervalSet.Normalize s).
Proof.
  intros Hwf Hk.
  destruct (MinimizeIntervals_props s k Hwf Hk) as (_ & H2 & H3 & _ & _ & H6).
  split; [exact H2|]. split; [exact H3|exact H6].
Qed.

Lemma MinimizeIntervals_keeps_hull_witness :
  let s := FromRanges 8 [(40, 41); (0, 0); (2, 2); (10, 20)] in
  wf_set s /\ 1 <= 2 < 2 ^ 63
  /\ IntervalSet.ConvexHull (MinimizeIntervals s 2)
     = IntervalSet.ConvexHull (IntervalSet.Normalize s).
Proof.
  intros s.
  assert (Hwf : wf_set s) by wf_concrete.
  split; [exact Hwf|]. split; [lia|].
  apply (MinimizeIntervals_keeps_hull s 2 Hwf). lia.
Defined.

(** X11: [MinimizeIntervals] merges no more than it has to: the set it
    returns holds [k] intervals when the normalized argument holds more
    than [k], and as many as the normalized argument otherwise. *)
Theorem MinimizeIntervals_exact_count (s : IntervalSet) (k : Z) :
  wf_set s -> 1 <= k < 2 ^ 63 ->
  IntervalSet.NumberOfIntervals (MinimizeIntervals s k)
  = Z.min k (IntervalSet.NumberOfIntervals (IntervalSet.Normalize s)).
Proof. apply MinimizeIntervals_count. Qed.

Lemma MinimizeIntervals_exact_count_witness :
  let s := FromRanges 8 [(0, 0); (2, 2); (10, 20); (30, 31); (90, 91)] in
  wf_set s /\ 1 <= 3 < 2 ^ 63
  /\ IntervalSet.NumberOfIntervals (MinimizeIntervals s 3)
     = Z.min 3 (IntervalSet.NumberOfIntervals (IntervalSet.Normalize s)).
Proof.
  intros s.
  assert (Hwf : wf_set s) by wf_concrete.
  split; [exact Hwf|]. split; [lia|].
  apply (MinimizeIntervals_exact_count s 3 Hwf). lia.
Defined.

(** X12: whatever the calculation and the operands, the harness returns a
    normalized set of the result width with at most 16 intervals. *)
Theorem PerformVariadicOp_result_shape (calc : list Bits -> OverflowResult)
    (tonicities : list Tonicity) (inputs : list IntervalSet) (w : Z) :
  0 <= w ->
  length tonicities = length inputs ->
  Forall wf_set inputs ->
  (forall bs, Forall2 (fun s b => has_width (BitCount s) b) inputs bs ->
     has_width w (result (calc bs))) ->
  BitCount (PerformVariadicOp calc tonicities inputs w) = w
  /\ IntervalSet.IsNormalized (PerformVariadicOp calc tonicities inputs w) = true
  /\ IntervalSet.NumberOfIntervals (PerformVariadicOp calc tonicities inputs w) <= 16.
Proof. apply PerformVariadicOp_shape. Qed.

Lemma PerformVariadicOp_result_shape_witness :
  let calc := fun bs : list Bits => no_overflow (bits_ops.Concat bs) in
  let inputs := [FromRanges 2 [(0, 1); (3, 3)]; FromRanges 3 [(1, 2); (5, 6)]] in
  0 <= 5 /\ length [Monotone; Monotone] = length inputs /\ Forall wf_set inputs
  /\ (forall bs, Forall2 (fun s b => has_width (BitCount s) b) inputs bs ->
        has_width 5 (result (calc bs)))
  /\ IntervalSet.NumberOfIntervals (PerformVariadicOp calc [Monotone; Monotone] inputs 5)
     <= 16.
Proof.
  intros calc inputs.
  assert (Hwf : Forall wf_set inputs).
  { constructor; [wf_concrete|]. constructor; [wf_concrete|constructor]. }
  assert (Hcalc : forall bs, Forall2 (fun s b => has_width (BitCount s) b) inputs bs ->
                    has_width 5 (result (calc bs))).
  { intros bs H.
    exact (proj1 (concat_fold_width inputs bs (Bits_zero 0) 0 Hwf H (Z.le_refl 0)
                    (conj eq_refl (conj (Z.le_refl 0) eq_refl)))). }
  split; [lia|]. split; [reflexivity|]. split; [exact Hwf|]. split; [exact Hcalc|].
  apply (PerformVariadicOp_result_shape calc [Monotone; Monotone] inputs 5);
    [lia|reflexivity|exact Hwf|exact Hcalc].
Defined.

(** X13: the calculation of [Add], which adds the operands padded by one
    bit, returns the sum modulo [2^w] and reports an overflow exactly when
    the sum does not fit in [w] bits; it never reports a second overflow. *)
Theorem Add_calculation_carry (w : Z) (l r : Bits) :
  0 <= w -> has_width w l -> has_width w r ->
  result (Add_calc l r) = mkBits w ((value l + value r) mod 2 ^ w)
  /\ first_overflow_bit (Add_calc l r) = (2 ^ w <=? value l + value r)
  /\ second_overflow_bit (Add_calc l r) = false.
Proof. apply Add_calc_bits. Qed.

Lemma Add_calculation_carry_witness :
  0 <= 8 /\ has_width 8 (UBits 200 8) /\ has_width 8 (UBits 100 8)
  /\ result (Add_calc (UBits 200 8) (UBits 100 8))
     = mkBits 8 ((value (UBits 200 8) + value (UBits 100 8)) mod 2 ^ 8)
  /\ first_overflow_bit (Add_calc (UBits 200 8) (UBits 100 8))
     = (2 ^ 8 <=? value (UBits 200 8) + value (UBits 100 8))
  /\ second_overflow_bit (Add_calc (UBits 200 8) (UBits 100 8)) = false.
Proof.
  assert (H1 : has_width 8 (UBits 200 8)) by closed_arith.
  assert (H2 : has_width 8 (UBits 100 8)) by closed_arith.
  split; [lia|]. split; [exact H1|]. split; [exact H2|].
  apply (Add_calculation_carry 8 (UBits 200 8) (UBits 100 8)); [lia|exact H1|exact H2].
Defined.

(** X14: the calculation of [UMul] returns the low [output_bitwidth] bits of
    the exact product; its first overflow bit is set exactly when the
    product needs more than [output_bitwidth] bits, the second one exactly
    when it needs more than [output_bitwidth + 1] bits. *)
Theorem UMul_calculation_overflow (wa wb output_bitwidth : Z) (l r : Bits) :
  0 <= output_bitwidth -> has_width wa l -> has_width wb r ->
  result (UMul_calc output_bitwidth l r)
  = mkBits output_bitwidth ((value l * value r) mod 2 ^ output_bitwidth)
  /\ first_overflow_bit (UMul_calc output_bitwidth l r)
     = (2 ^ output_bitwidth <=? value l * value r)
  /\ second_overflow_bit (UMul_calc output_bitwidth l r)
     = (2 ^ (output_bitwidth + 1) <=? value l * value r).
Proof. apply UMul_calc_bits. Qed.

Lemma UMul_calculation_overflow_witness :
  0 <= 6 /\ has_width 4 (UBits 13 4) /\ has_width 4 (UBits 11 4)
  /\ result (UMul_calc 6 (UBits 13 4) (UBits 11 4))
     = mkBits 6 ((value (UBits 13 4) * value (UBits 11 4)) mod 2 ^ 6)
  /\ first_overflow_bit (UMul_calc 6 (UBits 13 4) (UBits 11 4))
     = (2 ^ 6 <=? value (UBits 13 4) * value (UBits 11 4))
  /\ second_overflow_bit (UMul_calc 6 (UBits 13 4) (UBits 11 4))
     = (2 ^ (6 + 1) <=? value (UBits 13 4) * value (UBits 11 4)).
Proof.
  assert (H1 : has_width 4 (UBits 13 4)) by closed_arith.
  assert (H2 : has_width 4 (UBits 11 4)) by closed_arith.
  split; [lia|]. split; [exact H1|]. split; [exact H2|].
  apply (UMul_calculation_overflow 4 4 6 (UBits 13 4) (UBits 11 4)); [lia|exact H1|exact H2].
Defined.

(** X15: truncating a normalized set to its own width returns the set. *)
Theorem Truncate_to_own_width (a : IntervalSet) :
  wf_set a -> IntervalSet.IsNormalized a = true -> Truncate a (BitCount a) = a.
Proof. apply Truncate_own_width. Qed.

Lemma Truncate_to_own_width_witness :
  let a := FromRanges 4 [(1, 2); (7, 9); (15, 15)] in
  wf_set a /\ IntervalSet.IsNormalized a = true /\ Truncate a (BitCount a) = a.
Proof.
  intros a.
  assert (Hwf : wf_set a) by wf_concrete.
  split; [exact Hwf|]. split; [reflexivity|].
  apply (Truncate_to_own_width a Hwf). reflexivity.
Defined.

(** X16: [ULt] and [UGt] look at the convex hulls only.  On normalized,
    non-empty sets [ULt] is known true when the hull of the left operand
    ends before the hull of the right one begins, known false when the
    hull of the right operand ends before the hull of the left one begins,
    and unknown in every other case, also when both operands are the same
    single value; [UGt] is [ULt] with the operands exchanged. *)
Theorem ULt_UGt_by_hulls (a b : IntervalSet) (ha hb : Interval) :
  IntervalSet.IsNormalized a = true -> IntervalSet.IsNormalized b = true ->
  IntervalSet.ConvexHull a = Some ha -> IntervalSet.ConvexHull b = Some hb ->
  ULt a b
  = Some (TernaryToOneBitRange
            (if value (UpperBound ha) <? value (LowerBound hb) then kKnownOne
             else if value (UpperBound hb) <? value (LowerBound ha) then kKnownZero
             else kUnknown))
  /\ UGt a b = ULt b a.
Proof.
  intros Hna Hnb Eha Ehb.
  destruct (ULt_UGt_decided a b ha hb Hna Hnb Eha Ehb) as [H1 H2].
  destruct (ULt_UGt_decided b a hb ha Hnb Hna Ehb Eha) as [H3 _].
  split; [exact H1|]. now rewrite H2, H3.
Qed.

Lemma ULt_UGt_by_hulls_witness :
  let a := FromRanges 8 [(7, 7)] in
  IntervalSet.IsNormalized a = true
  /\ IntervalSet.ConvexHull a = Some (mkInterval (UBits 7 8) (UBits 7 8))
  /\ ULt a a = Some (TernaryToOneBitRange kUnknown)
  /\ UGt a a = ULt a a.
Proof.
  intros a.
  assert (Hn : IntervalSet.IsNormalized a = true) by reflexivity.
  assert (Eh : IntervalSet.ConvexHull a = Some (mkInterval (UBits 7 8) (UBits 7 8)))
    by reflexivity.
  split; [exact Hn|]. split; [exact Eh|].
  exact (ULt_UGt_by_hulls a a _ _ Hn Hn Eh Eh).
Defined.

(** X17: [Ne] never fails, whatever the operands and the budget, and what
    it returns is the ternary negation of what [Eq] returns: known true
    where [Eq] is known false, known false where [Eq] is known true, and
    unknown where [Eq] is. *)
Theorem Ne_is_not_Eq (a b : IntervalSet) (max_interval_bits : Z) :
  exists t,
    Eq a b = TernaryToOneBitRange t
    /\ Ne a b max_interval_bits = Some (TernaryToOneBitRange (TernaryEvaluator.Not t)).
Proof. apply Ne_negates_Eq. Qed.

(** X18: [Gate] lets nothing through but the values of its second operand
    and zero. *)
Theorem Gate_covers_only (cond val : IntervalSet) (x : Bits) :
  wf_set val -> has_width (BitCount val) x ->
  IntervalSet.Covers (Gate cond val) x = true ->
  IntervalSet.Covers val x = true \/ value x = 0.
Proof. intros Hwf [_ Hx]. now apply Gate_within. Qed.

Lemma Gate_covers_only_witness :
  let cond := FromRanges 1 [(0, 1)] in
  let val := FromRanges 4 [(3, 5)] in
  let x := UBits 0 4 in
  wf_set val /\ has_width (BitCount val) x
  /\ IntervalSet.Covers (Gate cond val) x = true
  /\ (IntervalSet.Covers val x = true \/ value x = 0).
Proof.
  intros cond val x.
  assert (Hwf : wf_set val) by wf_concrete.
  assert (Hx : has_width (BitCount val) x) by closed_arith.
  assert (Hc : IntervalSet.Covers (Gate cond val) x = true) by reflexivity.
  split; [exact Hwf|]. split; [exact Hx|]. split; [exact Hc|].
  apply (Gate_covers_only cond val x Hwf Hx Hc).
Defined.

(** X19: [UDiv] is exact on single values, division by zero included: the
    quotient of two single values is the single value of the concrete
    division, which is all ones when the divisor is zero. *)
Theorem UDiv_on_singletons (w : Z) (x y : Bits) :
  0 <= w -> has_width w x -> has_width w y ->
  UDiv (IntervalSet.Precise x) (IntervalSet.Precise y)
  = IntervalSet.Precise (bits_ops.UDiv x y).
Proof.
  intros Hw Hx Hy. destruct (Z.eq_dec (value y) 0) as [Ey|Hne].
  - assert (E : y = Bits_zero w).
    { destruct y as [bc v]. destruct Hy as [Hb _]. cbn in Hb, Ey. now subst. }
    subst y. unfold bits_ops.UDiv. cbn [value Bits_zero Z.eqb].
    destruct (Z.eq_dec w 0) as [->|Hw0].
    + apply UDiv_by_zero_only_zero_width.
      * apply (Precise_props x 0 Hx). lia.
      * apply Hx.
    + apply (UDiv_by_zero_only (IntervalSet.Precise x) w). lia.
  - unfold UDiv.
    assert (Ez : IntervalSet.CoversZero (IntervalSet.Precise y) = false).
    { unfold IntervalSet.CoversZero. rewrite Precise_covers. cbn [value Bits_zero].
      apply Z.eqb_neq. lia. }
    rewrite Ez. cbn [negb].
    rewrite PerformBinOp_single.
    + reflexivity.
    + cbn [BitCount IntervalSet.Precise]. destruct Hx as [Hb _]. lia.
    + cbn [result no_overflow]. unfold bits_ops.UDiv.
      destruct (value y =? 0); reflexivity.
Qed.

Lemma UDiv_on_singletons_witness :
  0 <= 8 /\ has_width 8 (UBits 200 8) /\ has_width 8 (UBits 0 8)
  /\ UDiv (IntervalSet.Precise (UBits 200 8)) (IntervalSet.Precise (UBits 0 8))
     = IntervalSet.Precise (bits_ops.UDiv (UBits 200 8) (UBits 0 8)).
Proof.
  assert (H1 : has_width 8 (UBits 200 8)) by closed_arith.
  assert (H2 : has_width 8 (UBits 0 8)) by closed_arith.
  split; [lia|]. split; [exact H1|]. split; [exact H2|].
  apply (UDiv_on_singletons 8 (UBits 200 8) (UBits 0 8)); [lia|exact H1|exact H2].
Defined.

(** X20: the unary transfer functions are exact on a single value: [Neg],
    [SignExtend], [ZeroExtend] and [Truncate] of a single value are the
    single value of the concrete operation. *)
Theorem unary_on_singletons (x : Bits) (width : Z) :
  0 <= bit_count x -> 0 <= width ->
  Neg (IntervalSet.Precise x) = IntervalSet.Precise (bits_ops.Negate x)
  /\ SignExtend (IntervalSet.Precise x) width
     = IntervalSet.Precise (bits_ops.SignExtend x width)
  /\ ZeroExtend (IntervalSet.Precise x) width
     = IntervalSet.Precise (bits_ops.ZeroExtend x width)
  /\ Truncate (IntervalSet.Precise x) width
     = IntervalSet.Precise (bits_ops.Truncate x width).
Proof.
  intros Hx Hw. split; [|split; [|split]].
  - unfold Neg. rewrite PerformUnaryOp_single; [reflexivity|exact Hx|reflexivity].
  - unfold SignExtend. rewrite PerformUnaryOp_single; [reflexivity|exact Hw|].
    cbn [result no_overflow]. unfold bits_ops.SignExtend.
    destruct (GetFromMsb x 0); reflexivity.
  - unfold ZeroExtend. rewrite PerformUnaryOp_single; [reflexivity|exact Hw|reflexivity].
  - pose proof (pow2_pos width Hw) as HM.
    unfold Truncate. cbn [IntervalSet.Precise Intervals Truncate_loop].
    unfold bits_ops.UGreaterThan, bits_ops.Sub, Interval.Precise.
    cbn [LowerBound UpperBound value AllOnes].
    rewrite Z.sub_diag, Z.mod_0_l by (apply Z.pow_nonzero; lia).
    destruct (Z.ltb_spec (2 ^ width - 1) 0) as [Hlt|_]; [lia|].
    unfold IntervalSet.Normalize, IntervalSet.AddInterval, IntervalSet.Empty.
    cbn [BitCount Intervals app].
    rewrite normalize_list_id by (cbn; rewrite !andb_true_r; apply Z.leb_le; lia).
    unfold Slice, bits_ops.Truncate. change (2 ^ 0) with 1. rewrite Z.div_1_r.
    reflexivity.
Qed.

Lemma unary_on_singletons_witness :
  0 <= bit_count (UBits 200 8) /\ 0 <= 12
  /\ SignExtend (IntervalSet.Precise (UBits 200 8)) 12
     = IntervalSet.Precise (bits_ops.SignExtend (UBits 200 8) 12).
Proof.
  assert (H1 : 0 <= bit_count (UBits 200 8)) by closed_arith.
  split; [exact H1|]. split; [lia|].
  apply (unary_on_singletons (UBits 200 8) 12 H1). lia.
Defined.

(** X21: [Concat] is exact on single values: the concatenation of single
    values is the single value of the concrete concatenation. *)
Theorem Concat_on_singletons (xs : list Bits) :
  Forall (fun x => 0 <= bit_count x) xs ->
  Concat (map IntervalSet.Precise xs) = IntervalSet.Precise (bits_ops.Concat xs).
Proof.
  intros Hxs. unfold Concat.
  rewrite PerformVariadicOp_precise by (now rewrite repeat_length, length_map).
  rewrite single_corner_result.
  - reflexivity.
  - apply width_sum_nonneg; [exact Hxs|lia].
  - cbn [result no_overflow]. unfold bits_ops.Concat. apply concat_fold_bit_count.
Qed.

Lemma Concat_on_singletons_witness :
  let xs := [UBits 5 3; UBits 0 0; UBits 9 4] in
  Forall (fun x => 0 <= bit_count x) xs
  /\ Concat (map IntervalSet.Precise xs) = IntervalSet.Precise (bits_ops.Concat xs).
Proof.
  intros xs.
  assert (H : Forall (fun x => 0 <= bit_count x) xs).
  { repeat (apply Forall_cons || apply Forall_nil); closed_arith. }
  split; [exact H|]. apply (Concat_on_singletons xs H).
Defined.

(** X22: [Sub] on two single values is the single value of the difference
    when the subtraction does not wrap around, and the maximal set when
    it does. *)
Theorem Sub_on_singletons (w : Z) (x y : Bits) :
  0 <= w -> has_width w x -> has_width w y ->
  Sub (IntervalSet.Precise x) (IntervalSet.Precise y)
  = if value x <? value y then IntervalSet.Maximal w
    else IntervalSet.Precise (bits_ops.Sub x y).
Proof.
  intros Hw [Hbx _] Hy. unfold Sub. cbn [BitCount IntervalSet.Precise].
  rewrite Hbx. rewrite PerformBinOp_single; [reflexivity|exact Hw|].
  cbn [result Sub_calc bits_ops.Sub bit_count]. exact Hbx.
Qed.

Lemma Sub_on_singletons_witness :
  0 <= 8 /\ has_width 8 (UBits 3 8) /\ has_width 8 (UBits 5 8)
  /\ Sub (IntervalSet.Precise (UBits 3 8)) (IntervalSet.Precise (UBits 5 8))
     = if value (UBits 3 8) <? value (UBits 5 8) then IntervalSet.Maximal 8
       else IntervalSet.Precise (bits_ops.Sub (UBits 3 8) (UBits 5 8)).
Proof.
  assert (H1 : has_width 8 (UBits 3 8)) by closed_arith.
  assert (H2 : has_width 8 (UBits 5 8)) by closed_arith.
  split; [lia|]. split; [exact H1|]. split; [exact H2|].
  apply (Sub_on_singletons 8 (UBits 3 8) (UBits 5 8)); [lia|exact H1|exact H2].
Defined.

(** X23: [UMul] on two single values is the single value of the product
    when the product fits in the output width, and the maximal set when it
    does not. *)
Theorem UMul_on_singletons (wa wb output_bitwidth : Z) (x y : Bits) :
  0 <= output_bitwidth -> has_width wa x -> has_width wb y ->
  UMul (IntervalSet.Precise x) (IntervalSet.Precise y) output_bitwidth
  = if 2 ^ output_bitwidth <=? value x * value y
    then IntervalSet.Maximal output_bitwidth
    else IntervalSet.Precise (mkBits output_bitwidth (value x * value y)).
Proof.
  intros Hw Hx Hy. pose proof (pow2_pos output_bitwidth Hw) as HM.
  destruct (UMul_calc_bits wa wb output_bitwidth x y Hw Hx Hy) as (Er & E1 & _).
  unfold UMul. rewrite PerformBinOp_single; [|exact Hw|now rewrite Er].
  rewrite E1, Er.
  destruct (Z.leb_spec (2 ^ output_bitwidth) (value x * value y)); [reflexivity|].
  destruct Hx as [_ Hx], Hy as [_ Hy].
  rewrite Z.mod_small by nia. reflexivity.
Qed.

Lemma UMul_on_singletons_witness :
  0 <= 6 /\ has_width 4 (UBits 7 4) /\ has_width 4 (UBits 9 4)
  /\ UMul (IntervalSet.Precise (UBits 7 4)) (IntervalSet.Precise (UBits 9 4)) 6
     = if 2 ^ 6 <=? value (UBits 7 4) * value (UBits 9 4)
       then IntervalSet.Maximal 6
       else IntervalSet.Precise (mkBits 6 (value (UBits 7 4) * value (UBits 9 4))).
Proof.
  assert (H1 : has_width 4 (UBits 7 4)) by closed_arith.
  assert (H2 : has_width 4 (UBits 9 4)) by closed_arith.
  split; [lia|]. split; [exact H1|]. split; [exact H2|].
  apply (UMul_on_singletons 4 4 6 (UBits 7 4) (UBits 9 4)); [lia|exact H1|exact H2].
Defined.

(** X24: the reductions are exact on a single value: [AndReduce],
    [OrReduce] and [XorReduce] of a single value are the single bit of the
    concrete reduction. *)
Theorem reductions_on_singletons (x : Bits) :
  AndReduce (IntervalSet.Precise x) = IntervalSet.Precise (bits_ops.AndReduce x)
  /\ OrReduce (IntervalSet.Precise x) = IntervalSet.Precise (bits_ops.OrReduce x)
  /\ XorReduce (IntervalSet.Precise x) = IntervalSet.Precise (bits_ops.XorReduce x).
Proof.
  assert (Hp : IntervalSet.IsPrecise (IntervalSet.Precise x) = true).
  { unfold IntervalSet.IsPrecise, Interval.IsPrecise, bits_ops.UEqual. cbn. apply Z.eqb_refl. }
  split; [|split].
  - unfold AndReduce, IntervalSet.CoversMax. rewrite Precise_covers, Hp.
    unfold bits_ops.AndReduce. cbn [AllOnes value BitCount IntervalSet.Precise].
    rewrite Z.eqb_sym.
    destruct (value x =? 2 ^ bit_count x - 1); reflexivity.
  - unfold OrReduce, IntervalSet.CoversZero. rewrite Precise_covers, Hp.
    unfold bits_ops.OrReduce. cbn [Bits_zero value]. rewrite Z.eqb_sym.
    destruct (value x =? 0); reflexivity.
  - unfold XorReduce. cbn [IntervalSet.Precise Intervals forallb].
    unfold Interval.IsPrecise, Interval.Precise, bits_ops.UEqual.
    cbn [LowerBound UpperBound]. rewrite Z.eqb_refl. cbn [negb].
    destruct (one_bit_bits _ (XorReduce_one_bit x)) as [E|E]; rewrite E; reflexivity.
Qed.

(** X25: [Eq] and [Ne] are exact on single values: they return the single
    bit of the concrete comparison, and [Ne] does so whatever the budget. *)
Theorem Eq_Ne_on_singletons (x y : Bits) (max_interval_bits : Z) :
  Eq (IntervalSet.Precise x) (IntervalSet.Precise y)
  = IntervalSet.Precise (bool_bits (bits_ops.UEqual x y))
  /\ Ne (IntervalSet.Precise x) (IntervalSet.Precise y) max_interval_bits
     = Some (IntervalSet.Precise (bool_bits (negb (bits_ops.UEqual x y)))).
Proof.
  assert (Hp : forall z, IntervalSet.IsPrecise (IntervalSet.Precise z) = true).
  { intros z. unfold IntervalSet.IsPrecise, Interval.IsPrecise, bits_ops.UEqual.
    cbn. apply Z.eqb_refl. }
  assert (E : Eq (IntervalSet.Precise x) (IntervalSet.Precise y)
              = TernaryToOneBitRange
                  (if bits_ops.UEqual x y then kKnownOne else kKnownZero)).
  { unfold Eq, IntervalSet.GetPreciseValue. rewrite !Hp. reflexivity. }
  split.
  - rewrite E. destruct (bits_ops.UEqual x y); reflexivity.
  - unfold Ne. rewrite E. destruct (bits_ops.UEqual x y); reflexivity.
Qed.

(** X26: [OneHot] is exact on a single value, in both directions and
    whatever the budget: it returns the single value of the concrete
    one-hot encoding. *)
Theorem OneHot_on_singletons (x : Bits) (lsb_or_msb : LsbOrMsb) (max_interval_bits : Z) :
  0 <= bit_count x -> 0 <= value x < 2 ^ bit_count x -> 0 <= max_interval_bits ->
  OneHot (IntervalSet.Precise x) lsb_or_msb max_interval_bits
  = Some (IntervalSet.Precise
            (match lsb_or_msb with
             | kLsb => bits_ops.OneHotLsbToMsb x
             | kMsb => bits_ops.OneHotMsbToLsb x
             end)).
Proof. apply OneHot_single. Qed.

Lemma OneHot_on_singletons_witness :
  0 <= bit_count (UBits 12 4) /\ 0 <= value (UBits 12 4) < 2 ^ bit_count (UBits 12 4)
  /\ 0 <= 0
  /\ OneHot (IntervalSet.Precise (UBits 12 4)) kLsb 0
     = Some (IntervalSet.Precise (bits_ops.OneHotLsbToMsb (UBits 12 4))).
Proof.
  assert (H1 : 0 <= bit_count (UBits 12 4)) by closed_arith.
  assert (H2 : 0 <= value (UBits 12 4) < 2 ^ bit_count (UBits 12 4)) by closed_arith.
  split; [exact H1|]. split; [exact H2|]. split; [lia|].
  apply (OneHot_on_singletons (UBits 12 4) kLsb 0 H1 H2). lia.
Defined.

(** X27: the bitwise operations are exact on single values, whatever the
    budget: [Not], [And], [Or] and [Xor] of single values of one width are
    the single value of the concrete operation. *)
Theorem bitwise_on_singletons (w max_interval_bits : Z) (x y : Bits) :
  0 <= w -> 0 <= max_interval_bits -> has_width w x -> has_width w y ->
  Not (IntervalSet.Precise x) max_interval_bits
  = Some (IntervalSet.Precise (bits_ops.Not x))
  /\ And (IntervalSet.Precise x) (IntervalSet.Precise y) max_interval_bits
     = Some (IntervalSet.Precise (bits_ops.And x y))
  /\ Or (IntervalSet.Precise x) (IntervalSet.Precise y) max_interval_bits
     = Some (IntervalSet.Precise (bits_ops.Or x y))
  /\ Xor (IntervalSet.Precise x) (IntervalSet.Precise y) max_interval_bits
     = Some (IntervalSet.Precise (bits_ops.Xor x y)).
Proof.
  intros Hw Hm Hx Hy. destruct (Z.eq_dec w 1) as [->|Hne].
  - destruct (one_bit_bits x Hx) as [-> | ->]; destruct (one_bit_bits y Hy) as [-> | ->];
      repeat split; reflexivity.
  - assert (Hbx : bit_count x = w) by apply Hx.
    split; [now apply (Not_single_wide x w)|].
    unfold And, Or, Xor, bits_ops.And, bits_ops.Or, bits_ops.Xor. rewrite Hbx.
    split; [|split].
    + apply (bitwise_binary_single TernaryEvaluator.And andb Z.land); auto using And_tracks.
      * intros p q Hp Hq. apply Z.land_nonneg. auto.
      * intros p q i Hi. apply Z.land_spec.
      * intros [] [] Hp Hq; try discriminate; reflexivity.
    + apply (bitwise_binary_single TernaryEvaluator.Or orb Z.lor); auto using Or_tracks.
      * intros p q Hp Hq. apply Z.lor_nonneg. auto.
      * intros p q i Hi. apply Z.lor_spec.
      * intros [] [] Hp Hq; try discriminate; reflexivity.
    + apply (bitwise_binary_single TernaryEvaluator.Xor xorb Z.lxor); auto using Xor_tracks.
      * intros p q Hp Hq. apply Z.lxor_nonneg. tauto.
      * intros p q i Hi. apply Z.lxor_spec.
      * intros [] [] Hp Hq; try discriminate; reflexivity.
Qed.

Lemma bitwise_on_singletons_witness :
  0 <= 4 /\ 0 <= 0 /\ has_width 4 (UBits 12 4) /\ has_width 4 (UBits 10 4)
  /\ Xor (IntervalSet.Precise (UBits 12 4)) (IntervalSet.Precise (UBits 10 4)) 0
     = Some (IntervalSet.Precise (bits_ops.Xor (UBits 12 4) (UBits 10 4))).
Proof.
  assert (H1 : has_width 4 (UBits 12 4)) by closed_arith.
  assert (H2 : has_width 4 (UBits 10 4)) by closed_arith.
  split; [lia|]. split; [lia|]. split; [exact H1|]. split; [exact H2|].
  apply (bitwise_on_singletons 4 0 (UBits 12 4) (UBits 10 4)); [lia|lia|exact H1|exact H2].
Defined.

(** X28: [SLt] and [SGt] on two single values.  When both values have the
    same sign bit the comparison is the unsigned one on the hulls: decided
    when the values differ, unknown when they are equal.  When the sign
    bits differ, the bias addition wraps around for the negative value,
    [Add] returns the maximal set for it, and the comparison is unknown. *)
Theorem signed_comparisons_on_singletons (w : Z) (x y : Bits) :
  1 <= w -> has_width w x -> has_width w y ->
  SLt (IntervalSet.Precise x) (IntervalSet.Precise y)
  = Some (TernaryToOneBitRange
            (if Bool.eqb (value x <? 2 ^ (w - 1)) (value y <? 2 ^ (w - 1))
             then if value x <? value y then kKnownOne
                  else if value y <? value x then kKnownZero else kUnknown
             else kUnknown))
  /\ SGt (IntervalSet.Precise x) (IntervalSet.Precise y)
     = Some (TernaryToOneBitRange
               (if Bool.eqb (value x <? 2 ^ (w - 1)) (value y <? 2 ^ (w - 1))
                then if value y <? value x then kKnownOne
                     else if value x <? value y then kKnownZero else kUnknown
                else kUnknown)).
Proof.
  intros Hw Hx Hy.
  destruct (Bool.eqb (value x <? 2 ^ (w - 1)) (value y <? 2 ^ (w - 1))) eqn:Hs.
  - destruct (ULt_UGt_decided (IntervalSet.Precise x) (IntervalSet.Precise y)
                (mkInterval x x) (mkInterval y y)
                (Precise_normalized x) (Precise_normalized y) eq_refl eq_refl)
      as [H1 H2].
    cbn [LowerBound UpperBound] in H1, H2.
    unfold SLt, SGt. rewrite !Precise_normalized. cbn [check bind].
    rewrite (same_sign_class_single w x y Hw Hx Hy), Hs. cbn [bind].
    split; assumption.
  - apply (signed_across_classes w); auto. intros E. rewrite E in Hs.
    now rewrite eqb_reflx in Hs.
Qed.

Lemma signed_comparisons_on_singletons_witness :
  1 <= 8 /\ has_width 8 (UBits 255 8) /\ has_width 8 (UBits 1 8)
  /\ SLt (IntervalSet.Precise (UBits 255 8)) (IntervalSet.Precise (UBits 1 8))
     = Some (TernaryToOneBitRange
               (if Bool.eqb (value (UBits 255 8) <? 2 ^ (8 - 1))
                            (value (UBits 1 8) <? 2 ^ (8 - 1))
                then if value (UBits 255 8) <? value (UBits 1 8) then kKnownOne
                     else if value (UBits 1 8) <? value (UBits 255 8) then kKnownZero
                     else kUnknown
                else kUnknown)).
Proof.
  assert (H1 : has_width 8 (UBits 255 8)) by closed_arith.
  assert (H2 : has_width 8 (UBits 1 8)) by closed_arith.
  split; [lia|]. split; [exact H1|]. split; [exact H2|].
  apply (signed_comparisons_on_singletons 8 (UBits 255 8) (UBits 1 8)); [lia|exact H1|exact H2].
Defined.
